(** * Analytique: SQL access-control and validation core

    A shallow embedding of the agent package ([validation.ts], [tools.ts],
    [analyst.ts]) and of the web library [table-permissions.ts], with the
    two places of the web application that connect them (the permissions a
    chat request carries and the analysts the chat route keeps), followed by
    the properties that were checked against it: those of the
    specification, and further properties of the code.

    Conventions of the embedding.
    - A JavaScript string is the list of its UTF-16 code units ([str]); a
      code unit is a number ([char]).  White space is the class of
      ECMAScript, inside ASCII and outside of it.
    - [toUpperCase] and [toLowerCase] are the case conversions of Unicode.
      Inside ASCII they are written out.  Outside of ASCII the tables of the
      Unicode Character Database are parameters of the model
      ([CaseMappings]), of which only a few facts are assumed; the
      properties below are proved whatever the tables are, and the examples
      are run with the tables of [Examples].
    - A regular expression literal of the source is a value of [Regex.regex];
      it is run by a backtracking matcher that follows the ECMAScript
      matching rules (greedy quantifiers, leftmost alternative first).
    - Asynchronous functions that throw, log or call the database run in the
      monad [Eff.M]: exceptions carry the message of the thrown [Error], the
      state holds the database back end and the trace of observable effects.
    - The numbers of a configuration are integers that a double holds
      exactly ([safe_integer]); where a property depends on how a number is
      printed, it says so. *)

From Stdlib Require Import Ascii String List ZArith NArith Bool Arith Lia ZifyBool.
From Stdlib Require Import DecimalString.
From Stdlib.Strings Require Import Byte.
From stdpp Require gmap.
Import ListNotations.
Open Scope list_scope.

Set Implicit Arguments.

(* ================================================================== *)
(** ** JavaScript strings *)
(* ================================================================== *)

Module JS.

(** A UTF-16 code unit, and a string. *)
Abbreviation char := N (only parsing).
Definition str := list char.

(** Character literals: a one-character ASCII text read as its code. *)
Definition char_of_bytes (bs : list Byte.byte) : option N :=
  match bs with
  | [b] => Some (Byte.to_N b)
  | _ => None
  end.
Definition bytes_of_char (c : N) : option (list Byte.byte) := None.

Declare Scope unit_scope.
Delimit Scope unit_scope with u.
String Notation N char_of_bytes bytes_of_char : unit_scope.

(** A string literal of the source; the literals of the source are ASCII. *)
Definition js (s : string) : str := map N_of_ascii (list_ascii_of_string s).

Definition is_upper (c : char) : bool := ((65 <=? c) && (c <=? 90))%N.
Definition is_lower (c : char) : bool := ((97 <=? c) && (c <=? 122))%N.
Definition is_digit (c : char) : bool := ((48 <=? c) && (c <=? 57))%N.
Definition is_ascii (c : char) : bool := (c <? 128)%N.

(** White space and line terminators, as [String.prototype.trim] and the
    class [\s] see them: TAB, LF, VT, FF, CR and SPACE; the no-break space
    U+00A0; the space separators U+1680, U+2000 to U+200A, U+202F, U+205F
    and U+3000; the line and paragraph separators U+2028 and U+2029; and the
    byte order mark U+FEFF. *)
Definition is_space (c : char) : bool :=
  (((9 <=? c) && (c <=? 13)) || (c =? 32) || (c =? 160) || (c =? 5760) ||
   ((8192 <=? c) && (c <=? 8202)) || (c =? 8232) || (c =? 8233) ||
   (c =? 8239) || (c =? 8287) || (c =? 12288) || (c =? 65279))%N.

(** [\w]: letters, digits and the underscore, of ASCII. *)
Definition is_word (c : char) : bool :=
  is_upper c || is_lower c || is_digit c || N.eqb c "_"%u.

(** The other case of an ASCII letter; every other code unit is left. *)
Definition upper_char (c : char) : char :=
  if is_lower c then (c - 32)%N else c.
Definition lower_char (c : char) : char :=
  if is_upper c then (c + 32)%N else c.

Arguments upper_char c%_u.
Arguments lower_char c%_u.

(** Surrogates: a high one followed by a low one is one character outside
    the basic plane. *)
Definition is_high (c : char) : bool := ((55296 <=? c) && (c <=? 56319))%N.
Definition is_low (c : char) : bool := ((56320 <=? c) && (c <=? 57343))%N.

(** What an upper-case mapping is made of: upper-case letters of ASCII, and
    characters outside ASCII that are not white space. *)
Definition cased_up (d : char) : bool :=
  is_upper d || (negb (is_ascii d) && negb (is_space d)).

(** The case mappings of Unicode outside ASCII, as the engine holds them.
    [upper_unit c] is the upper-case mapping of the character [c] of the
    basic plane (a surrogate on its own included), [upper_pair h l] that of
    the character the surrogates [h] and [l] encode; both are the code units
    of the result, which may be longer than the character.  [lower_text s]
    is the lower-case conversion of a text that holds a character outside
    ASCII; it is taken as a whole because the mapping of a capital sigma
    depends on what stands around it.

    What is assumed of the tables: white space has no case; the upper-case
    mapping of any other character is not empty and holds neither white
    space nor any ASCII character but upper-case letters. *)
Class CaseMappings : Type := {
  upper_unit : char -> str;
  upper_pair : char -> char -> str;
  lower_text : str -> str;
  upper_unit_space : forall c, is_space c = true -> upper_unit c = [c];
  upper_unit_cased : forall c,
    is_ascii c = false -> is_space c = false ->
    upper_unit c <> [] /\ forallb cased_up (upper_unit c) = true;
  upper_pair_cased : forall h l,
    is_high h = true -> is_low l = true ->
    upper_pair h l <> [] /\ forallb cased_up (upper_pair h l) = true
}.

Section CaseConversion.

Context {unicode : CaseMappings}.

(** [s.toUpperCase()]: the text is read character by character, a surrogate
    pair as one character, and each character gives its upper-case mapping. *)
Fixpoint toUpperCase (s : str) : str :=
  match s with
  | [] => []
  | c :: s' =>
      if is_ascii c then upper_char c :: toUpperCase s'
      else
        match s' with
        | l :: s'' =>
            if is_high c && is_low l then upper_pair c l ++ toUpperCase s''
            else upper_unit c ++ toUpperCase s'
        | [] => upper_unit c
        end
  end.

(** [s.toLowerCase()] *)
Definition toLowerCase (s : str) : str :=
  if forallb is_ascii s then map lower_char s else lower_text s.

End CaseConversion.

Fixpoint str_eqb (a b : str) : bool :=
  match a, b with
  | [], [] => true
  | x :: a', y :: b' => N.eqb x y && str_eqb a' b'
  | _, _ => false
  end.

Fixpoint trimStart (s : str) : str :=
  match s with
  | c :: s' => if is_space c then trimStart s' else s
  | [] => []
  end.
Definition trimEnd (s : str) : str := rev (trimStart (rev s)).
Definition trim (s : str) : str := trimEnd (trimStart s).

Fixpoint startsWith (s p : str) {struct p} : bool :=
  match p, s with
  | [], _ => true
  | x :: p', y :: s' => N.eqb x y && startsWith s' p'
  | _ :: _, [] => false
  end.
Definition endsWith (s p : str) : bool := startsWith (rev s) (rev p).

(** [s.indexOf(p)]: the first index at which [p] occurs, or [-1]. *)
Fixpoint indexOf_from (i : Z) (s p : str) : Z :=
  if startsWith s p then i
  else match s with
       | [] => (-1)%Z
       | _ :: s' => indexOf_from (i + 1)%Z s' p
       end.
Definition indexOf (s p : str) : Z := indexOf_from 0%Z s p.

(** [s.includes(p)] *)
Fixpoint includes (s p : str) : bool :=
  startsWith s p ||
  match s with
  | [] => false
  | _ :: s' => includes s' p
  end.

Definition strlen (s : str) : Z := Z.of_nat (length s).

(** [xs.includes(x)] on an array of strings. *)
Definition arr_includes (xs : list str) (x : str) : bool := existsb (str_eqb x) xs.

(** [xs.join(sep)] *)
Fixpoint join (sep : str) (xs : list str) : str :=
  match xs with
  | [] => []
  | [x] => x
  | x :: rest => x ++ sep ++ join sep rest
  end.

(** [s.split(c)] for a one-character separator: the pieces, kept as the
    current piece [cur] and the pieces after it. *)
Fixpoint split_char (c : char) (s : str) : str * list str :=
  match s with
  | [] => ([], [])
  | x :: s' =>
      let '(cur, rest) := split_char c s' in
      if N.eqb x c then ([], cur :: rest) else (x :: cur, rest)
  end.
Definition split (c : char) (s : str) : list str :=
  let '(cur, rest) := split_char c s in cur :: rest.
Arguments split_char c%_u s.
Arguments split c%_u s.

(** [xs.pop()] read as a value: the last element, if any. *)
Definition pop (xs : list str) : option str :=
  match rev xs with
  | [] => None
  | x :: _ => Some x
  end.

(** [s.slice(0, -1)] *)
Definition slice_0_m1 (s : str) : str := removelast s.

(** An integer that a double holds exactly, between the least and the
    greatest safe integer. *)
Definition safe_integer (z : Z) : bool :=
  ((-9007199254740991 <=? z) && (z <=? 9007199254740991))%Z.

(** The decimal text of a number, as a template literal prints it: for a
    safe integer, all its digits, with a minus sign before them when it is
    negative. *)
Definition show_Z (z : Z) : str := js (NilZero.string_of_int (Z.to_int z)).

(** [o ?? d] *)
Definition nullish {A : Type} (o : option A) (d : A) : A :=
  match o with Some a => a | None => d end.

End JS.
Export JS.

(* ================================================================== *)
(** ** Regular expressions *)
(* ================================================================== *)

Module Regex.

(** The fragment of the ECMAScript pattern language the source uses. *)
Inductive regex : Type :=
| Eps                                   (* the empty pattern *)
| Chr (p : char -> bool)               (* a literal or a class *)
| Seq (r1 r2 : regex)                   (* r1r2 *)
| Alt (r1 r2 : regex)                   (* r1|r2 *)
| Star (r : regex)                      (* r*, greedy *)
| Bol                                   (* ^ *)
| Eol                                   (* $ *)
| WordB                                 (* \b *)
| Group (n : nat) (r : regex).          (* the n-th capturing group *)

(** A position in the subject string: the characters before it (nearest
    first), the characters after it, and the captures recorded so far. *)
Record mstate : Type := MState {
  before : list char;
  after : list char;
  caps : list (nat * str)
}.

Definition advance (c : char) (rest : list char) (s : mstate) : mstate :=
  {| before := c :: before s; after := rest; caps := caps s |}.
Arguments advance c%_u rest s.

Definition at_word_boundary (s : mstate) : bool :=
  let a := match before s with c :: _ => is_word c | [] => false end in
  let b := match after s with c :: _ => is_word c | [] => false end in
  xorb a b.

(** What was consumed between two positions of the same subject. *)
Definition consumed (s s' : mstate) : str :=
  firstn (length (after s) - length (after s')) (after s).

Definition set_cap (n : nat) (v : str) (s : mstate) : mstate :=
  {| before := before s; after := after s; caps := (n, v) :: caps s |}.

Fixpoint get_cap (n : nat) (cs : list (nat * str)) : option str :=
  match cs with
  | [] => None
  | (m, v) :: cs' => if Nat.eqb m n then Some v else get_cap n cs'
  end.

Definition cont := mstate -> option mstate.

(** The loop of a greedy star: one more iteration first, the rest of the
    pattern otherwise.  An iteration that consumes nothing is refused, as the
    RepeatMatcher of ECMAScript does; [fuel] bounds the number of iterations
    by the number of characters left. *)
Fixpoint star_loop (m : cont -> cont) (k : cont) (fuel : nat) (s0 : mstate)
  : option mstate :=
  match fuel with
  | O => k s0
  | S f =>
      match m (fun s1 =>
                 if length (after s1) <? length (after s0)
                 then star_loop m k f s1 else None) s0 with
      | Some x => Some x
      | None => k s0
      end
  end.

(** The backtracking matcher, in continuation-passing style: [rmatch r k s]
    matches [r] at [s] and hands the position reached to [k]; when [k]
    fails, the next way of matching [r] is tried. *)
Fixpoint rmatch (r : regex) (k : cont) (s : mstate) {struct r} : option mstate :=
  match r with
  | Eps => k s
  | Chr p =>
      match after s with
      | c :: rest => if p c then k (advance c rest s) else None
      | [] => None
      end
  | Seq r1 r2 => rmatch r1 (rmatch r2 k) s
  | Alt r1 r2 =>
      match rmatch r1 k s with
      | Some x => Some x
      | None => rmatch r2 k s
      end
  | Star r1 => star_loop (rmatch r1) k (length (after s)) s
  | Bol => match before s with [] => k s | _ :: _ => None end
  | Eol => match after s with [] => k s | _ :: _ => None end
  | WordB => if at_word_boundary s then k s else None
  | Group n r1 => rmatch r1 (fun s' => k (set_cap n (consumed s s') s')) s
  end.

(** The first match that starts at or after the current position: the
    search of [RegExp.prototype.exec], which tries every start index in
    turn.  The result is the position at the end of the match. *)
Fixpoint search_from (r : regex) (bef aft : list char) : option mstate :=
  match rmatch r Some {| before := bef; after := aft; caps := [] |} with
  | Some m => Some m
  | None =>
      match aft with
      | [] => None
      | c :: aft' => search_from r (c :: bef) aft'
      end
  end.

(** [r.test(s)] for a regular expression without the [g] flag. *)
Definition test (r : regex) (s : str) : bool :=
  match search_from r [] s with Some _ => true | None => false end.

(** Derived forms. *)
Definition Plus (r : regex) : regex := Seq r (Star r).
Definition Opt (r : regex) : regex := Alt r Eps.

(** A literal character, and the same under the [i] flag: two characters
    match when their canonical forms agree.  Without the [u] flag the
    canonical form of a character outside ASCII is never an ASCII character,
    so for the ASCII literals and classes of the source it is enough to
    fold the letters of ASCII. *)
Definition chr (c : char) : regex := Chr (N.eqb c).
Definition chr_i (c : char) : regex :=
  Chr (fun x => N.eqb (upper_char x) (upper_char c)).
Arguments chr c%_u.
Arguments chr_i c%_u.

(** A literal word under the [i] flag. *)
Fixpoint lit_i (w : str) : regex :=
  match w with
  | [] => Eps
  | c :: w' => Seq (chr_i c) (lit_i w')
  end.

(** Character classes under the [i] flag: a character belongs to the class
    when it or its other-case form does. *)
Definition class_i (p : char -> bool) : regex :=
  Chr (fun x => p x || p (lower_char x) || p (upper_char x)).

(** [\s] *)
Definition space : regex := Chr is_space.

End Regex.

(* ================================================================== *)
(** ** validation.ts *)
(* ================================================================== *)

Module Validation.
Import Regex.

Record SQLValidationResult : Type := {
  valid : bool;
  error : option str;
  warnings : option (list str)
}.

Definition BLOCKED_KEYWORDS : list str :=
  map js ["INSERT"; "UPDATE"; "DELETE"; "DROP"; "CREATE"; "ALTER";
          "TRUNCATE"; "GRANT"; "REVOKE"; "EXECUTE"; "EXEC"; "CALL"]%string.

Definition WARNING_KEYWORDS : list str :=
  map js ["TRUNCATE"; "CASCADE"; "FORCE"]%string.

(** The pattern built for one keyword: start of text, or a semicolon and
    any white space, in a capturing group; then the keyword, then a word
    boundary; under the [i] flag. *)
Definition blocked_pattern (keyword : str) : regex :=
  Seq (Group 1 (Alt Bol (Seq (chr ";") (Star space))))
      (Seq (lit_i keyword) WordB).

Definition blocked_error (keyword : str) : str :=
  js "SQL contains blocked keyword: " ++ keyword ++
  js ". Only SELECT queries are allowed.".

Definition multiple_error : str := js "Multiple SQL statements are not allowed".
Definition start_error : str := js "Query must start with SELECT or WITH (CTE)".

Definition push_if (b : bool) (w : str) (ws : list str) : list str :=
  if b then ws ++ [w] else ws.

Section WithUnicode.

Context {unicode : CaseMappings}.

Definition validateSQL (sql : str) : SQLValidationResult :=
  let normalizedSQL := trim (toUpperCase sql) in
  match find (fun keyword => test (blocked_pattern keyword) normalizedSQL)
             BLOCKED_KEYWORDS with
  | Some keyword =>
      {| valid := false; error := Some (blocked_error keyword); warnings := None |}
  | None =>
      let warnings0 :=
        push_if (includes normalizedSQL (js "--") &&
                 (0 <? indexOf normalizedSQL (js "--"))%Z)
          (js "SQL contains comment syntax which may indicate injection attempt")
          [] in
      if includes normalizedSQL (js ";") &&
         (indexOf normalizedSQL (js ";") <? strlen normalizedSQL - 1)%Z
      then {| valid := false; error := Some multiple_error; warnings := None |}
      else if negb (startsWith normalizedSQL (js "SELECT")) &&
              negb (startsWith normalizedSQL (js "WITH"))
      then {| valid := false; error := Some start_error; warnings := None |}
      else
        let warnings1 :=
          fold_left
            (fun ws keyword =>
               push_if (includes normalizedSQL keyword)
                 (js "Query contains '" ++ keyword ++
                  js "' which may indicate risky operation") ws)
            WARNING_KEYWORDS warnings0 in
        let warnings2 :=
          push_if (negb (includes normalizedSQL (js "LIMIT")) &&
                   negb (includes normalizedSQL (js "TOP")))
            (js "Query has no LIMIT clause. Consider adding one for large tables.")
            warnings1 in
        let warnings3 :=
          push_if (includes normalizedSQL (js "SELECT *"))
            (js "Using SELECT * may return more data than needed") warnings2 in
        {| valid := true; error := None;
           warnings := match warnings3 with [] => None | _ => Some warnings3 end |}
  end.

End WithUnicode.

(** The loop of [sanitizeSQL]: drop one trailing semicolon and trim, while
    the text ends with a semicolon.  Every round shortens the text, so
    [length s] rounds are enough. *)
Fixpoint sanitize_loop (fuel : nat) (sanitized : str) : str :=
  match fuel with
  | O => sanitized
  | S f =>
      if endsWith sanitized (js ";")
      then sanitize_loop f (trim (slice_0_m1 sanitized))
      else sanitized
  end.

Definition sanitizeSQL (sql : str) : str :=
  let sanitized := trim sql in
  sanitize_loop (length sanitized) sanitized.

Definition addDefaultLimit {unicode : CaseMappings} (sql : str) (limit : Z) : str :=
  let upperSQL := toUpperCase sql in
  if negb (includes upperSQL (js "LIMIT"))
  then sql ++ js " LIMIT " ++ show_Z limit
  else sql.

End Validation.

(* ================================================================== *)
(** ** Values, effects and the database back end *)
(* ================================================================== *)

Inductive AccessLevel : Type := full | read | none.

Definition AccessLevel_eqb (a b : AccessLevel) : bool :=
  match a, b with
  | full, full | read, read | none, none => true
  | _, _ => false
  end.

Module Value.

(** A dynamically typed value: what a cast [x as string] of the source may
    really hold.  Numbers are integers; objects and arrays are opaque. *)
Inductive jsval : Type :=
| JUndefined
| JNull
| JBool (b : bool)
| JNum (n : Z)
| JStr (s : str)
| JObject.

(** A record of the source ([Record<string, unknown>]): its own keys in
    insertion order. *)
Definition row := list (str * jsval).

Fixpoint field (r : row) (key : str) : jsval :=
  match r with
  | [] => JUndefined
  | (k, v) :: r' => if str_eqb k key then v else field r' key
  end.

(** [Object.keys(r)] *)
Definition keys (r : row) : list str := map fst r.

Definition truthy (v : jsval) : bool :=
  match v with
  | JUndefined | JNull => false
  | JBool b => b
  | JNum n => negb (n =? 0)%Z
  | JStr s => match s with [] => false | _ :: _ => true end
  | JObject => true
  end.

(** [a === b]; two opaque objects are never the same object. *)
Definition strict_eqb (a b : jsval) : bool :=
  match a, b with
  | JUndefined, JUndefined | JNull, JNull => true
  | JBool x, JBool y => Bool.eqb x y
  | JNum x, JNum y => (x =? y)%Z
  | JStr x, JStr y => str_eqb x y
  | _, _ => false
  end.

(** The text a template literal prints for a value. *)
Definition show (v : jsval) : str :=
  match v with
  | JUndefined => js "undefined"
  | JNull => js "null"
  | JBool true => js "true"
  | JBool false => js "false"
  | JNum n => show_Z n
  | JStr s => s
  | JObject => js "[object Object]"
  end.

(** [a || b] *)
Definition or_else (a b : jsval) : jsval := if truthy a then a else b.

End Value.
Export Value.

Module Eff.

(** The observable effects the properties speak about. *)
Inductive event : Type :=
| PermissionCheck (tableName : str) (level : AccessLevel)
    (* the permission check of [canAccessTable], as it logs it *)
| Rpc (query_text : str).
    (* a query sent to the database through [execute_readonly_query] *)

(** What the remote procedure answers: [data] and [error]; the time the
    answer took, in milliseconds of [Date.now()]; and, for a timer that was
    set when the query was sent, whether the timer fires before the answer
    settles, by the delay the timer was given.  The last is for the
    scheduler of the engine to decide, and nothing is assumed about it. *)
Inductive rpc_data : Type :=
| DataArray (rows : list row)
| DataObject (r : row)
| DataNone.

Record rpc_response : Type := {
  rpc_data_of : rpc_data;
  rpc_error : option str;
  rpc_elapsed : Z;
  rpc_timer_first : Z -> bool
}.

(** How a computation ends. *)
Inductive result (A : Type) : Type :=
| Ok (a : A)
| Throw (message : str)      (* [throw new Error(message)] *)
| Hang.                      (* a loop that never ends *)
Arguments Ok {A} a.
Arguments Throw {A} message.
Arguments Hang {A}.

Section WithBackend.

(** The state of the database back end, and the remote procedure
    [execute_readonly_query]. *)
Variable B : Type.
Variable rpc : str -> B -> rpc_response * B.

Record world : Type := World {
  backend : B;
  clock : Z;                 (* [Date.now()] *)
  trace : list event;        (* most recent last *)
  timer_first : Z -> bool    (* [rpc_timer_first] of the last answer *)
}.

Definition M (A : Type) : Type := world -> result A * world.

Definition ret {A} (a : A) : M A := fun w => (Ok a, w).
Definition bind {A C} (m : M A) (f : A -> M C) : M C :=
  fun w =>
    match m w with
    | (Ok a, w') => f a w'
    | (Throw e, w') => (Throw e, w')
    | (Hang, w') => (Hang, w')
    end.
Definition throw {A} (message : str) : M A := fun w => (Throw message, w).
Definition hang {A} : M A := fun w => (Hang, w).

(** [try { m } catch (error) { h(error.message) }] *)
Definition try_catch {A} (m : M A) (h : str -> M A) : M A :=
  fun w =>
    match m w with
    | (Throw e, w') => h e w'
    | other => other
    end.

Definition log (e : event) : M unit :=
  fun w => (Ok tt, {| backend := backend w; clock := clock w;
                      trace := trace w ++ [e]; timer_first := timer_first w |}).

(** [Date.now()] *)
Definition now : M Z := fun w => (Ok (clock w), w).

(** [await supabase.rpc('execute_readonly_query', { query_text })] *)
Definition call_rpc (query_text : str) : M rpc_response :=
  fun w =>
    let '(resp, b') := rpc query_text (backend w) in
    (Ok resp, {| backend := b'; clock := clock w + Z.max 0 (rpc_elapsed resp);
                 trace := trace w ++ [Rpc query_text];
                 timer_first := rpc_timer_first resp |}).

(** [Promise.race([m, timeoutPromise])], for a computation [m] that sends
    one query, the timer having been set with the delay [timeout] just
    before.  The promise that settles first wins: [m], unless the timer
    fires before the answer to its query settles; then the race is lost with
    the timer's error, and the work of [m] is abandoned, not undone. *)
Definition race {A} (m : M A) (timeout : Z) (timeout_message : str) : M A :=
  fun w =>
    let '(r, w') := m w in
    if timer_first w' timeout then (Throw timeout_message, w') else (r, w').

(** [xs.filter(f)] for a callback with effects. *)
Fixpoint filterM {A} (f : A -> M bool) (xs : list A) : M (list A) :=
  match xs with
  | [] => ret []
  | x :: xs' =>
      bind (f x) (fun keep =>
      bind (filterM f xs') (fun rest =>
      ret (if keep then x :: rest else rest)))
  end.

(** A method of [String.prototype] called on [v]: a [TypeError] when [v] is
    not a string. *)
Definition expect_string (v : jsval) : M str :=
  match v with
  | JStr s => ret s
  | _ => throw (js "Cannot read properties of a value that is not a string")
  end.

End WithBackend.

Arguments ret {B A} a.
Arguments throw {B A} message.
Arguments hang {B A}.
Arguments log {B} e.
Arguments now {B}.
Arguments expect_string {B} v.

End Eff.

Declare Scope eff_scope.
Delimit Scope eff_scope with eff.
Notation "x <- m ;; k" := (Eff.bind m (fun x => k))
  (at level 62, m at next level, right associativity) : eff_scope.
Notation "m ;;; k" := (Eff.bind m (fun _ => k))
  (at level 62, right associativity) : eff_scope.

(* ================================================================== *)
(** ** tools.ts: the agent's access-controlled tools *)
(* ================================================================== *)

Module Tools.
Import Regex Validation Eff.
Local Open Scope eff_scope.

(** The double quote character. *)
Definition dq : str := [34%N].

(** [value.replace(/\\/g, '\\\\').replace(/'/g, "''")] *)
Definition escapeSQLString (value : str) : str :=
  let escaped :=
    flat_map (fun c => if N.eqb c "\"%u then ["\"; "\"]%u else [c]) value in
  flat_map (fun c => if N.eqb c "'"%u then ["'"; "'"]%u else [c]) escaped.

Definition is_alpha_ (c : char) : bool := is_lower c || is_upper c || N.eqb c "_"%u.
Definition is_alnum_ (c : char) : bool :=
  is_lower c || is_upper c || is_digit c || N.eqb c "_"%u.

(** The pattern of a safe identifier: a letter or underscore, then letters,
    digits and underscores, from the start of the text to its end. *)
Definition identifier_pattern : regex :=
  Seq Bol (Seq (Chr is_alpha_) (Seq (Star (Chr is_alnum_)) Eol)).

Definition isValidSQLIdentifier (value : jsval) : bool :=
  match value with
  | JStr s =>
      if (length s =? 0) || (128 <? length s) then false
      else test identifier_pattern s
  | _ => false
  end.

Record TablePermission : Type := {
  table : str;
  schema : str;
  accessLevel : AccessLevel;
  blockedColumns : option (list str)
}.

Record TablePermissionsConfig : Type := {
  defaultAccess : AccessLevel;
  tables : list TablePermission
}.

Record SupabaseToolsConfig : Type := {
  queryTimeout : option Z;
  maxRows : option Z;
  permissions : option TablePermissionsConfig
}.

Record ColumnInfo : Type := {
  ci_name : jsval;
  ci_type : jsval;
  ci_nullable : jsval;
  ci_defaultValue : jsval;
  ci_isPrimaryKey : bool;
  ci_isForeignKey : bool;
  ci_references : option (jsval * jsval)      (* table, column *)
}.

Record TableInfo : Type := {
  ti_name : jsval;
  ti_schema : jsval;
  ti_columns : list ColumnInfo
}.

Record QueryResult : Type := {
  qr_data : list row;
  qr_rowCount : Z;
  qr_columns : list str;
  qr_executionTime : Z
}.

Record AccessValidation : Type := {
  allowed : bool;
  blockedTables : list str
}.

(** What [handleToolCall] serialises with [JSON.stringify]; the JSON text is
    represented by the value it encodes. *)
Inductive payload : Type :=
| TablesPayload (tables : list (jsval * Z))   (* name and columnCount *)
| TablePayload (table : TableInfo)
| ResultPayload (result : QueryResult).

Inductive envelope : Type :=
| Success (p : payload)            (* { success: true, ... } *)
| Failure (error : str).           (* { success: false, error } *)

Definition success (e : envelope) : bool :=
  match e with Success _ => true | Failure _ => false end.

(** [[a-z_]] and [[a-z0-9_]] under the [i] flag. *)
Definition ident_start : regex := class_i (fun c => is_lower c || N.eqb c "_"%u).
Definition ident_char : regex :=
  class_i (fun c => is_lower c || is_digit c || N.eqb c "_"%u).
Definition ident : regex := Seq ident_start (Star ident_char).

(** The capturing group of both patterns: an identifier, optionally
    qualified by one more identifier after a dot. *)
Definition table_ref : regex :=
  Group 1 (Seq ident (Opt (Seq (chr_i ".") ident))).

(** The patterns of the FROM and of the JOIN scan: a word boundary, the
    keyword, white space, the table reference; flags [g] and [i]. *)
Definition fromRegex : regex :=
  Seq WordB (Seq (lit_i (js "from")) (Seq (Plus space) table_ref)).
Definition joinRegex : regex :=
  Seq WordB (Seq (lit_i (js "join")) (Seq (Plus space) table_ref)).

Section WithUnicode.

Context {unicode : CaseMappings}.

(** [match[1].split('.').pop()?.toLowerCase()] *)
Definition table_of_match (m : mstate) : option str :=
  match get_cap 1 (caps m) with
  | Some text => option_map toLowerCase (pop (split "." text))
  | None => None
  end.

(** [while ((match = re.exec(sql)) !== null) { ... }] for a pattern with the
    [g] flag: each search starts where the last match ended.  [None] stands
    for a loop that does not end within [fuel] rounds. *)
Fixpoint exec_loop (fuel : nat) (re : regex) (tables : list str)
  (bef aft : list char) : option (list str) :=
  match fuel with
  | O => None
  | S f =>
      match search_from re bef aft with
      | None => Some tables
      | Some m =>
          let tables' :=
            match table_of_match m with
            | Some tableName =>
                if truthy (JStr tableName) && negb (arr_includes tables tableName)
                then tables ++ [tableName] else tables
            | None => tables
            end in
          exec_loop f re tables' (before m) (after m)
      end
  end.

Definition extractTablesFromSQL (sql : str) : option (list str) :=
  match exec_loop (S (length sql)) fromRegex [] [] sql with
  | Some tables => exec_loop (S (length sql)) joinRegex tables [] sql
  | None => None
  end.

Definition validation_failed (error : option str) : str :=
  js "SQL validation failed: " ++
  show (match error with Some e => JStr e | None => JUndefined end).

Definition access_denied_query (blocked : list str) : str :=
  js "ACCESS_DENIED: You don't have permission to query the following table(s): " ++
  join (js ", ") blocked ++
  js ". These tables have been restricted in Security Settings. To access this data, please go to Security Settings to update table permissions, or contact your administrator to request access.".

Definition access_denied_table (safeTableName : str) : str :=
  js "ACCESS_DENIED: You don't have permission to access the table '" ++
  safeTableName ++
  js "'. This table has been restricted in Security Settings. To access this data, please go to Security Settings to update table permissions, or contact your administrator to request access.".

Definition invalid_identifier (identifierType : str) (value : jsval) : str :=
  js "Invalid " ++ identifierType ++ js ": " ++ dq ++ show value ++ dq ++
  js ". Identifiers must contain only letters, numbers, and underscores, and start with a letter or underscore.".

Definition timeout_message (queryTimeout : Z) : str :=
  js "Query timeout after " ++ show_Z queryTimeout ++ js "ms".

Definition public : str := js "public".

Section CreateSupabaseTools.

Variable B : Type.
Variable rpc : str -> B -> rpc_response * B.
Variable config : SupabaseToolsConfig.

Local Abbreviation M := (Eff.M B).

Definition queryTimeout_ : Z := nullish (queryTimeout config) 30000%Z.
Definition maxRows_ : Z := nullish (maxRows config) 1000%Z.
Definition permissions_ : TablePermissionsConfig :=
  nullish (permissions config) {| defaultAccess := read; tables := [] |}.

Definition validateSQLIdentifier (value : jsval) (identifierType : str) : M str :=
  match value with
  | JStr s => if isValidSQLIdentifier value then ret s
              else throw (invalid_identifier identifierType value)
  | _ => throw (invalid_identifier identifierType value)
  end.

Definition getTablePermission (tableName schema : str) : TablePermission :=
  let lowerTableName := toLowerCase tableName in
  let lowerSchema := toLowerCase schema in
  let explicit :=
    find (fun t => str_eqb (toLowerCase (table t)) lowerTableName &&
                   str_eqb (toLowerCase (Tools.schema t)) lowerSchema)
         (tables permissions_) in
  match explicit with
  | Some t => t
  | None => {| table := tableName; schema := schema;
               accessLevel := defaultAccess permissions_;
               blockedColumns := None |}
  end.

Definition canAccessTable (tableName schema : str) : M bool :=
  let perm := getTablePermission tableName schema in
  log (PermissionCheck tableName (accessLevel perm)) ;;;
  ret (negb (AccessLevel_eqb (accessLevel perm) none)).

(** [canAccessTable(t.name as string, t.schema as string)]: the casts are
    unchecked, so a value that is not a string fails in [toLowerCase]; an
    undefined schema takes the default of the parameter. *)
Definition canAccessTable_cast (tableName schema : jsval) : M bool :=
  n <- expect_string tableName ;;
  s <- match schema with
       | JUndefined => ret public
       | v => expect_string v
       end ;;
  canAccessTable n s.

Definition validateTableAccess (sql : str) : M AccessValidation :=
  match extractTablesFromSQL sql with
  | None => hang
  | Some tables =>
      blocked <- filterM (fun t => ok <- canAccessTable t public ;; ret (negb ok))
                         tables ;;
      ret {| allowed := (length blocked =? 0); blockedTables := blocked |}
  end.

Definition runQuery (sql : str) : M (list row) :=
  resp <- call_rpc rpc sql ;;
  match rpc_error resp with
  | Some message => throw (js "Query failed: " ++ message)
  | None =>
      ret (match rpc_data_of resp with
           | DataArray rows => rows
           | DataObject r => [r]
           | DataNone => []
           end)
  end.

Definition listTables (schema : jsval) : M (list TableInfo) :=
  let schema := match schema with JUndefined => JStr public | v => v end in
  safeSchema <- validateSQLIdentifier schema (js "schema name") ;;
  let sql :=
    js "SELECT table_name as name, table_schema as schema FROM information_schema.tables WHERE table_schema = '" ++
    escapeSQLString safeSchema ++
    js "' AND table_type = 'BASE TABLE' ORDER BY table_name" in
  try_catch
    (tables <- runQuery sql ;;
     accessibleTables <-
       filterM (fun t => canAccessTable_cast (field t (js "name"))
                                             (field t (js "schema"))) tables ;;
     ret (map (fun t => {| ti_name := field t (js "name");
                           ti_schema := field t (js "schema");
                           ti_columns := [] |}) accessibleTables))
    (fun _ => ret []).

Definition getTableSchema (tableName schema : jsval) : M TableInfo :=
  let schema := match schema with JUndefined => JStr public | v => v end in
  safeTableName <- validateSQLIdentifier tableName (js "table name") ;;
  safeSchema <- validateSQLIdentifier schema (js "schema name") ;;
  ok <- canAccessTable safeTableName safeSchema ;;
  if negb ok then throw (access_denied_table safeTableName)
  else
    let tablePermission := getTablePermission safeTableName safeSchema in
    let blocked := nullish (blockedColumns tablePermission) [] in
    let escapedTableName := escapeSQLString safeTableName in
    let escapedSchema := escapeSQLString safeSchema in
    let columnsSQL :=
      js "SELECT c.column_name as name, c.data_type as type, (c.is_nullable = 'YES') as nullable, c.column_default as default_value FROM information_schema.columns c WHERE c.table_name = '" ++
      escapedTableName ++ js "' AND c.table_schema = '" ++ escapedSchema ++
      js "' ORDER BY c.ordinal_position" in
    columnsData <- runQuery columnsSQL ;;
    let pkSQL :=
      js "SELECT ccu.column_name FROM information_schema.table_constraints tc JOIN information_schema.constraint_column_usage ccu ON tc.constraint_name = ccu.constraint_name WHERE tc.table_name = '" ++
      escapedTableName ++ js "' AND tc.table_schema = '" ++ escapedSchema ++
      js "' AND tc.constraint_type = 'PRIMARY KEY'" in
    pkData <- runQuery pkSQL ;;
    let pkColumns := map (fun pk => field pk (js "column_name")) pkData in
    let fkSQL :=
      js "SELECT kcu.column_name, ccu.table_name AS foreign_table, ccu.column_name AS foreign_column FROM information_schema.table_constraints AS tc JOIN information_schema.key_column_usage AS kcu ON tc.constraint_name = kcu.constraint_name JOIN information_schema.constraint_column_usage AS ccu ON ccu.constraint_name = tc.constraint_name WHERE tc.constraint_type = 'FOREIGN KEY' AND tc.table_name = '" ++
      escapedTableName ++ js "' AND tc.table_schema = '" ++ escapedSchema ++ js "'" in
    fkData <- runQuery fkSQL ;;
    let columns :=
      map (fun col =>
             let fk := find (fun f => strict_eqb (field f (js "column_name"))
                                                 (field col (js "name"))) fkData in
             {| ci_name := field col (js "name");
                ci_type := field col (js "type");
                ci_nullable := field col (js "nullable");
                ci_defaultValue := field col (js "default_value");
                ci_isPrimaryKey := existsb (strict_eqb (field col (js "name"))) pkColumns;
                ci_isForeignKey := match fk with Some _ => true | None => false end;
                ci_references :=
                  option_map (fun f => (field f (js "foreign_table"),
                                        field f (js "foreign_column"))) fk |})
          (filter (fun col =>
                     negb (existsb (fun b => strict_eqb (JStr b) (field col (js "name")))
                                   blocked))
                  columnsData) in
    ret {| ti_name := JStr safeTableName; ti_schema := JStr safeSchema;
           ti_columns := columns |}.

Definition executeSQL (sql : str) : M QueryResult :=
  let validation := validateSQL sql in
  if negb (valid validation) then throw (validation_failed (error validation))
  else
    accessValidation <- validateTableAccess sql ;;
    if negb (allowed accessValidation)
    then throw (access_denied_query (blockedTables accessValidation))
    else
      let sanitizedSQL := sanitizeSQL sql in
      let limitedSQL := addDefaultLimit sanitizedSQL maxRows_ in
      startTime <- now ;;
      data <- race (runQuery limitedSQL) queryTimeout_ (timeout_message queryTimeout_) ;;
      endTime <- now ;;
      let executionTime := (endTime - startTime)%Z in
      let columns := match data with r :: _ => keys r | [] => [] end in
      ret {| qr_data := data; qr_rowCount := Z.of_nat (length data);
             qr_columns := columns; qr_executionTime := executionTime |}.

Definition handleToolCall (toolName : str) (toolInput : row) : M envelope :=
  try_catch
    (if str_eqb toolName (js "list_tables") then
       let schema := or_else (field toolInput (js "schema")) (JStr public) in
       tables <- listTables schema ;;
       ret (Success (TablesPayload
              (map (fun t => (ti_name t, Z.of_nat (length (ti_columns t)))) tables)))
     else if str_eqb toolName (js "get_table_schema") then
       let tableName := field toolInput (js "table_name") in
       let schema := or_else (field toolInput (js "schema")) (JStr public) in
       tableInfo <- getTableSchema tableName schema ;;
       ret (Success (TablePayload tableInfo))
     else if str_eqb toolName (js "execute_sql") then
       sql <- expect_string (field toolInput (js "sql")) ;;
       result <- executeSQL sql ;;
       ret (Success (ResultPayload result))
     else
       ret (Failure (js "Unknown tool: " ++ toolName)))
    (fun message => ret (Failure message)).

End CreateSupabaseTools.

End WithUnicode.

End Tools.

(* ================================================================== *)
(** ** table-permissions.ts: the web library *)
(* ================================================================== *)

Module Permissions.
Import stdpp.base stdpp.gmap.

Record TablePermission : Type := {
  table : str;
  schema : str;
  accessLevel : AccessLevel;
  allowedColumns : option (list str);
  blockedColumns : option (list str);
  description : option str
}.

Record TablePermissionsConfig : Type := {
  defaultAccess : AccessLevel;
  tables : list TablePermission;
  updatedAt : Z
}.

Definition same_key (tableName schemaName : str) (t : TablePermission) : bool :=
  str_eqb (table t) tableName && str_eqb (schema t) schemaName.

Definition getTableAccess (config : TablePermissionsConfig)
  (tableName schemaName : str) : option TablePermission :=
  let permission := find (same_key tableName schemaName) (tables config) in
  match permission with
  | Some p => Some p
  | None => Some {| table := tableName; schema := schemaName;
                    accessLevel := defaultAccess config;
                    allowedColumns := None; blockedColumns := None;
                    description := None |}
  end.

Definition canAccessTable (config : TablePermissionsConfig)
  (tableName schemaName : str) : bool :=
  match getTableAccess config tableName schemaName with
  | Some permission => negb (AccessLevel_eqb (accessLevel permission) none)
  | None => false
  end.

Definition canAccessColumn (config : TablePermissionsConfig)
  (tableName columnName schemaName : str) : bool :=
  match getTableAccess config tableName schemaName with
  | None => false
  | Some permission =>
      if AccessLevel_eqb (accessLevel permission) none then false
      else if match blockedColumns permission with
              | Some blocked => arr_includes blocked columnName
              | None => false
              end
      then false
      else match allowedColumns permission with
           | Some allowed =>
               if (0 <? length allowed) then arr_includes allowed columnName
               else true
           | None => true
           end
  end.

Definition filterAccessibleTables (config : TablePermissionsConfig)
  (tables : list (str * str)) : list (str * str) :=
  List.filter (fun t => canAccessTable config (fst t) (snd t)) tables.

Definition filterAccessibleColumns (config : TablePermissionsConfig)
  (tableName : str) (columns : list str) (schemaName : str) : list str :=
  List.filter (fun col => canAccessColumn config tableName col schemaName) columns.

(** [xs.findIndex(f)] *)
Fixpoint findIndex_from {A} (i : Z) (f : A -> bool) (xs : list A) : Z :=
  match xs with
  | [] => (-1)%Z
  | x :: xs' => if f x then i else findIndex_from (i + 1)%Z f xs'
  end.
Definition findIndex {A} (f : A -> bool) (xs : list A) : Z := findIndex_from 0%Z f xs.

(** Arrays are objects of the heap: a configuration object refers to its
    array of permissions, and two configurations may share one array.
    [updateTablePermission] is embedded over this heap, so that what it
    writes, and where, is explicit. *)
Abbreviation loc := positive.
Abbreviation heap := (gmap loc (list TablePermission)).

Record ConfigObject : Type := {
  obj_defaultAccess : AccessLevel;
  obj_tables : loc;
  obj_updatedAt : Z
}.

(** The value a configuration object denotes in a heap. *)
Definition read_config (h : heap) (config : ConfigObject) : TablePermissionsConfig :=
  {| defaultAccess := obj_defaultAccess config;
     tables := default [] (h !! obj_tables config);
     updatedAt := obj_updatedAt config |}.

(** [today] is the value of [new Date()]. *)
Definition updateTablePermission (today : Z) (config : ConfigObject)
  (permission : TablePermission) (h : heap) : ConfigObject * heap :=
  let old := default [] (h !! obj_tables config) in
  let existingIndex :=
    findIndex (same_key (table permission) (schema permission)) old in
  (* const newTables = [...config.tables] *)
  let newTables := fresh (dom h) in
  let h1 := <[newTables := old]> h in
  let h2 :=
    if (0 <=? existingIndex)%Z
    then (* newTables[existingIndex] = permission *)
      <[newTables := <[Z.to_nat existingIndex := permission]> old]> h1
    else (* newTables.push(permission) *)
      <[newTables := old ++ [permission]]> h1 in
  ({| obj_defaultAccess := obj_defaultAccess config;
      obj_tables := newTables;
      obj_updatedAt := today |}, h2).

Definition removeTablePermission (today : Z) (config : ConfigObject)
  (tableName schemaName : str) (h : heap) : ConfigObject * heap :=
  let old := default [] (h !! obj_tables config) in
  let filtered := fresh (dom h) in
  ({| obj_defaultAccess := obj_defaultAccess config;
      obj_tables := filtered;
      obj_updatedAt := today |},
   <[filtered := List.filter (fun t => negb (same_key tableName schemaName t)) old]> h).

(** [sql.replace(/\s+/g, ' ')]: every run of white space becomes one
    space; [in_run] tells that the character before was white space. *)
Fixpoint collapse_from (in_run : bool) (s : str) : str :=
  match s with
  | [] => []
  | c :: s' =>
      if is_space c
      then (if in_run then collapse_from true s'
            else " "%u :: collapse_from true s')
      else c :: collapse_from false s'
  end.
Definition collapse_spaces (s : str) : str := collapse_from false s.

(** The second [replace] of the normalisation: the double quote, the
    single quote and the back quote are dropped. *)
Definition drop_quotes (s : str) : str :=
  List.filter (fun c => negb (N.eqb c 34%N || N.eqb c "'"%u ||
                             N.eqb c "`"%u)) s.

(** [for (const match of text.matchAll(re)) { ... }]; [None] stands for a
    loop that does not end within [fuel] rounds. *)
Fixpoint matchAll_loop (fuel : nat) (re : Regex.regex) (tables : list str)
  (bef aft : list char) : option (list str) :=
  match fuel with
  | O => None
  | S f =>
      match Regex.search_from re bef aft with
      | None => Some tables
      | Some m =>
          let tables' :=
            match Regex.get_cap 1 (Regex.caps m) with
            | Some text =>
                match JS.pop (JS.split "."%u text) with
                | Some tableName =>
                    if truthy (JStr tableName) && negb (arr_includes tables tableName)
                    then tables ++ [tableName] else tables
                | None => tables
                end
            | None => tables
            end in
          matchAll_loop f re tables' (Regex.before m) (Regex.after m)
      end
  end.

Section WithUnicode.

Context {unicode : CaseMappings}.

(** The extractor of the web library: it drops the quote characters and
    lower-cases the text before it scans it, with the patterns the agent
    uses. *)
Definition extractTablesFromSQL (sql : str) : option (list str) :=
  let normalizedSQL := toLowerCase (drop_quotes (collapse_spaces sql)) in
  match matchAll_loop (S (length normalizedSQL)) Tools.fromRegex [] [] normalizedSQL with
  | Some tables =>
      matchAll_loop (S (length normalizedSQL)) Tools.joinRegex tables [] normalizedSQL
  | None => None
  end.

Definition validateSQLAccess (config : TablePermissionsConfig) (sql : str)
  : option (bool * list str) :=
  match extractTablesFromSQL sql with
  | Some tables =>
      let blockedTables :=
        List.filter (fun t => negb (canAccessTable config t (js "public"))) tables in
      Some ((length blockedTables =? 0), blockedTables)
  | None => None
  end.

(** The key of an entry, exact and with letter case ignored. *)
Definition key (t : TablePermission) : str * str := (table t, schema t).
Definition key_ci (t : TablePermission) : str * str :=
  (toLowerCase (table t), toLowerCase (schema t)).

Definition SENSITIVE_COLUMN_PATTERNS : list str :=
  List.map js ["password"; "secret"; "token"; "api_key"; "apikey"; "private_key";
               "credit_card"; "ssn"; "social_security"; "bank_account";
               "routing_number"; "pin"; "cvv"; "auth"; "credential"]%string.

Definition isSensitiveColumn (columnName : str) : bool :=
  let lowerName := toLowerCase columnName in
  existsb (fun pattern => includes lowerName pattern) SENSITIVE_COLUMN_PATTERNS.

End WithUnicode.

End Permissions.

(* ================================================================== *)
(** ** analyst.ts: the streaming orchestrator *)
(* ================================================================== *)

Module Analyst.
Import Eff.

Inductive event_type : Type :=
| reasoning | text | sql | tool_call | tool_result | data | chart
| insights | permission_denied | error | done.

Definition event_type_eqb (a b : event_type) : bool :=
  match a, b with
  | reasoning, reasoning | text, text | sql, sql | tool_call, tool_call
  | tool_result, tool_result | data, data | chart, chart
  | insights, insights | permission_denied, permission_denied
  | error, error | done, done => true
  | _, _ => false
  end.

Record InsightsBlock : Type := {
  keyAnswer : str;
  metrics : list (str * str * str)        (* label, value, emphasis *)
}.

Record ChartSuggestion : Type := {
  chart_type : str;
  chart_fields : row                      (* xAxis, yAxis, title, ... *)
}.

Record PermissionDeniedBlock : Type := {
  pd_tables : list str;
  pd_message : str;
  pd_suggestion : str
}.

(** The part of the result of [parseResponse] that [chatStream] reads. *)
Record Parsed : Type := {
  p_insights : option InsightsBlock;
  p_chartSuggestion : option ChartSuggestion;
  p_permissionDenied : option PermissionDeniedBlock
}.

(** The [content] of an event is a string; the JSON text of a tool result
    is represented by the envelope it encodes. *)
Inductive content : Type :=
| Text (s : str)
| Value (v : jsval)
| Json (e : Tools.envelope).

Inductive event_data : Type :=
| InsightsData (i : InsightsBlock)
| ChartData (c : ChartSuggestion)
| DeniedData (d : PermissionDeniedBlock)
| InputData (input : row)
| ResultData (r : Tools.QueryResult).

Record StreamEvent : Type := {
  type : event_type;
  content_of : content;
  data_of : option event_data
}.

(** The language model, as the orchestrator sees it. *)
Inductive content_block : Type :=
| TextBlock (t : str)
| ToolUseBlock (id name : str) (input : row).

Inductive delta : Type :=
| TextDelta (t : str)
| InputJsonDelta (partial_json : str)
| OtherDelta.

Inductive model_event : Type :=
| ContentBlockDelta (d : delta)
| ContentBlockStartToolUse (id name : str)
| ContentBlockStartOther
| ContentBlockStop
| OtherModelEvent.

Record FinalMessage : Type := {
  fm_content : list content_block;
  stop_reason : str
}.

(** One round-trip: the events the stream delivers, then either the final
    message or the failure of the call or of the transport. *)
Record model_reply : Type := {
  stream_events : list model_event;
  ending : str + FinalMessage
}.

Inductive message : Type :=
| UserMessage (text : str)
| AssistantMessage (blocks : list content_block)
| ToolResultMessage (tool_use_id : str) (result : Tools.envelope).

Record ToolUse : Type := {
  tu_id : str;
  tu_name : str;
  tu_input : row
}.

Record AnalystConfig : Type := {
  supabase : Tools.SupabaseToolsConfig;
  maxIterations : option Z
}.

Section DataAnalyst.

Context {unicode : CaseMappings}.
Variable B : Type.
Variable rpc : str -> B -> rpc_response * B.
Variable config : AnalystConfig.

(** The model: its reply to a conversation history. *)
Variable model : list message -> model_reply.
(** [parseResponse]: the scan of the accumulated text for embedded blocks.
    It decodes them with [JSON.parse]; a turn only depends on which blocks
    it finds, so it is taken as given. *)
Variable parseResponse : str -> Parsed.

(** [config.maxIterations || 10] *)
Definition maxIterations_ : Z :=
  match maxIterations config with
  | Some n => if (n =? 0)%Z then 10%Z else n
  | None => 10%Z
  end.

(** The state of a [DataAnalyst] and of the world it runs in;
    [modelCalls] counts the requests sent to the model so far. *)
Record state : Type := {
  conversationHistory : list message;
  modelCalls : nat;
  w : world B
}.

(** An asynchronous generator: the events it yields, how it ends, and the
    state it leaves. *)
Definition G (A : Type) : Type := state -> list StreamEvent * result A * state.

Definition gret {A} (a : A) : G A := fun st => ([], Ok a, st).
Definition gbind {A C} (m : G A) (f : A -> G C) : G C :=
  fun st =>
    match m st with
    | (evs, Ok a, st') =>
        let '(evs', r, st'') := f a st' in (evs ++ evs', r, st'')
    | (evs, Throw e, st') => (evs, Throw e, st')
    | (evs, Hang, st') => (evs, Hang, st')
    end.
Definition gthrow {A} (e : str) : G A := fun st => ([], Throw e, st).
Definition yield (e : StreamEvent) : G unit := fun st => ([e], Ok tt, st).
Definition when (b : bool) (m : G unit) : G unit := if b then m else gret tt.

Definition lift {A} (m : M B A) : G A :=
  fun st =>
    let '(r, w') := m (w st) in
    ([], r, {| conversationHistory := conversationHistory st;
               modelCalls := modelCalls st; w := w' |}).

(** [this.conversationHistory.push(m)] *)
Definition push (m : message) : G unit :=
  fun st => ([], Ok tt, {| conversationHistory := conversationHistory st ++ [m];
                           modelCalls := modelCalls st; w := w st |}).

(** [this.anthropic.messages.stream({ ..., messages: this.conversationHistory })] *)
Definition call_model : G model_reply :=
  fun st =>
    ([], Ok (model (conversationHistory st)),
     {| conversationHistory := conversationHistory st;
        modelCalls := S (modelCalls st); w := w st |}).

Fixpoint for_each {A} (xs : list A) (body : A -> G unit) : G unit :=
  match xs with
  | [] => gret tt
  | x :: xs' => gbind (body x) (fun _ => for_each xs' body)
  end.

(** What the loop over the stream accumulates. *)
Record Accum : Type := {
  currentText : str;
  toolUseBlocks : list ToolUse;
  hasToolUse : bool
}.

(** [for await (const event of stream) { ... }] *)
Fixpoint consume (events : list model_event) (acc : Accum) : G Accum :=
  match events with
  | [] => gret acc
  | ev :: events' =>
      match ev with
      | ContentBlockDelta (TextDelta t) =>
          if truthy (JStr t) then
            gbind (yield {| type := text; content_of := Text t; data_of := None |})
              (fun _ => consume events'
                          {| currentText := currentText acc ++ t;
                             toolUseBlocks := toolUseBlocks acc;
                             hasToolUse := hasToolUse acc |})
          else consume events' acc
      | ContentBlockStartToolUse id name =>
          consume events'
            {| currentText := currentText acc;
               toolUseBlocks := toolUseBlocks acc ++
                 [{| tu_id := id; tu_name := name; tu_input := [] |}];
               hasToolUse := true |}
      | _ => consume events' acc
      end
  end.

(** [const toolBlock = toolUseBlocks.find(t => t.id === block.id);
     if (toolBlock) toolBlock.input = block.input] *)
Fixpoint set_input (id : str) (input : row) (blocks : list ToolUse) : list ToolUse :=
  match blocks with
  | [] => []
  | t :: blocks' =>
      if str_eqb (tu_id t) id
      then {| tu_id := tu_id t; tu_name := tu_name t; tu_input := input |} :: blocks'
      else t :: set_input id input blocks'
  end.

Definition update_inputs (final : list content_block) (blocks : list ToolUse)
  : list ToolUse :=
  fold_left (fun bs block =>
               match block with
               | ToolUseBlock id _ input => set_input id input bs
               | TextBlock _ => bs
               end) final blocks.

Definition run_tool (tool : ToolUse) : G unit :=
  gbind (yield {| type := tool_call; content_of := Text (tu_name tool);
                  data_of := Some (InputData (tu_input tool)) |}) (fun _ =>
  gbind (when (str_eqb (tu_name tool) (js "execute_sql"))
           (yield {| type := sql;
                     content_of := Value (field (tu_input tool) (js "sql"));
                     data_of := None |})) (fun _ =>
  gbind (lift (Tools.handleToolCall rpc (supabase config)
                 (tu_name tool) (tu_input tool))) (fun result =>
  gbind (yield {| type := tool_result; content_of := Json result;
                  data_of := None |}) (fun _ =>
  gbind (match result with
         | Tools.Success (Tools.ResultPayload r) =>
             yield {| type := data;
                      content_of := Text (js "Query executed successfully");
                      data_of := Some (ResultData r) |}
         | _ => gret tt
         end) (fun _ =>
  push (ToolResultMessage (tu_id tool) result)))))).

(** The body of [while (iterations < this.maxIterations)], with
    [remaining] the number of iterations still allowed. *)
Fixpoint rounds (remaining : nat) : G unit :=
  match remaining with
  | O => gret tt
  | S remaining' =>
      gbind call_model (fun reply =>
      gbind (consume (stream_events reply)
               {| currentText := []; toolUseBlocks := []; hasToolUse := false |})
        (fun acc =>
      match ending reply with
      | inl failure => gthrow failure
      | inr finalMessage =>
          let parsed := parseResponse (currentText acc) in
          gbind (match p_insights parsed with
                 | Some i => yield {| type := insights; content_of := Text (keyAnswer i);
                                      data_of := Some (InsightsData i) |}
                 | None => gret tt
                 end) (fun _ =>
          gbind (match p_chartSuggestion parsed with
                 | Some c => yield {| type := chart; content_of := Text (chart_type c);
                                      data_of := Some (ChartData c) |}
                 | None => gret tt
                 end) (fun _ =>
          gbind (match p_permissionDenied parsed with
                 | Some d => yield {| type := permission_denied;
                                      content_of := Text (pd_message d);
                                      data_of := Some (DeniedData d) |}
                 | None => gret tt
                 end) (fun _ =>
          let tools := update_inputs (fm_content finalMessage) (toolUseBlocks acc) in
          gbind (push (AssistantMessage (fm_content finalMessage))) (fun _ =>
          if hasToolUse acc then
            gbind (for_each tools run_tool) (fun _ =>
            if negb (str_eqb (stop_reason finalMessage) (js "end_turn"))
            then rounds remaining'           (* continue *)
            else gret tt)                    (* break *)
          else gret tt))))                   (* break *)
      end))
  end.

Definition done_event : StreamEvent :=
  {| type := done; content_of := Text (js "Analysis complete"); data_of := None |}.

Definition chatStream (userMessage : str) : G unit :=
  gbind (push (UserMessage userMessage)) (fun _ =>
  gbind (rounds (Z.to_nat maxIterations_)) (fun _ =>
  yield done_event)).

Definition error_event (message : str) : StreamEvent :=
  {| type := error; content_of := Text message; data_of := None |}.

(** The route that serves a turn: it forwards the events of [chatStream]
    and, when the generator throws, sends one [error] event before closing
    the stream. *)
Definition served_events (userMessage : str) (st : state) : list StreamEvent :=
  let '(evs, r, _) := chatStream userMessage st in
  match r with
  | Ok _ => evs
  | Throw e => evs ++ [error_event e]
  | Hang => evs
  end.

Definition count_type (t : event_type) (evs : list StreamEvent) : nat :=
  length (filter (fun e => event_type_eqb (type e) t) evs).

(** *** The turn without streaming: [chat] *)

(** The two fields of the result of [parseResponse] that only [chat]
    reads. *)
Record ParsedText : Type := {
  p_reasoning : option str;
  p_sql : option str
}.
Variable parseText : str -> ParsedText.

Record AnalystMessage : Type := {
  am_content : str;
  am_reasoning : str;
  am_sql : jsval;
  am_data : option (list row);
  am_chartSuggestion : option ChartSuggestion;
  am_insights : option InsightsBlock
}.

(** The variables of [chat]: those of the whole call and, below, the two
    of the current round. *)
Record ChatVars : Type := {
  fullResponse : str;
  reasoning_ : str;
  sql_ : jsval;
  data_ : option (list row);
  chartSuggestion_ : option ChartSuggestion;
  insights_ : option InsightsBlock;
  hasToolUse_ : bool;
  toolResults : list message
}.

Definition truthy_text (o : option str) : bool :=
  match o with Some t => truthy (JStr t) | None => false end.

(** [for (const block of response.content) { ... }]; the events are the
    calls of the callback [onStream], which is taken to return. *)
Fixpoint chat_blocks (blocks : list content_block) (v : ChatVars) : G ChatVars :=
  match blocks with
  | [] => gret v
  | TextBlock t :: blocks' =>
      let parsed := parseResponse t in
      let more := parseText t in
      let v' :=
        {| fullResponse := fullResponse v ++ t;
           reasoning_ := if truthy_text (p_reasoning more)
                         then reasoning_ v ++ nullish (p_reasoning more) []
                         else reasoning_ v;
           sql_ := if truthy_text (p_sql more)
                   then JStr (nullish (p_sql more) []) else sql_ v;
           data_ := data_ v;
           chartSuggestion_ := match p_chartSuggestion parsed with
                               | Some c => Some c
                               | None => chartSuggestion_ v
                               end;
           insights_ := match p_insights parsed with
                        | Some i => Some i
                        | None => insights_ v
                        end;
           hasToolUse_ := hasToolUse_ v;
           toolResults := toolResults v |} in
      gbind (match p_insights parsed with
             | Some i => yield {| type := insights; content_of := Text (keyAnswer i);
                                  data_of := Some (InsightsData i) |}
             | None => gret tt
             end) (fun _ =>
      gbind (yield {| type := text; content_of := Text t; data_of := None |}) (fun _ =>
      chat_blocks blocks' v'))
  | ToolUseBlock id name input :: blocks' =>
      gbind (yield {| type := tool_call; content_of := Text name;
                      data_of := Some (InputData input) |}) (fun _ =>
      gbind (lift (Tools.handleToolCall rpc (supabase config) name input)) (fun result =>
      gbind (yield {| type := tool_result; content_of := Json result;
                      data_of := None |}) (fun _ =>
      gbind (match result with
             | Tools.Success (Tools.ResultPayload r) =>
                 yield {| type := data;
                          content_of := Text (js "Query executed successfully");
                          data_of := Some (ResultData r) |}
             | _ => gret tt
             end) (fun _ =>
      gbind (when (str_eqb name (js "execute_sql"))
               (yield {| type := sql; content_of := Value (field input (js "sql"));
                         data_of := None |})) (fun _ =>
      chat_blocks blocks'
        {| fullResponse := fullResponse v;
           reasoning_ := reasoning_ v;
           sql_ := if str_eqb name (js "execute_sql")
                   then field input (js "sql") else sql_ v;
           data_ := match result with
                    | Tools.Success (Tools.ResultPayload r) => Some (Tools.qr_data r)
                    | _ => data_ v
                    end;
           chartSuggestion_ := chartSuggestion_ v;
           insights_ := insights_ v;
           hasToolUse_ := true;
           toolResults := toolResults v ++ [ToolResultMessage id result] |})))))
  end.

(** The body of the loop of [chat]; the request is not streamed, and a
    failure of the call is thrown as it is. *)
Fixpoint chat_rounds (remaining : nat) (v : ChatVars) : G ChatVars :=
  match remaining with
  | O => gret v
  | S remaining' =>
      gbind call_model (fun reply =>
      match ending reply with
      | inl failure => gthrow failure
      | inr response =>
          gbind (chat_blocks (fm_content response)
                   {| fullResponse := fullResponse v; reasoning_ := reasoning_ v;
                      sql_ := sql_ v; data_ := data_ v;
                      chartSuggestion_ := chartSuggestion_ v; insights_ := insights_ v;
                      hasToolUse_ := false; toolResults := [] |}) (fun v' =>
          gbind (push (AssistantMessage (fm_content response))) (fun _ =>
          gbind (for_each (toolResults v') push) (fun _ =>
          if negb (hasToolUse_ v') || str_eqb (stop_reason response) (js "end_turn")
          then gret v'                       (* break *)
          else chat_rounds remaining' v')))
      end)
  end.

Definition chat (userMessage : str) : G AnalystMessage :=
  gbind (push (UserMessage userMessage)) (fun _ =>
  gbind (chat_rounds (Z.to_nat maxIterations_)
           {| fullResponse := []; reasoning_ := []; sql_ := JStr [];
              data_ := None; chartSuggestion_ := None; insights_ := None;
              hasToolUse_ := false; toolResults := [] |}) (fun v =>
  gbind (yield done_event) (fun _ =>
  gret {| am_content := fullResponse v;
          am_reasoning := reasoning_ v;
          am_sql := or_else (sql_ v) JUndefined;
          am_data := data_ v;
          am_chartSuggestion := chartSuggestion_ v;
          am_insights := insights_ v |}))).

End DataAnalyst.

End Analyst.

(* ================================================================== *)
(** ** ChatPanel.tsx: the permissions a chat request carries *)
(* ================================================================== *)

Module ChatPanel.

(** The [permissions] of the request body: the stored policy, entry by
    entry, without the allow-lists, the descriptions and the time stamp. *)
Definition request_permissions (permissions : Permissions.TablePermissionsConfig)
  : Tools.TablePermissionsConfig :=
  {| Tools.defaultAccess := Permissions.defaultAccess permissions;
     Tools.tables :=
       map (fun t => {| Tools.table := Permissions.table t;
                        Tools.schema := Permissions.schema t;
                        Tools.accessLevel := Permissions.accessLevel t;
                        Tools.blockedColumns := Permissions.blockedColumns t |})
           (Permissions.tables permissions) |}.

End ChatPanel.

(* ================================================================== *)
(** ** The chat route: one analyst for each conversation *)
(* ================================================================== *)

Module ChatRoute.
Import stdpp.base stdpp.gmap.
Import Eff.

(** The text a template literal prints for an access level. *)
Definition level_text (a : AccessLevel) : str :=
  match a with full => js "full" | read => js "read" | none => js "none" end.

(** The order of [Array.prototype.sort] without a comparator: strings are
    compared code unit by code unit. *)
Fixpoint str_ltb (a b : str) : bool :=
  match a, b with
  | _, [] => false
  | [], _ :: _ => true
  | x :: a', y :: b' =>
      (x <? y)%N || ((x =? y)%N && str_ltb a' b')
  end.

(** [xs.sort()].  The order is total and two strings it does not tell
    apart are the same string, so the sorted array does not depend on the
    algorithm of the engine; insertion sort stands for it. *)
Fixpoint insert_sorted (x : str) (xs : list str) : list str :=
  match xs with
  | [] => [x]
  | y :: ys => if str_ltb y x then y :: insert_sorted x ys else x :: y :: ys
  end.
Definition sort (xs : list str) : list str := fold_right insert_sorted [] xs.

(** The text [JSON.stringify] gives is represented by the value it encodes:
    the default level and the sorted array of labels. *)
Definition hash : Type := AccessLevel * list str.

Definition hashPermissions (perms : Tools.TablePermissionsConfig) : hash :=
  (Tools.defaultAccess perms,
   sort (List.map (fun t => Tools.table t ++ js ":" ++ level_text (Tools.accessLevel t))
                  (Tools.tables perms))).

Fixpoint strs_eqb (a b : list str) : bool :=
  match a, b with
  | [], [] => true
  | x :: a', y :: b' => str_eqb x y && strs_eqb a' b'
  | _, _ => false
  end.

(** [existingHash !== newHash], where [existingHash] may be undefined. *)
Definition hash_differs (existingHash : option hash) (newHash : hash) : bool :=
  match existingHash with
  | Some (level, labels) =>
      negb (AccessLevel_eqb level (fst newHash) && strs_eqb labels (snd newHash))
  | None => true
  end.

(** A [DataAnalyst]: the configuration it was built with and its
    conversation history. *)
Record DataAnalyst : Type := {
  da_config : Analyst.AnalystConfig;
  da_history : list Analyst.message
}.

(** The two maps of the module, keyed by conversation. *)
Record store : Type := {
  analysts : gmap str DataAnalyst;
  permissionsHash : gmap str hash
}.

(** [process.env] *)
Record Env : Type := {
  ANTHROPIC_API_KEY : option str;
  SUPABASE_URL : option str;
  SUPABASE_SERVICE_KEY : option str;
  SUPABASE_ANON_KEY : option str
}.

(** A variable of the environment that is set and not empty. *)
Definition present (v : option str) : bool :=
  match v with Some (_ :: _) => true | _ => false end.

Definition currentPermissions : Tools.TablePermissionsConfig :=
  {| Tools.defaultAccess := read; Tools.tables := [] |}.

Definition getAnalyst (env : Env) (conversationId : str)
  (permissions : option Tools.TablePermissionsConfig) (s : store)
  : result DataAnalyst * store :=
  let perms := nullish permissions currentPermissions in
  let newHash := hashPermissions perms in
  let existingHash := permissionsHash s !! conversationId in
  let s1 :=
    if bool_decide (is_Some (analysts s !! conversationId)) &&
       hash_differs existingHash newHash
    then {| analysts := delete conversationId (analysts s);
            permissionsHash := permissionsHash s |}
    else s in
  match analysts s1 !! conversationId with
  | Some analyst => (Ok analyst, s1)
  | None =>
      let supabaseKey :=
        if present (SUPABASE_SERVICE_KEY env) then SUPABASE_SERVICE_KEY env
        else SUPABASE_ANON_KEY env in
      if negb (present (ANTHROPIC_API_KEY env))
      then (Throw (js "ANTHROPIC_API_KEY is not configured"), s1)
      else if negb (present (SUPABASE_URL env)) || negb (present supabaseKey)
      then (Throw (js "Supabase credentials are not configured"), s1)
      else
        let analyst :=
          {| da_config :=
               {| Analyst.supabase :=
                    {| Tools.queryTimeout := Some 30000%Z;
                       Tools.maxRows := Some 1000%Z;
                       Tools.permissions := Some perms |};
                  Analyst.maxIterations := None |};
             da_history := [] |} in
        (Ok analyst,
         {| analysts := <[conversationId := analyst]> (analysts s1);
            permissionsHash := <[conversationId := newHash]> (permissionsHash s1) |})
  end.

(** The DELETE handler, for a conversation: the analyst is dropped, the
    recorded hash stays. *)
Definition deleteConversation (conversationId : str) (s : store) : store :=
  if bool_decide (is_Some (analysts s !! conversationId))
  then {| analysts := delete conversationId (analysts s);
          permissionsHash := permissionsHash s |}
  else s.

End ChatRoute.

(* ================================================================== *)
(** ** What the properties are stated with *)
(* ================================================================== *)

Module RegexSpec.
Import Regex.

(** Zero or more rounds of [R], each of which consumes something. *)
Inductive iter (R : mstate -> mstate -> Prop) : mstate -> mstate -> Prop :=
| iter_stop s : iter R s s
| iter_step s s1 s2 :
    R s s1 -> length (after s1) < length (after s) -> iter R s1 s2 ->
    iter R s s2.

(** [matches r s s']: the pattern [r] matches the text between the
    positions [s] and [s']. *)
Fixpoint matches (r : regex) (s s' : mstate) : Prop :=
  match r with
  | Eps => s' = s
  | Chr p => exists c rest, after s = c :: rest /\ p c = true /\ s' = advance c rest s
  | Seq r1 r2 => exists s1, matches r1 s s1 /\ matches r2 s1 s'
  | Alt r1 r2 => matches r1 s s' \/ matches r2 s s'
  | Star r1 => iter (matches r1) s s'
  | Bol => before s = [] /\ s' = s
  | Eol => after s = [] /\ s' = s
  | WordB => at_word_boundary s = true /\ s' = s
  | Group n r1 => exists s1, matches r1 s s1 /\ s' = set_cap n (consumed s s1) s1
  end.

(** A match consumes a piece [w] of the text: it is taken from the
    characters after the position and laid before it. *)
Definition span (w : str) (s s' : mstate) : Prop :=
  after s = w ++ after s' /\ before s' = rev w ++ before s.

(** Two texts that agree up to letter case. *)
Definition same_ci (a b : str) : Prop := map upper_char a = map upper_char b.

End RegexSpec.

Module ValidationSpec.

(** [kw] stands at the head of a statement of [text]: at the very start, or
    after a semicolon and any white space; and it ends there as a word. *)
Definition leading_keyword (kw text : str) : Prop :=
  exists pre ws post,
    text = pre ++ ws ++ kw ++ post /\
    ((pre = [] /\ ws = []) \/
     ((exists p, pre = p ++ [";"%u]) /\ Forall (fun c => is_space c = true) ws)) /\
    match post with [] => True | c :: _ => is_word c = false end.

(** The narrower reading: [kw] stands at the very start or right after a
    semicolon, with nothing in between. *)
Definition keyword_right_after (kw text : str) : Prop :=
  exists pre post,
    text = pre ++ kw ++ post /\
    (pre = [] \/ exists p, pre = p ++ [";"%u]) /\
    match post with [] => True | c :: _ => is_word c = false end.

(** A semicolon stands somewhere before the final character. *)
Definition semicolon_before_end (text : str) : Prop :=
  exists i, nth_error text i = Some ";"%u /\ S i < length text.

Definition begins_with (text p : str) : Prop := exists rest, text = p ++ rest.

End ValidationSpec.

Module ToolsSpec.
Import Tools.




(** The pattern of a table reference after the keyword [kw]. *)
Definition ref_pattern (kw : str) : Regex.regex :=
  Regex.Seq Regex.WordB
    (Regex.Seq (Regex.lit_i kw) (Regex.Seq (Regex.Plus Regex.space) table_ref)).

Section WithUnicode.

Context {unicode : CaseMappings}.

(** The access level a table resolves to, and the permission checks a list
    of tables gives rise to, as the trace records them. *)
Definition resolved_level (config : SupabaseToolsConfig) (tableName schema : str)
  : AccessLevel :=
  accessLevel (getTablePermission config tableName schema).

Definition checks (config : SupabaseToolsConfig) (tables : list str) : list Eff.event :=
  map (fun t => Eff.PermissionCheck t (resolved_level config t public)) tables.

Definition is_blocked (config : SupabaseToolsConfig) (t : str) : bool :=
  AccessLevel_eqb (resolved_level config t public) none.

End WithUnicode.

(** The world [w] after the effects [evs], the back end and the clock left
    as they were. *)
Definition with_trace {B : Type} (w : Eff.world B) (evs : list Eff.event) : Eff.world B :=
  {| Eff.backend := Eff.backend w; Eff.clock := Eff.clock w;
     Eff.trace := Eff.trace w ++ evs; Eff.timer_first := Eff.timer_first w |}.

(** An error of the access-denied kind is told by the head of its message. *)
Definition is_access_denied (message : str) : bool :=
  startsWith message (js "ACCESS_DENIED:").

(** The rows a reply of the remote procedure stands for. *)
Definition rows_of (resp : Eff.rpc_response) : list row :=
  match Eff.rpc_data_of resp with
  | Eff.DataArray rows => rows
  | Eff.DataObject r => [r]
  | Eff.DataNone => []
  end.

(** A computation that ends, with a result or with an exception, from
    every world. *)
Definition terminates {B A : Type} (m : Eff.M B A) : Prop :=
  forall w, fst (m w) <> Eff.Hang.

(** The schema a call works with when the argument is left out. *)
Definition schema_or_public (schema : jsval) : jsval :=
  match schema with JUndefined => JStr public | v => v end.

End ToolsSpec.

(** Concrete inputs for the examples and the witnesses. *)
Module Examples.
Import Eff Tools.

(** Case tables that leave every character outside ASCII as it is.  The
    examples are run with them; the letters of their texts are ASCII, on
    which the case conversions do not depend on the tables. *)
Definition plain_tables : CaseMappings.
Proof.
  refine {| upper_unit := fun c => [c];
            upper_pair := fun h l => [h; l];
            lower_text := map lower_char |}.
  - reflexivity.
  - intros c Ha Hs. split; [discriminate|].
    cbn [forallb]. unfold cased_up. rewrite Ha, Hs, orb_true_r. reflexivity.
  - intros h l Hh Hl. split; [discriminate|].
    cbn [forallb]. unfold cased_up, is_high, is_low, is_ascii, is_upper, is_space in *.
    apply andb_true_iff in Hh, Hl. destruct Hh as [Hh1 Hh2]. destruct Hl as [Hl1 Hl2].
    apply N.leb_le in Hh1, Hh2, Hl1, Hl2.
    rewrite !andb_true_iff, !orb_true_iff, !andb_true_iff, !negb_true_iff,
            !orb_false_iff, !andb_false_iff, !N.ltb_ge, !N.leb_gt, !N.eqb_neq.
    repeat split; right; repeat split; lia.
Defined.

(** Case tables that differ from the plain ones in one entry of the
    Unicode tables: the sharp s, U+00DF, has the upper-case form SS. *)
Definition sharp_s_tables : CaseMappings.
Proof.
  refine {| upper_unit := fun c => if (c =? 223)%N then [83; 83]%N else [c];
            upper_pair := fun h l => [h; l];
            lower_text := map lower_char |}.
  - intros c Hs. destruct (N.eqb_spec c 223) as [-> | _]; [discriminate Hs | reflexivity].
  - intros c Ha Hs. destruct (N.eqb_spec c 223) as [-> | _].
    + split; [discriminate | reflexivity].
    + split; [discriminate|].
      cbn [forallb]. unfold cased_up. rewrite Ha, Hs, orb_true_r. reflexivity.
  - exact (upper_pair_cased (CaseMappings := plain_tables)).
Defined.

Definition table_row (name schema : string) : row :=
  [(js "name", JStr (js name)); (js "schema", JStr (js schema))].

(** A back end with the two tables [users] and [orders], which answers
    every query with them after five milliseconds, ahead of every timer of
    more than five milliseconds. *)
Definition sample_rpc (query_text : str) (b : unit) : rpc_response * unit :=
  ({| rpc_data_of := DataArray [table_row "users" "public"; table_row "orders" "public"];
      rpc_error := None; rpc_elapsed := 5;
      rpc_timer_first := fun timeout => (timeout <=? 5)%Z |}, tt).

Definition w0 : world unit :=
  {| backend := tt; clock := 0; trace := []; timer_first := fun _ => false |}.

(** The policy of the specification: read by default, [users] hidden. *)
Definition users_hidden : SupabaseToolsConfig :=
  {| queryTimeout := None; maxRows := None;
     permissions := Some {| defaultAccess := read;
                            tables := [{| table := js "users"; schema := js "public";
                                          accessLevel := none;
                                          blockedColumns := None |}] |} |}.


(** [SELECT * FROM "users"] *)
Definition quoted_users : str := js "SELECT * FROM " ++ dq ++ js "users" ++ dq.




End Examples.

Module AnalystSpec.
Import Analyst.

(** Events that neither end a turn nor report an error. *)
Definition quiet (evs : list StreamEvent) : Prop :=
  Forall (fun e => type e <> done /\ type e <> error) evs.

(** A model whose every reply ends with a final message. *)
Definition model_fine (model : list message -> model_reply) : Prop :=
  forall h, exists finalMessage, ending (model h) = inr finalMessage.

(** A step of a turn that behaves: it ends; its events are [quiet]; it
    sends at most [n] requests to the model; when it throws, the exception
    is a failure of the model; and with a model that never fails it
    returns. *)
Definition behaves {B A : Type} (model : list message -> model_reply)
  (n : nat) (m : G B A) : Prop :=
  forall st,
    exists evs r st',
      m st = (evs, r, st') /\
      quiet evs /\
      modelCalls st <= modelCalls st' /\ modelCalls st' <= modelCalls st + n /\
      ((exists a, r = Eff.Ok a) \/
       (exists e h, r = Eff.Throw e /\ ending (model h) = inl e)) /\
      (model_fine model -> exists a, r = Eff.Ok a).

(** A model that is out of reach: every call fails. *)
Definition unreachable_model (h : list message) : model_reply :=
  {| stream_events := []; ending := inl (js "Connection error.") |}.

(** A model that asks for the list of tables in every reply, without end. *)
Definition restless_model (h : list message) : model_reply :=
  {| stream_events := [ContentBlockStartToolUse (js "t1") (js "list_tables")];
     ending := inr {| fm_content := [ToolUseBlock (js "t1") (js "list_tables") []];
                      stop_reason := js "tool_use" |} |}.

Definition no_blocks (text : str) : Parsed :=
  {| p_insights := None; p_chartSuggestion := None; p_permissionDenied := None |}.

Definition default_config : AnalystConfig :=
  {| supabase := Examples.users_hidden; maxIterations := None |}.

Definition fresh_state : state unit :=
  {| conversationHistory := []; modelCalls := 0; w := Examples.w0 |}.

End AnalystSpec.

Module PermissionExamples.
Import stdpp.base stdpp.gmap.
Import Permissions.

Definition entry (name : string) (level : AccessLevel) : TablePermission :=
  {| table := js name; schema := js "public"; accessLevel := level;
     allowedColumns := None; blockedColumns := None; description := None |}.

(** A configuration that hides the table [Users], written with a capital. *)
Definition Users_hidden : TablePermissionsConfig :=
  {| defaultAccess := read; tables := [entry "Users" none]; updatedAt := 0 |}.

(** The same policy for the agent. *)
Definition agent_Users_hidden : Tools.SupabaseToolsConfig :=
  {| Tools.queryTimeout := None; Tools.maxRows := None;
     Tools.permissions :=
       Some {| Tools.defaultAccess := read;
               Tools.tables := [{| Tools.table := js "Users"; Tools.schema := js "public";
                                   Tools.accessLevel := none;
                                   Tools.blockedColumns := None |}] |} |}.

(** The same configuration as an object of a heap that holds its array. *)
Definition Users_heap : heap := {[ 1%positive := [entry "Users" none] ]}.
Definition Users_object : ConfigObject :=
  {| obj_defaultAccess := read; obj_tables := 1%positive; obj_updatedAt := 0 |}.

End PermissionExamples.

(* ================================================================== *)
(** ** What the further properties are stated with *)
(* ================================================================== *)

Module TextSpec.

(** A text that does not begin with white space. *)
Definition no_space_head (s : str) : Prop :=
  match s with [] => True | c :: _ => is_space c = false end.

End TextSpec.

Module EscapeSpec.

(** What the first replacement of [escapeSQLString] gives: every backslash
    doubled. *)
Definition double_backslashes (value : str) : str :=
  flat_map (fun c => if N.eqb c "\"%u then ["\"; "\"]%u else [c]) value.

(** Reading a single-quoted SQL literal from the character after its
    opening quote: two quotes in a row stand for one quote of the value, a
    quote on its own closes the literal.  The result is the value read and
    the text after the closing quote; there is none when the literal is
    never closed. *)
Fixpoint read_literal (s : str) : option (str * str) :=
  match s with
  | [] => None
  | c :: s' =>
      if N.eqb c "'"%u then
        match s' with
        | d :: s'' =>
            if N.eqb d "'"%u then
              match read_literal s'' with
              | Some (v, r) => Some ("'"%u :: v, r)
              | None => None
              end
            else Some ([], s')
        | [] => Some ([], [])
        end
      else
        match read_literal s' with
        | Some (v, r) => Some (c :: v, r)
        | None => None
        end
  end.

(** The text after a literal does not go on with a quote. *)
Definition no_quote_head (rest : str) : Prop :=
  match rest with [] => True | d :: _ => d <> "'"%u end.

End EscapeSpec.

Module ScanSpec.
Import Tools.

(** An identifier as the patterns of the table scan read it: a letter or an
    underscore, then letters, digits and underscores. *)
Definition ident_word (a : str) : Prop :=
  exists c rest, a = c :: rest /\ is_alpha_ c = true /\
                 Forall (fun x => is_alnum_ x = true) rest.

(** The characters of a lower-case identifier. *)
Definition is_name_char (c : char) : bool :=
  is_lower c || is_digit c || N.eqb c "_"%u.

(** A lower-case identifier: it is not empty, does not begin with a digit
    and holds lower-case letters, digits and underscores only. *)
Definition table_name (t : str) : Prop :=
  match t with [] => False | c :: _ => is_digit c = false end /\
  Forall (fun c => is_name_char c = true) t.

(** A run of characters of a class goes as far as it can: what follows it
    does not begin with a character of the class. *)
Definition stops (p : char -> bool) (rest : str) : Prop :=
  match rest with [] => True | c :: _ => p c = false end.

(** What follows an identifier does not qualify it: it is not a dot
    followed by a letter or an underscore. *)
Definition unqualified (rest : str) : Prop :=
  match rest with
  | d :: c :: _ => N.eqb d "."%u && is_alpha_ c = false
  | _ => True
  end.

(** A table reference with its parts.  It stands at the head of [post],
    the characters before it being [bef], nearest first: the keyword [kw]
    written as [w], in any letter case, after a word boundary; the white
    space [ws]; the identifier [a], as long as it can be; then [tail], which
    is empty or a dot and one more identifier, the identifier [a] being a
    qualifier then.  [rest] is the text after the reference and [t] the
    table it names: the last identifier, in lower case. *)
Definition reference_parts (kw bef post w ws a tail rest t : str) : Prop :=
  post = w ++ ws ++ a ++ tail ++ rest /\
  RegexSpec.same_ci w kw /\
  match bef with [] => True | c :: _ => is_word c = false end /\
  ws <> [] /\ Forall (fun c => is_space c = true) ws /\
  ident_word a /\ stops is_alnum_ (tail ++ rest) /\
  ((tail = [] /\ unqualified rest /\ t = map lower_char a) \/
   (exists b, tail = "."%u :: b /\ ident_word b /\ stops is_alnum_ rest /\
              t = map lower_char b)).

(** [post], which stands after [pre] in a text, begins with a reference
    that names the table [t] after the keyword [kw]. *)
Definition reference (kw pre post t : str) : Prop :=
  exists w ws a tail rest, reference_parts kw (rev pre) post w ws a tail rest t.

(** The keywords of the two scans. *)
Definition scan_keyword (kw : str) : Prop := kw = js "from" \/ kw = js "join".

End ScanSpec.

Module TraceSpec.
Import Eff Tools ToolsSpec.

(** The queries a trace records, in the order they were sent. *)
Definition queries (evs : list event) : list str :=
  flat_map (fun e => match e with Rpc q => [q] | PermissionCheck _ _ => [] end) evs.

(** The world after the remote procedure has answered the query [q]. *)
Definition after_rpc {B : Type} (rpc : str -> B -> rpc_response * B) (q : str)
  (w : world B) : world B :=
  {| backend := snd (rpc q (backend w));
     clock := clock w + Z.max 0 (rpc_elapsed (fst (rpc q (backend w))));
     trace := trace w ++ [Rpc q];
     timer_first := rpc_timer_first (fst (rpc q (backend w))) |}.

(** The catalog query of [listTables] for a schema. *)
Definition tables_query (safeSchema : str) : str :=
  js "SELECT table_name as name, table_schema as schema FROM information_schema.tables WHERE table_schema = '" ++
  escapeSQLString safeSchema ++
  js "' AND table_type = 'BASE TABLE' ORDER BY table_name".

(** The three catalog queries of [getTableSchema] for a table: its columns,
    its primary key and its foreign keys, in the order they are sent. *)
Definition schema_queries (safeTableName safeSchema : str) : list str :=
  let escapedTableName := escapeSQLString safeTableName in
  let escapedSchema := escapeSQLString safeSchema in
  [ js "SELECT c.column_name as name, c.data_type as type, (c.is_nullable = 'YES') as nullable, c.column_default as default_value FROM information_schema.columns c WHERE c.table_name = '" ++
    escapedTableName ++ js "' AND c.table_schema = '" ++ escapedSchema ++
    js "' ORDER BY c.ordinal_position";
    js "SELECT ccu.column_name FROM information_schema.table_constraints tc JOIN information_schema.constraint_column_usage ccu ON tc.constraint_name = ccu.constraint_name WHERE tc.table_name = '" ++
    escapedTableName ++ js "' AND tc.table_schema = '" ++ escapedSchema ++
    js "' AND tc.constraint_type = 'PRIMARY KEY'";
    js "SELECT kcu.column_name, ccu.table_name AS foreign_table, ccu.column_name AS foreign_column FROM information_schema.table_constraints AS tc JOIN information_schema.key_column_usage AS kcu ON tc.constraint_name = kcu.constraint_name JOIN information_schema.constraint_column_usage AS ccu ON ccu.constraint_name = tc.constraint_name WHERE tc.constraint_type = 'FOREIGN KEY' AND tc.table_name = '" ++
    escapedTableName ++ js "' AND tc.table_schema = '" ++ escapedSchema ++ js "'" ].

(** The rows the back end [b] answers a sequence of queries with, each
    query run on the state the one before left. *)
Fixpoint answers {B : Type} (rpc : str -> B -> rpc_response * B) (qs : list str)
  (b : B) : list (list row) :=
  match qs with
  | [] => []
  | q :: qs' => rows_of (fst (rpc q b)) :: answers rpc qs' (snd (rpc q b))
  end.

(** A column name that is on the list of blocked names. *)
Definition blocked_name (blocked : list str) (name : jsval) : bool :=
  existsb (fun b => strict_eqb (JStr b) name) blocked.

(** The table a row of the catalog names: its name and its schema, public
    when the row has none; nothing when one of them is not a string. *)
Definition row_table (t : row) : option (str * str) :=
  match field t (js "name"), field t (js "schema") with
  | JStr n, JStr s => Some (n, s)
  | JStr n, JUndefined => Some (n, public)
  | _, _ => None
  end.

Section WithUnicode.

Context {unicode : CaseMappings}.

Definition row_accessible (config : SupabaseToolsConfig) (t : row) : bool :=
  match row_table t with
  | Some (n, s) => negb (AccessLevel_eqb (resolved_level config n s) none)
  | None => false
  end.

(** The permission checks the rows of the catalog give rise to. *)
Definition row_checks (config : SupabaseToolsConfig) (rows : list row) : list event :=
  flat_map (fun t => match row_table t with
                     | Some (n, s) => [PermissionCheck n (resolved_level config n s)]
                     | None => []
                     end) rows.

End WithUnicode.

(** The entry [listTables] returns for a row. *)
Definition table_info (t : row) : TableInfo :=
  {| ti_name := field t (js "name"); ti_schema := field t (js "schema");
     ti_columns := [] |}.

End TraceSpec.

Module FailureExamples.
Import Eff.

(** A back end that refuses every query. *)
Definition failing_rpc (query_text : str) (b : unit) : rpc_response * unit :=
  ({| rpc_data_of := DataNone;
      rpc_error := Some (js "permission denied for schema information_schema");
      rpc_elapsed := 2; rpc_timer_first := fun _ => false |}, tt).

End FailureExamples.

Module TurnSpec.
Import Analyst.

Definition is_user (m : message) : bool :=
  match m with UserMessage _ => true | _ => false end.
Definition is_tool_result (m : message) : bool :=
  match m with ToolResultMessage _ _ => true | _ => false end.

Definition count_messages (p : message -> bool) (h : list message) : nat :=
  length (filter p h).

(** A step of a turn that keeps the books.  It ends without hanging; it
    only appends to the conversation history, and never a user message;
    the tool calls it announces pair with the tool results it yields, and
    each result is also appended to the history; the data events do not
    outnumber the results, nor the sql events the calls. *)
Definition keeps_books {B A : Type} (m : G B A) : Prop :=
  forall st, exists evs r st' added,
    m st = (evs, r, st') /\
    r <> Eff.Hang /\
    conversationHistory st' = conversationHistory st ++ added /\
    count_messages is_user added = 0 /\
    count_type tool_call evs = count_type tool_result evs /\
    count_messages is_tool_result added = count_type tool_result evs /\
    count_type data evs <= count_type tool_result evs /\
    count_type sql evs <= count_type tool_call evs.

(** The text a list of events carries: the contents of its text events,
    one after the other. *)
Definition text_of (evs : list StreamEvent) : str :=
  flat_map (fun e => match type e, content_of e with
                     | text, Text t => t
                     | _, _ => []
                     end) evs.

(** The tool-result messages of a piece of history, and the tool results
    a list of events reports, as (tool, result) would be paired. *)
Definition results_of_history (h : list message) : list Tools.envelope :=
  flat_map (fun m => match m with ToolResultMessage _ r => [r] | _ => [] end) h.
Definition results_of_events (evs : list StreamEvent) : list Tools.envelope :=
  flat_map (fun e => match type e, content_of e with
                     | tool_result, Json r => [r]
                     | _, _ => []
                     end) evs.

(** An event that is none of the four kinds the books count. *)
Definition uncounted (e : StreamEvent) : Prop :=
  type e <> tool_call /\ type e <> tool_result /\ type e <> data /\ type e <> sql.

End TurnSpec.

Module RouteExamples.
Import stdpp.base stdpp.gmap.
Import ChatRoute.

(** An environment with every variable set. *)
Definition full_env : Env :=
  {| ANTHROPIC_API_KEY := Some (js "sk-test");
     SUPABASE_URL := Some (js "https://db.example");
     SUPABASE_SERVICE_KEY := None;
     SUPABASE_ANON_KEY := Some (js "anon") |}.

Definition no_store : store := {| analysts := ∅; permissionsHash := ∅ |}.

(** Two policies for the table [users]: both give it read access; the
    first also blocks the column [ssn]. *)
Definition ssn_blocked : Tools.TablePermissionsConfig :=
  {| Tools.defaultAccess := read;
     Tools.tables := [{| Tools.table := js "users"; Tools.schema := js "public";
                         Tools.accessLevel := read;
                         Tools.blockedColumns := Some [js "ssn"] |}] |}.
Definition ssn_open : Tools.TablePermissionsConfig :=
  {| Tools.defaultAccess := read;
     Tools.tables := [{| Tools.table := js "users"; Tools.schema := js "public";
                         Tools.accessLevel := read;
                         Tools.blockedColumns := None |}] |}.

(** The analyst [getAnalyst] builds for the second policy. *)
Definition first_analyst : DataAnalyst :=
  {| da_config :=
       {| Analyst.supabase :=
            {| Tools.queryTimeout := Some 30000%Z; Tools.maxRows := Some 1000%Z;
               Tools.permissions := Some ssn_open |};
          Analyst.maxIterations := None |};
     da_history := [] |}.

(** The policy that hides [users]. *)
Definition users_none : Tools.TablePermissionsConfig :=
  {| Tools.defaultAccess := read;
     Tools.tables := [{| Tools.table := js "users"; Tools.schema := js "public";
                         Tools.accessLevel := none;
                         Tools.blockedColumns := None |}] |}.

End RouteExamples.

Module RouteSpec.
Import ChatRoute.

(** What [hashPermissions] reads of an entry: the table name and the level,
    joined by a colon. *)
Definition label (t : Tools.TablePermission) : str :=
  Tools.table t ++ js ":" ++ level_text (Tools.accessLevel t).

(** The environment has what [getAnalyst] needs to build an analyst. *)
Definition configured (env : Env) : bool :=
  present (ANTHROPIC_API_KEY env) && present (SUPABASE_URL env) &&
  (present (SUPABASE_SERVICE_KEY env) || present (SUPABASE_ANON_KEY env)).

(** The permissions an analyst checks queries against. *)
Definition permissions_of (a : DataAnalyst) : option Tools.TablePermissionsConfig :=
  Tools.permissions (Analyst.supabase (da_config a)).

End RouteSpec.

Module TurnExamples.
Import Analyst.

(** A configuration with a negative bound on the rounds of a turn. *)
Definition negative_bound : AnalystConfig :=
  {| supabase := Examples.users_hidden; maxIterations := Some (-1)%Z |}.

End TurnExamples.

(* ================================================================== *)
(** * Properties *)
(* ================================================================== *)

Unset Implicit Arguments.

(** Facts about single characters are facts of arithmetic on their codes. *)
Ltac char_unfold :=
  unfold is_word, Tools.is_alpha_, Tools.is_alnum_, ScanSpec.is_name_char, cased_up,
         upper_char, lower_char, is_upper, is_lower, is_digit, is_space, is_ascii,
         is_high, is_low in *.

Ltac char_solve :=
  char_unfold;
  repeat match goal with
         | |- context [if ?b then _ else _] => destruct b eqn:?
         | H : context [if ?b then _ else _] |- _ => destruct b eqn:?
         end;
  lia.

(** ** The matcher and the meaning of patterns *)

Module RegexFacts.
Import Regex RegexSpec.

Lemma star_loop_sound (r : regex) (m : cont -> cont) :
  (forall k s x, m k s = Some x -> exists s', matches r s s' /\ k s' = Some x) ->
  forall fuel k s x,
    star_loop m k fuel s = Some x ->
    exists s', iter (matches r) s s' /\ k s' = Some x.
Proof.
  intros Hm fuel. induction fuel as [|fuel IH]; simpl; intros k s x H.
  - exists s. split; [constructor | assumption].
  - destruct (m _ s) as [y|] eqn:E.
    + inversion H; subst y. apply Hm in E. destruct E as (s1 & Hs1 & Hk).
      destruct (length (after s1) <? length (after s)) eqn:L; [|discriminate].
      apply IH in Hk. destruct Hk as (s' & Hit & Hk).
      exists s'. split; [|assumption].
      eapply iter_step; eauto. apply Nat.ltb_lt; assumption.
    + exists s. split; [constructor | assumption].
Qed.

(** Soundness: whatever the matcher returns was reached through a match of
    the pattern, after which the continuation returned it. *)
Lemma rmatch_sound (r : regex) :
  forall k s x, rmatch r k s = Some x -> exists s', matches r s s' /\ k s' = Some x.
Proof.
  induction r as [|p|r1 IH1 r2 IH2|r1 IH1 r2 IH2|r IH| | | |n r IH];
    simpl; intros k s x H.
  - eauto.
  - destruct (after s) as [|c rest] eqn:E; [discriminate|].
    destruct (p c) eqn:P; [|discriminate].
    exists (advance c rest s). split; [|assumption]. exists c, rest. auto.
  - apply IH1 in H. destruct H as (s1 & H1 & H).
    apply IH2 in H. destruct H as (s' & H2 & H). eauto.
  - destruct (rmatch r1 k s) as [y|] eqn:E.
    + inversion H; subst y. apply IH1 in E. destruct E as (s' & ? & ?). eauto.
    + apply IH2 in H. destruct H as (s' & ? & ?). eauto.
  - eapply star_loop_sound; eauto.
  - destruct (before s) eqn:E; [|discriminate]. eauto.
  - destruct (after s) eqn:E; [|discriminate]. eauto.
  - destruct (at_word_boundary s) eqn:E; [|discriminate]. eauto.
  - apply IH in H. destruct H as (s1 & H1 & H). eauto.
Qed.

Lemma star_loop_complete (r : regex) (m : cont -> cont) :
  (forall k s s', matches r s s' -> k s' <> None -> m k s <> None) ->
  forall s s', iter (matches r) s s' ->
  forall k fuel, length (after s) <= fuel -> k s' <> None ->
    star_loop m k fuel s <> None.
Proof.
  intros Hm s s' Hit. induction Hit as [s|s s1 s2 Hs1 Hlt Hit IH]; intros k fuel Hf Hk.
  - destruct fuel; simpl; [assumption|].
    destruct (m _ s); [discriminate | assumption].
  - destruct fuel as [|fuel]; [lia|]. simpl.
    destruct (m _ s) eqn:E; [discriminate|].
    exfalso. revert E. eapply Hm; [exact Hs1|].
    pose proof Hlt as Hb. apply Nat.ltb_lt in Hb. rewrite Hb.
    apply IH; [lia | assumption].
Qed.

(** Completeness: when the pattern matches up to a position the
    continuation accepts, the matcher finds a result. *)
Lemma rmatch_complete (r : regex) :
  forall k s s', matches r s s' -> k s' <> None -> rmatch r k s <> None.
Proof.
  induction r as [|p|r1 IH1 r2 IH2|r1 IH1 r2 IH2|r IH| | | |n r IH];
    simpl; intros k s s' H Hk.
  - subst; assumption.
  - destruct H as (c & rest & E & P & ->). rewrite E, P. assumption.
  - destruct H as (s1 & H1 & H2). eapply IH1; eauto.
  - destruct (rmatch r1 k s) eqn:E; [discriminate|].
    destruct H as [H|H]; [|eauto].
    exfalso. revert E. eapply IH1; eauto.
  - eapply star_loop_complete; eauto.
  - destruct H as (E & ->). rewrite E. assumption.
  - destruct H as (E & ->). rewrite E. assumption.
  - destruct H as (E & ->). rewrite E. assumption.
  - destruct H as (s1 & H1 & ->). eapply IH; eauto.
Qed.

Lemma span_nil s : span [] s s.
Proof. split; reflexivity. Qed.

Lemma span_app w1 w2 s s1 s2 : span w1 s s1 -> span w2 s1 s2 -> span (w1 ++ w2) s s2.
Proof.
  intros [A1 B1] [A2 B2]. split.
  - rewrite A1, A2, app_assoc. reflexivity.
  - rewrite B2, B1, rev_app_distr, app_assoc. reflexivity.
Qed.

Lemma span_set_cap w n v s s' : span w s s' -> span w s (set_cap n v s').
Proof. intros [A B]. split; assumption. Qed.

Lemma iter_span (R : mstate -> mstate -> Prop) :
  (forall s s', R s s' -> exists w, span w s s') ->
  forall s s', iter R s s' -> exists w, span w s s'.
Proof.
  intros HR s s' H. induction H as [s|s s1 s2 H1 _ _ IH].
  - exists []. apply span_nil.
  - destruct (HR _ _ H1) as (w1 & S1). destruct IH as (w2 & S2).
    exists (w1 ++ w2). eapply span_app; eauto.
Qed.

Lemma matches_span (r : regex) :
  forall s s', matches r s s' -> exists w, span w s s'.
Proof.
  induction r as [|p|r1 IH1 r2 IH2|r1 IH1 r2 IH2|r IH| | | |n r IH];
    simpl; intros s s' H.
  - subst. exists []. apply span_nil.
  - destruct H as (c & rest & E & _ & ->). exists [c]. split; simpl; auto.
  - destruct H as (s1 & H1 & H2).
    destruct (IH1 _ _ H1) as (w1 & S1). destruct (IH2 _ _ H2) as (w2 & S2).
    exists (w1 ++ w2). eapply span_app; eauto.
  - destruct H as [H|H]; eauto.
  - eapply iter_span; eauto.
  - destruct H as (_ & ->). exists []. apply span_nil.
  - destruct H as (_ & ->). exists []. apply span_nil.
  - destruct H as (_ & ->). exists []. apply span_nil.
  - destruct H as (s1 & H1 & ->). destruct (IH _ _ H1) as (w & S).
    exists w. apply span_set_cap. assumption.
Qed.

Lemma firstn_span (w r : str) : firstn (length (w ++ r) - length r) (w ++ r) = w.
Proof.
  rewrite length_app.
  replace (length w + length r - length r) with (length w) by lia.
  rewrite firstn_app, firstn_all, Nat.sub_diag. simpl. apply app_nil_r.
Qed.

Lemma span_length w s s' : span w s s' -> length (after s) = length w + length (after s').
Proof. intros [A _]. rewrite A, length_app. reflexivity. Qed.

(** The text matched by a starred class is made of members of the class. *)
Lemma matches_star_class (p : char -> bool) s s' :
  matches (Star (Chr p)) s s' ->
  exists w, span w s s' /\ Forall (fun c => p c = true) w /\ caps s' = caps s.
Proof.
  simpl. intros H. induction H as [s|s s1 s2 H1 _ _ IH].
  - exists []. split; [apply span_nil | split; [constructor | reflexivity]].
  - destruct H1 as (c & rest & E & P & ->).
    destruct IH as (w & S & F & C). exists (c :: w). split; [|split].
    + change (c :: w) with ([c] ++ w). eapply span_app; [|exact S].
      split; simpl; auto.
    + constructor; assumption.
    + rewrite C. reflexivity.
Qed.

Lemma star_class_matches (p : char -> bool) (w : str) :
  Forall (fun c => p c = true) w ->
  forall bef aft cs,
    matches (Star (Chr p)) {| before := bef; after := w ++ aft; caps := cs |}
                           {| before := rev w ++ bef; after := aft; caps := cs |}.
Proof.
  simpl. induction 1 as [|c w Pc _ IH]; intros bef aft cs.
  - constructor.
  - eapply iter_step with (s1 := {| before := c :: bef; after := w ++ aft; caps := cs |}).
    + exists c, (w ++ aft). simpl. auto.
    + simpl. lia.
    + specialize (IH (c :: bef) aft cs). simpl.
      rewrite <- app_assoc. simpl. exact IH.
Qed.

(** A literal word under the [i] flag matches the texts that agree with it
    up to letter case. *)
Lemma matches_lit_i (kw : str) :
  forall s s', matches (lit_i kw) s s' ->
  exists w, span w s s' /\ same_ci w kw /\ caps s' = caps s.
Proof.
  induction kw as [|c kw IH]; simpl; intros s s' H.
  - subst. exists []. split; [apply span_nil | split; reflexivity].
  - destruct H as (s1 & (x & rest & E & P & ->) & H2).
    apply IH in H2. destruct H2 as (w & S & C & K).
    exists (x :: w). split; [|split].
    + change (x :: w) with ([x] ++ w). eapply span_app; [|exact S].
      split; simpl; auto.
    + unfold same_ci in *. simpl. apply N.eqb_eq in P. rewrite P, C. reflexivity.
    + rewrite K. reflexivity.
Qed.

Lemma lit_i_matches (kw w : str) :
  same_ci w kw ->
  forall bef aft cs,
    matches (lit_i kw) {| before := bef; after := w ++ aft; caps := cs |}
                       {| before := rev w ++ bef; after := aft; caps := cs |}.
Proof.
  revert w. induction kw as [|c kw IH]; intros w H bef aft cs.
  - destruct w; [reflexivity | discriminate].
  - destruct w as [|x w]; [discriminate|]. unfold same_ci in H. simpl in H.
    injection H as Hx Hw. simpl.
    exists {| before := x :: bef; after := w ++ aft; caps := cs |}. split.
    + exists x, (w ++ aft). simpl. rewrite Hx, N.eqb_refl. auto.
    + rewrite <- app_assoc. simpl. apply IH. exact Hw.
Qed.

(** The search tries the start positions from left to right. *)
Lemma search_from_sound (r : regex) :
  forall aft bef m,
    search_from r bef aft = Some m ->
    exists skipped rest,
      aft = skipped ++ rest /\
      matches r {| before := rev skipped ++ bef; after := rest; caps := [] |} m.
Proof.
  induction aft as [|c aft IH]; simpl; intros bef m H.
  - destruct (rmatch r Some _) eqn:E; [|discriminate]. inversion H; subst.
    apply rmatch_sound in E. destruct E as (s' & Hm & Hs). inversion Hs; subst.
    exists [], []. auto.
  - destruct (rmatch r Some _) eqn:E.
    + inversion H; subst.
      apply rmatch_sound in E. destruct E as (s' & Hm & Hs). inversion Hs; subst.
      exists [], (c :: aft). auto.
    + apply IH in H. destruct H as (skipped & rest & -> & Hm).
      exists (c :: skipped), rest. split; [reflexivity|].
      simpl. rewrite <- app_assoc. exact Hm.
Qed.

Lemma search_from_complete (r : regex) :
  forall skipped rest bef m,
    matches r {| before := rev skipped ++ bef; after := rest; caps := [] |} m ->
    search_from r bef (skipped ++ rest) <> None.
Proof.
  induction skipped as [|c skipped IH]; intros rest bef m H.
  - simpl in *.
    assert (E : rmatch r Some {| before := bef; after := rest; caps := [] |} <> None)
      by (eapply rmatch_complete; [exact H | discriminate]).
    destruct rest; simpl; destruct (rmatch r Some _); congruence.
  - simpl. destruct (rmatch r Some _); [discriminate|].
    eapply IH. simpl in H. rewrite <- app_assoc in H. exact H.
Qed.

End RegexFacts.

(** ** Strings *)

Module JSFacts.

Lemma str_eqb_eq (a b : str) : str_eqb a b = true <-> a = b.
Proof.
  revert b. induction a as [|x a IH]; intros [|y b]; simpl; split; intros H;
    try reflexivity; try discriminate.
  - apply andb_true_iff in H. destruct H as [H1 H2].
    apply N.eqb_eq in H1. apply IH in H2. subst. reflexivity.
  - injection H as -> ->. rewrite N.eqb_refl. simpl. apply IH. reflexivity.
Qed.

Lemma str_eqb_refl (a : str) : str_eqb a a = true.
Proof. apply str_eqb_eq. reflexivity. Qed.

Lemma str_eqb_neq (a b : str) : str_eqb a b = false <-> a <> b.
Proof.
  split; intros H.
  - intros E. apply str_eqb_eq in E. congruence.
  - destruct (str_eqb a b) eqn:E; [|reflexivity]. apply str_eqb_eq in E. contradiction.
Qed.

Lemma arr_includes_In (xs : list str) (x : str) : arr_includes xs x = true <-> In x xs.
Proof.
  unfold arr_includes. rewrite existsb_exists. split.
  - intros (y & Hy & E). apply str_eqb_eq in E. subst. assumption.
  - intros H. exists x. split; [assumption | apply str_eqb_refl].
Qed.

Lemma startsWith_spec (s p : str) : startsWith s p = true <-> exists rest, s = p ++ rest.
Proof.
  revert s. induction p as [|x p IH]; intros s; simpl.
  - split; [intros _; exists s; reflexivity | reflexivity].
  - destruct s as [|y s]; simpl.
    + split; [discriminate | intros (rest & H); discriminate].
    + rewrite andb_true_iff, N.eqb_eq, IH. split.
      * intros (-> & rest & ->). eauto.
      * intros (rest & H). injection H as -> ->. eauto.
Qed.

Lemma startsWith_char (c : char) (s : str) :
  startsWith s [c] = match s with x :: _ => N.eqb c x | [] => false end.
Proof. destruct s; simpl; [reflexivity | apply andb_true_r]. Qed.

Lemma includes_char (c : char) (s : str) : includes s [c] = true <-> In c s.
Proof.
  induction s as [|x s IH].
  - simpl. split; [discriminate | contradiction].
  - cbn [includes]. rewrite startsWith_char, orb_true_iff, IH, N.eqb_eq. simpl.
    split; intros [H|H]; auto.
Qed.

(** The index [indexOf] returns for a character is that of its first
    occurrence. *)
Lemma indexOf_from_char (c : char) (s : str) :
  forall i,
    (indexOf_from i s [c] = (-1)%Z /\ ~ In c s) \/
    (exists n, indexOf_from i s [c] = (i + Z.of_nat n)%Z /\
               nth_error s n = Some c /\
               forall m, m < n -> nth_error s m <> Some c).
Proof.
  induction s as [|x s IH]; intros i.
  - left. simpl. auto.
  - cbn [indexOf_from]. rewrite startsWith_char.
    destruct (N.eqb c x) eqn:E.
    + apply N.eqb_eq in E. subst x. right. exists 0. simpl.
      split; [f_equal; lia | split; [reflexivity | intros m Hm; lia]].
    + apply N.eqb_neq in E. destruct (IH (i + 1)%Z) as [(H1 & H2)|(n & H1 & H2 & H3)].
      * left. split; [assumption|]. simpl. intros [H|H]; [congruence | contradiction].
      * right. exists (S n). split; [rewrite H1; lia | split; [assumption|]].
        intros [|m] Hm; simpl; [congruence | apply H3; lia].
Qed.

Lemma semicolon_check (c : char) (t : str) :
  includes t [c] && (indexOf t [c] <? strlen t - 1)%Z = true <->
  exists i, nth_error t i = Some c /\ S i < length t.
Proof.
  rewrite andb_true_iff, includes_char, Z.ltb_lt. unfold indexOf, strlen.
  destruct (indexOf_from_char c t 0) as [(H1 & H2)|(n & H1 & H2 & H3)].
  - split.
    + intros (H & _). contradiction.
    + intros (i & Hi & _). exfalso. apply H2. eapply nth_error_In; eauto.
  - rewrite H1. split.
    + intros (_ & H). exists n. split; [assumption | lia].
    + intros (i & Hi & Hlt). split; [eapply nth_error_In; eauto|].
      assert (n <= i) by (destruct (Nat.le_gt_cases n i); [assumption|];
                          exfalso; eapply H3; eauto).
      lia.
Qed.

(** Case mapping. *)
Lemma upper_char_not_lower (c : char) : is_lower (upper_char c) = false.
Proof. char_solve. Qed.

Lemma upper_char_id (c : char) : is_lower c = false -> upper_char c = c.
Proof. unfold upper_char. intros ->. reflexivity. Qed.

Lemma is_upper_not_lower (c : char) : is_upper c = true -> is_lower c = false.
Proof. intros H. char_solve. Qed.

Lemma is_upper_word (c : char) : is_upper c = true -> is_word c = true.
Proof. unfold is_word. intros ->. reflexivity. Qed.

Lemma cased_up_not_lower (d : char) : cased_up d = true -> is_lower d = false.
Proof. intros H. char_solve. Qed.

Lemma cased_up_not_space (d : char) : cased_up d = true -> is_space d = false.
Proof. intros H. char_solve. Qed.

Lemma space_not_high (c : char) : is_space c = true -> is_high c = false.
Proof. intros H. char_solve. Qed.

Lemma space_not_low (c : char) : is_space c = true -> is_low c = false.
Proof. intros H. char_solve. Qed.

Lemma ascii_not_low (c : char) : is_ascii c = true -> is_low c = false.
Proof. intros H. char_solve. Qed.

Lemma space_upper_char (c : char) : is_space c = true -> upper_char c = c.
Proof. intros H. char_solve. Qed.

Lemma upper_char_space (c : char) : is_space (upper_char c) = is_space c.
Proof. char_solve. Qed.

Section WithUnicode.

Context {unicode : CaseMappings}.

(** The four ways [toUpperCase] reads the head of a text. *)
Lemma toUpperCase_ascii (c : char) (s : str) :
  is_ascii c = true -> toUpperCase (c :: s) = upper_char c :: toUpperCase s.
Proof. intros H. cbn [toUpperCase]. rewrite H. reflexivity. Qed.

Lemma toUpperCase_single (c : char) :
  is_ascii c = false -> toUpperCase [c] = upper_unit c.
Proof. intros H. cbn [toUpperCase]. rewrite H. reflexivity. Qed.

Lemma toUpperCase_pair (h l : char) (s : str) :
  is_ascii h = false -> is_high h && is_low l = true ->
  toUpperCase (h :: l :: s) = upper_pair h l ++ toUpperCase s.
Proof. intros H P. cbn [toUpperCase]. rewrite H, P. reflexivity. Qed.

Lemma toUpperCase_unit (c l : char) (s : str) :
  is_ascii c = false -> is_high c && is_low l = false ->
  toUpperCase (c :: l :: s) = upper_unit c ++ toUpperCase (l :: s).
Proof. intros H P. cbn [toUpperCase]. rewrite H, P. reflexivity. Qed.

(** Induction along the characters [toUpperCase] reads. *)
Lemma upper_ind (P : str -> Prop) :
  P [] ->
  (forall c s, is_ascii c = true -> P s -> P (c :: s)) ->
  (forall c, is_ascii c = false -> P [c]) ->
  (forall h l s, is_ascii h = false -> is_high h && is_low l = true ->
                 P s -> P (h :: l :: s)) ->
  (forall c l s, is_ascii c = false -> is_high c && is_low l = false ->
                 P (l :: s) -> P (c :: l :: s)) ->
  forall s, P s.
Proof.
  intros Hnil Hascii Hsingle Hpair Hunit s.
  assert (G : forall n (t : str), length t <= n -> P t).
  { induction n as [|n IH]; intros t Hlen.
    - destruct t; [exact Hnil | simpl in Hlen; lia].
    - destruct t as [|c t]; [exact Hnil|]. simpl in Hlen.
      destruct (is_ascii c) eqn:A.
      + apply Hascii; [exact A | apply IH; lia].
      + destruct t as [|l t]; [apply Hsingle, A|]. simpl in Hlen.
        destruct (is_high c && is_low l) eqn:Q.
        * apply Hpair; [exact A | exact Q | apply IH; lia].
        * apply Hunit; [exact A | exact Q | apply IH; simpl; lia]. }
  apply (G (length s)). lia.
Qed.

(** The mapping of a character outside ASCII that is not white space. *)
Lemma upper_unit_image (c : char) :
  is_ascii c = false -> is_space c = false ->
  exists d img, upper_unit c = d :: img /\ Forall (fun x => cased_up x = true) (d :: img).
Proof.
  intros A S. destruct (upper_unit_cased c A S) as [Hne Hc].
  destruct (upper_unit c) as [|d img]; [contradiction|].
  exists d, img. split; [reflexivity|]. apply Forall_forall. intros x Hx.
  rewrite forallb_forall in Hc. auto.
Qed.

Lemma upper_pair_image (h l : char) :
  is_high h && is_low l = true ->
  exists d img, upper_pair h l = d :: img /\ Forall (fun x => cased_up x = true) (d :: img).
Proof.
  intros Q. apply andb_true_iff in Q. destruct Q as [Hh Hl].
  destruct (upper_pair_cased h l Hh Hl) as [Hne Hc].
  destruct (upper_pair h l) as [|d img]; [contradiction|].
  exists d, img. split; [reflexivity|]. apply Forall_forall. intros x Hx.
  rewrite forallb_forall in Hc. auto.
Qed.

Lemma high_not_space (h l : char) : is_high h && is_low l = true -> is_space h = false.
Proof. intros Q. char_solve. Qed.

(** White space has no case. *)
Lemma toUpperCase_space (c : char) (s : str) :
  is_space c = true -> toUpperCase (c :: s) = c :: toUpperCase s.
Proof.
  intros S. destruct (is_ascii c) eqn:A.
  - rewrite (toUpperCase_ascii c s A), (space_upper_char c S). reflexivity.
  - destruct s as [|l s].
    + rewrite (toUpperCase_single c A), (upper_unit_space c S). reflexivity.
    + rewrite toUpperCase_unit, (upper_unit_space c S); [reflexivity | exact A|].
      rewrite (space_not_high c S). reflexivity.
Qed.

(** Inside ASCII the conversions are the maps of the letters. *)
Lemma toUpperCase_plain (s : str) :
  forallb is_ascii s = true -> toUpperCase s = map upper_char s.
Proof.
  induction s as [|c s IH]; [reflexivity|]. cbn [forallb]. intros H.
  apply andb_true_iff in H. destruct H as [A H].
  rewrite (toUpperCase_ascii c s A), (IH H). reflexivity.
Qed.

Lemma toLowerCase_plain (s : str) :
  forallb is_ascii s = true -> toLowerCase s = map lower_char s.
Proof. intros H. unfold toLowerCase. rewrite H. reflexivity. Qed.

(** A text may be cut before a character that is not a low surrogate. *)
Lemma toUpperCase_app (a : str) (c : char) (b : str) :
  is_low c = false ->
  toUpperCase (a ++ c :: b) = toUpperCase a ++ toUpperCase (c :: b).
Proof.
  intros L. induction a as [|x a A IH|x A|h l a A Q IH|x l a A Q IH] using upper_ind.
  - reflexivity.
  - cbn [app]. rewrite !(toUpperCase_ascii x _ A), IH. reflexivity.
  - cbn [app]. rewrite toUpperCase_unit, (toUpperCase_single x A); [reflexivity | exact A|].
    rewrite L. apply andb_false_r.
  - cbn [app]. rewrite !(toUpperCase_pair h l _ A Q), IH, app_assoc. reflexivity.
  - cbn [app] in *. rewrite !(toUpperCase_unit x l _ A Q), IH, app_assoc. reflexivity.
Qed.

Lemma toUpperCase_app_nil (a b : str) :
  match b with [] => True | c :: _ => is_low c = false end ->
  toUpperCase (a ++ b) = toUpperCase a ++ toUpperCase b.
Proof.
  destruct b as [|c b]; intros H.
  - rewrite !app_nil_r. reflexivity.
  - apply toUpperCase_app, H.
Qed.

(** Every character of an upper-cased text is the upper-case form of an
    ASCII character or belongs to a mapping of the tables. *)
Lemma toUpperCase_chars (s : str) :
  Forall (fun d => cased_up d = true \/
                   exists c, In c s /\ d = upper_char c /\
                             (is_ascii c = true \/ is_space c = true))
         (toUpperCase s).
Proof.
  assert (W : forall (x : char) (t : str) (l : str),
            Forall (fun d => cased_up d = true \/
                      exists c, In c t /\ d = upper_char c /\
                                (is_ascii c = true \/ is_space c = true)) l ->
            forall pre, Forall (fun d => cased_up d = true \/
                      exists c, In c (pre ++ t) /\ d = upper_char c /\
                                (is_ascii c = true \/ is_space c = true)) l).
  { intros _ t l F pre. revert F. apply Forall_impl. intros d [H|(c & Hin & E)]; [left; exact H|].
    right. exists c. split; [apply in_or_app; right; exact Hin | exact E]. }
  assert (I : forall (c : char) (t : str), is_ascii c = false ->
            Forall (fun d => cased_up d = true \/
                      exists c0, In c0 (c :: t) /\ d = upper_char c0 /\
                                 (is_ascii c0 = true \/ is_space c0 = true))
                   (upper_unit c)).
  { intros c t A. destruct (is_space c) eqn:S.
    - rewrite (upper_unit_space c S). constructor; [|constructor]. right.
      exists c. split; [left; reflexivity|]. split; [|right; exact S].
      symmetry. apply space_upper_char, S.
    - destruct (upper_unit_image c A S) as (d & img & -> & F).
      revert F. apply Forall_impl. intros x Hx. left. exact Hx. }
  induction s as [|c s A IH|c A|h l s A Q IH|c l s A Q IH] using upper_ind.
  - constructor.
  - rewrite (toUpperCase_ascii c s A). constructor.
    + right. exists c. split; [left; reflexivity|]. split; [reflexivity | left; exact A].
    + apply (W c s _ IH [c]).
  - rewrite (toUpperCase_single c A). apply I, A.
  - rewrite (toUpperCase_pair h l s A Q). apply Forall_app. split.
    + destruct (upper_pair_image h l Q) as (d & img & -> & F).
      revert F. apply Forall_impl. intros x Hx. left. exact Hx.
    + apply (W h s _ IH [h; l]).
  - rewrite (toUpperCase_unit c l s A Q). apply Forall_app. split.
    + apply I, A.
    + apply (W c (l :: s) _ IH [c]).
Qed.

Lemma toUpperCase_no_lower (s : str) :
  Forall (fun c => is_lower c = false) (toUpperCase s).
Proof.
  pose proof (toUpperCase_chars s) as F. revert F. apply Forall_impl.
  intros d [H | (c & _ & -> & _)];
    [apply cased_up_not_lower, H | apply upper_char_not_lower].
Qed.

End WithUnicode.

Lemma trimStart_suffix (s : str) : exists ws, s = ws ++ trimStart s.
Proof.
  induction s as [|c s (ws & IH)]; simpl.
  - exists []. reflexivity.
  - destruct (is_space c).
    + exists (c :: ws). simpl. f_equal. assumption.
    + exists []. reflexivity.
Qed.

Lemma trimStart_Forall (P : char -> Prop) (s : str) : Forall P s -> Forall P (trimStart s).
Proof.
  intros H. destruct (trimStart_suffix s) as (ws & E). rewrite E in H.
  apply Forall_app in H. tauto.
Qed.

Lemma trim_Forall (P : char -> Prop) (s : str) : Forall P s -> Forall P (trim s).
Proof.
  intros H. unfold trim, trimEnd.
  apply Forall_rev. apply trimStart_Forall. apply Forall_rev.
  apply trimStart_Forall. assumption.
Qed.

Lemma trimStart_length (s : str) : length (trimStart s) <= length s.
Proof.
  destruct (trimStart_suffix s) as (ws & E). rewrite E at 2. rewrite length_app. lia.
Qed.

Lemma trim_length (s : str) : length (trim s) <= length s.
Proof.
  unfold trim, trimEnd. rewrite length_rev.
  etransitivity; [apply trimStart_length|]. rewrite length_rev. apply trimStart_length.
Qed.

Lemma endsWith_char_nonempty (c : char) (s : str) : endsWith s [c] = true -> s <> [].
Proof. intros H ->. discriminate. Qed.

Lemma same_upper_eq (w kw : str) :
  map upper_char w = map upper_char kw ->
  Forall (fun c => is_lower c = false) w ->
  Forall (fun c => is_lower c = false) kw ->
  w = kw.
Proof.
  revert kw. induction w as [|x w IH]; intros [|y kw] E Hw Hk; try discriminate.
  - reflexivity.
  - simpl in E. injection E as Ex Ew. inversion Hw; subst. inversion Hk; subst.
    rewrite !upper_char_id in Ex by assumption. f_equal; [assumption | auto].
Qed.

End JSFacts.

(** ** The safety validator *)

Module ValidationFacts.
Import Regex RegexSpec RegexFacts JSFacts Validation ValidationSpec.

Section WithUnicode.

Context {unicode : CaseMappings}.

Lemma blocked_keywords_upper (kw : str) :
  In kw BLOCKED_KEYWORDS -> kw <> [] /\ Forall (fun c => is_upper c = true) kw.
Proof.
  unfold BLOCKED_KEYWORDS. simpl. intros H.
  repeat (destruct H as [<-|H]; [split; [discriminate | repeat constructor]|]).
  contradiction.
Qed.

Lemma upper_word_end (kw : str) :
  kw <> [] -> Forall (fun c => is_upper c = true) kw ->
  exists c t, rev kw = c :: t /\ is_word c = true.
Proof.
  intros Hne Hup. destruct (rev kw) as [|c t] eqn:E.
  - exfalso. apply Hne. rewrite <- (rev_involutive kw), E. reflexivity.
  - exists c, t. split; [reflexivity|]. apply is_upper_word.
    rewrite Forall_forall in Hup. apply Hup. apply in_rev. rewrite E. left. reflexivity.
Qed.

Lemma boundary_after_word (c : char) (t post : list char) cs :
  is_word c = true ->
  at_word_boundary {| before := c :: t; after := post; caps := cs |} = true <->
  match post with [] => True | d :: _ => is_word d = false end.
Proof.
  intros Hc. unfold at_word_boundary. simpl. rewrite Hc.
  destruct post as [|d post]; simpl; [tauto|].
  destruct (is_word d); simpl; split; auto; discriminate.
Qed.

(** The pattern of a keyword finds the keyword exactly where it leads a
    statement. *)
Lemma test_blocked_pattern (kw text : str) :
  kw <> [] -> Forall (fun c => is_upper c = true) kw ->
  Forall (fun c => is_lower c = false) text ->
  test (blocked_pattern kw) text = true <-> leading_keyword kw text.
Proof.
  intros Hne Hup Htext.
  destruct (upper_word_end kw Hne Hup) as (cl & tl & Hrev & Hword).
  assert (Hkwlow : Forall (fun c => is_lower c = false) kw).
  { eapply Forall_impl; [|exact Hup]. intros a. apply is_upper_not_lower. }
  unfold test. split.
  - destruct (search_from _ [] text) as [m|] eqn:E; [intros _ | discriminate].
    apply search_from_sound in E. destruct E as (skipped & rest & -> & Hm).
    unfold blocked_pattern in Hm. cbn [matches] in Hm.
    destruct Hm as (s1 & (s1' & Halt & ->) & s3 & Hlit & Hb & ->).
    apply matches_lit_i in Hlit. destruct Hlit as (w & (Ha & Hbef) & Hci & _).
    simpl in Ha, Hbef.
    assert (Hw : w = kw).
    { destruct Halt as [(_ & ->)|(s2 & (c & r' & E1 & _ & ->) & Hst)].
      - simpl in Ha. rewrite Ha in Htext.
        apply Forall_app in Htext. destruct Htext as [_ Htext].
        apply Forall_app in Htext. destruct Htext as [Htext _].
        apply same_upper_eq; assumption.
      - apply matches_star_class in Hst.
        destruct Hst as (ws & (Hs1 & _) & _ & _). simpl in Hs1, E1.
        subst rest. rewrite Hs1, Ha in Htext.
        apply Forall_app in Htext. destruct Htext as [_ Htext].
        inversion Htext as [|? ? _ Htext']; subst.
        apply Forall_app in Htext'. destruct Htext' as [_ Htext'].
        apply Forall_app in Htext'. destruct Htext' as [Htext' _].
        apply same_upper_eq; assumption. }
    subst w.
    assert (Hpost : match after s3 with [] => True | d :: _ => is_word d = false end).
    { destruct s3 as [b3 a3 c3]. simpl in *. rewrite Hbef, Hrev in Hb. simpl in Hb.
      eapply boundary_after_word; eauto. }
    destruct Halt as [(Hbol & ->)|(s2 & (c & r' & E1 & Pc & ->) & Hst)].
    + simpl in Hbol, Ha.
      assert (skipped = []).
      { rewrite app_nil_r in Hbol. rewrite <- (rev_involutive skipped), Hbol. reflexivity. }
      subst skipped. exists [], [], (after s3). simpl. rewrite Ha. auto.
    + apply matches_star_class in Hst.
      destruct Hst as (ws & (Hs1 & _) & Hws & _). simpl in Hs1, E1.
      apply N.eqb_eq in Pc. subst c. subst rest. rewrite Hs1, Ha.
      exists (skipped ++ [";"%u]), ws, (after s3). split; [|split].
      * rewrite <- app_assoc. reflexivity.
      * right. split; [eauto | assumption].
      * assumption.
  - intros (pre & ws & post & -> & Hpos & Hpost).
    assert (Hnn : forall o : option mstate, o <> None ->
                  match o with Some _ => true | None => false end = true)
      by (intros [x|] H; [reflexivity | congruence]).
    apply Hnn. clear Hnn.
    destruct Hpos as [(-> & ->)|((p & ->) & Hws)].
    + simpl. apply (search_from_complete (blocked_pattern kw) [] (kw ++ post) []
                      {| before := rev kw ++ []; after := post;
                         caps := [(1, [])] |}).
      unfold blocked_pattern. cbn [matches rev app].
      exists {| before := []; after := kw ++ post; caps := [(1, [])] |}. split.
      * exists {| before := []; after := kw ++ post; caps := [] |}. split.
        -- left. split; reflexivity.
        -- unfold set_cap, consumed. simpl. rewrite Nat.sub_diag. reflexivity.
      * eexists. split; [apply lit_i_matches; reflexivity|].
        split; [|reflexivity]. rewrite Hrev. simpl.
        apply boundary_after_word; assumption.
    + rewrite <- app_assoc. simpl.
      apply (search_from_complete (blocked_pattern kw) p (";"%u :: ws ++ kw ++ post) []
               {| before := rev kw ++ rev ws ++ ";"%u :: rev p ++ [];
                  after := post; caps := [(1, ";"%u :: ws)] |}).
      unfold blocked_pattern. cbn [matches].
      exists {| before := rev ws ++ ";"%u :: rev p ++ []; after := kw ++ post;
                caps := [(1, ";"%u :: ws)] |}. split.
      * exists {| before := rev ws ++ ";"%u :: rev p ++ []; after := kw ++ post;
                  caps := [] |}. split.
        -- right.
           exists {| before := ";"%u :: rev p ++ []; after := ws ++ kw ++ post;
                     caps := [] |}. split.
           ++ exists ";"%u, (ws ++ kw ++ post). simpl. auto.
           ++ apply (star_class_matches is_space ws Hws).
        -- unfold set_cap, consumed. cbn [after before caps].
           change (";"%u :: ws ++ kw ++ post) with ((";"%u :: ws) ++ kw ++ post).
           rewrite firstn_span. reflexivity.
      * eexists. split; [apply lit_i_matches; reflexivity|].
        split; [|reflexivity]. rewrite Hrev. simpl.
        apply boundary_after_word; assumption.
Qed.

Lemma normalized_no_lower (sql : str) :
  Forall (fun c => is_lower c = false) (trim (toUpperCase sql)).
Proof. apply trim_Forall, toUpperCase_no_lower. Qed.

Lemma begins_with_check (text : str) :
  negb (startsWith text (js "SELECT")) && negb (startsWith text (js "WITH")) = false <->
  begins_with text (js "SELECT") \/ begins_with text (js "WITH").
Proof.
  unfold begins_with. rewrite <- !startsWith_spec.
  destruct (startsWith text (js "SELECT")), (startsWith text (js "WITH")); simpl;
    split; auto; intros [H|H]; discriminate.
Qed.

(** Whether the white space between a semicolon and a keyword is let
    through or not makes no difference once a semicolon before the end is
    ruled out. *)
Lemma keyword_readings_agree (text : str) :
  ~ semicolon_before_end text ->
  ((forall kw, In kw BLOCKED_KEYWORDS -> ~ leading_keyword kw text) <->
   (forall kw, In kw BLOCKED_KEYWORDS -> ~ keyword_right_after kw text)).
Proof.
  intros Hs. split; intros H kw Hin.
  - intros (pre & post & E & Hpre & Hpost). apply (H kw Hin).
    exists pre, [], post. split; [assumption|]. split; [|assumption].
    destruct Hpre as [->|Hp]; [left; auto | right; split; [assumption | constructor]].
  - intros (pre & ws & post & E & Hpos & Hpost).
    destruct Hpos as [(-> & ->)|((p & ->) & Hws)].
    + apply (H kw Hin). exists [], post. auto.
    + apply Hs. exists (length p). subst text. split.
      * rewrite <- app_assoc. rewrite nth_error_app2 by lia.
        rewrite Nat.sub_diag. reflexivity.
      * destruct (blocked_keywords_upper kw Hin) as [Hne _].
        destruct kw; [congruence|]. rewrite !length_app. simpl. lia.
Qed.

(** C2. [validateSQL] accepts a text exactly when, on the upper-cased and
    trimmed text, no blocked keyword leads a statement, no semicolon stands
    before the final character, and the text begins with SELECT or WITH.
    The warnings play no part in the verdict, and a rejection carries the
    message of the rule that was violated: the keyword rule first, then the
    rule on several statements, then the rule on the leading clause.  The
    equivalence holds as well when only a keyword right after the start or
    right after a semicolon counts as leading. *)
Theorem C2_validateSQL_valid_iff (sql : str) :
  let text := trim (toUpperCase sql) in
  let res := validateSQL sql in
  (valid res = true <->
     (forall kw, In kw BLOCKED_KEYWORDS -> ~ leading_keyword kw text) /\
     ~ semicolon_before_end text /\
     (begins_with text (js "SELECT") \/ begins_with text (js "WITH")))
  /\
  (valid res = true <->
     (forall kw, In kw BLOCKED_KEYWORDS -> ~ keyword_right_after kw text) /\
     ~ semicolon_before_end text /\
     (begins_with text (js "SELECT") \/ begins_with text (js "WITH")))
  /\
  (valid res = false ->
     (exists kw, In kw BLOCKED_KEYWORDS /\ leading_keyword kw text /\
                 error res = Some (blocked_error kw)) \/
     ((forall kw, In kw BLOCKED_KEYWORDS -> ~ leading_keyword kw text) /\
      semicolon_before_end text /\ error res = Some multiple_error) \/
     ((forall kw, In kw BLOCKED_KEYWORDS -> ~ leading_keyword kw text) /\
      ~ semicolon_before_end text /\
      ~ (begins_with text (js "SELECT") \/ begins_with text (js "WITH")) /\
      error res = Some start_error)).
Proof.
  intros text res.
  assert (Hkw : forall kw, In kw BLOCKED_KEYWORDS ->
                  (test (blocked_pattern kw) text = true <-> leading_keyword kw text)).
  { intros kw Hin. destruct (blocked_keywords_upper kw Hin) as [Hne Hup].
    apply test_blocked_pattern; auto. apply normalized_no_lower. }
  assert (Hmain :
    (valid res = true <->
       (forall kw, In kw BLOCKED_KEYWORDS -> ~ leading_keyword kw text) /\
       ~ semicolon_before_end text /\
       (begins_with text (js "SELECT") \/ begins_with text (js "WITH")))
    /\
    (valid res = false ->
       (exists kw, In kw BLOCKED_KEYWORDS /\ leading_keyword kw text /\
                   error res = Some (blocked_error kw)) \/
       ((forall kw, In kw BLOCKED_KEYWORDS -> ~ leading_keyword kw text) /\
        semicolon_before_end text /\ error res = Some multiple_error) \/
       ((forall kw, In kw BLOCKED_KEYWORDS -> ~ leading_keyword kw text) /\
        ~ semicolon_before_end text /\
        ~ (begins_with text (js "SELECT") \/ begins_with text (js "WITH")) /\
        error res = Some start_error))).
  2:{ destruct Hmain as [Hiff Herr]. split; [exact Hiff|]. split; [|exact Herr].
      rewrite Hiff. split; intros (H1 & H2 & H3); (split; [|split]); try assumption;
        apply (keyword_readings_agree text H2); assumption. }
  subst res. unfold validateSQL. fold text. cbv zeta.
  destruct (find _ BLOCKED_KEYWORDS) as [kw|] eqn:F.
  - apply find_some in F. destruct F as [Hin Ht]. cbn [valid error]. split.
    + split; [discriminate|]. intros (Hno & _). exfalso.
      apply (Hno kw Hin). apply Hkw; assumption.
    + intros _. left. exists kw. split; [assumption|].
      split; [apply Hkw; assumption | reflexivity].
  - assert (Hno : forall kw, In kw BLOCKED_KEYWORDS -> ~ leading_keyword kw text).
    { intros kw Hin Hl. apply Hkw in Hl; [|assumption].
      pose proof (find_none _ _ F kw Hin) as Hf. simpl in Hf. congruence. }
    change (js ";") with [";"%u].
    destruct (includes text [";"%u] && _) eqn:S.
    + apply semicolon_check in S. cbn [valid error]. split.
      * split; [discriminate|]. intros (_ & Hs & _). contradiction.
      * intros _. right. left. auto.
    + assert (Hs : ~ semicolon_before_end text).
      { intros H. apply semicolon_check in H. congruence. }
      destruct (negb (startsWith text (js "SELECT")) && _) eqn:B.
      * assert (Hb : ~ (begins_with text (js "SELECT") \/ begins_with text (js "WITH"))).
        { intros H. apply begins_with_check in H. congruence. }
        cbn [valid error]. split.
        -- split; [discriminate|]. intros (_ & _ & H). contradiction.
        -- intros _. right. right. auto.
      * apply begins_with_check in B. cbn [valid error]. split.
        -- split; auto.
        -- discriminate.
Qed.

End WithUnicode.

(** The loop of [sanitizeSQL] has rounds enough: what it returns does not
    end with a semicolon. *)
Lemma sanitize_loop_clean (fuel : nat) :
  forall s, length s <= fuel -> endsWith (sanitize_loop fuel s) (js ";") = false.
Proof.
  induction fuel as [|fuel IH]; intros s Hlen; cbn [sanitize_loop].
  - destruct s; [reflexivity | simpl in Hlen; lia].
  - destruct (endsWith s (js ";")) eqn:E; [|assumption].
    apply IH. apply (endsWith_char_nonempty ";"%u) in E.
    etransitivity; [apply trim_length|]. unfold slice_0_m1.
    rewrite removelast_firstn_len, length_firstn.
    destruct s as [|c s]; [congruence|]. simpl in Hlen |- *. lia.
Qed.

Lemma sanitizeSQL_clean (sql : str) : endsWith (sanitizeSQL sql) (js ";") = false.
Proof. unfold sanitizeSQL. apply sanitize_loop_clean. reflexivity. Qed.

Section Run.

#[local] Existing Instance Examples.plain_tables.

(** The verdicts the specification lists as examples. *)
Example validate_examples :
  valid (validateSQL (js "SELECT 1")) = true /\
  valid (validateSQL (js "SELECT * FROM t")) = true /\
  error (validateSQL (js "DROP TABLE t")) = Some (blocked_error (js "DROP")) /\
  error (validateSQL (js "UPDATE t SET x=1")) = Some (blocked_error (js "UPDATE")) /\
  error (validateSQL (js "SELECT 1; SELECT 2")) = Some multiple_error /\
  valid (validateSQL (js "select 1;")) = true /\
  error (validateSQL (js "EXPLAIN SELECT 1")) = Some start_error.
Proof. repeat split; reflexivity. Qed.

End Run.

End ValidationFacts.

(* ================================================================== *)
(** ** Trimming, searching and case conversion *)
(* ================================================================== *)

Module TextFacts.
Import JSFacts TextSpec.

Lemma is_space_upper (c : char) : is_space (upper_char c) = is_space c.
Proof. char_solve. Qed.

Lemma is_space_lower (c : char) : is_space (lower_char c) = is_space c.
Proof. char_solve. Qed.

Lemma upper_char_semicolon (c : char) : upper_char c = ";"%u <-> c = ";"%u.
Proof. split; intros H; char_solve. Qed.

Lemma cased_up_not_semicolon (d : char) : cased_up d = true -> d <> ";"%u.
Proof. intros H. char_solve. Qed.

Lemma trimStart_head (s : str) : no_space_head (trimStart s).
Proof.
  induction s as [|c s IH]; [exact I|]. cbn [trimStart].
  destruct (is_space c) eqn:E; [exact IH | exact E].
Qed.

Lemma trimStart_id (s : str) : no_space_head s -> trimStart s = s.
Proof. destruct s as [|c s]; [reflexivity|]. simpl. intros ->. reflexivity. Qed.

Lemma trimStart_idem (s : str) : trimStart (trimStart s) = trimStart s.
Proof. apply trimStart_id, trimStart_head. Qed.

Lemma trimStart_app_keep (a : str) (x : char) (b : str) :
  is_space x = false -> trimStart (a ++ x :: b) = trimStart a ++ x :: b.
Proof.
  intros Hx. induction a as [|c a IH]; cbn [app trimStart].
  - rewrite Hx. reflexivity.
  - destruct (is_space c); [exact IH | reflexivity].
Qed.

Lemma trimEnd_app_keep (a : str) (x : char) (b : str) :
  is_space x = false -> trimEnd (a ++ x :: b) = a ++ x :: trimEnd b.
Proof.
  intros Hx. unfold trimEnd.
  assert (E : rev (a ++ x :: b) = rev b ++ x :: rev a).
  { rewrite rev_app_distr. cbn [rev]. rewrite <- app_assoc. reflexivity. }
  rewrite E, (trimStart_app_keep _ x _ Hx), rev_app_distr. cbn [rev].
  rewrite rev_involutive, <- app_assoc. reflexivity.
Qed.

Lemma trimEnd_idem (s : str) : trimEnd (trimEnd s) = trimEnd s.
Proof. unfold trimEnd. rewrite rev_involutive, trimStart_idem. reflexivity. Qed.

Lemma trimStart_split (s : str) :
  exists ws, s = ws ++ trimStart s /\ Forall (fun c => is_space c = true) ws.
Proof.
  induction s as [|c s IH].
  - exists []. split; [reflexivity | constructor].
  - cbn [trimStart]. destruct (is_space c) eqn:E.
    + destruct IH as (ws & Ht & Hws). exists (c :: ws). split.
      * cbn [app]. rewrite <- Ht. reflexivity.
      * constructor; assumption.
    + exists []. split; [reflexivity | constructor].
Qed.

Lemma trimEnd_prefix (s : str) :
  exists ws, s = trimEnd s ++ ws /\ Forall (fun c => is_space c = true) ws.
Proof.
  unfold trimEnd. destruct (trimStart_split (rev s)) as (ws & Hs & Hws).
  exists (rev ws). split.
  - rewrite <- rev_app_distr, <- Hs, rev_involutive. reflexivity.
  - apply Forall_rev. exact Hws.
Qed.

(** White space at the end is dropped, whatever stands before it. *)
Lemma trimEnd_spaces (a ws : str) :
  Forall (fun c => is_space c = true) ws -> trimEnd (a ++ ws) = trimEnd a.
Proof.
  intros F. unfold trimEnd. rewrite rev_app_distr. f_equal.
  apply Forall_rev in F. induction F as [|c l Hc _ IH]; [reflexivity|].
  cbn [app trimStart]. rewrite Hc. exact IH.
Qed.

(** What [trimEnd] returns is empty or ends with a character that is not
    white space. *)
Lemma trimEnd_last (s : str) :
  trimEnd s = [] \/ exists a z, trimEnd s = a ++ [z] /\ is_space z = false.
Proof.
  unfold trimEnd. pose proof (trimStart_head (rev s)) as H.
  destruct (trimStart (rev s)) as [|z t]; [left; reflexivity|].
  right. exists (rev t), z. split; [reflexivity | exact H].
Qed.

(** Trimming the end keeps a head that is not white space. *)
Lemma trimEnd_head (s : str) : no_space_head s -> no_space_head (trimEnd s).
Proof.
  destruct s as [|c s]; [intros _; exact I|]. intros Hc. simpl in Hc.
  pose proof (trimEnd_app_keep [] c s Hc) as E. cbn [app] in E.
  rewrite E. exact Hc.
Qed.

Lemma trim_head (s : str) : no_space_head (trim s).
Proof. apply trimEnd_head, trimStart_head. Qed.

Lemma trim_idem (s : str) : trim (trim s) = trim s.
Proof.
  unfold trim at 1. rewrite (trimStart_id _ (trim_head s)).
  unfold trim. apply trimEnd_idem.
Qed.

Lemma includes_spec (s p : str) :
  includes s p = true <-> exists a b, s = a ++ p ++ b.
Proof.
  induction s as [|c s IH]; cbn [includes].
  - rewrite orb_false_r, startsWith_spec. split.
    + intros [rest H]. exists [], rest. exact H.
    + intros (a & b & H). destruct a as [|x a]; [|discriminate H].
      exists b. exact H.
  - rewrite orb_true_iff, startsWith_spec, IH. split.
    + intros [[rest H] | (a & b & H)].
      * exists [], rest. exact H.
      * exists (c :: a), b. rewrite H. reflexivity.
    + intros (a & b & H). destruct a as [|x a].
      * left. exists b. exact H.
      * right. injection H as _ H. exists a, b. exact H.
Qed.

Lemma includes_app_r (a s p : str) : includes s p = true -> includes (a ++ s) p = true.
Proof.
  rewrite !includes_spec. intros (x & y & ->). exists (a ++ x), y.
  rewrite <- app_assoc. reflexivity.
Qed.

Lemma includes_app_l (s b p : str) : includes s p = true -> includes (s ++ b) p = true.
Proof.
  rewrite !includes_spec. intros (x & y & ->). exists x, (y ++ b).
  rewrite <- !app_assoc. reflexivity.
Qed.

(** The decimal text of a number holds digits and, at most, a sign. *)
Lemma string_of_uint_digits (d : Decimal.uint) :
  Forall (fun c => is_digit c = true) (js (NilZero.string_of_uint d)).
Proof.
  assert (H : forall u, Forall (fun c => is_digit c = true)
                          (js (NilEmpty.string_of_uint u))).
  { induction u; cbn [NilEmpty.string_of_uint js list_ascii_of_string map];
      try (constructor; [reflexivity | exact IHu]). constructor. }
  destruct d as [|d|d|d|d|d|d|d|d|d|d];
    [cbn; repeat constructor | exact (H _) ..].
Qed.

Lemma show_Z_chars (z : Z) :
  Forall (fun c => is_digit c = true \/ c = "-"%u) (show_Z z).
Proof.
  unfold show_Z.
  assert (W : forall l, Forall (fun c => is_digit c = true) l ->
                        Forall (fun c => is_digit c = true \/ c = "-"%u) l).
  { intros l. apply Forall_impl. auto. }
  destruct (Z.to_int z) as [d|d]; cbn [NilZero.string_of_int].
  - apply W, string_of_uint_digits.
  - cbn [js list_ascii_of_string map]. constructor; [right; reflexivity|].
    apply W, string_of_uint_digits.
Qed.

Lemma digit_or_sign_ascii (c : char) :
  is_digit c = true \/ c = "-"%u -> is_ascii c = true /\ upper_char c = c.
Proof. intros [H | H]; split; char_solve. Qed.

Section WithUnicode.

Context {unicode : CaseMappings}.

(** A run of white space is left as it is. *)
Lemma toUpperCase_spaces (ws : str) :
  Forall (fun c => is_space c = true) ws -> toUpperCase ws = ws.
Proof.
  induction 1 as [|c ws Hc _ IH]; [reflexivity|].
  rewrite (toUpperCase_space c ws Hc), IH. reflexivity.
Qed.

(** The head of an upper-cased text is white space only when the head of
    the text is. *)
Lemma toUpperCase_head (s : str) :
  no_space_head s -> no_space_head (toUpperCase s).
Proof.
  destruct s as [|c s]; [intros _; exact I|]. cbn [no_space_head]. intros S.
  destruct (is_ascii c) eqn:A.
  - rewrite (toUpperCase_ascii c s A). cbn [no_space_head].
    rewrite is_space_upper. exact S.
  - destruct (upper_unit_image c A S) as (d & img & E & F).
    assert (Hd : is_space d = false).
    { apply cased_up_not_space. inversion F; assumption. }
    destruct s as [|l s].
    + rewrite (toUpperCase_single c A), E. exact Hd.
    + destruct (is_high c && is_low l) eqn:Q.
      * rewrite (toUpperCase_pair c l s A Q).
        destruct (upper_pair_image c l Q) as (d' & img' & -> & F').
        cbn [app no_space_head]. apply cased_up_not_space. inversion F'; assumption.
      * rewrite (toUpperCase_unit c l s A Q), E. exact Hd.
Qed.

Lemma trimStart_toUpperCase (s : str) :
  trimStart (toUpperCase s) = toUpperCase (trimStart s).
Proof.
  induction s as [|c s IH]; [reflexivity|].
  destruct (is_space c) eqn:S.
  - rewrite (toUpperCase_space c s S). cbn [trimStart]. rewrite S. exact IH.
  - assert (H : no_space_head (c :: s)) by exact S.
    rewrite (trimStart_id _ H). apply trimStart_id, toUpperCase_head, H.
Qed.

(** The last character of a mapping is not white space. *)
Lemma cased_image_last (d : char) (img : str) :
  Forall (fun x => cased_up x = true) (d :: img) ->
  exists a z, d :: img = a ++ [z] /\ is_space z = false.
Proof.
  intros F. destruct (exists_last (l := d :: img)) as (a & z & E); [discriminate|].
  exists a, z. split; [exact E|]. apply cased_up_not_space.
  rewrite Forall_forall in F. apply F. rewrite E. apply in_or_app. right. left. reflexivity.
Qed.

(** An upper-cased text ends with white space only when the text does. *)
Lemma toUpperCase_last (s : str) :
  forall a z, s = a ++ [z] -> is_space z = false ->
  exists a' z', toUpperCase s = a' ++ [z'] /\ is_space z' = false.
Proof.
  assert (T : forall (x : char) (t a : str) (z : char),
            x :: t = a ++ [z] -> t <> [] -> exists a0, t = a0 ++ [z]).
  { intros x t a z E Ht. destruct a as [|y a].
    - injection E as _ E. congruence.
    - injection E as _ E. exists a. exact E. }
  assert (K : forall (pre t : str),
            (exists a' z', t = a' ++ [z'] /\ is_space z' = false) ->
            exists a' z', pre ++ t = a' ++ [z'] /\ is_space z' = false).
  { intros pre t (a' & z' & -> & Hz). exists (pre ++ a'), z'.
    rewrite app_assoc. auto. }
  induction s as [|c s A IH|c A|h l s A Q IH|c l s A Q IH] using upper_ind;
    intros a z E Hz.
  - destruct a; discriminate E.
  - rewrite (toUpperCase_ascii c s A). destruct s as [|y s].
    + destruct a as [|y a]; [|destruct a; discriminate E].
      injection E as <-. exists [], (upper_char c).
      split; [reflexivity|]. rewrite is_space_upper. exact Hz.
    + destruct (T c (y :: s) a z E) as (a0 & E0); [discriminate|].
      apply (K [upper_char c]). exact (IH a0 z E0 Hz).
  - destruct a as [|y a]; [|destruct a; discriminate E]. injection E as <-.
    rewrite (toUpperCase_single c A).
    destruct (upper_unit_image c A Hz) as (d & img & -> & F).
    apply cased_image_last, F.
  - rewrite (toUpperCase_pair h l s A Q).
    destruct (upper_pair_image h l Q) as (d & img & -> & F).
    destruct s as [|y s].
    + rewrite app_nil_r. apply cased_image_last, F.
    + destruct (T h (l :: y :: s) a z E) as (a0 & E0); [discriminate|].
      destruct (T l (y :: s) a0 z E0) as (a1 & E1); [discriminate|].
      apply K. exact (IH a1 z E1 Hz).
  - rewrite (toUpperCase_unit c l s A Q).
    destruct (T c (l :: s) a z E) as (a0 & E0); [discriminate|].
    apply K. exact (IH a0 z E0 Hz).
Qed.

Lemma trimEnd_toUpperCase (s : str) :
  trimEnd (toUpperCase s) = toUpperCase (trimEnd s).
Proof.
  destruct (trimEnd_prefix s) as (ws & Hs & Hws).
  assert (B : match ws with [] => True | c :: _ => is_low c = false end).
  { destruct ws as [|c ws]; [exact I|]. apply space_not_low. inversion Hws; assumption. }
  rewrite Hs at 1. rewrite (toUpperCase_app_nil _ ws B), (toUpperCase_spaces ws Hws).
  rewrite (trimEnd_spaces _ ws Hws).
  destruct (trimEnd_last s) as [-> | (a & z & E & Hz)]; [reflexivity|].
  destruct (toUpperCase_last (trimEnd s) a z E Hz) as (a' & z' & E' & Hz').
  rewrite E'. rewrite (trimEnd_app_keep a' z' [] Hz'). reflexivity.
Qed.

(** Trimming and upper-casing may be done in either order. *)
Lemma trim_toUpperCase (s : str) : trim (toUpperCase s) = toUpperCase (trim s).
Proof.
  unfold trim. rewrite trimStart_toUpperCase. apply trimEnd_toUpperCase.
Qed.


(** An upper-cased text holds a semicolon only where the text has one. *)
Lemma toUpperCase_no_semicolon (s : str) :
  ~ In ";"%u s -> ~ In ";"%u (toUpperCase s).
Proof.
  intros Hs Hin. pose proof (toUpperCase_chars s) as F.
  rewrite Forall_forall in F. destruct (F _ Hin) as [C | (c & Hc & E & _)].
  - exact (cased_up_not_semicolon _ C eq_refl).
  - symmetry in E. apply (proj1 (upper_char_semicolon c)) in E. subst c. contradiction.
Qed.


End WithUnicode.

End TextFacts.
Module SanitizeFacts.
Import JSFacts TextSpec TextFacts Validation ValidationSpec ValidationFacts.

Lemma endsWith_char (c : char) (s : str) :
  endsWith s [c] = true <-> s = removelast s ++ [c].
Proof.
  unfold endsWith. cbn [rev app]. rewrite startsWith_char. split.
  - intros H. destruct (rev s) as [|x r] eqn:E; [discriminate|].
    apply N.eqb_eq in H. subst x.
    assert (Hs : s = rev r ++ [c]).
    { rewrite <- (rev_involutive s), E. reflexivity. }
    rewrite Hs at 2. rewrite removelast_last. exact Hs.
  - intros H. rewrite H, rev_app_distr. cbn [rev app]. apply N.eqb_refl.
Qed.

Lemma removelast_head (s : str) : no_space_head s -> no_space_head (removelast s).
Proof.
  destruct s as [|x [|y s]]; [intros _; exact I | intros _; exact I |].
  intros H. exact H.
Qed.

Lemma trim_of_headed (s : str) : no_space_head s -> trim s = trimEnd s.
Proof. intros H. unfold trim. rewrite (trimStart_id s H). reflexivity. Qed.

(** The loop of [sanitizeSQL] only takes characters away, from the end:
    white space and semicolons. *)
Lemma sanitize_loop_shape (fuel : nat) :
  forall s, no_space_head s ->
    exists tail,
      s = sanitize_loop fuel s ++ tail /\
      Forall (fun c => is_space c = true \/ c = ";"%u) tail.
Proof.
  induction fuel as [|fuel IH]; intros s Hs; cbn [sanitize_loop].
  - exists []. rewrite app_nil_r. split; [reflexivity | constructor].
  - change (js ";") with [";"%u].
    destruct (endsWith s [";"%u]) eqn:E.
    + apply endsWith_char in E. unfold slice_0_m1.
      pose proof (removelast_head s Hs) as Hu.
      rewrite (trim_of_headed _ Hu).
      destruct (trimEnd_prefix (removelast s)) as (ws & Hws & Fws).
      destruct (IH (trimEnd (removelast s)) (trimEnd_head _ Hu)) as (tail & Ht & Ft).
      exists (tail ++ ws ++ [";"%u]). split.
      * rewrite E at 1. rewrite Hws at 1. rewrite Ht at 1.
        rewrite <- !app_assoc. reflexivity.
      * apply Forall_app. split; [exact Ft|]. apply Forall_app. split.
        -- revert Fws. apply Forall_impl. auto.
        -- constructor; [right; reflexivity | constructor].
    + exists []. rewrite app_nil_r. split; [reflexivity | constructor].
Qed.

Lemma sanitize_loop_trimmed (fuel : nat) :
  forall s, trim s = s -> trim (sanitize_loop fuel s) = sanitize_loop fuel s.
Proof.
  induction fuel as [|fuel IH]; intros s Hs; cbn [sanitize_loop]; [exact Hs|].
  destruct (endsWith s (js ";")); [|exact Hs]. apply IH, trim_idem.
Qed.

Lemma sanitize_loop_fixed (fuel : nat) (s : str) :
  endsWith s (js ";") = false -> sanitize_loop fuel s = s.
Proof. intros H. destruct fuel; cbn [sanitize_loop]; [|rewrite H]; reflexivity. Qed.





Section WithUnicode.

Context {unicode : CaseMappings}.


Lemma capped_text (r : str) (limit : Z) :
  addDefaultLimit r limit = r \/
  addDefaultLimit r limit = r ++ js " LIMIT " ++ show_Z limit.
Proof.
  unfold addDefaultLimit. cbv zeta.
  destruct (includes (toUpperCase r) (js "LIMIT")); [left | right]; reflexivity.
Qed.





(** What [sanitizeSQL] returns: the text without the white space around it
    and without the semicolons, and the white space between them, at its
    end. *)
Lemma sanitizeSQL_shape (sql : str) :
  let r := sanitizeSQL sql in
  (exists lead tail,
     sql = lead ++ r ++ tail /\
     Forall (fun c => is_space c = true) lead /\
     Forall (fun c => is_space c = true \/ c = ";"%u) tail) /\
  trim r = r /\
  endsWith r (js ";") = false /\
  sanitizeSQL r = r.
Proof.
  intros r.
  assert (Ht : trim r = r).
  { apply sanitize_loop_trimmed, trim_idem. }
  assert (He : endsWith r (js ";") = false) by apply sanitizeSQL_clean.
  split; [|split; [exact Ht | split; [exact He|]]].
  - destruct (trimStart_split sql) as (lead & Hl & Fl).
    destruct (trimEnd_prefix (trimStart sql)) as (ws & Hw & Fw).
    destruct (sanitize_loop_shape (length (trim sql)) (trim sql) (trim_head sql))
      as (tail & Hs & Ft).
    exists lead, (tail ++ ws). split; [|split].
    + rewrite Hl at 1. rewrite Hw at 1. fold (trim sql). rewrite Hs at 1.
      subst r. unfold sanitizeSQL. cbv zeta. rewrite <- !app_assoc. reflexivity.
    + exact Fl.
    + apply Forall_app. split; [exact Ft|]. revert Fw. apply Forall_impl. auto.
  - unfold sanitizeSQL at 1. cbv zeta. rewrite Ht. apply sanitize_loop_fixed, He.
Qed.

(** The cap that [addDefaultLimit] appends is ASCII text. *)
Lemma cap_plain (limit : Z) :
  forallb is_ascii (js " LIMIT " ++ show_Z limit) = true.
Proof.
  rewrite forallb_app. apply andb_true_iff. split; [reflexivity|].
  apply forallb_forall. intros c Hc.
  pose proof (show_Z_chars limit) as F. rewrite Forall_forall in F.
  apply digit_or_sign_ascii, F, Hc.
Qed.

Lemma toUpperCase_cap (r : str) (limit : Z) :
  toUpperCase (r ++ js " LIMIT " ++ show_Z limit) =
  toUpperCase r ++ js " LIMIT " ++ map upper_char (show_Z limit).
Proof.
  change (js " LIMIT " ++ show_Z limit)
    with (" "%u :: (js "LIMIT " ++ show_Z limit)).
  rewrite (toUpperCase_app r " "%u _ eq_refl).
  change (" "%u :: (js "LIMIT " ++ show_Z limit))
    with (js " LIMIT " ++ show_Z limit).
  rewrite (toUpperCase_plain _ (cap_plain limit)), map_app. reflexivity.
Qed.

Lemma capped_includes_limit (r : str) (limit : Z) :
  includes (toUpperCase (addDefaultLimit r limit)) (js "LIMIT") = true.
Proof.
  unfold addDefaultLimit. cbv zeta.
  destruct (includes (toUpperCase r) (js "LIMIT")) eqn:E; cbn [negb]; [exact E|].
  rewrite toUpperCase_cap. apply includes_app_r.
  apply includes_spec. exists [" "%u], (" "%u :: map upper_char (show_Z limit)).
  reflexivity.
Qed.


(** White space around a text is lost in the normal form [validateSQL]
    reads. *)
Lemma normal_form_padded (lead sql tail : str) :
  Forall (fun c => is_space c = true) lead ->
  Forall (fun c => is_space c = true) tail ->
  trim (toUpperCase (lead ++ sql ++ tail)) = trim (toUpperCase sql).
Proof.
  intros Fl Ft. rewrite !trim_toUpperCase. f_equal.
  unfold trim.
  assert (S1 : trimStart (lead ++ sql ++ tail) = trimStart (sql ++ tail)).
  { clear Ft. induction Fl as [|c l Hc _ IH]; [reflexivity|].
    cbn [app trimStart]. rewrite Hc. exact IH. }
  rewrite S1.
  destruct (trimStart_split sql) as (ws & Hs & Fw).
  destruct (trimStart sql) as [|x t] eqn:Et.
  - rewrite app_nil_r in Hs. subst sql.
    assert (A : Forall (fun c => is_space c = true) (ws ++ tail))
      by (apply Forall_app; split; assumption).
    assert (Z : forall l : str, Forall (fun c => is_space c = true) l -> trimStart l = []).
    { induction 1 as [|c l Hc _ IH]; [reflexivity|]. cbn [trimStart]. rewrite Hc. exact IH. }
    rewrite (Z _ A). reflexivity.
  - pose proof (trimStart_head sql) as Hx. rewrite Et in Hx. cbn [no_space_head] in Hx.
    rewrite Hs at 1. rewrite <- app_assoc. cbn [app].
    rewrite (trimStart_app_keep ws x (t ++ tail) Hx).
    assert (Z : trimStart ws = []).
    { clear Hs. induction Fw as [|c l Hc _ IH]; [reflexivity|].
      cbn [trimStart]. rewrite Hc. exact IH. }
    rewrite Z. cbn [app]. change (x :: t ++ tail) with ((x :: t) ++ tail).
    apply trimEnd_spaces, Ft.
Qed.

(** X1.  [validateSQL] does not see the white space around a text, be it of
    ASCII or not: a text and the same text with white space before and
    after it get the same verdict, the same error and the same warnings; so
    does the trimmed text.  Nor does it see the letter case of a text that
    is within ASCII. *)
Theorem validateSQL_reads_normal_form (sql : str) :
  (forall lead tail,
     Forall (fun c => is_space c = true) lead ->
     Forall (fun c => is_space c = true) tail ->
     validateSQL (lead ++ sql ++ tail) = validateSQL sql) /\
  validateSQL (trim sql) = validateSQL sql /\
  (forallb is_ascii sql = true ->
   validateSQL (map lower_char sql) = validateSQL sql /\
   validateSQL (map upper_char sql) = validateSQL sql).
Proof.
  assert (G : forall other, trim (toUpperCase other) = trim (toUpperCase sql) ->
                            validateSQL other = validateSQL sql).
  { intros other H. unfold validateSQL. cbv zeta. rewrite H. reflexivity. }
  split; [|split].
  - intros lead tail Fl Ft. apply G, normal_form_padded; assumption.
  - apply G. rewrite !trim_toUpperCase, trim_idem. reflexivity.
  - intros A.
    assert (Al : forallb is_ascii (map lower_char sql) = true).
    { rewrite forallb_forall in *. intros c Hc. apply in_map_iff in Hc.
      destruct Hc as (x & <- & Hx). specialize (A x Hx). char_solve. }
    assert (Au : forallb is_ascii (map upper_char sql) = true).
    { rewrite forallb_forall in *. intros c Hc. apply in_map_iff in Hc.
      destruct Hc as (x & <- & Hx). specialize (A x Hx). char_solve. }
    split; apply G; f_equal.
    + rewrite (toUpperCase_plain _ Al), (toUpperCase_plain _ A), map_map.
      apply map_ext. intros c. char_solve.
    + rewrite (toUpperCase_plain _ Au), (toUpperCase_plain _ A), map_map.
      apply map_ext. intros c. char_solve.
Qed.

(** X2.  [sanitizeSQL] only strips: the result is a piece of the input, with
    white space taken from the front and white space and semicolons from the
    end; it is trimmed, does not end with a semicolon, and sanitising it
    again changes nothing. *)
Theorem sanitizeSQL_strips_only (sql : str) :
  let r := sanitizeSQL sql in
  (exists lead tail,
     sql = lead ++ r ++ tail /\
     Forall (fun c => is_space c = true) lead /\
     Forall (fun c => is_space c = true \/ c = ";"%u) tail) /\
  trim r = r /\
  endsWith r (js ";") = false /\
  sanitizeSQL r = r.
Proof. exact (sanitizeSQL_shape sql). Qed.

(** X3.  For a cap that is a safe integer, the text [addDefaultLimit]
    returns always holds the word LIMIT; it is the input itself exactly when
    the input already held it, in any letter case and anywhere in the text,
    and the input followed by the cap, printed with all its digits,
    otherwise; capping twice is capping once. *)
Theorem addDefaultLimit_caps_once (sql : str) (limit : Z) :
  safe_integer limit = true ->
  let capped := addDefaultLimit sql limit in
  includes (toUpperCase capped) (js "LIMIT") = true /\
  (capped = sql <-> includes (toUpperCase sql) (js "LIMIT") = true) /\
  (capped <> sql -> capped = sql ++ js " LIMIT " ++ show_Z limit) /\
  (forall limit', safe_integer limit' = true -> addDefaultLimit capped limit' = capped).
Proof.
  intros _ capped.
  pose proof (capped_includes_limit sql limit) as Hi. fold capped in Hi.
  split; [exact Hi|]. split; [|split].
  - subst capped. unfold addDefaultLimit. cbv zeta.
    destruct (includes (toUpperCase sql) (js "LIMIT")); cbn [negb].
    + split; reflexivity.
    + split; [|discriminate]. intros H. apply (f_equal (@length N)) in H.
      rewrite !length_app in H. simpl in H. lia.
  - intros Hne. destruct (capped_text sql limit) as [H|H]; [contradiction | exact H].
  - intros limit' _. unfold addDefaultLimit at 1. cbv zeta. rewrite Hi. reflexivity.
Qed.


End WithUnicode.

Section Run.

#[local] Existing Instance Examples.plain_tables.

(** White space outside ASCII is white space: a no-break space before the
    text and a line separator after it change nothing. *)
Lemma validateSQL_reads_normal_form_witness :
  valid (validateSQL (160%N :: js "select 1;" ++ [8232%N])) = true /\
  validateSQL (js " Select 1 ") = validateSQL (js "SELECT 1") /\
  (forall lead tail,
     Forall (fun c => is_space c = true) lead ->
     Forall (fun c => is_space c = true) tail ->
     validateSQL (lead ++ js "Select 1" ++ tail) = validateSQL (js "Select 1")) /\
  validateSQL (trim (js "Select 1")) = validateSQL (js "Select 1") /\
  (forallb is_ascii (js "Select 1") = true ->
   validateSQL (map lower_char (js "Select 1")) = validateSQL (js "Select 1") /\
   validateSQL (map upper_char (js "Select 1")) = validateSQL (js "Select 1")).
Proof.
  split; [reflexivity|]. split; [reflexivity|].
  apply (validateSQL_reads_normal_form (js "Select 1")).
Defined.

Lemma addDefaultLimit_caps_once_witness :
  safe_integer 1000 = true /\
  addDefaultLimit (js "select 1") 1000 = js "select 1 LIMIT 1000" /\
  addDefaultLimit (js "select 1 limit 5") 1000 = js "select 1 limit 5" /\
  let capped := addDefaultLimit (js "select 1") 1000 in
  includes (toUpperCase capped) (js "LIMIT") = true /\
  (capped = js "select 1" <-> includes (toUpperCase (js "select 1")) (js "LIMIT") = true) /\
  (capped <> js "select 1" -> capped = js "select 1" ++ js " LIMIT " ++ show_Z 1000) /\
  (forall limit', safe_integer limit' = true -> addDefaultLimit capped limit' = capped).
Proof.
  split; [reflexivity|]. split; [reflexivity|]. split; [reflexivity|].
  apply (addDefaultLimit_caps_once (js "select 1") 1000). reflexivity.
Defined.


End Run.

End SanitizeFacts.

(** ** The table extractor *)

Module ExtractFacts.
Import Regex RegexSpec RegexFacts JSFacts Tools ToolsSpec.

Lemma lower_of_upper (c : char) : lower_char (upper_char c) = lower_char c.
Proof. char_solve. Qed.



(** An identifier starts with a letter or an underscore: neither white
    space nor a double quote. *)
Lemma ident_start_char (x : char) :
  (let p := fun c => is_lower c || N.eqb c "_"%u in
   p x || p (lower_char x) || p (upper_char x)) = true ->
  is_space x = false /\ N.eqb x 34%N = false.
Proof. cbv zeta. intros H. split; char_solve. Qed.


(** The shape of a match of the pattern of a table reference. *)
Lemma ref_pattern_shape (kw : str) s m :
  matches (ref_pattern kw) s m ->
  exists w c1 ws x w2,
    same_ci w kw /\ is_space c1 = true /\ Forall (fun c => is_space c = true) ws /\
    is_space x = false /\ N.eqb x 34%N = false /\
    after s = w ++ c1 :: ws ++ x :: w2 ++ after m.
Proof.
  unfold ref_pattern, table_ref, ident, ident_start, class_i, Plus, space.
  cbn [matches].
  intros (s0 & (_ & ->) & s1 & Hlit & s2 & (s3 & (c1 & r1 & E1 & P1 & ->) & Hst) &
          s4 & (s5 & (s6 & (x & r5 & E5 & P5 & ->) & H6) & H7) & ->).
  apply matches_lit_i in Hlit. destruct Hlit as (w & (Ha & _) & Hci & _).
  apply matches_star_class in Hst. destruct Hst as (ws & (Hs & _) & Hws & _).
  assert (Hspan : exists w2, span w2 (advance x r5 s2) s4).
  { apply (matches_span (Star ident_char)) in H6. destruct H6 as (u & Su).
    apply (matches_span (Opt (Seq (chr_i ".") (Seq (Chr _) (Star ident_char))))) in H7.
    destruct H7 as (v & Sv). exists (u ++ v). eapply span_app; eauto. }
  destruct Hspan as (w2 & (Hw2 & _)). simpl in Hs, Hw2.
  destruct (ident_start_char x P5) as [Hx1 Hx2].
  exists w, c1, ws, x, w2. repeat split; try assumption.
  rewrite Ha, E1, Hs, E5, Hw2. reflexivity.
Qed.

Section WithUnicode.

Context {unicode : CaseMappings}.

Lemma search_ref_shorter (kw : str) bef aft m :
  search_from (ref_pattern kw) bef aft = Some m -> length (after m) < length aft.
Proof.
  intros H. apply search_from_sound in H. destruct H as (skipped & rest & -> & Hm).
  apply ref_pattern_shape in Hm.
  destruct Hm as (w & c1 & ws & x & w2 & _ & _ & _ & _ & _ & E). simpl in E.
  rewrite E. rewrite !length_app. simpl. rewrite !length_app. simpl.
  rewrite !length_app. lia.
Qed.

(** The loop over the matches ends: every match is shorter than what is
    left, so one round per character is enough. *)
Lemma exec_loop_total (kw : str) :
  forall fuel tables bef aft,
    length aft < fuel ->
    exists ts, exec_loop fuel (ref_pattern kw) tables bef aft = Some ts.
Proof.
  induction fuel as [|fuel IH]; intros tables bef aft Hf; [lia|].
  simpl. destruct (search_from (ref_pattern kw) bef aft) as [m|] eqn:E; [|eauto].
  apply search_ref_shorter in E. apply IH. lia.
Qed.

Lemma extractTablesFromSQL_total (sql : str) :
  exists tables, extractTablesFromSQL sql = Some tables.
Proof.
  unfold extractTablesFromSQL.
  destruct (exec_loop_total (js "from") (S (length sql)) [] [] sql) as (ts & E); [lia|].
  change fromRegex with (ref_pattern (js "from")). rewrite E.
  change joinRegex with (ref_pattern (js "join")).
  apply exec_loop_total. lia.
Qed.




End WithUnicode.

Section Run.

#[local] Existing Instance Examples.plain_tables.

(** The query of the specification: the schema is stripped, each table
    is listed once, in the order of its first appearance for each keyword.
    The same text with the table in double quotes yields nothing in the
    agent, while the extractor of the web library, which drops the quotes
    first, finds the table. *)
Example extractTablesFromSQL_examples :
  extractTablesFromSQL
    (js "SELECT * FROM public.orders o JOIN customers c ON o.cust_id = c.id") =
    Some [js "orders"; js "customers"] /\
  extractTablesFromSQL (js "SELECT * FROM Users, users u") = Some [js "users"] /\
  extractTablesFromSQL Examples.quoted_users = Some [] /\
  Permissions.extractTablesFromSQL Examples.quoted_users = Some [js "users"].
Proof. repeat split; reflexivity. Qed.

End Run.

End ExtractFacts.

(* ================================================================== *)
(** ** Further properties of the table scan *)
(* ================================================================== *)

Module ScanFacts.
Import Regex RegexSpec RegexFacts JSFacts TextFacts Tools ToolsSpec ExtractFacts ScanSpec.

Lemma alnum_ascii (x : char) : is_alnum_ x = true -> is_ascii x = true.
Proof. intros H. char_solve. Qed.

Lemma name_char_ascii (x : char) : is_name_char x = true -> is_ascii x = true.
Proof. intros H. char_solve. Qed.

Section WithUnicode.

Context {unicode : CaseMappings}.

Lemma class_start_alpha (x : char) :
  (let p := fun c => is_lower c || N.eqb c "_"%u in
   p x || p (lower_char x) || p (upper_char x)) = true -> is_alpha_ x = true.
Proof. cbv zeta. intros H. char_solve. Qed.

Lemma class_char_alnum (x : char) :
  (let p := fun c => is_lower c || is_digit c || N.eqb c "_"%u in
   p x || p (lower_char x) || p (upper_char x)) = true -> is_alnum_ x = true.
Proof. cbv zeta. intros H. char_solve. Qed.

Lemma chr_i_dot (x : char) :
  N.eqb (upper_char x) (upper_char ".") = true -> x = "."%u.
Proof. cbv zeta. intros H. char_solve. Qed.

Lemma alnum_not_dot (x : char) : is_alnum_ x = true -> x <> "."%u.
Proof. intros H ->. vm_compute in H. discriminate H. Qed.

Lemma alpha_lower_name (x : char) :
  is_alpha_ x = true ->
  is_name_char (lower_char x) = true /\ is_digit (lower_char x) = false.
Proof. intros H. split; char_solve. Qed.

Lemma alnum_lower_name (x : char) :
  is_alnum_ x = true -> is_name_char (lower_char x) = true.
Proof. cbv zeta. intros H. char_solve. Qed.

Lemma name_char_lower (x : char) : is_name_char x = true -> lower_char x = x.
Proof. cbv zeta. intros H. char_solve. Qed.

Lemma alpha_alnum (c : char) : is_alpha_ c = true -> is_alnum_ c = true.
Proof. cbv zeta. intros H. char_solve. Qed.

Lemma ident_word_chars (a : str) :
  ident_word a -> Forall (fun x => is_alnum_ x = true) a.
Proof.
  intros (c & rest & -> & Hc & F). constructor; [apply alpha_alnum, Hc | exact F].
Qed.

Lemma ident_word_no_dot (a : str) : ident_word a -> ~ In "."%u a.
Proof.
  intros W Hin. apply ident_word_chars in W. rewrite Forall_forall in W.
  exact (alnum_not_dot _ (W _ Hin) eq_refl).
Qed.

Lemma ident_word_plain (a : str) : ident_word a -> forallb is_ascii a = true.
Proof.
  intros W. apply ident_word_chars in W. apply forallb_forall. intros x Hx.
  rewrite Forall_forall in W. apply alnum_ascii, W, Hx.
Qed.

Lemma ident_word_lower (a : str) : ident_word a -> table_name (toLowerCase a).
Proof.
  intros W. rewrite (toLowerCase_plain a (ident_word_plain a W)).
  destruct W as (c & rest & -> & Hc & F). unfold table_name. cbn [map].
  destruct (alpha_lower_name c Hc) as [H1 H2]. split; [exact H2|].
  constructor; [exact H1|]. apply Forall_map. revert F. apply Forall_impl.
  apply alnum_lower_name.
Qed.

Lemma table_name_lower (t : str) : table_name t -> t <> [] /\ toLowerCase t = t.
Proof.
  intros [H F]. split; [destruct t; [contradiction | discriminate]|].
  assert (A : forallb is_ascii t = true).
  { apply forallb_forall. intros x Hx. rewrite Forall_forall in F.
    apply name_char_ascii, F, Hx. }
  rewrite (toLowerCase_plain t A).
  clear H A. induction F as [|c t Hc _ IH]; [reflexivity|].
  cbn [map]. rewrite (name_char_lower c Hc), IH. reflexivity.
Qed.

(** What was consumed between two positions is the piece they span. *)
Lemma consumed_span (w : str) s s' : span w s s' -> consumed s s' = w.
Proof. intros [Ha _]. unfold consumed. rewrite Ha. apply firstn_span. Qed.

Lemma matches_ident s s' :
  matches ident s s' -> exists a, span a s s' /\ ident_word a.
Proof.
  unfold ident, ident_start, ident_char, class_i. cbn [matches].
  intros (s3 & (c & r & E & P & ->) & Hst).
  apply matches_star_class in Hst. destruct Hst as (w & Sw & Fw & _).
  exists (c :: w). split.
  - apply (span_app [c] w s (advance c r s) s'); [|exact Sw].
    split; [exact E | reflexivity].
  - exists c, w. split; [reflexivity|]. split; [apply class_start_alpha, P|].
    revert Fw. apply Forall_impl. apply class_char_alnum.
Qed.

(** The capture of a table reference: an identifier, or two identifiers
    joined by a dot. *)
Lemma table_ref_capture s m :
  matches table_ref s m ->
  exists a, ident_word a /\
    (get_cap 1 (caps m) = Some a \/
     exists b, ident_word b /\ get_cap 1 (caps m) = Some (b ++ "."%u :: a)).
Proof.
  unfold table_ref, Opt. cbn [matches].
  intros (s1 & (s2 & Hid & Hopt) & ->). cbn [set_cap caps get_cap Nat.eqb].
  apply matches_ident in Hid. destruct Hid as (a & Sa & Wa).
  destruct Hopt as [(s4 & Hdot & Hid2) | ->].
  - unfold chr_i in Hdot. cbn [matches] in Hdot.
    destruct Hdot as (d & r' & E & Q & ->).
    apply chr_i_dot in Q. subst d.
    apply matches_ident in Hid2. destruct Hid2 as (b & Sb & Wb).
    exists b. split; [exact Wb|]. right. exists a. split; [exact Wa|]. f_equal.
    apply consumed_span.
    apply (span_app a ("."%u :: b) s s2 s1); [exact Sa|].
    apply (span_app ["."%u] b s2 (advance "." r' s2) s1); [|exact Sb].
    split; [exact E | reflexivity].
  - exists a. split; [exact Wa|]. left. f_equal. apply consumed_span, Sa.
Qed.

Lemma ref_pattern_capture (kw : str) s m :
  matches (ref_pattern kw) s m ->
  exists a, ident_word a /\
    (get_cap 1 (caps m) = Some a \/
     exists b, ident_word b /\ get_cap 1 (caps m) = Some (b ++ "."%u :: a)).
Proof.
  unfold ref_pattern. cbn [matches].
  intros (s0 & _ & s1 & _ & s2 & _ & H). apply table_ref_capture in H. exact H.
Qed.

Lemma split_char_plain (c : char) (b : str) : ~ In c b -> split_char c b = (b, []).
Proof.
  induction b as [|x b IH]; [reflexivity|]. intros H. cbn [split_char].
  rewrite IH by (intros Hin; apply H; right; exact Hin).
  destruct (N.eqb x c) eqn:E; [|reflexivity].
  apply N.eqb_eq in E. subst x. exfalso. apply H. left. reflexivity.
Qed.

Lemma split_char_last (c : char) (a b : str) :
  ~ In c b -> exists cur rest0, split_char c (a ++ c :: b) = (cur, rest0 ++ [b]).
Proof.
  intros Hb. induction a as [|x a IH]; cbn [app split_char].
  - rewrite (split_char_plain c b Hb), N.eqb_refl. exists [], []. reflexivity.
  - destruct IH as (cur & rest0 & ->).
    destruct (N.eqb x c); [exists [], (cur :: rest0) | exists (x :: cur), rest0];
      reflexivity.
Qed.

Lemma pop_last (y : str) (rest0 : list str) (b : str) : pop (y :: rest0 ++ [b]) = Some b.
Proof. unfold pop. cbn [rev]. rewrite rev_app_distr. reflexivity. Qed.

(** The name taken from a capture is its last identifier. *)
Lemma pop_split_capture (m : mstate) (a : str) :
  ident_word a ->
  (get_cap 1 (caps m) = Some a \/
   exists b, ident_word b /\ get_cap 1 (caps m) = Some (b ++ "."%u :: a)) ->
  exists text, get_cap 1 (caps m) = Some text /\ pop (split "." text) = Some a.
Proof.
  intros Wa [H | (b & _ & H)]; rewrite H; eexists; (split; [reflexivity|]).
  - unfold split. rewrite (split_char_plain _ _ (ident_word_no_dot a Wa)). reflexivity.
  - unfold split.
    destruct (split_char_last "."%u b a (ident_word_no_dot a Wa)) as (cur & rest0 & ->).
    apply pop_last.
Qed.

Lemma table_of_match_name (kw : str) bef aft m :
  search_from (ref_pattern kw) bef aft = Some m ->
  exists t, table_of_match m = Some t /\ table_name t.
Proof.
  intros H. apply search_from_sound in H. destruct H as (skipped & rest & _ & Hm).
  apply ref_pattern_capture in Hm. destruct Hm as (a & Wa & Hc).
  destruct (pop_split_capture m a Wa Hc) as (text & Ht & Hp).
  exists (toLowerCase a). unfold table_of_match. rewrite Ht, Hp.
  split; [reflexivity | apply ident_word_lower, Wa].
Qed.

Lemma NoDup_snoc (tables : list str) (t : str) :
  NoDup tables -> ~ In t tables -> NoDup (tables ++ [t]).
Proof.
  induction 1 as [|x l Hx Hl IH]; intros Hin; cbn [app].
  - constructor; [intros [] | constructor].
  - constructor.
    + intros H. apply in_app_or in H. destruct H as [H | [H | []]].
      * contradiction.
      * apply Hin. left. symmetry. exact H.
    + apply IH. intros H. apply Hin. right. exact H.
Qed.

(** The loop of the agent's scan keeps its list free of duplicates and made
    of lower-case identifiers, and only extends it. *)
Lemma exec_loop_names (kw : str) :
  forall fuel tables bef aft ts,
    exec_loop fuel (ref_pattern kw) tables bef aft = Some ts ->
    NoDup tables -> Forall table_name tables ->
    NoDup ts /\ Forall table_name ts /\ exists more, ts = tables ++ more.
Proof.
  induction fuel as [|fuel IH]; intros tables bef aft ts H Hn Hf; [discriminate|].
  cbn [exec_loop] in H.
  destruct (search_from (ref_pattern kw) bef aft) as [m|] eqn:E.
  - destruct (table_of_match_name kw bef aft m E) as (t & Ht & Hname).
    rewrite Ht in H.
    destruct (truthy (JStr t) && negb (arr_includes tables t)) eqn:C.
    + apply andb_true_iff in C. destruct C as [_ C]. apply negb_true_iff in C.
      assert (Hin : ~ In t tables).
      { intros Hin. apply arr_includes_In in Hin. congruence. }
      destruct (IH _ _ _ _ H (NoDup_snoc _ _ Hn Hin)) as (R1 & R2 & more & R3).
      { apply Forall_app. split; [exact Hf | constructor; [exact Hname | constructor]]. }
      split; [exact R1|]. split; [exact R2|]. exists ([t] ++ more).
      rewrite R3, <- app_assoc. reflexivity.
    + exact (IH _ _ _ _ H Hn Hf).
  - injection H as <-. split; [exact Hn|]. split; [exact Hf|]. exists [].
    rewrite app_nil_r. reflexivity.
Qed.

(** The loop of the web library's scan: the same, for the identifiers as
    they stand in the text it is given. *)
Lemma matchAll_loop_names (kw : str) :
  forall fuel tables bef aft,
    length aft < fuel ->
    NoDup tables -> Forall ident_word tables ->
    exists ts,
      Permissions.matchAll_loop fuel (ref_pattern kw) tables bef aft = Some ts /\
      NoDup ts /\ Forall ident_word ts.
Proof.
  induction fuel as [|fuel IH]; intros tables bef aft Hlen Hn Hf; [lia|].
  cbn [Permissions.matchAll_loop].
  destruct (search_from (ref_pattern kw) bef aft) as [m|] eqn:E.
  - pose proof (search_ref_shorter kw bef aft m E) as Hshort.
    apply search_from_sound in E. destruct E as (skipped & rest & _ & Hm).
    apply ref_pattern_capture in Hm. destruct Hm as (a & Wa & Hc).
    destruct (pop_split_capture m a Wa Hc) as (text & Ht & Hp).
    rewrite Ht, Hp.
    destruct (truthy (JStr a) && negb (arr_includes tables a)) eqn:C.
    + apply andb_true_iff in C. destruct C as [_ C]. apply negb_true_iff in C.
      assert (Hin : ~ In a tables).
      { intros Hin. apply arr_includes_In in Hin. congruence. }
      apply IH; [lia | apply NoDup_snoc; assumption|].
      apply Forall_app. split; [exact Hf | constructor; [exact Wa | constructor]].
    + apply IH; [lia | assumption | assumption].
  - exists tables. auto.
Qed.

Lemma extract_names (sql : str) :
  exists tables,
    extractTablesFromSQL sql = Some tables /\ NoDup tables /\ Forall table_name tables.
Proof.
  destruct (extractTablesFromSQL_total sql) as (tables & E). exists tables.
  split; [exact E|]. unfold extractTablesFromSQL in E.
  change fromRegex with (ref_pattern (js "from")) in E.
  change joinRegex with (ref_pattern (js "join")) in E.
  destruct (exec_loop (S (length sql)) (ref_pattern (js "from")) [] [] sql)
    as [ts|] eqn:E1; [|discriminate].
  destruct (exec_loop_names _ _ _ _ _ _ E1 (NoDup_nil _) (Forall_nil _))
    as (N1 & F1 & _).
  destruct (exec_loop_names _ _ _ _ _ _ E N1 F1) as (N2 & F2 & _).
  split; [exact N2 | exact F2].
Qed.

(** X8.  The agent's [extractTablesFromSQL] always ends, and what it returns
    is a list without duplicates of lower-case identifiers: every name is
    non-empty, holds lower-case letters, digits and underscores only, and
    does not begin with a digit. *)
Theorem extractTablesFromSQL_names (sql : str) :
  exists tables,
    extractTablesFromSQL sql = Some tables /\
    NoDup tables /\
    Forall table_name tables /\
    Forall (fun t => t <> [] /\ toLowerCase t = t) tables.
Proof.
  destruct (extract_names sql) as (tables & E & N & F). exists tables.
  split; [exact E|]. split; [exact N|]. split; [exact F|].
  revert F. apply Forall_impl. apply table_name_lower.
Qed.

(** X9.  The web library's [extractTablesFromSQL] always ends too, and
    returns a list without duplicates of identifiers; under its policy
    check, [validateSQLAccess] reports as blocked exactly the extracted
    names that [canAccessTable] refuses in the schema public, and allows the
    query exactly when there is none. *)
Theorem web_extractTablesFromSQL_names (config : Permissions.TablePermissionsConfig)
  (sql : str) :
  exists tables,
    Permissions.extractTablesFromSQL sql = Some tables /\
    NoDup tables /\
    Forall ident_word tables /\
    exists blocked,
      Permissions.validateSQLAccess config sql =
        Some (match blocked with [] => true | _ :: _ => false end, blocked) /\
      NoDup blocked /\
      forall t, In t blocked <->
                In t tables /\ Permissions.canAccessTable config t (js "public") = false.
Proof.
  unfold Permissions.validateSQLAccess, Permissions.extractTablesFromSQL. cbv zeta.
  set (text := toLowerCase _).
  change fromRegex with (ref_pattern (js "from")).
  change joinRegex with (ref_pattern (js "join")).
  destruct (matchAll_loop_names (js "from") (S (length text)) [] [] text)
    as (ts & E1 & N1 & F1); [lia | constructor | constructor |].
  rewrite E1.
  destruct (matchAll_loop_names (js "join") (S (length text)) ts [] text)
    as (tables & E2 & N2 & F2); [lia | assumption | assumption |].
  rewrite E2. exists tables. split; [reflexivity|]. split; [exact N2|].
  split; [exact F2|].
  exists (filter (fun t => negb (Permissions.canAccessTable config t (js "public"))) tables).
  split; [|split].
  - f_equal. f_equal. destruct (filter _ tables); reflexivity.
  - apply NoDup_filter, N2.
  - intros t. rewrite filter_In, negb_true_iff. reflexivity.
Qed.

End WithUnicode.

End ScanFacts.

(* ================================================================== *)
(** ** The table scan finds the references of the text *)
(* ================================================================== *)

Module ReferenceFacts.
Import Regex RegexSpec RegexFacts JSFacts TextFacts Tools ToolsSpec ExtractFacts.
Import ScanSpec ScanFacts.

(** The equations of the matcher. *)
Lemma rmatch_Seq (r1 r2 : regex) (k : cont) (s : mstate) :
  rmatch (Seq r1 r2) k s = rmatch r1 (rmatch r2 k) s.
Proof. reflexivity. Qed.

Lemma rmatch_Alt (r1 r2 : regex) (k : cont) (s : mstate) :
  rmatch (Alt r1 r2) k s =
  match rmatch r1 k s with Some x => Some x | None => rmatch r2 k s end.
Proof. reflexivity. Qed.

Lemma rmatch_Group (n : nat) (r : regex) (k : cont) (s : mstate) :
  rmatch (Group n r) k s = rmatch r (fun s' => k (set_cap n (consumed s s') s')) s.
Proof. reflexivity. Qed.

Lemma rmatch_Eps (k : cont) (s : mstate) : rmatch Eps k s = k s.
Proof. reflexivity. Qed.

Lemma rmatch_WordB (k : cont) (s : mstate) :
  rmatch WordB k s = if at_word_boundary s then k s else None.
Proof. reflexivity. Qed.

Lemma rmatch_Chr (p : char -> bool) (k : cont) (s : mstate) :
  rmatch (Chr p) k s =
  match after s with
  | c :: rest => if p c then k (advance c rest s) else None
  | [] => None
  end.
Proof. reflexivity. Qed.

(** The search returns the match at the first position that has one. *)
Lemma search_from_first (r : regex) :
  forall aft bef m,
    search_from r bef aft = Some m ->
    exists skipped rest,
      aft = skipped ++ rest /\
      rmatch r Some {| before := rev skipped ++ bef; after := rest; caps := [] |} = Some m /\
      forall sk1 sk2, skipped = sk1 ++ sk2 -> sk2 <> [] ->
        rmatch r Some {| before := rev sk1 ++ bef; after := sk2 ++ rest; caps := [] |} = None.
Proof.
  induction aft as [|c aft IH]; cbn [search_from]; intros bef m H.
  - destruct (rmatch r Some _) eqn:E; [|discriminate]. inversion H; subst.
    exists [], []. split; [reflexivity|]. split; [exact E|].
    intros sk1 sk2 E1 Hne. destruct sk1; destruct sk2; try discriminate; congruence.
  - destruct (rmatch r Some _) eqn:E.
    + inversion H; subst. exists [], (c :: aft). split; [reflexivity|]. split; [exact E|].
      intros sk1 sk2 E1 Hne. destruct sk1; destruct sk2; try discriminate; congruence.
    + apply IH in H. destruct H as (skipped & rest & -> & Hm & Hmin).
      exists (c :: skipped), rest. split; [reflexivity|]. split.
      * cbn [rev]. rewrite <- app_assoc. exact Hm.
      * intros sk1 sk2 E1 Hne. destruct sk1 as [|y sk1].
        -- cbn [app] in E1. subst sk2. exact E.
        -- cbn [app] in E1. injection E1 as <- E1. cbn [rev]. rewrite <- app_assoc.
           apply Hmin; assumption.
Qed.

(** A greedy star over a class takes the whole run of the class, when what
    follows in the pattern accepts the text after the run. *)
Lemma star_class_run (p : char -> bool) (m : cont -> cont) (k : cont) :
  (forall k' s', m k' s' = match after s' with
                           | c :: rest => if p c then k' (advance c rest s') else None
                           | [] => None
                           end) ->
  forall w bef rest cs fuel x,
    Forall (fun c => p c = true) w -> stops p rest ->
    length (w ++ rest) <= fuel ->
    k {| before := rev w ++ bef; after := rest; caps := cs |} = Some x ->
    star_loop m k fuel {| before := bef; after := w ++ rest; caps := cs |} = Some x.
Proof.
  intros Hm. induction w as [|c w IH]; intros bef rest cs fuel x F S L K.
  - cbn [app rev] in *. destruct fuel as [|fuel]; cbn [star_loop]; [exact K|].
    rewrite Hm. cbn [after].
    destruct rest as [|d rest]; [exact K|]. cbn [stops] in S. rewrite S. exact K.
  - inversion F as [|? ? Pc F']; subst. destruct fuel as [|fuel]; [cbn in L; lia|].
    cbn [star_loop]. rewrite Hm. cbn [after app]. rewrite Pc.
    cbn [advance after before caps].
    assert (T : (length (w ++ rest) <? length (c :: w ++ rest)) = true).
    { apply Nat.ltb_lt. cbn [length]. lia. }
    rewrite T. unfold advance. cbn [before caps].
    rewrite (IH (c :: bef) rest cs fuel x F' S); [reflexivity | cbn in L; lia|].
    cbn [rev] in K. rewrite <- app_assoc in K. exact K.
Qed.

Lemma star_run (p : char -> bool) (k : cont) (w bef rest : str) (cs : list (nat * str))
  (x : mstate) :
  Forall (fun c => p c = true) w -> stops p rest ->
  k {| before := rev w ++ bef; after := rest; caps := cs |} = Some x ->
  rmatch (Star (Chr p)) k {| before := bef; after := w ++ rest; caps := cs |} = Some x.
Proof.
  intros F Hst K. cbn [rmatch after].
  apply (star_class_run p); auto.
Qed.

(** A literal word under the [i] flag takes the word, in any letter case. *)
Lemma lit_i_run (kw : str) (k : cont) :
  forall w bef rest cs,
    same_ci w kw ->
    rmatch (lit_i kw) k {| before := bef; after := w ++ rest; caps := cs |} =
    k {| before := rev w ++ bef; after := rest; caps := cs |}.
Proof.
  induction kw as [|c kw IH]; intros w bef rest cs H.
  - destruct w; [reflexivity | discriminate].
  - destruct w as [|x w]; [discriminate|]. unfold same_ci in H. cbn [map] in H.
    injection H as Hx Hw.
    cbn [lit_i rmatch chr_i after app]. rewrite Hx, N.eqb_refl.
    unfold advance. cbn [before after caps]. rewrite (IH w (x :: bef) rest cs Hw).
    cbn [rev]. rewrite <- app_assoc. reflexivity.
Qed.

(** The classes of the patterns, under the [i] flag. *)
Lemma ident_start_step (k : cont) (s : mstate) :
  rmatch ident_start k s =
  match after s with
  | c :: rest => if is_alpha_ c then k (advance c rest s) else None
  | [] => None
  end.
Proof.
  unfold ident_start, class_i. cbn [rmatch]. destruct (after s) as [|c rest]; [reflexivity|].
  match goal with
  | |- (if ?b then _ else _) = _ => replace b with (is_alpha_ c) by char_solve
  end.
  reflexivity.
Qed.

Lemma ident_char_step (k : cont) (s : mstate) :
  rmatch ident_char k s =
  match after s with
  | c :: rest => if is_alnum_ c then k (advance c rest s) else None
  | [] => None
  end.
Proof.
  unfold ident_char, class_i. cbn [rmatch]. destruct (after s) as [|c rest]; [reflexivity|].
  match goal with
  | |- (if ?b then _ else _) = _ => replace b with (is_alnum_ c) by char_solve
  end.
  reflexivity.
Qed.

Lemma dot_step (k : cont) (s : mstate) :
  rmatch (chr_i ".") k s =
  match after s with
  | c :: rest => if N.eqb c "."%u then k (advance c rest s) else None
  | [] => None
  end.
Proof.
  unfold chr_i. cbn [rmatch]. destruct (after s) as [|c rest]; [reflexivity|].
  match goal with
  | |- (if ?b then _ else _) = _ => replace b with (N.eqb c "."%u) by char_solve
  end.
  reflexivity.
Qed.

Lemma alpha_not_space (x : char) : is_alpha_ x = true -> is_space x = false.
Proof. intros H. char_solve. Qed.

Lemma alnum_word (x : char) : is_alnum_ x = is_word x.
Proof. char_solve. Qed.

(** An identifier of the pattern takes the whole identifier of the text. *)
Lemma ident_run (k : cont) (a bef rest : str) (cs : list (nat * str)) (x : mstate) :
  ident_word a -> stops is_alnum_ rest ->
  k {| before := rev a ++ bef; after := rest; caps := cs |} = Some x ->
  rmatch ident k {| before := bef; after := a ++ rest; caps := cs |} = Some x.
Proof.
  intros (c & w & -> & Hc & F) Hst K.
  unfold ident. rewrite rmatch_Seq, ident_start_step. cbn [after app]. rewrite Hc.
  unfold advance. cbn [before after caps].
  apply (star_class_run is_alnum_).
  - intros k' s'. apply ident_char_step.
  - exact F.
  - exact Hst.
  - reflexivity.
  - cbn [rev] in K. rewrite <- app_assoc in K. exact K.
Qed.

(** Where no identifier qualifies the first one, the optional part of the
    pattern matches nothing. *)
Lemma qualifier_none (k : cont) (bef rest : str) (cs : list (nat * str)) :
  unqualified rest ->
  rmatch (Seq (chr_i ".") ident) k {| before := bef; after := rest; caps := cs |} = None.
Proof.
  intros U. rewrite rmatch_Seq, dot_step. cbn [after].
  destruct rest as [|d rest]; [reflexivity|].
  destruct (N.eqb d "."%u) eqn:D; [|reflexivity].
  unfold ident. rewrite rmatch_Seq, ident_start_step. unfold advance. cbn [after].
  destruct rest as [|c rest]; [reflexivity|].
  cbn [unqualified] in U. rewrite D in U. cbn [andb] in U. rewrite U. reflexivity.
Qed.

(** The capturing group of the patterns takes the reference: the
    identifier, and the identifier after the dot when there is one. *)
Lemma table_ref_run (bef a tail rest t : str) :
  ident_word a -> stops is_alnum_ (tail ++ rest) ->
  ((tail = [] /\ unqualified rest /\ t = map lower_char a) \/
   (exists b, tail = "."%u :: b /\ ident_word b /\ stops is_alnum_ rest /\
              t = map lower_char b)) ->
  rmatch table_ref Some {| before := bef; after := a ++ tail ++ rest; caps := [] |} =
  Some {| before := rev (a ++ tail) ++ bef; after := rest; caps := [(1, a ++ tail)] |}.
Proof.
  intros Wa Hst Hq. unfold table_ref, Opt. rewrite rmatch_Group, rmatch_Seq.
  apply ident_run; [exact Wa | exact Hst |]. rewrite rmatch_Alt.
  destruct Hq as [(-> & U & _) | (b & -> & Wb & Hr & _)].
  - cbn [app]. rewrite (qualifier_none _ _ _ _ U), rmatch_Eps.
    unfold set_cap, consumed. cbn [before after caps].
    rewrite firstn_span, !app_nil_r. reflexivity.
  - assert (E : rmatch (Seq (chr_i ".") ident)
                  (fun s' => Some (set_cap 1
                     (consumed {| before := bef; after := a ++ ("."%u :: b) ++ rest;
                                  caps := [] |} s') s'))
                  {| before := rev a ++ bef; after := ("."%u :: b) ++ rest; caps := [] |} =
                Some {| before := rev (a ++ "."%u :: b) ++ bef; after := rest;
                        caps := [(1, a ++ "."%u :: b)] |}).
    { rewrite rmatch_Seq, dot_step. cbn [after app N.eqb Pos.eqb].
      unfold advance. cbn [before after caps].
      apply ident_run; [exact Wb | exact Hr |].
      unfold set_cap, consumed. cbn [before after caps]. f_equal.
      assert (L : a ++ "."%u :: b ++ rest = (a ++ "."%u :: b) ++ rest).
      { rewrite <- app_assoc. reflexivity. }
      rewrite L, firstn_span. f_equal.
      rewrite rev_app_distr. cbn [rev]. rewrite <- !app_assoc. reflexivity. }
    rewrite E. reflexivity.
Qed.

(** The keyword of a scan as the text writes it: four letters. *)
Lemma keyword_letters (kw w : str) :
  scan_keyword kw -> same_ci w kw ->
  map lower_char w = kw /\ map lower_char kw = kw /\
  Forall (fun c => is_alnum_ c = true) w /\
  exists x w', w = x :: w' /\ is_word x = true /\ is_space x = false.
Proof.
  assert (C : forall x l : char,
            (l = "f"%u \/ l = "r"%u \/ l = "o"%u \/ l = "m"%u \/
             l = "j"%u \/ l = "i"%u \/ l = "n"%u) ->
            upper_char x = upper_char l ->
            lower_char x = l /\ is_alnum_ x = true /\ is_word x = true /\
            is_space x = false).
  { intros x l Hl H. repeat split; char_solve. }
  intros [-> | ->] H; unfold same_ci in H;
    destruct w as [|x1 [|x2 [|x3 [|x4 [|x5 w]]]]]; try discriminate H;
    cbn [map js list_ascii_of_string] in H; injection H as H1 H2 H3 H4.
  - destruct (C x1 "f"%u) as (L1 & A1 & W1 & S1); [tauto | exact H1|].
    destruct (C x2 "r"%u) as (L2 & A2 & _); [tauto | exact H2|].
    destruct (C x3 "o"%u) as (L3 & A3 & _); [tauto | exact H3|].
    destruct (C x4 "m"%u) as (L4 & A4 & _); [tauto | exact H4|].
    split; [cbn [map]; rewrite L1, L2, L3, L4; reflexivity|].
    split; [reflexivity|]. split; [repeat constructor; assumption|].
    exists x1, [x2; x3; x4]. auto.
  - destruct (C x1 "j"%u) as (L1 & A1 & W1 & S1); [tauto | exact H1|].
    destruct (C x2 "o"%u) as (L2 & A2 & _); [tauto | exact H2|].
    destruct (C x3 "i"%u) as (L3 & A3 & _); [tauto | exact H3|].
    destruct (C x4 "n"%u) as (L4 & A4 & _); [tauto | exact H4|].
    split; [cbn [map]; rewrite L1, L2, L3, L4; reflexivity|].
    split; [reflexivity|]. split; [repeat constructor; assumption|].
    exists x1, [x2; x3; x4]. auto.
Qed.

Lemma ident_word_head (a : str) :
  ident_word a -> exists c r, a = c :: r /\ is_alpha_ c = true.
Proof. intros (c & r & -> & Hc & _). eauto. Qed.

(** At a reference the pattern matches, and the match is the reference. *)
Lemma ref_pattern_run (kw bef post w ws a tail rest t : str) :
  scan_keyword kw ->
  reference_parts kw bef post w ws a tail rest t ->
  rmatch (ref_pattern kw) Some {| before := bef; after := post; caps := [] |} =
  Some {| before := rev (a ++ tail) ++ rev ws ++ rev w ++ bef; after := rest;
          caps := [(1, a ++ tail)] |}.
Proof.
  intros Hkw (-> & Hci & Hb & Hne & Fws & Wa & Hst & Hq).
  destruct (keyword_letters kw w Hkw Hci) as (_ & _ & _ & x & w' & Ew & Wx & _).
  unfold ref_pattern, Plus, space. rewrite rmatch_Seq, rmatch_WordB.
  assert (B : at_word_boundary
                {| before := bef; after := w ++ ws ++ a ++ tail ++ rest; caps := [] |} = true).
  { unfold at_word_boundary. cbn [before after]. rewrite Ew. cbn [app]. rewrite Wx.
    destruct bef as [|c bef]; [reflexivity|]. rewrite Hb. reflexivity. }
  rewrite B, rmatch_Seq. rewrite (lit_i_run kw _ w bef _ [] Hci).
  clear B Ew Wx x w'.
  destruct ws as [|c1 ws]; [congruence|].
  assert (Hc1 : is_space c1 = true) by (inversion Fws; assumption).
  assert (Fws' : Forall (fun c => is_space c = true) ws) by (inversion Fws; assumption).
  rewrite !rmatch_Seq, rmatch_Chr.
  cbn [after app]. rewrite Hc1. unfold advance. cbn [before after caps].
  destruct (ident_word_head a Wa) as (c & r & Ea & Hc).
  rewrite (star_run is_space _ ws (c1 :: rev w ++ bef) (a ++ tail ++ rest) []
             {| before := rev (a ++ tail) ++ rev (c1 :: ws) ++ rev w ++ bef; after := rest;
                caps := [(1, a ++ tail)] |}).
  - reflexivity.
  - exact Fws'.
  - rewrite Ea. cbn [app stops]. apply alpha_not_space, Hc.
  - rewrite (table_ref_run _ a tail rest t Wa Hst Hq). f_equal. f_equal.
    cbn [rev]. rewrite <- !app_assoc. reflexivity.
Qed.

(** A text begins with one longest run of characters of a class. *)
Lemma maximal_run (p : char -> bool) (s : str) :
  exists a rest, s = a ++ rest /\ Forall (fun c => p c = true) a /\ stops p rest.
Proof.
  induction s as [|c s (a & rest & E & F & Hst)].
  - exists [], []. repeat split. constructor.
  - destruct (p c) eqn:P.
    + exists (c :: a), rest. split; [cbn [app]; rewrite E; reflexivity|].
      split; [constructor; assumption | exact Hst].
    + exists [], (c :: s). split; [reflexivity|]. split; [constructor | exact P].
Qed.

Lemma maximal_unique (p : char -> bool) (a1 r1 a2 r2 : str) :
  a1 ++ r1 = a2 ++ r2 ->
  Forall (fun c => p c = true) a1 -> stops p r1 ->
  Forall (fun c => p c = true) a2 -> stops p r2 ->
  a1 = a2 /\ r1 = r2.
Proof.
  revert a2. induction a1 as [|x a1 IH]; intros a2 E F1 S1 F2 S2.
  - destruct a2 as [|y a2]; [auto|]. cbn [app] in E. subst r1.
    cbn [stops] in S1. inversion F2; subst. congruence.
  - destruct a2 as [|y a2].
    + cbn [app] in E. subst r2. cbn [stops] in S2. inversion F1; subst. congruence.
    + cbn [app] in E. injection E as -> E. inversion F1; subst. inversion F2; subst.
      destruct (IH a2 E) as [-> ->]; auto.
Qed.

(** Where the pattern of a scan matches, a reference stands. *)
Lemma reference_of_match (kw bef post : str) (m : mstate) :
  scan_keyword kw ->
  matches (ref_pattern kw) {| before := bef; after := post; caps := [] |} m ->
  exists w ws a tail rest t, reference_parts kw bef post w ws a tail rest t.
Proof.
  intros Hkw Hm. unfold ref_pattern, Plus, space, table_ref, ident, ident_start, class_i in Hm.
  cbn [matches] in Hm.
  destruct Hm as (s0 & (Hb & ->) & s1 & Hlit & s2 &
                  (s3 & (c1 & r1 & E1 & P1 & ->) & Hst) & s4 &
                  (s5 & (s6 & (x & r & Ex & Px & ->) & _) & _) & _).
  apply matches_lit_i in Hlit. destruct Hlit as (w & (Ha & Hbef) & Hci & _).
  apply matches_star_class in Hst. destruct Hst as (ws & (Hs & _) & Fws & _).
  cbn [after before advance] in *.
  assert (Hx : is_alpha_ x = true) by (clear - Px; char_solve).
  destruct (keyword_letters kw w Hkw Hci) as (_ & _ & _ & x1 & w' & Ew & Wx & _).
  assert (Hbound : match bef with [] => True | c :: _ => is_word c = false end).
  { unfold at_word_boundary in Hb. cbn [before after] in Hb. rewrite Ha, Ew in Hb.
    cbn [app] in Hb. rewrite Wx in Hb. destruct bef as [|c bef]; [exact I|].
    destruct (is_word c); [discriminate Hb | reflexivity]. }
  destruct (maximal_run is_alnum_ r) as (a' & rest0 & Er & Fa & Hst0).
  assert (Wa : ident_word (x :: a')) by (exists x, a'; auto).
  assert (Epost : post = w ++ (c1 :: ws) ++ (x :: a') ++ rest0).
  { rewrite Ha, E1, Hs, Ex, Er. reflexivity. }
  assert (Hws : Forall (fun c => is_space c = true) (c1 :: ws)) by (constructor; assumption).
  assert (Plain :
            unqualified rest0 ->
            exists w ws a tail rest t, reference_parts kw bef post w ws a tail rest t).
  { intros U. exists w, (c1 :: ws), (x :: a'), [], rest0, (map lower_char (x :: a')).
    unfold reference_parts. cbn [app]. repeat split; try assumption.
    - discriminate.
    - left. auto. }
  destruct rest0 as [|d rest0]; [apply (Plain I)|].
  destruct (N.eqb d "."%u) eqn:D; [|apply Plain; cbn [unqualified];
    destruct rest0; [exact I | rewrite D; reflexivity]].
  destruct rest0 as [|c rest0]; [apply (Plain I)|].
  destruct (is_alpha_ c) eqn:C; [|apply Plain; cbn [unqualified]; rewrite D, C; reflexivity].
  apply N.eqb_eq in D. subst d.
  destruct (maximal_run is_alnum_ rest0) as (b' & rest' & Eb & Fb & Hstb).
  exists w, (c1 :: ws), (x :: a'), ("."%u :: c :: b'), rest', (map lower_char (c :: b')).
  unfold reference_parts. split; [|split; [exact Hci | split; [exact Hbound|]]].
  - rewrite Epost, Eb. cbn [app]. rewrite <- ?app_assoc. reflexivity.
  - split; [discriminate|]. split; [exact Hws|]. split; [exact Wa|].
    split; [reflexivity|]. right. exists (c :: b'). split; [reflexivity|].
    split; [exists c, b'; auto|]. split; [exact Hstb | reflexivity].
Qed.

(** Two ways of cutting one text in two. *)
Lemma app_split (X Y d l : str) :
  X ++ Y = d ++ l ->
  (exists u, X = d ++ u /\ l = u ++ Y) \/
  (exists u, u <> [] /\ d = X ++ u /\ Y = u ++ l).
Proof.
  intros E. apply app_eq_app in E. destruct E as (u & [[E1 E2] | [E1 E2]]).
  - left. exists u. auto.
  - destruct u as [|c u].
    + left. exists []. rewrite app_nil_r in *. cbn [app] in E2. auto.
    + right. exists (c :: u). split; [discriminate | auto].
Qed.

Lemma last_of_suffix (X u d' : str) (z : char) :
  X ++ u = d' ++ [z] -> u <> [] -> exists u', u = u' ++ [z].
Proof.
  intros E Hu. destruct (exists_last Hu) as (u' & z' & ->).
  rewrite app_assoc in E. apply app_inj_tail in E. destruct E as [_ ->].
  exists u'. reflexivity.
Qed.

Lemma space_not_alnum (c : char) : is_space c = true -> is_alnum_ c = false.
Proof. intros H. char_solve. Qed.

Lemma alnum_is_word (c : char) : is_alnum_ c = true -> is_word c = true.
Proof. intros H. char_solve. Qed.

(** A reference that begins inside the match of another one begins at an
    identifier of that match, and this identifier is the keyword: the match
    names the keyword as its table. *)
Lemma overlap_names_keyword (kw befq w1 ws1 a1 tail1 rest1 t1 d l w ws a tail rest t : str) :
  scan_keyword kw ->
  reference_parts kw befq (w1 ++ ws1 ++ a1 ++ tail1 ++ rest1) w1 ws1 a1 tail1 rest1 t1 ->
  w1 ++ ws1 ++ a1 ++ tail1 = d ++ l -> d <> [] -> l <> [] ->
  reference_parts kw (rev d ++ befq) (l ++ rest1) w ws a tail rest t ->
  t1 = kw.
Proof.
  intros Hkw (_ & Hci1 & _ & _ & Fws1 & Wa1 & Hst1 & Hq1) E Hd Hl
         (Ep & Hci & Hb & Hne & Fws & _ & _ & _).
  destruct (keyword_letters kw w1 Hkw Hci1) as (_ & _ & Fw1 & _).
  destruct (keyword_letters kw w Hkw Hci) as (Lw & _ & Fw & x & w' & Ew & Wx & Sx).
  destruct (exists_last Hd) as (d' & z & Ed).
  assert (Hz : is_word z = false).
  { rewrite Ed, rev_app_distr in Hb. exact Hb. }
  assert (Hx : exists l0, l = x :: l0).
  { destruct l as [|y l0]; [congruence|]. rewrite Ew in Ep. cbn [app] in Ep.
    injection Ep as -> _. eauto. }
  destruct Hx as (l0 & El).
  assert (Stop : stops is_alnum_ (ws ++ a ++ tail ++ rest)).
  { destruct ws as [|c ws]; [congruence|]. cbn [app stops].
    apply space_not_alnum. inversion Fws; assumption. }
  assert (Word : forall X : str, Forall (fun c => is_alnum_ c = true) X -> ~ In z X).
  { intros X F Hin. rewrite Forall_forall in F. apply F, alnum_is_word in Hin. congruence. }
  assert (Inz : forall u u' : str, u = u' ++ [z] -> In z u).
  { intros u u' ->. apply in_or_app. right. left. reflexivity. }
  destruct (app_split w1 (ws1 ++ a1 ++ tail1) d l E) as [(u & E1 & _) | (u & Hu & E1 & E2)].
  { exfalso. apply (Word w1 Fw1). rewrite E1, Ed. apply in_or_app. left.
    apply in_or_app. right. left. reflexivity. }
  assert (Eu : exists u', u = u' ++ [z]).
  { apply (last_of_suffix w1 u d'); [rewrite <- E1; exact Ed | exact Hu]. }
  destruct (app_split ws1 (a1 ++ tail1) u l E2) as [(u2 & E3 & E4) | (v & Hv & E3 & E4)].
  - (* the reference begins at the identifier *)
    destruct u2 as [|c u2].
    2:{ exfalso. rewrite El in E4. cbn [app] in E4. injection E4 as <- _.
        rewrite Forall_forall in Fws1.
        assert (is_space x = true).
        { apply Fws1. rewrite E3. apply in_or_app. right. left. reflexivity. }
        congruence. }
    cbn [app] in E4. rewrite E4, <- app_assoc in Ep.
    destruct (maximal_unique is_alnum_ a1 (tail1 ++ rest1) w (ws ++ a ++ tail ++ rest) Ep)
      as [Ea Et]; [apply ident_word_chars, Wa1 | exact Hst1 | exact Fw | exact Stop|].
    destruct Hq1 as [(_ & _ & ->) | (b & -> & _)].
    + rewrite Ea. exact Lw.
    + exfalso. destruct ws as [|c ws]; [congruence|]. cbn [app] in Et.
      injection Et as <- _. inversion Fws; discriminate.
  - destruct Eu as (u' & Eu).
    assert (Ev : exists v', v = v' ++ [z]).
    { apply (last_of_suffix ws1 v u'); [rewrite <- E3; exact Eu | exact Hv]. }
    destruct (app_split a1 tail1 v l E4) as [(v2 & E5 & _) | (z0 & Hz0 & E5 & E6)].
    { exfalso. apply (Word a1 (ident_word_chars a1 Wa1)). rewrite E5.
      apply in_or_app. left. destruct Ev as (v' & ->).
      apply in_or_app. right. left. reflexivity. }
    destruct Ev as (v' & Ev).
    assert (Ez0 : exists z0', z0 = z0' ++ [z]).
    { apply (last_of_suffix a1 z0 v'); [rewrite <- E5; exact Ev | exact Hz0]. }
    destruct Hq1 as [(-> & _) | (b & -> & Wb & Hstb & ->)].
    { destruct z0; [congruence | discriminate E6]. }
    destruct z0 as [|c z1]; [congruence|]. cbn [app] in E6. injection E6 as <- E6.
    destruct z1 as [|c z1].
    + (* the reference begins at the identifier after the dot *)
      cbn [app] in E6. subst b.
      destruct (maximal_unique is_alnum_ l rest1 w (ws ++ a ++ tail ++ rest) Ep)
        as [Ea _]; [apply ident_word_chars, Wb | exact Hstb | exact Fw | exact Stop|].
      rewrite Ea. exact Lw.
    + exfalso. apply (Word b (ident_word_chars b Wb)). rewrite E6.
      apply in_or_app. left. destruct Ez0 as (z0' & Ez0).
      destruct (last_of_suffix ["."%u] (c :: z1) z0' z) as (q & ->);
        [exact Ez0 | discriminate|].
      apply in_or_app. right. left. reflexivity.
Qed.

Section WithUnicode.

Context {unicode : CaseMappings}.

(** The table read from the match of a reference. *)
Lemma reference_table (a tail rest t : str) (bef : str) :
  ident_word a ->
  ((tail = [] /\ unqualified rest /\ t = map lower_char a) \/
   (exists b, tail = "."%u :: b /\ ident_word b /\ stops is_alnum_ rest /\
              t = map lower_char b)) ->
  table_of_match {| before := bef; after := rest; caps := [(1, a ++ tail)] |} = Some t.
Proof.
  intros Wa Hq. unfold table_of_match. cbn [caps get_cap Nat.eqb].
  destruct Hq as [(-> & _ & ->) | (b & -> & Wb & _ & ->)].
  - rewrite app_nil_r. unfold split.
    rewrite (split_char_plain _ _ (ident_word_no_dot a Wa)). unfold pop. cbn [rev app option_map].
    rewrite (toLowerCase_plain a (ident_word_plain a Wa)). reflexivity.
  - unfold split.
    destruct (split_char_last "."%u a b (ident_word_no_dot b Wb)) as (cur & rest0 & ->).
    rewrite pop_last. cbn [option_map].
    rewrite (toLowerCase_plain b (ident_word_plain b Wb)). reflexivity.
Qed.

(** One round of a scan: the match the search finds is a reference, the
    first one at or after the position of the scan; the table it names is
    the one the loop takes from the match. *)
Lemma scan_step (kw bef aft : str) (m : mstate) :
  scan_keyword kw ->
  search_from (ref_pattern kw) bef aft = Some m ->
  exists skipped w ws a tail rest t,
    aft = skipped ++ w ++ ws ++ a ++ tail ++ rest /\
    reference_parts kw (rev skipped ++ bef) (w ++ ws ++ a ++ tail ++ rest)
                    w ws a tail rest t /\
    m = {| before := rev (a ++ tail) ++ rev ws ++ rev w ++ rev skipped ++ bef;
           after := rest; caps := [(1, a ++ tail)] |} /\
    table_of_match m = Some t /\
    forall sk1 sk2, skipped = sk1 ++ sk2 -> sk2 <> [] ->
      rmatch (ref_pattern kw) Some
        {| before := rev sk1 ++ bef; after := sk2 ++ w ++ ws ++ a ++ tail ++ rest;
           caps := [] |} = None.
Proof.
  intros Hkw H. apply search_from_first in H.
  destruct H as (skipped & post & -> & Hrun & Hmin).
  pose proof Hrun as Hm. apply rmatch_sound in Hm. destruct Hm as (m' & Hm & E).
  injection E as ->.
  destruct (reference_of_match kw _ post m Hkw Hm) as (w & ws & a & tail & rest & t & P).
  pose proof (ref_pattern_run kw _ post w ws a tail rest t Hkw P) as R.
  rewrite Hrun in R. injection R as ->.
  pose proof P as (Ep & _ & _ & _ & _ & Wa & _ & Hq).
  exists skipped, w, ws, a, tail, rest, t. rewrite <- Ep.
  split; [reflexivity|]. split; [exact P|]. split; [reflexivity|].
  split; [apply reference_table; assumption | exact Hmin].
Qed.

(** The table a round adds is in the list from then on. *)
Lemma exec_loop_extends (kw : str) :
  forall fuel tables bef aft ts,
    exec_loop fuel (ref_pattern kw) tables bef aft = Some ts ->
    forall t, In t tables -> In t ts.
Proof.
  induction fuel as [|fuel IH]; intros tables bef aft ts H t Ht; [discriminate|].
  cbn [exec_loop] in H.
  destruct (search_from (ref_pattern kw) bef aft) as [m|]; [|injection H as <-; exact Ht].
  apply (IH _ _ _ _ H).
  destruct (table_of_match m) as [n|]; [|exact Ht].
  destruct (truthy (JStr n) && negb (arr_includes tables n)); [|exact Ht].
  apply in_or_app. left. exact Ht.
Qed.

(** The tables of a round: the table of the match is among them. *)
Lemma round_tables (tables : list str) (t : str) :
  t <> [] ->
  In t (if truthy (JStr t) && negb (arr_includes tables t) then tables ++ [t] else tables).
Proof.
  intros Hne. destruct t as [|c t]; [congruence|]. cbn [truthy andb].
  destruct (arr_includes tables (c :: t)) eqn:I; cbn [negb].
  - apply arr_includes_In, I.
  - apply in_or_app. right. left. reflexivity.
Qed.

Lemma reference_table_nonempty (kw bef post w ws a tail rest t : str) :
  reference_parts kw bef post w ws a tail rest t -> t <> [].
Proof.
  intros (_ & _ & _ & _ & _ & Wa & _ & [(_ & _ & ->) | (b & _ & Wb & _ & ->)]).
  - destruct Wa as (c & r & -> & _). discriminate.
  - destruct Wb as (c & r & -> & _). discriminate.
Qed.

(** Soundness of a scan: a table it adds is named by a reference of the
    text. *)
Lemma exec_loop_sound (kw : str) :
  scan_keyword kw ->
  forall fuel tables bef aft ts,
    exec_loop fuel (ref_pattern kw) tables bef aft = Some ts ->
    forall t, In t ts ->
      In t tables \/
      exists skipped post w ws a tail rest,
        aft = skipped ++ post /\
        reference_parts kw (rev skipped ++ bef) post w ws a tail rest t.
Proof.
  intros Hkw. induction fuel as [|fuel IH]; intros tables bef aft ts H t Ht; [discriminate|].
  cbn [exec_loop] in H.
  destruct (search_from (ref_pattern kw) bef aft) as [m|] eqn:E;
    [|injection H as <-; left; exact Ht].
  destruct (scan_step kw bef aft m Hkw E)
    as (skq & w & ws & a & tail & rest & tq & Ea & P & Em & Et & _).
  rewrite Et in H. destruct (IH _ _ _ _ H t Ht) as [Hin | Hlater].
  - assert (Hor : In t tables \/ t = tq).
    { destruct (truthy (JStr tq) && negb (arr_includes tables tq)); [|left; exact Hin].
      apply in_app_or in Hin. destruct Hin as [Hin | [<- | []]]; auto. }
    destruct Hor as [Hor | ->]; [left; exact Hor|].
    right. exists skq, (w ++ ws ++ a ++ tail ++ rest), w, ws, a, tail, rest. auto.
  - destruct Hlater as (sk & post & w' & ws' & a' & tail' & rest' & Er & P').
    right. exists (skq ++ w ++ ws ++ a ++ tail ++ sk), post, w', ws', a', tail', rest'.
    split.
    + rewrite Ea. rewrite Em in Er. cbn [after] in Er. rewrite Er.
      rewrite <- !app_assoc. reflexivity.
    + rewrite Em in P'. cbn [before] in P'.
      replace (rev (skq ++ w ++ ws ++ a ++ tail ++ sk) ++ bef)
        with (rev sk ++ rev (a ++ tail) ++ rev ws ++ rev w ++ rev skq ++ bef); [exact P'|].
      rewrite !rev_app_distr, <- !app_assoc. reflexivity.
Qed.

(** Every reference after the scan position is found, unless it begins inside
    the match of an earlier one: then the earlier match names the keyword. *)
Lemma exec_loop_complete (kw : str) :
  scan_keyword kw ->
  forall fuel tables bef aft ts,
    exec_loop fuel (ref_pattern kw) tables bef aft = Some ts ->
    forall skp post w ws a tail rest t,
      aft = skp ++ post ->
      reference_parts kw (rev skp ++ bef) post w ws a tail rest t ->
      In t ts \/ In kw ts.
Proof.
  intros Hkw. induction fuel as [|fuel IH];
    intros tables bef aft ts H skp post w ws a tail rest t Ea P; [discriminate|].
  cbn [exec_loop] in H.
  pose proof (ref_pattern_run kw _ _ _ _ _ _ _ _ Hkw P) as Run.
  destruct (search_from (ref_pattern kw) bef aft) as [m|] eqn:E.
  2:{ exfalso. destruct (rmatch_sound _ _ _ _ Run) as (s' & Hm & Es').
      injection Es' as ->. rewrite Ea in E.
      exact (search_from_complete _ _ _ _ _ Hm E). }
  destruct (scan_step kw bef aft m Hkw E)
    as (skq & w1 & ws1 & a1 & tail1 & rest1 & tq & Eq & Q & Em & Et & Hmin).
  rewrite Et in H.
  pose proof (round_tables tables tq (reference_table_nonempty _ _ _ _ _ _ _ _ _ Q)) as Hin.
  pose proof (exec_loop_extends kw _ _ _ _ _ H) as Ext.
  assert (Later : forall l : str,
             skp = skq ++ (w1 ++ ws1 ++ a1 ++ tail1) ++ l -> rest1 = l ++ post ->
             In t ts \/ In kw ts).
  { intros l E1 E2. apply (IH _ _ _ _ H l post w ws a tail rest t).
    - rewrite Em. exact E2.
    - rewrite Em. cbn [before].
      replace (rev l ++ rev (a1 ++ tail1) ++ rev ws1 ++ rev w1 ++ rev skq ++ bef)
        with (rev skp ++ bef); [exact P|].
      rewrite E1, !rev_app_distr, <- !app_assoc. reflexivity. }
  rewrite Eq in Ea.
  destruct (app_split skq _ skp post Ea) as [(u & E1 & E2) | (u & Hu & E1 & E2)].
  - destruct u as [|c u].
    + (* the reference is the first match *)
      rewrite app_nil_r in E1. subst skq. cbn [app] in E2.
      pose proof (ref_pattern_run kw _ _ _ _ _ _ _ _ Hkw Q) as RunQ.
      rewrite <- E2, Run in RunQ.
      assert (T : table_of_match m = Some t).
      { assert (Em' : forall x y : mstate, Some x = Some y -> x = y)
          by (intros x y Exy; congruence).
        apply Em' in RunQ. rewrite Em, <- RunQ. apply reference_table; apply P. }
      rewrite Et in T. injection T as ->. left. apply Ext, Hin.
    + (* a match before the first match *)
      exfalso. specialize (Hmin skp (c :: u) E1 ltac:(discriminate)).
      rewrite <- E2, Run in Hmin. discriminate.
  - replace (w1 ++ ws1 ++ a1 ++ tail1 ++ rest1)
      with ((w1 ++ ws1 ++ a1 ++ tail1) ++ rest1) in E2
      by (rewrite <- !app_assoc; reflexivity).
    destruct (app_split _ rest1 u post E2) as [(l & E3 & E4) | (l & _ & E3 & E4)].
    + destruct l as [|c l].
      * apply (Later []); [|symmetry; exact E4].
        rewrite app_nil_r in *. rewrite E1, E3. reflexivity.
      * (* the reference begins inside the first match *)
        right. apply Ext.
        replace kw with tq; [exact Hin|].
        apply (overlap_names_keyword kw (rev skq ++ bef) w1 ws1 a1 tail1 rest1 tq
                 u (c :: l) w ws a tail rest t Hkw Q).
        -- exact E3.
        -- exact Hu.
        -- discriminate.
        -- rewrite <- E4.
           replace (rev u ++ rev skq ++ bef) with (rev skp ++ bef); [exact P|].
           rewrite E1, rev_app_distr, <- app_assoc. reflexivity.
    + apply (Later l); [|exact E4]. rewrite E1, E3. reflexivity.
Qed.

(** What the agent's extractor returns is exactly the tables of the
    references of the text, up to a reference that begins inside another one:
    every table returned is the table of a reference ... *)
Lemma extractTablesFromSQL_sound (sql : str) (tables : list str) :
  Tools.extractTablesFromSQL sql = Some tables ->
  forall t, In t tables ->
    exists kw pre post, scan_keyword kw /\ sql = pre ++ post /\ reference kw pre post t.
Proof.
  unfold Tools.extractTablesFromSQL. intros H t Ht.
  destruct (exec_loop (S (length sql)) fromRegex [] [] sql) as [ts1|] eqn:E1;
    [|discriminate].
  assert (From : forall t, In t ts1 ->
            exists kw pre post, scan_keyword kw /\ sql = pre ++ post /\ reference kw pre post t).
  { intros t' Ht'.
    destruct (exec_loop_sound (js "from") (or_introl eq_refl) _ _ _ _ _ E1 t' Ht')
      as [[] | (sk & post & w & ws & a & tail & rest & Es & P)].
    exists (js "from"), sk, post. split; [left; reflexivity|]. split; [exact Es|].
    rewrite app_nil_r in P. exists w, ws, a, tail, rest. exact P. }
  destruct (exec_loop_sound (js "join") (or_intror eq_refl) _ _ _ _ _ H t Ht)
    as [Hin | (sk & post & w & ws & a & tail & rest & Es & P)].
  - apply From, Hin.
  - exists (js "join"), sk, post. split; [right; reflexivity|]. split; [exact Es|].
    rewrite app_nil_r in P. exists w, ws, a, tail, rest. exact P.
Qed.

(** ... and the table of every reference is returned, or the keyword is: a
    reference that begins inside the match of another is not read, and then
    the keyword is the table of that match. *)
Lemma extractTablesFromSQL_complete (sql : str) (tables : list str) :
  Tools.extractTablesFromSQL sql = Some tables ->
  forall kw pre post t,
    scan_keyword kw -> sql = pre ++ post -> reference kw pre post t ->
    In t tables \/ In kw tables.
Proof.
  unfold Tools.extractTablesFromSQL. intros H kw pre post t Hkw Es (w & ws & a & tail & rest & P).
  destruct (exec_loop (S (length sql)) fromRegex [] [] sql) as [ts1|] eqn:E1;
    [|discriminate].
  pose proof (exec_loop_extends (js "join") _ _ _ _ _ H) as Ext.
  rewrite <- (app_nil_r (rev pre)) in P.
  destruct Hkw as [-> | ->].
  - destruct (exec_loop_complete (js "from") (or_introl eq_refl) _ _ _ _ _ E1
                pre post w ws a tail rest t Es P) as [Hin | Hin]; [left | right];
      apply Ext, Hin.
  - exact (exec_loop_complete (js "join") (or_intror eq_refl) _ _ _ _ _ H
             pre post w ws a tail rest t Es P).
Qed.

End WithUnicode.

End ReferenceFacts.

(** ** The guarded query executor *)

Module ExecuteFacts.
Import Validation Eff Tools ToolsSpec ScanSpec JSFacts ValidationFacts ExtractFacts
  SanitizeFacts ReferenceFacts.

Lemma with_trace_nil {B} (w : world B) : with_trace w [] = w.
Proof. destruct w. unfold with_trace. simpl. rewrite app_nil_r. reflexivity. Qed.

Lemma with_trace_app {B} (w : world B) (a b : list event) :
  with_trace (with_trace w a) b = with_trace w (a ++ b).
Proof. unfold with_trace. simpl. rewrite app_assoc. reflexivity. Qed.

Lemma app_middle (head tail pre t post : str) :
  head ++ (pre ++ t ++ post) ++ tail = (head ++ pre) ++ t ++ (post ++ tail).
Proof. rewrite <- !app_assoc. reflexivity. Qed.

Lemma join_contains (sep t : str) (xs : list str) :
  In t xs -> exists pre post, join sep xs = pre ++ t ++ post.
Proof.
  induction xs as [|x xs IH]; [contradiction|].
  intros [->|H].
  - destruct xs as [|y xs].
    + exists [], []. simpl. rewrite app_nil_r. reflexivity.
    + exists [], (sep ++ join sep (y :: xs)). reflexivity.
  - destruct (IH H) as (pre & post & E). destruct xs as [|y xs]; [contradiction|].
    exists (x ++ sep ++ pre), post.
    change (join sep (x :: y :: xs)) with (x ++ sep ++ join sep (y :: xs)).
    rewrite E, <- !app_assoc. reflexivity.
Qed.

Section WithUnicode.

Context {unicode : CaseMappings}.

Lemma validateSQL_rule (sql : str) :
  valid (validateSQL sql) = false ->
  exists rule, error (validateSQL sql) = Some rule /\
    (rule = multiple_error \/ rule = start_error \/
     exists kw, In kw BLOCKED_KEYWORDS /\ rule = blocked_error kw).
Proof.
  unfold validateSQL. cbv zeta.
  destruct (find _ BLOCKED_KEYWORDS) as [kw|] eqn:F.
  - intros _. apply find_some in F. exists (blocked_error kw). split; [reflexivity|].
    right. right. exists kw. tauto.
  - destruct (includes _ _ && _); [intros _; eexists; split; [reflexivity | auto]|].
    destruct (negb _ && _); [intros _; eexists; split; [reflexivity | auto]|].
    discriminate.
Qed.

Section WithTools.

Variable B : Type.
Variable rpc : str -> B -> rpc_response * B.
Variable config : SupabaseToolsConfig.

Lemma canAccessTable_run (t s : str) (w : world B) :
  canAccessTable (B:=B) config t s w =
  (Ok (negb (AccessLevel_eqb (resolved_level config t s) none)),
   with_trace w [PermissionCheck t (resolved_level config t s)]).
Proof. reflexivity. Qed.

Lemma filter_blocked_run (tables : list str) :
  forall w : world B,
    filterM (fun t => bind (canAccessTable (B:=B) config t public) (fun ok => ret (negb ok)))
            tables w =
    (Ok (filter (is_blocked config) tables), with_trace w (checks config tables)).
Proof.
  induction tables as [|t tables IH]; intros w.
  - simpl. rewrite with_trace_nil. reflexivity.
  - cbn [filterM]. unfold bind at 1 2. rewrite canAccessTable_run.
    unfold bind at 1. cbn [ret]. rewrite IH. rewrite with_trace_app.
    unfold ret. simpl. rewrite negb_involutive. reflexivity.
Qed.

Lemma validateTableAccess_run (sql : str) (tables : list str) (w : world B) :
  extractTablesFromSQL sql = Some tables ->
  validateTableAccess (B:=B) config sql w =
  (Ok {| allowed := (length (filter (is_blocked config) tables) =? 0);
         blockedTables := filter (is_blocked config) tables |},
   with_trace w (checks config tables)).
Proof.
  intros E. unfold validateTableAccess. rewrite E.
  unfold bind. rewrite filter_blocked_run. reflexivity.
Qed.

(** The race of the query against the timer: the answer of the back end
    wins unless the timer fires first. *)
Lemma race_runQuery (q : str) (w : world B) :
  race (runQuery rpc q) (queryTimeout_ config) (timeout_message (queryTimeout_ config)) w =
  let '(resp, b') := rpc q (backend w) in
  (if rpc_timer_first resp (queryTimeout_ config)
   then Throw (timeout_message (queryTimeout_ config))
   else match rpc_error resp with
        | Some message => Throw (js "Query failed: " ++ message)
        | None => Ok (rows_of resp)
        end,
   {| backend := b'; clock := (clock w + Z.max 0 (rpc_elapsed resp))%Z;
      trace := trace w ++ [Rpc q]; timer_first := rpc_timer_first resp |}).
Proof.
  unfold race, runQuery, bind, call_rpc.
  destruct (rpc q (backend w)) as [resp b'] eqn:R.
  destruct (rpc_error resp) as [message|]; unfold throw, ret; cbn [timer_first];
    destruct (rpc_timer_first resp (queryTimeout_ config)); reflexivity.
Qed.

End WithTools.

(** A valid text whose tables are all accessible goes to the back end. *)
Lemma executeSQL_permitted (B : Type) (rpc : str -> B -> rpc_response * B)
  (config : SupabaseToolsConfig) (sql : str) (tables : list str) (w : world B) :
  valid (validateSQL sql) = true ->
  extractTablesFromSQL sql = Some tables ->
  filter (is_blocked config) tables = [] ->
  let limitedSQL := addDefaultLimit (sanitizeSQL sql) (maxRows_ config) in
  let resp := fst (rpc limitedSQL (backend w)) in
  exists r w',
    executeSQL rpc config sql w = (r, w') /\
    trace w' = trace w ++ checks config tables ++ [Rpc limitedSQL] /\
    backend w' = snd (rpc limitedSQL (backend w)) /\
    r = if rpc_timer_first resp (queryTimeout_ config)
        then Throw (timeout_message (queryTimeout_ config))
        else match rpc_error resp with
             | Some message => Throw (js "Query failed: " ++ message)
             | None =>
                 Ok {| qr_data := rows_of resp;
                       qr_rowCount := Z.of_nat (length (rows_of resp));
                       qr_columns := match rows_of resp with
                                     | r :: _ => keys r
                                     | [] => []
                                     end;
                       qr_executionTime := Z.max 0 (rpc_elapsed resp) |}
             end.
Proof.
  intros Hv E Hb limitedSQL resp.
  unfold executeSQL. rewrite Hv. cbn [negb]. unfold bind at 1.
  rewrite (validateTableAccess_run B config sql tables w E). cbn [allowed blockedTables].
  rewrite Hb. cbn [length Nat.eqb negb].
  unfold bind at 1. unfold now at 1. unfold bind at 1.
  fold limitedSQL. rewrite race_runQuery.
  cbn [backend clock trace with_trace].
  subst resp.
  destruct (rpc limitedSQL (backend w)) as [resp b'] eqn:R. cbn [fst snd].
  destruct (rpc_timer_first resp (queryTimeout_ config)).
  - eexists _, _. split; [reflexivity|]. cbn [trace backend].
    rewrite <- app_assoc. auto.
  - destruct (rpc_error resp) as [message|].
    + eexists _, _. split; [reflexivity|]. cbn [trace backend].
      rewrite <- app_assoc. auto.
    + eexists _, _. split; [reflexivity|]. cbn [trace backend clock].
      rewrite <- app_assoc. split; [reflexivity|]. split; [reflexivity|].
      f_equal. f_equal. lia.
Qed.

(** C1. [executeSQL] checks in this order: the safety validation; the
    extraction of the tables and their permission checks; then it strips
    the trailing semicolons, appends the row cap when the text has none,
    and runs the query against the timer.  A text that fails the validation
    is refused with the message of the violated rule, the world untouched:
    no permission check, no query.  Otherwise the tables extracted are the
    tables of the FROM and JOIN references of the text (every table returned
    is the table of a reference, and the table of every reference is
    returned, the keyword standing for a reference that begins inside the
    match of another); the blocked ones are those that resolve to the access
    level [none] in the schema public, and when there is one, the call is
    refused with an access-denied message that lists every blocked table,
    after the permission checks and without any query.  Otherwise the text,
    its surrounding white space and trailing semicolons taken off and the row
    cap appended when it has no LIMIT, is sent to the back end, and the call
    returns the timeout when the timer fires first, and the rows or the
    failure of the query otherwise.  The row cap and the timeout are
    integers that a number holds exactly, as their printed form enters the
    query and the message. *)
Theorem C1_executeSQL_order (B : Type) (rpc : str -> B -> rpc_response * B)
  (config : SupabaseToolsConfig) (sql : str) (w : world B) :
  safe_integer (maxRows_ config) = true ->
  safe_integer (queryTimeout_ config) = true ->
  let v := validateSQL sql in
  (valid v = false ->
     exists rule,
       error v = Some rule /\
       (rule = multiple_error \/ rule = start_error \/
        exists kw, In kw BLOCKED_KEYWORDS /\ rule = blocked_error kw) /\
       executeSQL rpc config sql w = (Throw (js "SQL validation failed: " ++ rule), w))
  /\
  (valid v = true ->
     exists tables,
       extractTablesFromSQL sql = Some tables /\
       (forall t, In t tables ->
          exists kw pre post,
            scan_keyword kw /\ sql = pre ++ post /\ reference kw pre post t) /\
       (forall kw pre post t,
          scan_keyword kw -> sql = pre ++ post -> reference kw pre post t ->
          In t tables \/ In kw tables) /\
       let blocked := filter (is_blocked config) tables in
       (forall t, In t blocked <->
                  In t tables /\ accessLevel (getTablePermission config t public) = none) /\
       (blocked <> [] ->
          executeSQL rpc config sql w =
            (Throw (access_denied_query blocked), with_trace w (checks config tables)) /\
          is_access_denied (access_denied_query blocked) = true /\
          forall t, In t blocked ->
            exists pre post, access_denied_query blocked = pre ++ t ++ post)
       /\
       (blocked = [] ->
          let sanitizedSQL := sanitizeSQL sql in
          let limitedSQL := addDefaultLimit sanitizedSQL (maxRows_ config) in
          let resp := fst (rpc limitedSQL (backend w)) in
          (exists lead tail,
             sql = lead ++ sanitizedSQL ++ tail /\
             Forall (fun c => is_space c = true) lead /\
             Forall (fun c => is_space c = true \/ c = ";"%u) tail) /\
          trim sanitizedSQL = sanitizedSQL /\
          endsWith sanitizedSQL (js ";") = false /\
          (if includes (toUpperCase sanitizedSQL) (js "LIMIT")
           then limitedSQL = sanitizedSQL
           else limitedSQL = sanitizedSQL ++ js " LIMIT " ++ show_Z (maxRows_ config)) /\
          exists r w',
            executeSQL rpc config sql w = (r, w') /\
            trace w' = trace w ++ checks config tables ++ [Rpc limitedSQL] /\
            backend w' = snd (rpc limitedSQL (backend w)) /\
            r = if rpc_timer_first resp (queryTimeout_ config)
                then Throw (timeout_message (queryTimeout_ config))
                else match rpc_error resp with
                     | Some message => Throw (js "Query failed: " ++ message)
                     | None =>
                         Ok {| qr_data := rows_of resp;
                               qr_rowCount := Z.of_nat (length (rows_of resp));
                               qr_columns := match rows_of resp with
                                             | r :: _ => keys r
                                             | [] => []
                                             end;
                               qr_executionTime := Z.max 0 (rpc_elapsed resp) |}
                     end)).
Proof.
  intros _ _ v. subst v. split.
  - intros Hv. destruct (validateSQL_rule sql Hv) as (rule & He & Hr).
    exists rule. split; [assumption|]. split; [exact Hr|].
    unfold executeSQL. rewrite Hv, He. reflexivity.
  - intros Hv. destruct (extractTablesFromSQL_total sql) as (tables & E).
    exists tables. split; [assumption|].
    split; [exact (extractTablesFromSQL_sound sql tables E)|].
    split; [exact (extractTablesFromSQL_complete sql tables E)|].
    intros blocked. split; [|split].
    + intros t. subst blocked. rewrite filter_In. unfold is_blocked, resolved_level.
      destruct (accessLevel (getTablePermission config t public));
        cbn [AccessLevel_eqb]; split; intros [H1 H2]; try discriminate;
        (split; [exact H1 | reflexivity]).
    + intros Hb. split; [|split].
      * unfold executeSQL. rewrite Hv. cbn [negb]. unfold bind.
        rewrite (validateTableAccess_run B config sql tables w E). cbn [allowed blockedTables].
        fold blocked. destruct blocked; [congruence | reflexivity].
      * reflexivity.
      * intros t Ht. unfold access_denied_query.
        destruct (join_contains (js ", ") t blocked Ht) as (pre & post & ->).
        eexists _, _. apply app_middle.
    + intros Hb sanitizedSQL limitedSQL.
      destruct (sanitizeSQL_shape sql) as (Hshape & Htrim & Hend & _).
      split; [exact Hshape|]. split; [exact Htrim|]. split; [exact Hend|]. split.
      * subst limitedSQL. unfold addDefaultLimit.
        destruct (includes (toUpperCase sanitizedSQL) (js "LIMIT")); reflexivity.
      * apply executeSQL_permitted; assumption.
Qed.


End WithUnicode.

Section Run.

#[local] Existing Instance Examples.plain_tables.

Lemma C1_executeSQL_order_witness :
  safe_integer (maxRows_ Examples.users_hidden) = true /\
  safe_integer (queryTimeout_ Examples.users_hidden) = true /\
  valid (validateSQL (js "SELECT * FROM orders;")) = true /\
  extractTablesFromSQL (js "SELECT * FROM orders;") = Some [js "orders"] /\
  exists r w',
    executeSQL Examples.sample_rpc Examples.users_hidden (js "SELECT * FROM orders;")
      Examples.w0 = (r, w') /\
    trace w' =
      [PermissionCheck (js "orders") read; Rpc (js "SELECT * FROM orders LIMIT 1000")].
Proof.
  split; [reflexivity|]. split; [reflexivity|]. split; [reflexivity|].
  split; [reflexivity|].
  destruct (C1_executeSQL_order unit Examples.sample_rpc Examples.users_hidden
              (js "SELECT * FROM orders;") Examples.w0 eq_refl eq_refl)
    as [_ Hvalid].
  destruct (Hvalid eq_refl) as (tables & E & _ & _ & _ & _ & Hrun).
  assert (Et : tables = [js "orders"]).
  { assert (Ex : extractTablesFromSQL (js "SELECT * FROM orders;") = Some [js "orders"])
      by reflexivity.
    rewrite Ex in E. injection E as <-. reflexivity. }
  subst tables.
  destruct (Hrun eq_refl) as (_ & _ & _ & _ & r & w' & Hr & Htr & _).
  exists r, w'. split; [exact Hr|]. exact Htr.
Defined.


(** The two queries of the specification under its policy: the one on
    [users] is refused, naming the table, before any query is sent; the one
    on [orders] reaches the back end, capped. *)
Example executeSQL_examples :
  executeSQL Examples.sample_rpc Examples.users_hidden (js "SELECT * FROM users")
    Examples.w0 =
    (Throw (access_denied_query [js "users"]),
     with_trace Examples.w0 [PermissionCheck (js "users") none]) /\
  trace (snd (executeSQL Examples.sample_rpc Examples.users_hidden
                (js "SELECT * FROM orders;") Examples.w0)) =
    [PermissionCheck (js "orders") read; Rpc (js "SELECT * FROM orders LIMIT 1000")].
Proof. split; reflexivity. Qed.

End Run.

End ExecuteFacts.

(** ** Termination of the tools *)

Module TerminationFacts.
Import Validation Eff Tools ToolsSpec ExtractFacts.

Section WithBackend.

Context {unicode : CaseMappings}.
Variable B : Type.
Variable rpc : str -> B -> rpc_response * B.
Variable config : SupabaseToolsConfig.

Lemma terminates_ret {A} (a : A) : terminates (ret (B:=B) a).
Proof. intros w. discriminate. Qed.

Lemma terminates_throw {A} (e : str) : terminates (throw (B:=B) (A:=A) e).
Proof. intros w. discriminate. Qed.

Lemma terminates_bind {A C} (m : M B A) (f : A -> M B C) :
  terminates m -> (forall a, terminates (f a)) -> terminates (bind m f).
Proof.
  intros Hm Hf w. unfold bind. specialize (Hm w).
  destruct (m w) as [[a|e|] w']; simpl in *; [apply Hf | discriminate | congruence].
Qed.

Lemma terminates_try_catch {A} (m : M B A) (h : str -> M B A) :
  terminates m -> (forall e, terminates (h e)) -> terminates (try_catch m h).
Proof.
  intros Hm Hh w. unfold try_catch. specialize (Hm w).
  destruct (m w) as [[a|e|] w']; simpl in *; [discriminate | apply Hh | congruence].
Qed.

Lemma terminates_log (e : event) : terminates (log (B:=B) e).
Proof. intros w. discriminate. Qed.

Lemma terminates_now : terminates (now (B:=B)).
Proof. intros w. discriminate. Qed.

Lemma terminates_call_rpc (q : str) : terminates (call_rpc rpc q).
Proof. intros w. unfold call_rpc. destruct (rpc q (backend w)). discriminate. Qed.

Lemma terminates_race {A} (m : M B A) (t : Z) (e : str) :
  terminates m -> terminates (race m t e).
Proof.
  intros Hm w. unfold race. specialize (Hm w). destruct (m w) as [r w'].
  destruct (timer_first w' t); simpl in *; [discriminate | assumption].
Qed.

Lemma terminates_filterM {A} (f : A -> M B bool) (xs : list A) :
  (forall x, terminates (f x)) -> terminates (filterM f xs).
Proof.
  intros Hf. induction xs as [|x xs IH]; simpl.
  - apply terminates_ret.
  - apply terminates_bind; [apply Hf|]. intros keep.
    apply terminates_bind; [apply IH|]. intros rest. apply terminates_ret.
Qed.

Lemma terminates_expect_string (v : jsval) : terminates (expect_string (B:=B) v).
Proof. destruct v; simpl; first [apply terminates_ret | apply terminates_throw]. Qed.

Lemma terminates_validateSQLIdentifier (v : jsval) (kind : str) :
  terminates (validateSQLIdentifier (B:=B) v kind).
Proof.
  unfold validateSQLIdentifier. destruct v; try apply terminates_throw.
  destruct (isValidSQLIdentifier _); [apply terminates_ret | apply terminates_throw].
Qed.

Lemma terminates_canAccessTable (t s : str) : terminates (canAccessTable (B:=B) config t s).
Proof. intros w. discriminate. Qed.

Lemma terminates_canAccessTable_cast (t s : jsval) :
  terminates (canAccessTable_cast (B:=B) config t s).
Proof.
  unfold canAccessTable_cast.
  apply terminates_bind; [apply terminates_expect_string|]. intros n.
  apply terminates_bind.
  - destruct s; first [apply terminates_ret | apply terminates_expect_string].
  - intros s'. apply terminates_canAccessTable.
Qed.

Lemma terminates_validateTableAccess (sql : str) :
  terminates (validateTableAccess (B:=B) config sql).
Proof.
  unfold validateTableAccess.
  destruct (extractTablesFromSQL_total sql) as (tables & ->).
  apply terminates_bind.
  - apply terminates_filterM. intros t.
    apply terminates_bind; [apply terminates_canAccessTable|].
    intros ok. apply terminates_ret.
  - intros blocked. apply terminates_ret.
Qed.

Lemma terminates_runQuery (q : str) : terminates (runQuery rpc q).
Proof.
  unfold runQuery. apply terminates_bind; [apply terminates_call_rpc|].
  intros resp. destruct (rpc_error resp); [apply terminates_throw | apply terminates_ret].
Qed.

Lemma terminates_listTables (schema : jsval) : terminates (listTables rpc config schema).
Proof.
  unfold listTables.
  apply terminates_bind; [apply terminates_validateSQLIdentifier|]. intros safeSchema.
  apply terminates_try_catch; [|intros e; apply terminates_ret].
  apply terminates_bind; [apply terminates_runQuery|]. intros tables.
  apply terminates_bind; [|intros acc; apply terminates_ret].
  apply terminates_filterM. intros t. apply terminates_canAccessTable_cast.
Qed.

Lemma terminates_getTableSchema (tableName schema : jsval) :
  terminates (getTableSchema rpc config tableName schema).
Proof.
  unfold getTableSchema.
  apply terminates_bind; [apply terminates_validateSQLIdentifier|]. intros safeTableName.
  apply terminates_bind; [apply terminates_validateSQLIdentifier|]. intros safeSchema.
  apply terminates_bind; [apply terminates_canAccessTable|]. intros ok.
  destruct (negb ok); [apply terminates_throw|].
  apply terminates_bind; [apply terminates_runQuery|]. intros columnsData.
  apply terminates_bind; [apply terminates_runQuery|]. intros pkData.
  apply terminates_bind; [apply terminates_runQuery|]. intros fkData.
  apply terminates_ret.
Qed.

Lemma terminates_executeSQL (sql : str) : terminates (executeSQL rpc config sql).
Proof.
  unfold executeSQL. destruct (negb (valid (validateSQL sql))); [apply terminates_throw|].
  apply terminates_bind; [apply terminates_validateTableAccess|]. intros av.
  destruct (negb (allowed av)); [apply terminates_throw|].
  apply terminates_bind; [apply terminates_now|]. intros startTime.
  apply terminates_bind; [apply terminates_race, terminates_runQuery|]. intros data.
  apply terminates_bind; [apply terminates_now|]. intros endTime.
  apply terminates_ret.
Qed.

Lemma terminates_handleToolCall (toolName : str) (toolInput : row) :
  terminates (handleToolCall rpc config toolName toolInput).
Proof.
  unfold handleToolCall. apply terminates_try_catch; [|intros e; apply terminates_ret].
  destruct (str_eqb toolName (js "list_tables")).
  { apply terminates_bind; [apply terminates_listTables|]. intros. apply terminates_ret. }
  destruct (str_eqb toolName (js "get_table_schema")).
  { apply terminates_bind; [apply terminates_getTableSchema|]. intros. apply terminates_ret. }
  destruct (str_eqb toolName (js "execute_sql")).
  { apply terminates_bind; [apply terminates_expect_string|]. intros sql.
    apply terminates_bind; [apply terminates_executeSQL|]. intros. apply terminates_ret. }
  apply terminates_ret.
Qed.

(** What the dispatch returns is an envelope, never an exception. *)
Lemma handleToolCall_returns (toolName : str) (toolInput : row) (w : world B) :
  exists env w', handleToolCall rpc config toolName toolInput w = (Ok env, w').
Proof.
  pose proof (terminates_handleToolCall toolName toolInput w) as T.
  destruct (handleToolCall rpc config toolName toolInput w) as [[env|e|] w'] eqn:E;
    cbn [fst] in T; [eauto | | congruence].
  exfalso. unfold handleToolCall, try_catch in E.
  match type of E with (match ?m with _ => _ end) = _ =>
    destruct m as [[x|e'|] w1]; discriminate end.
Qed.

End WithBackend.

End TerminationFacts.

(** ** The catalog reader and the dispatch of tool calls *)

Module CatalogFacts.
Import Validation Eff Tools ToolsSpec JSFacts ExecuteFacts TerminationFacts.

Section WithUnicode.

Context {unicode : CaseMappings}.


Lemma AccessLevel_eqb_eq (a b : AccessLevel) : AccessLevel_eqb a b = true <-> a = b.
Proof. destruct a, b; simpl; split; intros H; try reflexivity; discriminate. Qed.

Lemma not_none (a : AccessLevel) : negb (AccessLevel_eqb a none) = true <-> a <> none.
Proof. destruct a; simpl; split; intros H; try reflexivity; try discriminate; congruence. Qed.

Section WithBackend.

Variable B : Type.
Variable rpc : str -> B -> rpc_response * B.
Variable config : SupabaseToolsConfig.

Lemma validateSQLIdentifier_ok (v : jsval) (kind : str) :
  isValidSQLIdentifier v = true ->
  exists s, v = JStr s /\ validateSQLIdentifier (B:=B) v kind = ret s.
Proof.
  intros H. destruct v; try discriminate. exists s. split; [reflexivity|].
  unfold validateSQLIdentifier. rewrite H. reflexivity.
Qed.

Lemma validateSQLIdentifier_fail (v : jsval) (kind : str) :
  isValidSQLIdentifier v = false ->
  validateSQLIdentifier (B:=B) v kind = throw (invalid_identifier kind v).
Proof.
  intros H. unfold validateSQLIdentifier. destruct v; try reflexivity.
  rewrite H. reflexivity.
Qed.


(** What [filter] keeps, its callback answered [true] for. *)
Lemma filterM_sound {A} (f : A -> M B bool) (xs : list A) :
  forall w ys w',
    filterM f xs w = (Ok ys, w') ->
    forall y, In y ys -> In y xs /\ exists w1 w2, f y w1 = (Ok true, w2).
Proof.
  induction xs as [|x xs IH]; intros w ys w' H y Hy.
  - inversion H; subst. contradiction.
  - cbn [filterM] in H. unfold bind at 1 in H.
    destruct (f x w) as [[keep|e|] w1] eqn:E; try discriminate.
    unfold bind at 1 in H.
    destruct (filterM f xs w1) as [[rest|e|] w2] eqn:E2; try discriminate.
    inversion H; subst. destruct keep.
    + destruct Hy as [->|Hy].
      * split; [left; reflexivity | eauto].
      * destruct (IH _ _ _ E2 y Hy). split; [right|]; assumption.
    + destruct (IH _ _ _ E2 y Hy). split; [right|]; assumption.
Qed.

Lemma canAccessTable_cast_true (tn sc : jsval) (w1 w2 : world B) :
  canAccessTable_cast config tn sc w1 = (Ok true, w2) ->
  exists n s, tn = JStr n /\
              (sc = JStr s \/ (sc = JUndefined /\ s = public)) /\
              resolved_level config n s <> none.
Proof.
  unfold canAccessTable_cast.
  destruct tn as [| | | |n|]; try discriminate.
  destruct sc as [| | | |s|]; try discriminate; unfold bind; simpl;
    intros H; injection H as H _; apply not_none in H; eauto 7.
Qed.

End WithBackend.

(** C5. Whatever the catalog answers, every entry [listTables] returns
    names a table that [canAccessTable] accepts under the configuration: a
    table that resolves to the access level [none] is never in the list.
    The call itself either returns such a list or is refused for an invalid
    schema name.  The filter of the web library keeps accessible tables
    only, too. *)
Theorem C5_listTables_only_accessible (B : Type) (rpc : str -> B -> rpc_response * B)
  (config : SupabaseToolsConfig) (schema : jsval) (w : world B) :
  match fst (listTables rpc config schema w) with
  | Ok infos =>
      forall info, In info infos ->
        exists n s,
          ti_name info = JStr n /\
          (ti_schema info = JStr s \/ (ti_schema info = JUndefined /\ s = public)) /\
          resolved_level config n s <> none /\
          forall w1 : world B, fst (canAccessTable config n s w1) = Ok true
  | Throw e => e = invalid_identifier (js "schema name") (schema_or_public schema)
  | Hang => False
  end
  /\
  forall (wconfig : Permissions.TablePermissionsConfig) (tables : list (str * str)) t,
    In t (Permissions.filterAccessibleTables wconfig tables) ->
    In t tables /\ Permissions.canAccessTable wconfig (fst t) (snd t) = true.
Proof.
  split.
  - pose proof (terminates_listTables B rpc config schema w) as T.
    destruct (listTables rpc config schema w) as [[infos|e|] w'] eqn:L;
      cbn [fst] in *; [| |congruence]; clear T;
      unfold listTables in L; fold (schema_or_public schema) in L;
      destruct (isValidSQLIdentifier (schema_or_public schema)) eqn:V.
    + destruct (validateSQLIdentifier_ok B _ (js "schema name") V) as (s0 & _ & Hs0).
      rewrite Hs0 in L. unfold bind at 1 in L. cbn [ret] in L. unfold try_catch in L.
      unfold bind at 1 in L.
      destruct (runQuery rpc _ w) as [[rows|e|] w1]; try discriminate;
        [|inversion L; subst; intros info []].
      unfold bind at 1 in L.
      destruct (filterM _ rows w1) as [[kept|e|] w2] eqn:F; try discriminate;
        [|inversion L; subst; intros info []].
      inversion L; subst. intros info Hin. apply in_map_iff in Hin.
      destruct Hin as (t & <- & Ht). cbn [ti_name ti_schema].
      destruct (filterM_sound B _ _ _ _ _ F t Ht) as (_ & wa & wb & Hc).
      apply canAccessTable_cast_true in Hc.
      destruct Hc as (n & s & Hn & Hs & Hl). exists n, s.
      repeat split; try assumption.
      intros w1'. rewrite canAccessTable_run. cbn [fst]. f_equal.
      apply not_none. assumption.
    + rewrite (validateSQLIdentifier_fail B _ (js "schema name") V) in L.
      discriminate.
    + destruct (validateSQLIdentifier_ok B _ (js "schema name") V) as (s0 & _ & Hs0).
      rewrite Hs0 in L. unfold bind at 1 in L. cbn [ret] in L. unfold try_catch in L.
      unfold bind at 1 in L.
      destruct (runQuery rpc _ w) as [[rows|e'|] w1]; try discriminate.
      unfold bind at 1 in L.
      destruct (filterM _ rows w1) as [[kept|e'|] w2]; discriminate.
    + rewrite (validateSQLIdentifier_fail B _ (js "schema name") V) in L.
      inversion L. reflexivity.
  - intros wconfig tables t H. unfold Permissions.filterAccessibleTables in H.
    apply filter_In in H. exact H.
Qed.

End WithUnicode.

Section Run.

#[local] Existing Instance Examples.plain_tables.

(** The catalog of the examples under the policy that hides [users]: the
    list holds [orders] only. *)
Example listTables_example :
  fst (listTables Examples.sample_rpc Examples.users_hidden JUndefined Examples.w0) =
  Ok [{| ti_name := JStr (js "orders"); ti_schema := JStr (js "public");
         ti_columns := [] |}].
Proof. reflexivity. Qed.

End Run.

End CatalogFacts.

(** ** The schema of a table *)

Module SchemaFacts.
Import Validation Eff Tools ToolsSpec JSFacts ExecuteFacts TerminationFacts CatalogFacts.

Section WithUnicode.

Context {unicode : CaseMappings}.




Lemma bind_ret {B A C} (a : A) (f : A -> M B C) (w : world B) :
  bind (ret a) f w = f a w.
Proof. reflexivity. Qed.

Lemma bind_ok {B A C} (m : M B A) (f : A -> M B C) (w w' : world B) (a : A) :
  m w = (Ok a, w') -> bind m f w = f a w'.
Proof. unfold bind. intros ->. reflexivity. Qed.

Lemma bind_throw {B A C} (m : M B A) (f : A -> M B C) (w w' : world B) (e : str) :
  m w = (Throw e, w') -> bind m f w = (Throw e, w').
Proof. unfold bind. intros ->. reflexivity. Qed.



End WithUnicode.

Section Run.

#[local] Existing Instance Examples.plain_tables.


End Run.

End SchemaFacts.

(** ** The dispatch of tool calls *)

Module DispatchFacts.
Import Validation Eff Tools ToolsSpec JSFacts TerminationFacts.

Section WithUnicode.

Context {unicode : CaseMappings}.

(** C7. [handleToolCall] never lets an exception out: for every tool name
    and every input it returns an envelope.  For a known tool the envelope
    is the success envelope with the payload of the tool when the tool
    returns, and the failure envelope with the message of the exception
    when the tool throws; for any other name it is a failure envelope that
    names the unknown tool. *)
Theorem C7_handleToolCall_never_throws (B : Type) (rpc : str -> B -> rpc_response * B)
  (config : SupabaseToolsConfig) (toolName : str) (toolInput : row) (w : world B) :
  exists env w',
    handleToolCall rpc config toolName toolInput w = (Ok env, w') /\
    (toolName = js "list_tables" ->
       match listTables rpc config
               (or_else (field toolInput (js "schema")) (JStr public)) w with
       | (Ok tables, w1) =>
           env = Success (TablesPayload
                   (map (fun t => (ti_name t, Z.of_nat (length (ti_columns t)))) tables))
           /\ w' = w1
       | (Throw message, w1) => env = Failure message /\ w' = w1
       | (Hang, _) => False
       end) /\
    (toolName = js "get_table_schema" ->
       match getTableSchema rpc config (field toolInput (js "table_name"))
               (or_else (field toolInput (js "schema")) (JStr public)) w with
       | (Ok tableInfo, w1) => env = Success (TablePayload tableInfo) /\ w' = w1
       | (Throw message, w1) => env = Failure message /\ w' = w1
       | (Hang, _) => False
       end) /\
    (toolName = js "execute_sql" ->
       match field toolInput (js "sql") with
       | JStr sql =>
           match executeSQL rpc config sql w with
           | (Ok result, w1) => env = Success (ResultPayload result) /\ w' = w1
           | (Throw message, w1) => env = Failure message /\ w' = w1
           | (Hang, _) => False
           end
       | _ => success env = false /\ w' = w
       end) /\
    (toolName <> js "list_tables" -> toolName <> js "get_table_schema" ->
     toolName <> js "execute_sql" ->
       env = Failure (js "Unknown tool: " ++ toolName) /\ w' = w).
Proof.
  unfold handleToolCall, try_catch.
  destruct (str_eqb toolName (js "list_tables")) eqn:E1.
  { apply str_eqb_eq in E1.
    pose proof (terminates_listTables B rpc config
                  (or_else (field toolInput (js "schema")) (JStr public)) w) as T.
    unfold bind.
    destruct (listTables rpc config _ w) as [[tables|message|] w1]; cbn [fst] in T;
      [| |congruence]; eexists _, _; (split; [reflexivity|]);
      repeat split; intros; subst; try discriminate; try congruence. }
  destruct (str_eqb toolName (js "get_table_schema")) eqn:E2.
  { apply str_eqb_eq in E2.
    pose proof (terminates_getTableSchema B rpc config (field toolInput (js "table_name"))
                  (or_else (field toolInput (js "schema")) (JStr public)) w) as T.
    unfold bind.
    destruct (getTableSchema rpc config _ _ w) as [[info|message|] w1]; cbn [fst] in T;
      [| |congruence]; eexists _, _; (split; [reflexivity|]);
      repeat split; intros; subst; try discriminate; try congruence. }
  destruct (str_eqb toolName (js "execute_sql")) eqn:E3.
  { apply str_eqb_eq in E3. unfold bind.
    destruct (field toolInput (js "sql")) as [| | | |sql|] eqn:F; cbn [expect_string];
      try (eexists _, _; (split; [reflexivity|]);
           repeat split; intros; subst; try discriminate; try congruence).
    pose proof (terminates_executeSQL B rpc config sql w) as T. unfold ret.
    destruct (executeSQL rpc config sql w) as [[result|message|] w1]; cbn [fst] in T;
      [| |congruence]; eexists _, _; (split; [reflexivity|]);
      repeat split; intros; subst; try discriminate; try congruence. }
  apply str_eqb_neq in E1, E2, E3.
  eexists _, _. split; [reflexivity|]. repeat split; intros; congruence.
Qed.

End WithUnicode.

Section Run.

#[local] Existing Instance Examples.plain_tables.

(** An unknown tool, a call without the text of the query, and a query on a
    hidden table: each comes back as a failure envelope. *)
Example handleToolCall_examples :
  fst (handleToolCall Examples.sample_rpc Examples.users_hidden (js "drop_all") []
         Examples.w0) = Ok (Failure (js "Unknown tool: drop_all")) /\
  (exists e, fst (handleToolCall Examples.sample_rpc Examples.users_hidden
                    (js "execute_sql") [] Examples.w0) = Ok (Failure e)) /\
  fst (handleToolCall Examples.sample_rpc Examples.users_hidden (js "execute_sql")
         [(js "sql", JStr (js "SELECT * FROM users"))] Examples.w0) =
    Ok (Failure (access_denied_query [js "users"])).
Proof. split; [reflexivity|]. split; [eexists|]; reflexivity. Qed.

End Run.

End DispatchFacts.

(** ** The permission policy *)

Module PolicyFacts.
Import JSFacts CatalogFacts.

Section WithUnicode.

Context {unicode : CaseMappings}.

Lemma getTableAccess_some (config : Permissions.TablePermissionsConfig) (t s : str) :
  exists permission, Permissions.getTableAccess config t s = Some permission.
Proof. unfold Permissions.getTableAccess. destruct (find _ _); eauto. Qed.

(** C6. [canAccessColumn] decides on the permission the table resolves
    to: no column of a table with the access level [none]; otherwise no
    column of [blockedColumns]; otherwise, when [allowedColumns] is not
    empty, exactly its members, so that a column that is neither blocked
    nor listed is denied; otherwise every column.  The blocked-list is
    consulted before the allow-list, and a column has to pass both. *)
Theorem C6_canAccessColumn_rule (config : Permissions.TablePermissionsConfig)
  (tableName columnName schemaName : str) :
  exists permission,
    Permissions.getTableAccess config tableName schemaName = Some permission /\
    let level := Permissions.accessLevel permission in
    let blocked := nullish (Permissions.blockedColumns permission) [] in
    let allowed := nullish (Permissions.allowedColumns permission) [] in
    let answer := Permissions.canAccessColumn config tableName columnName schemaName in
    (level = none -> answer = false) /\
    (level <> none -> In columnName blocked -> answer = false) /\
    (level <> none -> ~ In columnName blocked -> allowed <> [] ->
       (answer = true <-> In columnName allowed)) /\
    (level <> none -> ~ In columnName blocked -> allowed = [] -> answer = true) /\
    (answer = true <->
       level <> none /\ ~ In columnName blocked /\
       (allowed = [] \/ In columnName allowed)).
Proof.
  destruct (getTableAccess_some config tableName schemaName) as (p & Hp).
  exists p. split; [assumption|]. intros level blocked allowed answer.
  assert (Hans : answer =
            negb (AccessLevel_eqb level none) &&
            negb (arr_includes blocked columnName) &&
            match allowed with [] => true | _ :: _ => arr_includes allowed columnName end).
  { subst answer level blocked allowed. unfold Permissions.canAccessColumn. rewrite Hp.
    destruct (AccessLevel_eqb (Permissions.accessLevel p) none); [reflexivity|].
    destruct (Permissions.blockedColumns p) as [bl|]; cbn [nullish negb andb].
    - destruct (arr_includes bl columnName); [reflexivity|]. cbn [negb andb].
      destruct (Permissions.allowedColumns p) as [[|a al]|]; reflexivity.
    - destruct (Permissions.allowedColumns p) as [[|a al]|]; reflexivity. }
  assert (Hlevel : negb (AccessLevel_eqb level none) = true <-> level <> none)
    by apply not_none.
  assert (Hblocked : negb (arr_includes blocked columnName) = true <-> ~ In columnName blocked).
  { rewrite negb_true_iff, <- not_true_iff_false, arr_includes_In. tauto. }
  assert (Hallowed : match allowed with
                     | [] => true
                     | _ :: _ => arr_includes allowed columnName
                     end = true <-> (allowed = [] \/ In columnName allowed)).
  { destruct allowed as [|a al].
    - split; auto.
    - rewrite arr_includes_In. split; [auto|]. intros [H|H]; [discriminate | assumption]. }
  assert (Hiff : answer = true <->
            level <> none /\ ~ In columnName blocked /\
            (allowed = [] \/ In columnName allowed)).
  { rewrite Hans, !andb_true_iff, Hlevel, Hblocked, Hallowed. tauto. }
  clear Hans Hlevel Hblocked Hallowed.
  split; [|split; [|split; [|split]]].
  - intros Hl. apply not_true_is_false. intros Ht. apply Hiff in Ht. tauto.
  - intros _ Hb. apply not_true_is_false. intros Ht. apply Hiff in Ht. tauto.
  - intros Hl Hb Ha. rewrite Hiff. tauto.
  - intros Hl Hb Ha. apply Hiff. tauto.
  - exact Hiff.
Qed.

(** The two policies of the specification: with [ssn] blocked and no
    allow-list every other column is accessible; with the allow-list
    [name], [email] only these two are. *)
Example canAccessColumn_examples :
  let blocking :=
    {| Permissions.defaultAccess := read;
       Permissions.tables :=
         [{| Permissions.table := js "people"; Permissions.schema := js "public";
             Permissions.accessLevel := read;
             Permissions.allowedColumns := Some [];
             Permissions.blockedColumns := Some [js "ssn"];
             Permissions.description := None |}];
       Permissions.updatedAt := 0 |} in
  let allowing :=
    {| Permissions.defaultAccess := read;
       Permissions.tables :=
         [{| Permissions.table := js "people"; Permissions.schema := js "public";
             Permissions.accessLevel := read;
             Permissions.allowedColumns := Some [js "name"; js "email"];
             Permissions.blockedColumns := None;
             Permissions.description := None |}];
       Permissions.updatedAt := 0 |} in
  Permissions.canAccessColumn blocking (js "people") (js "ssn") (js "public") = false /\
  Permissions.canAccessColumn blocking (js "people") (js "age") (js "public") = true /\
  Permissions.canAccessColumn allowing (js "people") (js "email") (js "public") = true /\
  Permissions.canAccessColumn allowing (js "people") (js "age") (js "public") = false.
Proof. repeat split; reflexivity. Qed.

(** The resolution of the agent: the first entry whose table and schema
    names agree with the request up to letter case, and the default only
    when no entry does. *)
Lemma getTablePermission_resolves (config : Tools.SupabaseToolsConfig) (t s : str) :
  let same e :=
    toLowerCase (Tools.table e) = toLowerCase t /\
    toLowerCase (Tools.schema e) = toLowerCase s in
  (exists e, In e (Tools.tables (Tools.permissions_ config)) /\ same e /\
             Tools.getTablePermission config t s = e) \/
  ((forall e, In e (Tools.tables (Tools.permissions_ config)) -> ~ same e) /\
   Tools.getTablePermission config t s =
     {| Tools.table := t; Tools.schema := s;
        Tools.accessLevel := Tools.defaultAccess (Tools.permissions_ config);
        Tools.blockedColumns := None |}).
Proof.
  intros same. unfold Tools.getTablePermission.
  destruct (find _ (Tools.tables (Tools.permissions_ config))) as [e|] eqn:F.
  - left. apply find_some in F. destruct F as [Hin H].
    apply andb_true_iff in H. rewrite !str_eqb_eq in H. exists e. auto.
  - right. split; [|reflexivity]. intros e Hin [H1 H2].
    pose proof (find_none _ _ F e Hin) as H. cbv beta in H.
    rewrite H1, H2, !str_eqb_refl in H. discriminate.
Qed.

(** Two spellings of a name that differ in letter case only resolve to the
    same access level in the agent. *)
Lemma resolved_level_case (config : Tools.SupabaseToolsConfig) (t t' s s' : str) :
  toLowerCase t = toLowerCase t' -> toLowerCase s = toLowerCase s' ->
  ToolsSpec.resolved_level config t s = ToolsSpec.resolved_level config t' s'.
Proof.
  intros Ht Hs. unfold ToolsSpec.resolved_level, Tools.getTablePermission.
  rewrite Ht, Hs. destruct (find _ _); reflexivity.
Qed.

(** C3, where the code departs from it.  The policy hides the table
    [Users]; a look-up of [users] in the web library misses the entry and
    answers with the default access, so that the table counts as
    accessible, and the check of a query on [Users], whose extractor
    lower-cases the name first, lets the query through; the agent resolves
    the same look-up to the entry. *)
Theorem C3_getTableAccess_misses_case_variant :
  Permissions.getTableAccess PermissionExamples.Users_hidden (js "users") (js "public") =
    Some (PermissionExamples.entry "users" read) /\
  Permissions.canAccessTable PermissionExamples.Users_hidden (js "users") (js "public") =
    true /\
  Permissions.extractTablesFromSQL (js "SELECT * FROM Users") = Some [js "users"] /\
  Permissions.validateSQLAccess PermissionExamples.Users_hidden (js "SELECT * FROM Users") =
    Some (true, []) /\
  Tools.getTablePermission PermissionExamples.agent_Users_hidden (js "users") (js "public") =
    {| Tools.table := js "Users"; Tools.schema := js "public";
       Tools.accessLevel := none; Tools.blockedColumns := None |}.
Proof. repeat split; reflexivity. Qed.

End WithUnicode.

End PolicyFacts.

(** ** Updates of the configuration *)

Module UpsertFacts.
Import stdpp.base stdpp.gmap.
Import JSFacts Permissions PermissionExamples.

Lemma same_key_eq (permission t : TablePermission) :
  same_key (table permission) (schema permission) t = true <-> key t = key permission.
Proof.
  unfold same_key, key. rewrite andb_true_iff, !str_eqb_eq. split.
  - intros [-> ->]. reflexivity.
  - intros H. injection H as -> ->. auto.
Qed.

(** [findIndex] returns the index of the first element that satisfies the
    test, or [-1] when none does. *)
Lemma findIndex_from_spec {A} (f : A -> bool) (xs : list A) :
  forall i,
    (findIndex_from i f xs = (-1)%Z /\ forall x, In x xs -> f x = false) \/
    (exists n x, findIndex_from i f xs = (i + Z.of_nat n)%Z /\
                 xs !! n = Some x /\ f x = true).
Proof.
  induction xs as [|y xs IH]; intros i; simpl.
  - left. split; [reflexivity | contradiction].
  - destruct (f y) eqn:E.
    + right. exists 0, y. split; [lia | split; [reflexivity | assumption]].
    + destruct (IH (i + 1)%Z) as [(H1 & H2)|(n & x & H1 & H2 & H3)].
      * left. split; [assumption|]. intros x [<-|H]; auto.
      * right. exists (S n), x. split; [lia | split; assumption].
Qed.

Lemma map_insert_same {K : Type} (f : TablePermission -> K) (xs : list TablePermission)
  (i : nat) (old permission : TablePermission) :
  xs !! i = Some old -> f old = f permission ->
  map f (<[i := permission]> xs) = map f xs.
Proof.
  revert i. induction xs as [|x xs IH]; intros [|i] H K'; try discriminate; simpl in *.
  - injection H as ->. rewrite K'. reflexivity.
  - f_equal. apply IH; assumption.
Qed.

(** What an update does to the array and to the heap. *)
Lemma updateTablePermission_shape (today : Z) (config : ConfigObject)
  (permission : TablePermission) (h : heap) (old : list TablePermission) :
  h !! obj_tables config = Some old ->
  let config' := fst (updateTablePermission today config permission h) in
  let h' := snd (updateTablePermission today config permission h) in
  let new := tables (read_config h' config') in
  (forall l, is_Some (h !! l) -> h' !! l = h !! l) /\
  read_config h' config = read_config h config /\
  ((exists i entry, old !! i = Some entry /\ key entry = key permission /\
                    new = <[i := permission]> old) \/
   ((forall entry, In entry old -> key entry <> key permission) /\
    new = old ++ [permission])) /\
  obj_updatedAt config' = today /\
  obj_defaultAccess config' = obj_defaultAccess config.
Proof.
  intros Hold. unfold updateTablePermission. rewrite Hold. cbn [default from_option id]. cbv zeta.
  set (nt := fresh (dom h)).
  assert (Hfresh : h !! nt = None) by (apply not_elem_of_dom, is_fresh).
  assert (Hkeep : forall (v1 v2 : list TablePermission) l,
            is_Some (h !! l) -> <[nt := v2]> (<[nt := v1]> h) !! l = h !! l).
  { intros v1 v2 l [x Hx].
    assert (nt <> l) by (intros ->; congruence).
    rewrite !lookup_insert_ne by assumption. reflexivity. }
  assert (Hnew : forall (v1 v2 : list TablePermission),
            <[nt := v2]> (<[nt := v1]> h) !! nt = Some v2).
  { intros v1 v2. apply lookup_insert_eq. }
  unfold findIndex.
  destruct (findIndex_from_spec (same_key (table permission) (schema permission)) old 0%Z)
    as [(Hidx & Hnone)|(n & entry & Hidx & Hn & Hf)]; rewrite Hidx.
  - change (0 <=? -1)%Z with false. cbn [fst snd read_config obj_tables obj_updatedAt
                                          obj_defaultAccess tables].
    rewrite Hnew. cbn [default from_option id].
    assert (Hno : forall e, In e old -> key e <> key permission).
    { intros e He K. apply same_key_eq in K. rewrite (Hnone e He) in K. discriminate. }
    split; [intros l Hl; apply Hkeep; assumption|].
    split; [unfold read_config; rewrite Hkeep by eauto; reflexivity|].
    split; [right; split; [assumption | reflexivity]|].
    split; reflexivity.
  - replace (0 <=? 0 + Z.of_nat n)%Z with true by (symmetry; apply Z.leb_le; lia).
    replace (Z.to_nat (0 + Z.of_nat n)) with n by lia.
    cbn [fst snd read_config obj_tables obj_updatedAt obj_defaultAccess tables].
    rewrite Hnew. cbn [default from_option id].
    assert (K : key entry = key permission) by (apply same_key_eq; assumption).
    split; [intros l Hl; apply Hkeep; assumption|].
    split; [unfold read_config; rewrite Hkeep by eauto; reflexivity|].
    split; [left; exists n, entry; auto|].
    split; reflexivity.
Qed.

(** An update keeps a projection of the entries free of duplicates when the
    projection does not tell apart what the exact key does not, and no
    stored entry agrees with the permission on the projection only. *)
Lemma update_keeps_NoDup {K : Type} (f : TablePermission -> K)
  (old new : list TablePermission) (permission : TablePermission) :
  ((exists i entry, old !! i = Some entry /\ key entry = key permission /\
                    new = <[i := permission]> old) \/
   ((forall entry, In entry old -> key entry <> key permission) /\
    new = old ++ [permission])) ->
  (forall e, key e = key permission -> f e = f permission) ->
  (forall e, In e old -> f e = f permission -> key e = key permission) ->
  NoDup (map f old) -> NoDup (map f new).
Proof.
  intros [(i & entry & Hi & Hk & ->) | (Hno & ->)] Hf1 Hf2 Hnd.
  - rewrite (map_insert_same f old i entry permission Hi (Hf1 entry Hk)). exact Hnd.
  - rewrite map_app. apply NoDup_app. split; [assumption|]. split.
    + intros k Hk Hk'. apply list_elem_of_In in Hk. apply in_map_iff in Hk.
      destruct Hk as (e & <- & He). simpl in Hk'. apply list_elem_of_In in Hk'.
      destruct Hk' as [Hk'|[]]. apply (Hno e He). apply Hf2; [assumption|].
      symmetry. assumption.
    + simpl. apply NoDup_singleton.
Qed.

Section WithUnicode.

Context {unicode : CaseMappings}.

Lemma key_ci_of_key (e permission : TablePermission) :
  key e = key permission -> key_ci e = key_ci permission.
Proof. unfold key, key_ci. intros H. injection H as -> ->. reflexivity. Qed.

(** X10. [updateTablePermission] replaces the entry whose table and schema
    equal those of the permission in place, or appends the permission when
    no entry has them; the result carries the new time stamp, and the update
    works on a fresh copy of the array: every array of the heap, the one of
    the argument included, is left as it was.  A configuration with at most
    one entry per exact key stays so; one with at most one entry per key up
    to letter case stays so whenever no stored entry agrees with the
    permission up to letter case without agreeing exactly. *)
Theorem updateTablePermission_upserts (today : Z) (config : ConfigObject)
  (permission : TablePermission) (h : heap) (old : list TablePermission) :
  h !! obj_tables config = Some old ->
  let config' := fst (updateTablePermission today config permission h) in
  let h' := snd (updateTablePermission today config permission h) in
  let new := tables (read_config h' config') in
  (forall l, is_Some (h !! l) -> h' !! l = h !! l) /\
  read_config h' config = read_config h config /\
  ((exists i entry, old !! i = Some entry /\ key entry = key permission /\
                    new = <[i := permission]> old) \/
   ((forall entry, In entry old -> key entry <> key permission) /\
    new = old ++ [permission])) /\
  obj_updatedAt config' = today /\
  obj_defaultAccess config' = obj_defaultAccess config /\
  (NoDup (map key old) -> NoDup (map key new)) /\
  (NoDup (map key_ci old) ->
   (forall e, In e old -> key_ci e = key_ci permission -> key e = key permission) ->
   NoDup (map key_ci new)).
Proof.
  intros Hold config' h' new.
  destruct (updateTablePermission_shape today config permission h old Hold)
    as (H1 & H2 & H3 & H4 & H5).
  split; [exact H1|]. split; [exact H2|]. split; [exact H3|].
  split; [exact H4|]. split; [exact H5|]. split.
  - apply (update_keeps_NoDup key old _ permission H3); auto.
  - intros Hnd Hcase.
    apply (update_keeps_NoDup key_ci old _ permission H3); auto.
    intros e. apply key_ci_of_key.
Qed.

(** C9, where the code departs from it.  [updateTablePermission] compares
    keys with [===], letter case included: the update of [users] on a
    configuration that holds [Users], which has one entry per key up to
    letter case, appends a second entry with that key, and the invariant is
    lost.  The agent, which resolves names up to letter case, still answers
    a look-up of [users] under the new configuration with the old entry. *)
Theorem C9_updateTablePermission_case_variants :
  let config' := fst (updateTablePermission 7 Users_object (entry "users" read) Users_heap) in
  let h' := snd (updateTablePermission 7 Users_object (entry "users" read) Users_heap) in
  NoDup (map key_ci (tables (read_config Users_heap Users_object))) /\
  tables (read_config h' config') = [entry "Users" none; entry "users" read] /\
  ~ NoDup (map key_ci (tables (read_config h' config'))) /\
  read_config h' Users_object = read_config Users_heap Users_object /\
  Tools.getTablePermission
    {| Tools.queryTimeout := None; Tools.maxRows := None;
       Tools.permissions :=
         Some (ChatPanel.request_permissions (read_config h' config')) |}
    (js "users") (js "public") =
    {| Tools.table := js "Users"; Tools.schema := js "public";
       Tools.accessLevel := none; Tools.blockedColumns := None |}.
Proof.
  split; [|split; [|split; [|split]]].
  - vm_compute. apply NoDup_singleton.
  - reflexivity.
  - vm_compute. intros H. inversion H as [|k ks Hnin _]. apply Hnin. left.
  - reflexivity.
  - reflexivity.
Qed.

End WithUnicode.

Section Run.

#[local] Existing Instance Examples.plain_tables.

Lemma updateTablePermission_upserts_witness :
  let config' := fst (updateTablePermission 7 Users_object (entry "Users" read) Users_heap) in
  let h' := snd (updateTablePermission 7 Users_object (entry "Users" read) Users_heap) in
  Users_heap !! obj_tables Users_object = Some [entry "Users" none] /\
  tables (read_config h' config') = [entry "Users" read] /\
  read_config h' Users_object = read_config Users_heap Users_object /\
  obj_updatedAt config' = 7%Z /\
  NoDup (map key (tables (read_config h' config'))) /\
  NoDup (map key_ci (tables (read_config h' config'))).
Proof.
  pose proof (updateTablePermission_upserts 7 Users_object (entry "Users" read)
                Users_heap [entry "Users" none] eq_refl) as H.
  cbv zeta in H. destruct H as (_ & H2 & _ & H4 & _ & H6 & H7).
  split; [reflexivity|]. split; [reflexivity|]. split; [exact H2|]. split; [exact H4|].
  split; [exact (H6 (NoDup_singleton (key (entry "Users" none))))|].
  apply H7; [apply NoDup_singleton|].
  intros e [<- | []] _. reflexivity.
Defined.

End Run.

End UpsertFacts.

(** ** The turn of the orchestrator *)

Module TurnFacts.
Import Eff Analyst AnalystSpec ToolsSpec TerminationFacts.

Section WithUnicode.

Context {unicode : CaseMappings}.

Lemma quiet_app (a b : list StreamEvent) : quiet a -> quiet b -> quiet (a ++ b).
Proof. unfold quiet. intros Ha Hb. apply Forall_app. split; assumption. Qed.

Lemma quiet_one (e : StreamEvent) : type e <> done -> type e <> error -> quiet [e].
Proof. intros H1 H2. constructor; [split; assumption | constructor]. Qed.

Lemma quiet_count (t : event_type) (evs : list StreamEvent) :
  quiet evs -> t = done \/ t = error -> count_type t evs = 0.
Proof.
  unfold quiet, count_type. induction 1 as [|e evs [H1 H2] _ IH]; intros Ht.
  - reflexivity.
  - simpl. destruct (event_type_eqb (type e) t) eqn:E; [|auto].
    exfalso. destruct Ht as [-> | ->]; destruct (type e); try discriminate; congruence.
Qed.

Lemma count_type_app (t : event_type) (a b : list StreamEvent) :
  count_type t (a ++ b) = count_type t a + count_type t b.
Proof. unfold count_type. rewrite filter_app, length_app. reflexivity. Qed.

Section WithAnalyst.

Variable B : Type.
Variable rpc : str -> B -> rpc_response * B.
Variable config : AnalystConfig.
Variable model : list message -> model_reply.
Variable parseResponse : str -> Parsed.

Lemma behaves_gret {A} (a : A) : behaves (B:=B) model 0 (gret a).
Proof.
  intros st. exists [], (Ok a), st. repeat split; try constructor; try lia; eauto.
Qed.

Lemma behaves_yield (e : StreamEvent) :
  type e <> done -> type e <> error -> behaves (B:=B) model 0 (yield e).
Proof.
  intros H1 H2 st. exists [e], (Ok tt), st.
  repeat split; try lia; eauto. apply quiet_one; assumption.
Qed.

Lemma behaves_push (m : message) : behaves (B:=B) model 0 (push m).
Proof.
  intros st. eexists [], (Ok tt), _. split; [reflexivity|].
  repeat split; simpl; try constructor; try lia; eauto.
Qed.

Lemma behaves_gthrow {A} (e : str) (h : list message) :
  ending (model h) = inl e -> behaves (B:=B) model 0 (gthrow (A:=A) e).
Proof.
  intros H st. exists [], (Throw e), st. split; [reflexivity|].
  split; [constructor|]. split; [lia|]. split; [lia|]. split.
  - right. eauto.
  - intros Hfine. destruct (Hfine h) as (fm & Hfm). congruence.
Qed.

Lemma behaves_lift {A} (m : M B A) :
  (forall w, exists a w', m w = (Ok a, w')) -> behaves (B:=B) model 0 (lift m).
Proof.
  intros Hm st. unfold lift. destruct (Hm (w st)) as (a & w' & ->).
  eexists [], (Ok a), _. split; [reflexivity|].
  repeat split; simpl; try constructor; try lia; eauto.
Qed.

Lemma behaves_mono {A} (n k : nat) (m : G B A) :
  n <= k -> behaves (B:=B) model n m -> behaves (B:=B) model k m.
Proof.
  intros Hle Hm st. destruct (Hm st) as (evs & r & st' & E & Q & L1 & L2 & Hr & Hf).
  exists evs, r, st'. repeat split; try assumption. lia.
Qed.

(** Sequencing; the second step needs to behave only on what the first may
    return. *)
Lemma behaves_gbind {A C} (n k : nat) (m : G B A) (f : A -> G B C) :
  behaves (B:=B) model n m ->
  (forall a, (exists st evs st', m st = (evs, Ok a, st')) -> behaves (B:=B) model k (f a)) ->
  behaves (B:=B) model (n + k) (gbind m f).
Proof.
  intros Hm Hk st. unfold gbind.
  destruct (Hm st) as (evs & r & st' & E & Q & L1 & L2 & Hr & Hf). rewrite E.
  destruct r as [a|e|].
  - destruct (Hk a (ex_intro _ st (ex_intro _ evs (ex_intro _ st' E))) st')
      as (evs' & r' & st'' & E' & Q' & L1' & L2' & Hr' & Hf').
    rewrite E'. exists (evs ++ evs'), r', st''. split; [reflexivity|].
    split; [apply quiet_app; assumption|]. split; [lia|]. split; [lia|].
    split; assumption.
  - exists evs, (Throw e), st'. split; [reflexivity|].
    split; [assumption|]. split; [lia|]. split; [lia|]. split.
    + right. destruct Hr as [(a & Ha)|(e' & h & He & Hh)]; [discriminate|].
      injection He as <-. eauto.
    + intros Hfine. destruct (Hf Hfine) as (a & Ha). discriminate.
  - exfalso. destruct Hr as [(a & Ha)|(e' & h & He & _)]; discriminate.
Qed.

Lemma behaves_seq {A C} (k : nat) (m : G B A) (f : A -> G B C) :
  behaves (B:=B) model 0 m -> (forall a, behaves (B:=B) model k (f a)) -> behaves (B:=B) model k (gbind m f).
Proof.
  intros Hm Hk. apply (behaves_gbind 0 k); [assumption|]. intros a _. apply Hk.
Qed.

Lemma behaves_for_each {A} (xs : list A) (body : A -> G B unit) :
  (forall x, behaves (B:=B) model 0 (body x)) -> behaves (B:=B) model 0 (for_each xs body).
Proof.
  intros Hb. induction xs as [|x xs IH]; simpl.
  - apply behaves_gret.
  - apply behaves_seq; [apply Hb | intros _; apply IH].
Qed.

Lemma behaves_consume (events : list model_event) :
  forall acc, behaves (B:=B) model 0 (consume events acc).
Proof.
  induction events as [|ev events IH]; intros acc; cbn [consume].
  - apply behaves_gret.
  - destruct ev as [[t|pj|]|id name| | |]; try apply IH.
    destruct (truthy (JStr t)); [|apply IH].
    apply behaves_seq; [apply behaves_yield; discriminate | intros _; apply IH].
Qed.

Lemma behaves_run_tool (tool : ToolUse) : behaves (B:=B) model 0 (run_tool rpc config tool).
Proof.
  unfold run_tool.
  apply behaves_seq; [apply behaves_yield; discriminate|]. intros _.
  apply behaves_seq.
  { unfold when. destruct (str_eqb _ _);
      [apply behaves_yield; discriminate | apply behaves_gret]. }
  intros _. apply behaves_seq.
  { apply behaves_lift. intros w0. apply handleToolCall_returns. }
  intros result. apply behaves_seq; [apply behaves_yield; discriminate|]. intros _.
  apply behaves_seq; [|intros _; apply behaves_push].
  destruct result as [[tables|table|r]|e];
    first [apply behaves_gret | apply behaves_yield; discriminate].
Qed.

Lemma behaves_call_model : behaves (B:=B) model 1 (call_model model).
Proof.
  intros st. eexists [], (Ok _), _. split; [reflexivity|].
  repeat split; simpl; try constructor; try lia; eauto.
Qed.

(** [n] rounds behave and send at most [n] requests to the model. *)
Lemma behaves_rounds (n : nat) : behaves (B:=B) model n (rounds rpc config model parseResponse n).
Proof.
  induction n as [|n IH]; simpl.
  - apply behaves_gret.
  - apply (behaves_gbind 1 n); [apply behaves_call_model|].
    intros reply (st & evs & st' & Hreply).
    assert (Hfrom : exists h, reply = model h).
    { unfold call_model in Hreply. injection Hreply as _ <- _. eauto. }
    destruct Hfrom as (h & ->).
    apply behaves_seq; [apply behaves_consume|]. intros acc.
    destruct (ending (model h)) as [failure|finalMessage] eqn:En.
    + apply (behaves_mono 0 n); [lia|]. eapply behaves_gthrow. exact En.
    + apply behaves_seq.
      { destruct (p_insights _);
          [apply behaves_yield; discriminate | apply behaves_gret]. }
      intros _. apply behaves_seq.
      { destruct (p_chartSuggestion _);
          [apply behaves_yield; discriminate | apply behaves_gret]. }
      intros _. apply behaves_seq.
      { destruct (p_permissionDenied _);
          [apply behaves_yield; discriminate | apply behaves_gret]. }
      intros _. apply behaves_seq; [apply behaves_push|]. intros _.
      destruct (hasToolUse acc).
      * apply behaves_seq; [apply behaves_for_each; intros; apply behaves_run_tool|].
        intros _. destruct (negb _); [apply IH|].
        apply (behaves_mono 0 n); [lia | apply behaves_gret].
      * apply (behaves_mono 0 n); [lia | apply behaves_gret].
Qed.

Lemma chatStream_run (userMessage : str) (st : state B) :
  chatStream rpc config model parseResponse userMessage st =
  let '(evs, r, st') :=
    rounds rpc config model parseResponse (Z.to_nat (maxIterations_ config))
      {| conversationHistory := conversationHistory st ++ [UserMessage userMessage];
         modelCalls := modelCalls st; w := w st |} in
  match r with
  | Ok _ => (evs ++ [done_event], Ok tt, st')
  | Throw e => (evs, Throw e, st')
  | Hang => (evs, Hang, st')
  end.
Proof.
  unfold chatStream, gbind, push, yield.
  destruct (rounds _ _ _ _ _ _) as [[evs r] st']. destruct r; reflexivity.
Qed.

End WithAnalyst.

(** C8, as the code has it.  A turn ends, after at most [maxIterations]
    requests to the model (ten when none is configured).  When no request
    fails, the turn returns, also when the cap on the iterations is what
    stops it, and its events then hold exactly one [done] event, the last
    one.  When a call to the model or its stream fails, [chatStream] throws
    that failure after the events produced so far: its events hold no
    [done] and no [error] event, and the route closes the stream with one
    [error] event, not followed by [done]. *)
Theorem C8_chatStream_turn (B : Type) (rpc : str -> B -> rpc_response * B)
  (config : AnalystConfig) (model : list message -> model_reply)
  (parseResponse : str -> Parsed) (userMessage : str) (st : state B) :
  let out := chatStream rpc config model parseResponse userMessage st in
  let evs := fst (fst out) in
  let r := snd (fst out) in
  let st' := snd out in
  r <> Hang /\
  modelCalls st' <= modelCalls st + Z.to_nat (maxIterations_ config) /\
  (forall u, r = Ok u ->
     exists evs0, evs = evs0 ++ [done_event] /\
                  count_type done evs0 = 0 /\
                  count_type done evs = 1 /\ count_type error evs = 0) /\
  (forall e, r = Throw e ->
     (exists h, ending (model h) = inl e) /\
     count_type done evs = 0 /\ count_type error evs = 0 /\
     served_events rpc config model parseResponse userMessage st = evs ++ [error_event e] /\
     count_type done (served_events rpc config model parseResponse userMessage st) = 0) /\
  (model_fine model -> r = Ok tt).
Proof.
  intros out evs r st'. subst out evs r st'. unfold served_events.
  rewrite chatStream_run.
  destruct (behaves_rounds B rpc config model parseResponse
              (Z.to_nat (maxIterations_ config))
              {| conversationHistory := conversationHistory st ++ [UserMessage userMessage];
                 modelCalls := modelCalls st; w := w st |})
    as (evs & r & st' & E & Q & L1 & L2 & Hr & Hf).
  rewrite E. cbn [modelCalls] in L1, L2.
  destruct r as [[]|e|].
  - cbn [yield fst snd app]. split; [discriminate|]. split; [assumption|].
    split; [|split; [discriminate | reflexivity]].
    intros u _. exists evs. split; [reflexivity|].
    rewrite !count_type_app, !(quiet_count _ evs Q) by auto. auto.
  - cbn [fst snd app]. split; [discriminate|]. split; [assumption|].
    split; [discriminate|]. split.
    + intros e' He. injection He as He. subst e'. split.
      * destruct Hr as [(a & Ha)|(e' & h & He & Hh)]; [discriminate|].
        injection He as He. subst e'. eauto.
      * rewrite !count_type_app, !(quiet_count _ evs Q) by auto. auto.
    + intros Hfine. destruct (Hf Hfine) as (a & Ha). discriminate.
  - exfalso. destruct Hr as [(a & Ha)|(e' & h & He & _)]; discriminate.
Qed.

End WithUnicode.

Section Run.

#[local] Existing Instance Examples.plain_tables.

(** The claim as the specification states it fails when the model cannot
    be reached: [chatStream] throws at the first request without yielding
    anything, and what the route serves is a single [error] event, with no
    [done] event at all. *)
Lemma C8_counterexample_model_failure :
  let out := chatStream Examples.sample_rpc default_config unreachable_model no_blocks
               (js "How many users are there?") fresh_state in
  fst out = ([], Throw (js "Connection error.")) /\
  count_type done (fst (fst out)) = 0 /\
  served_events Examples.sample_rpc default_config unreachable_model no_blocks
    (js "How many users are there?") fresh_state = [error_event (js "Connection error.")] /\
  count_type done
    (served_events Examples.sample_rpc default_config unreachable_model no_blocks
       (js "How many users are there?") fresh_state) <> 1.
Proof. repeat split; vm_compute; discriminate. Qed.

(** A model that asks for a tool in every reply is stopped by the cap: ten
    requests, and the turn returns with [done] as its last event. *)
Example chatStream_cap :
  let out := chatStream Examples.sample_rpc default_config restless_model no_blocks
               (js "Which tables are there?") fresh_state in
  snd (fst out) = Ok tt /\
  modelCalls (snd out) = 10 /\
  last (fst (fst out)) (error_event []) = done_event /\
  count_type done (fst (fst out)) = 1 /\
  count_type tool_result (fst (fst out)) = 10.
Proof. repeat split; vm_compute; reflexivity. Qed.

End Run.

End TurnFacts.

(* ================================================================== *)
(** ** Further properties of tools.ts: identifiers and escaping *)
(* ================================================================== *)

Module IdentifierFacts.
Import Regex RegexSpec RegexFacts JSFacts Eff Tools ToolsSpec EscapeSpec.

(** The identifier pattern, run by the matcher, accepts exactly the texts
    made of a letter or underscore followed by letters, digits and
    underscores. *)
Lemma test_identifier_pattern (s : str) :
  test identifier_pattern s = true <->
  exists c rest, s = c :: rest /\ is_alpha_ c = true /\
                 Forall (fun x => is_alnum_ x = true) rest.
Proof.
  unfold test. split.
  - destruct (search_from identifier_pattern [] s) as [m|] eqn:E; [|discriminate].
    intros _. apply search_from_sound in E.
    destruct E as (skipped & rest & Hs & Hm).
    unfold identifier_pattern in Hm. cbn [matches] in Hm.
    destruct Hm as (s1 & [Hb ->] & s2 & (c & rest' & Ha & Hc & ->) & s3 & Hstar & He & ->).
    cbn [before after] in Hb, Ha.
    rewrite app_nil_r in Hb.
    assert (Hsk : skipped = []).
    { destruct skipped as [|x sk]; [reflexivity|]. cbn [rev] in Hb.
      destruct (rev sk); discriminate Hb. }
    subst skipped. cbn [app] in Hs. subst rest.
    apply matches_star_class in Hstar.
    destruct Hstar as (w & [Hw _] & Fw & _). cbn [advance after] in Hw.
    rewrite He, app_nil_r in Hw. subst rest'.
    exists c, w. auto.
  - intros (c & rest & -> & Hc & Fr).
    assert (N : search_from identifier_pattern [] ([] ++ c :: rest) <> None).
    { apply (search_from_complete identifier_pattern [] (c :: rest) []
               {| before := rev rest ++ [c]; after := []; caps := [] |}).
      unfold identifier_pattern. cbn [matches rev app].
      eexists. split; [split; reflexivity|].
      eexists. split; [exists c, rest; split; [reflexivity | split; [exact Hc | reflexivity]]|].
      exists {| before := rev rest ++ [c]; after := []; caps := [] |}.
      split; [|split; reflexivity].
      pose proof (star_class_matches is_alnum_ rest Fr [c] [] []) as H.
      rewrite app_nil_r in H. exact H. }
    cbn [app] in N. destruct (search_from identifier_pattern [] (c :: rest)); congruence.
Qed.

Lemma alpha_is_alnum (c : char) : is_alpha_ c = true -> is_alnum_ c = true.
Proof.
  unfold is_alpha_, is_alnum_. intros H.
  apply orb_true_iff in H. destruct H as [H|H].
  - apply orb_true_iff in H. destruct H as [H|H]; rewrite H;
      rewrite ?orb_true_r; reflexivity.
  - rewrite H. rewrite ?orb_true_r. reflexivity.
Qed.

(** A character of an identifier is none of the characters that matter to
    the SQL text around it. *)
Lemma alnum_plain (c : char) :
  is_alnum_ c = true ->
  c <> "'"%u /\ c <> "\"%u /\ c <> ";"%u /\ c <> 34%N /\
  is_space c = false.
Proof.
  intros H. repeat split; char_solve.
Qed.

Lemma valid_identifier_chars (s : str) :
  isValidSQLIdentifier (JStr s) = true ->
  s <> [] /\ length s <= 128 /\ Forall (fun x => is_alnum_ x = true) s.
Proof.
  cbn [isValidSQLIdentifier].
  destruct ((length s =? 0) || (128 <? length s)) eqn:L; [discriminate|].
  apply orb_false_iff in L. destruct L as [L0 L1].
  apply Nat.eqb_neq in L0. apply Nat.ltb_ge in L1.
  intros H. apply test_identifier_pattern in H.
  destruct H as (c & rest & -> & Hc & Fr).
  split; [discriminate|]. split; [exact L1|].
  constructor; [apply alpha_is_alnum, Hc | exact Fr].
Qed.

Lemma escape_plain (s : str) :
  Forall (fun c => c <> "'"%u /\ c <> "\"%u) s -> escapeSQLString s = s.
Proof.
  unfold escapeSQLString. cbv zeta.
  induction 1 as [|c s [Hq Hb] _ IH]; [reflexivity|].
  cbn [flat_map].
  destruct (N.eqb c "\"%u) eqn:E1; [apply N.eqb_eq in E1; contradiction|].
  cbn [app flat_map].
  destruct (N.eqb c "'"%u) eqn:E2; [apply N.eqb_eq in E2; contradiction|].
  cbn [app]. f_equal. exact IH.
Qed.

Lemma read_escaped_quotes (rest : str) :
  no_quote_head rest ->
  forall e,
    read_literal
      (flat_map (fun c => if N.eqb c "'"%u then ["'"; "'"]%u else [c]) e ++
       "'"%u :: rest) = Some (e, rest).
Proof.
  intros Hr. induction e as [|c e IH]; cbn [flat_map app].
  - cbn [read_literal]. change (N.eqb "'"%u "'"%u) with true. cbv iota.
    destruct rest as [|d rest]; [reflexivity|].
    simpl in Hr. destruct (N.eqb d "'"%u) eqn:E; [|reflexivity].
    apply N.eqb_eq in E. contradiction.
  - destruct (N.eqb c "'"%u) eqn:E.
    + apply N.eqb_eq in E. subst c. cbn [app read_literal].
      change (N.eqb "'"%u "'"%u) with true. cbv iota.
      rewrite IH. reflexivity.
    + cbn [app read_literal]. rewrite E, IH. reflexivity.
Qed.

(** X5.  [isValidSQLIdentifier] accepts exactly the strings of 1 to 128
    characters that begin with a letter or an underscore and go on with
    letters, digits and underscores; a value that is not a string is never
    accepted. *)
Theorem isValidSQLIdentifier_iff (value : jsval) :
  isValidSQLIdentifier value = true <->
  exists c rest,
    value = JStr (c :: rest) /\ length (c :: rest) <= 128 /\
    is_alpha_ c = true /\ Forall (fun x => is_alnum_ x = true) rest.
Proof.
  split.
  - destruct value as [| | | |s|]; try discriminate. cbn [isValidSQLIdentifier].
    destruct ((length s =? 0) || (128 <? length s)) eqn:L; [discriminate|].
    apply orb_false_iff in L. destruct L as [_ L1]. apply Nat.ltb_ge in L1.
    intros H. apply test_identifier_pattern in H.
    destruct H as (c & rest & -> & Hc & Fr). exists c, rest. auto.
  - intros (c & rest & -> & Hl & Hc & Fr). cbn [isValidSQLIdentifier].
    replace ((length (c :: rest) =? 0) || (128 <? length (c :: rest))) with false.
    + apply test_identifier_pattern. exists c, rest. auto.
    + symmetry. apply orb_false_iff. split; [reflexivity|].
      apply Nat.ltb_ge. exact Hl.
Qed.

(** X6.  A name that [validateSQLIdentifier] lets through is the argument
    itself, a string of letters, digits and underscores; [escapeSQLString]
    leaves it as it is, so it stands verbatim in the catalog queries; and
    the check has no effect on the world. *)
Theorem validated_identifier_is_verbatim (B : Type) (value : jsval) (kind : str)
  (w w' : world B) (name : str) :
  validateSQLIdentifier (B:=B) value kind w = (Ok name, w') ->
  value = JStr name /\ w' = w /\
  name <> [] /\ length name <= 128 /\
  Forall (fun c => is_alnum_ c = true) name /\
  escapeSQLString name = name.
Proof.
  unfold validateSQLIdentifier.
  destruct value as [| | | |s|]; try discriminate.
  destruct (isValidSQLIdentifier (JStr s)) eqn:V; [|discriminate].
  unfold ret. intros H. injection H as -> ->.
  destruct (valid_identifier_chars _ V) as (Hne & Hl & F).
  repeat split; try assumption.
  apply escape_plain. revert F. apply Forall_impl. intros c Hc.
  destruct (alnum_plain c Hc) as (H1 & H2 & _). auto.
Qed.

Lemma validated_identifier_witness :
  validateSQLIdentifier (B:=unit) (JStr (js "order_items")) (js "table name") Examples.w0 =
    (Ok (js "order_items"), Examples.w0) /\
  (JStr (js "order_items") = JStr (js "order_items") /\ Examples.w0 = Examples.w0 /\
   js "order_items" <> [] /\ length (js "order_items") <= 128 /\
   Forall (fun c => is_alnum_ c = true) (js "order_items") /\
   escapeSQLString (js "order_items") = js "order_items").
Proof.
  split; [reflexivity|].
  apply (validated_identifier_is_verbatim unit (JStr (js "order_items"))
           (js "table name") Examples.w0 Examples.w0 (js "order_items")).
  reflexivity.
Defined.

(** X7.  A value escaped by [escapeSQLString] never ends the literal it is
    written in: read by the rule of SQL literals, the text after the opening
    quote gives back the value, with its backslashes doubled, and closes at
    the quote written after it, whatever quotes the value holds. *)
Theorem escapeSQLString_stays_in_literal (value rest : str) :
  no_quote_head rest ->
  read_literal (escapeSQLString value ++ "'"%u :: rest) =
    Some (double_backslashes value, rest).
Proof.
  intros Hr. unfold escapeSQLString. cbv zeta.
  apply (read_escaped_quotes rest Hr (double_backslashes value)).
Qed.

Lemma escapeSQLString_witness :
  no_quote_head (js " AND table_type = 'BASE TABLE'") /\
  escapeSQLString (js "x' OR '1'='1") = js "x'' OR ''1''=''1" /\
  read_literal (escapeSQLString (js "x' OR '1'='1") ++
                "'"%u :: js " AND table_type = 'BASE TABLE'") =
    Some (double_backslashes (js "x' OR '1'='1"), js " AND table_type = 'BASE TABLE'").
Proof.
  split; [discriminate|]. split; [reflexivity|].
  apply (escapeSQLString_stays_in_literal (js "x' OR '1'='1")
           (js " AND table_type = 'BASE TABLE'")).
  discriminate.
Defined.

End IdentifierFacts.

(* ================================================================== *)
(** ** Further properties of tools.ts: what reaches the database *)
(* ================================================================== *)

Module GateFacts.
Import Validation ValidationSpec Eff Tools ToolsSpec TraceSpec.
Import JSFacts ExtractFacts ExecuteFacts CatalogFacts SchemaFacts.
Import SanitizeFacts ScanFacts IdentifierFacts.

Section WithUnicode.

Context {unicode : CaseMappings}.

Lemma queries_app (a b : list event) : queries (a ++ b) = queries a ++ queries b.
Proof. apply flat_map_app. Qed.

Lemma queries_checks (config : SupabaseToolsConfig) (tables : list str) :
  queries (checks config tables) = [].
Proof. induction tables as [|t tables IH]; [reflexivity | exact IH]. Qed.

Lemma queries_row_checks (config : SupabaseToolsConfig) (rows : list row) :
  queries (row_checks config rows) = [].
Proof.
  induction rows as [|t rows IH]; [reflexivity|].
  unfold row_checks. cbn [flat_map]. rewrite queries_app. fold (row_checks config rows).
  rewrite IH, app_nil_r. destruct (row_table t) as [[n s]|]; reflexivity.
Qed.

Lemma queries_map_Rpc (qs : list str) : queries (map Rpc qs) = qs.
Proof. induction qs as [|q qs IH]; [reflexivity|]. cbn. f_equal. exact IH. Qed.


Section WithTools.

Variable B : Type.
Variable rpc : str -> B -> rpc_response * B.
Variable config : SupabaseToolsConfig.



Lemma runQuery_run (q : str) (w : world B) :
  runQuery rpc q w =
  (match rpc_error (fst (rpc q (backend w))) with
   | Some message => Throw (js "Query failed: " ++ message)
   | None => Ok (rows_of (fst (rpc q (backend w))))
   end, after_rpc rpc q w).
Proof.
  unfold runQuery, bind, call_rpc, after_rpc, rows_of.
  destruct (rpc q (backend w)) as [resp b']. cbn [fst snd].
  destruct (rpc_error resp); reflexivity.
Qed.

Lemma cast_run (t : row) (w : world B) :
  match row_table t with
  | Some (n, s) =>
      canAccessTable_cast config (field t (js "name")) (field t (js "schema")) w =
      (Ok (negb (AccessLevel_eqb (resolved_level config n s) none)),
       with_trace w [PermissionCheck n (resolved_level config n s)])
  | None =>
      exists m,
        canAccessTable_cast (B:=B) config (field t (js "name")) (field t (js "schema")) w =
        (Throw m, w)
  end.
Proof.
  unfold row_table, canAccessTable_cast.
  destruct (field t (js "name")) as [| | | |n|]; try (eexists; reflexivity);
    destruct (field t (js "schema")) as [| | | |s|]; try (eexists; reflexivity);
    cbn [expect_string]; rewrite !bind_ret; apply canAccessTable_run.
Qed.

Lemma filterM_rows_ok (rows : list row) :
  Forall (fun t => row_table t <> None) rows ->
  forall w : world B,
    filterM (fun t => canAccessTable_cast config (field t (js "name"))
                                          (field t (js "schema"))) rows w =
    (Ok (filter (row_accessible config) rows), with_trace w (row_checks config rows)).
Proof.
  induction 1 as [|x rows Hx _ IH]; intros w.
  - cbn [filterM filter]. unfold row_checks. cbn [flat_map].
    rewrite with_trace_nil. reflexivity.
  - cbn [filterM filter]. unfold row_checks. cbn [flat_map]. fold (row_checks config rows).
    pose proof (cast_run x w) as C. unfold row_accessible at 1.
    destruct (row_table x) as [[n s]|] eqn:R; [|congruence].
    rewrite (bind_ok _ _ _ _ _ C), (bind_ok _ _ _ _ _ (IH _)).
    unfold ret. rewrite with_trace_app. reflexivity.
Qed.

Lemma filterM_rows_bad (rows : list row) :
  Exists (fun t => row_table t = None) rows ->
  forall w : world B, exists m evs,
    filterM (fun t => canAccessTable_cast config (field t (js "name"))
                                          (field t (js "schema"))) rows w =
    (Throw m, with_trace w evs) /\ queries evs = [].
Proof.
  induction rows as [|x rows IH]; intros Hex w; [inversion Hex|].
  cbn [filterM]. pose proof (cast_run x w) as C.
  destruct (row_table x) as [[n s]|] eqn:R.
  - assert (Hex' : Exists (fun t => row_table t = None) rows).
    { inversion Hex; subst; [congruence | assumption]. }
    destruct (IH Hex' (with_trace w [PermissionCheck n (resolved_level config n s)]))
      as (m & evs & Hf & Hq).
    rewrite (bind_ok _ _ _ _ _ C), (bind_throw _ _ _ _ _ Hf).
    exists m, ([PermissionCheck n (resolved_level config n s)] ++ evs).
    rewrite with_trace_app. split; [reflexivity | exact Hq].
  - destruct C as [m C]. rewrite (bind_throw _ _ _ _ _ C). exists m, [].
    rewrite with_trace_nil. split; reflexivity.
Qed.

Lemma listTables_run (schema : jsval) (s : str) (w : world B) :
  schema_or_public schema = JStr s -> isValidSQLIdentifier (JStr s) = true ->
  listTables rpc config schema w =
  try_catch
    (bind (runQuery rpc (tables_query s)) (fun tables =>
     bind (filterM (fun t => canAccessTable_cast config (field t (js "name"))
                                                 (field t (js "schema"))) tables)
          (fun accessibleTables => ret (map table_info accessibleTables))))
    (fun _ => ret []) w.
Proof.
  intros Hs V. unfold listTables. fold (schema_or_public schema). rewrite Hs.
  unfold validateSQLIdentifier. rewrite V. rewrite bind_ret. reflexivity.
Qed.

End WithTools.

(** X11.  [validateTableAccess] always returns.  It logs one permission check
    for each extracted table, once and in the order of extraction, and
    touches neither the back end nor the clock; the tables it reports as
    blocked are exactly the extracted tables that resolve to no access in
    the schema public, and it allows the query exactly when there is none. *)
Theorem validateTableAccess_checks_each_table_once (B : Type)
  (config : SupabaseToolsConfig) (sql : str) (w : world B) :
  exists tables,
    extractTablesFromSQL sql = Some tables /\
    NoDup tables /\
    let blocked := filter (is_blocked config) tables in
    validateTableAccess (B:=B) config sql w =
      (Ok {| allowed := match blocked with [] => true | _ :: _ => false end;
             blockedTables := blocked |},
       with_trace w (checks config tables)) /\
    queries (checks config tables) = [] /\
    (forall t, In t blocked <->
               In t tables /\ resolved_level config t public = none).
Proof.
  destruct (extract_names sql) as (tables & E & N & _). exists tables.
  split; [exact E|]. split; [exact N|]. intros blocked.
  split; [|split].
  - rewrite (validateTableAccess_run B config sql tables w E). fold blocked.
    destruct blocked; reflexivity.
  - apply queries_checks.
  - intros t. subst blocked. rewrite filter_In. unfold is_blocked.
    rewrite AccessLevel_eqb_eq. reflexivity.
Qed.


(** X13.  [listTables] hides every failure behind an empty list.  With a valid
    schema name, when the catalog query fails, or when a row of its answer
    does not name its table and schema by strings, the call returns the
    empty list; the query was sent once all the same, and nothing else went
    to the database. *)
Theorem listTables_hides_failures (B : Type) (rpc : str -> B -> rpc_response * B)
  (config : SupabaseToolsConfig) (schema : jsval) (s : str) (w : world B) :
  schema_or_public schema = JStr s ->
  isValidSQLIdentifier (JStr s) = true ->
  rpc_error (fst (rpc (tables_query s) (backend w))) <> None \/
  Exists (fun t => row_table t = None) (rows_of (fst (rpc (tables_query s) (backend w)))) ->
  exists evs,
    listTables rpc config schema w =
      (Ok [], with_trace (after_rpc rpc (tables_query s) w) evs) /\
    queries evs = [].
Proof.
  intros Hs V Hbad. rewrite (listTables_run B rpc config schema s w Hs V).
  unfold try_catch.
  pose proof (runQuery_run B rpc (tables_query s) w) as R.
  destruct (rpc_error (fst (rpc (tables_query s) (backend w)))) as [message|] eqn:Er.
  - rewrite (bind_throw _ _ _ _ _ R). exists []. rewrite with_trace_nil.
    split; reflexivity.
  - destruct Hbad as [Hbad | Hbad]; [congruence|].
    rewrite (bind_ok _ _ _ _ _ R).
    destruct (filterM_rows_bad B config _ Hbad (after_rpc rpc (tables_query s) w))
      as (m & evs & Hf & Hq).
    rewrite (bind_throw _ _ _ _ _ Hf). exists evs. split; [reflexivity | exact Hq].
Qed.

(** X14.  When the catalog answers with well-formed rows, [listTables]
    returns exactly the rows whose table is accessible, in the order of the
    catalog, none dropped and none added, with an empty column list each;
    it sends the one catalog query and logs one permission check per row. *)
Theorem listTables_keeps_accessible_rows (B : Type) (rpc : str -> B -> rpc_response * B)
  (config : SupabaseToolsConfig) (schema : jsval) (s : str) (w : world B) :
  schema_or_public schema = JStr s ->
  isValidSQLIdentifier (JStr s) = true ->
  rpc_error (fst (rpc (tables_query s) (backend w))) = None ->
  Forall (fun t => row_table t <> None) (rows_of (fst (rpc (tables_query s) (backend w)))) ->
  let rows := rows_of (fst (rpc (tables_query s) (backend w))) in
  listTables rpc config schema w =
    (Ok (map table_info (filter (row_accessible config) rows)),
     with_trace (after_rpc rpc (tables_query s) w) (row_checks config rows)) /\
  queries (row_checks config rows) = [].
Proof.
  intros Hs V Er Hrows rows. split; [|apply queries_row_checks].
  rewrite (listTables_run B rpc config schema s w Hs V).
  unfold try_catch.
  pose proof (runQuery_run B rpc (tables_query s) w) as R. rewrite Er in R.
  rewrite (bind_ok _ _ _ _ _ R).
  rewrite (bind_ok _ _ _ _ _ (filterM_rows_ok B config _ Hrows _)).
  reflexivity.
Qed.

(** X15.  The queries [getTableSchema] sends.  When an identifier is invalid
    the world is left as it was; when the table resolves to no access, only
    the permission check is logged and nothing is sent.  Otherwise the call
    sends the column query, then the primary-key query, then the
    foreign-key query, stopping at the first that fails; it returns a
    [TableInfo] only after all three. *)
Theorem getTableSchema_queries (B : Type) (rpc : str -> B -> rpc_response * B)
  (config : SupabaseToolsConfig) (tableName schema : jsval) (w : world B) :
  let sch := schema_or_public schema in
  let out := getTableSchema rpc config tableName schema w in
  (isValidSQLIdentifier tableName = false \/ isValidSQLIdentifier sch = false ->
   snd out = w) /\
  (forall n s, tableName = JStr n -> sch = JStr s ->
     isValidSQLIdentifier tableName = true -> isValidSQLIdentifier sch = true ->
     exists k,
       k <= 3 /\
       trace (snd out) =
         trace w ++ PermissionCheck n (resolved_level config n s) ::
                    map Rpc (firstn k (schema_queries n s)) /\
       (resolved_level config n s = none ->
          k = 0 /\ backend (snd out) = backend w /\ clock (snd out) = clock w) /\
       (resolved_level config n s <> none -> 1 <= k) /\
       (forall info, fst out = Ok info -> k = 3) /\
       (k < 3 -> exists message, fst out = Throw message)).
Proof.
  intros sch out. subst out. unfold getTableSchema.
  fold (schema_or_public schema). fold sch.
  destruct (isValidSQLIdentifier tableName) eqn:V1.
  2:{ rewrite (validateSQLIdentifier_fail B _ (js "table name") V1).
      split; [intros _; reflexivity|]. intros; discriminate. }
  destruct (validateSQLIdentifier_ok B _ (js "table name") V1) as (n & -> & Hn).
  rewrite Hn, bind_ret.
  destruct (isValidSQLIdentifier sch) eqn:V2.
  2:{ rewrite (validateSQLIdentifier_fail B _ (js "schema name") V2).
      split; [intros _; reflexivity|]. intros; discriminate. }
  destruct (validateSQLIdentifier_ok B _ (js "schema name") V2) as (s & Hsch & Hs).
  rewrite Hs, bind_ret.
  split; [intros [H|H]; discriminate H|].
  intros n0 s0 Hn0 Hs0 _ _. injection Hn0 as <-.
  assert (s0 = s) by congruence. subst s0. clear Hs0.
  rewrite (bind_ok _ _ _ _ _ (canAccessTable_run B config n s w)).
  destruct (AccessLevel_eqb (resolved_level config n s) none) eqn:L; cbn [negb].
  - apply AccessLevel_eqb_eq in L. exists 0. cbn [fst snd firstn map].
    split; [lia|]. split; [reflexivity|]. split; [auto|].
    split; [congruence|]. split; [discriminate | eauto].
  - assert (Hl : resolved_level config n s <> none).
    { intros E. apply AccessLevel_eqb_eq in E. congruence. }
    set (w1 := with_trace w [PermissionCheck n (resolved_level config n s)]).
    change (schema_queries n s) with
      (let escapedTableName := escapeSQLString n in
       let escapedSchema := escapeSQLString s in
       [ js "SELECT c.column_name as name, c.data_type as type, (c.is_nullable = 'YES') as nullable, c.column_default as default_value FROM information_schema.columns c WHERE c.table_name = '" ++
         escapedTableName ++ js "' AND c.table_schema = '" ++ escapedSchema ++
         js "' ORDER BY c.ordinal_position";
         js "SELECT ccu.column_name FROM information_schema.table_constraints tc JOIN information_schema.constraint_column_usage ccu ON tc.constraint_name = ccu.constraint_name WHERE tc.table_name = '" ++
         escapedTableName ++ js "' AND tc.table_schema = '" ++ escapedSchema ++
         js "' AND tc.constraint_type = 'PRIMARY KEY'";
         js "SELECT kcu.column_name, ccu.table_name AS foreign_table, ccu.column_name AS foreign_column FROM information_schema.table_constraints AS tc JOIN information_schema.key_column_usage AS kcu ON tc.constraint_name = kcu.constraint_name JOIN information_schema.constraint_column_usage AS ccu ON ccu.constraint_name = tc.constraint_name WHERE tc.constraint_type = 'FOREIGN KEY' AND tc.table_name = '" ++
         escapedTableName ++ js "' AND tc.table_schema = '" ++ escapedSchema ++ js "'" ]).
    cbv zeta.
    match goal with |- context [bind (runQuery rpc ?q) _ w1] =>
      set (q1 := q); pose proof (runQuery_run B rpc q1 w1) as R1 end.
    destruct (rpc_error (fst (rpc q1 (backend w1)))) as [m1|].
    { rewrite (bind_throw _ _ _ _ _ R1). exists 1. cbn [fst snd firstn map].
      split; [lia|]. split.
      { cbn [after_rpc trace w1 with_trace]. rewrite <- app_assoc. reflexivity. }
      split; [contradiction|]. split; [lia|]. split; [discriminate | eauto]. }
    rewrite (bind_ok _ _ _ _ _ R1).
    match goal with |- context [bind (runQuery rpc ?q) _ ?w2] =>
      set (q2 := q); pose proof (runQuery_run B rpc q2 w2) as R2 end.
    destruct (rpc_error (fst (rpc q2 _))) as [m2|].
    { rewrite (bind_throw _ _ _ _ _ R2). exists 2. cbn [fst snd firstn map].
      split; [lia|]. split.
      { cbn [after_rpc trace w1 with_trace]. rewrite <- !app_assoc. reflexivity. }
      split; [contradiction|]. split; [lia|]. split; [discriminate | eauto]. }
    rewrite (bind_ok _ _ _ _ _ R2).
    match goal with |- context [bind (runQuery rpc ?q) _ ?w3] =>
      set (q3 := q); pose proof (runQuery_run B rpc q3 w3) as R3 end.
    exists 3. split; [lia|].
    destruct (rpc_error (fst (rpc q3 _))) as [m3|].
    { rewrite (bind_throw _ _ _ _ _ R3). cbn [fst snd firstn map].
      split.
      { cbn [after_rpc trace w1 with_trace]. rewrite <- !app_assoc. reflexivity. }
      split; [contradiction|]. split; [lia|]. split; [discriminate | lia]. }
    rewrite (bind_ok _ _ _ _ _ R3). cbn [fst snd firstn map ret].
    split.
    { cbn [after_rpc trace w1 with_trace]. rewrite <- !app_assoc. reflexivity. }
    split; [contradiction|]. split; [lia|]. split; [reflexivity | lia].
Qed.

End WithUnicode.

Section Run.

#[local] Existing Instance Examples.plain_tables.

Lemma listTables_hides_failures_witness :
  schema_or_public JUndefined = JStr public /\
  isValidSQLIdentifier (JStr public) = true /\
  rpc_error (fst (FailureExamples.failing_rpc (tables_query public) (backend Examples.w0)))
    <> None /\
  exists evs,
    listTables FailureExamples.failing_rpc Examples.users_hidden JUndefined Examples.w0 =
      (Ok [], with_trace (after_rpc FailureExamples.failing_rpc (tables_query public)
                            Examples.w0) evs) /\
    queries evs = [].
Proof.
  split; [reflexivity|]. split; [reflexivity|]. split; [discriminate|].
  apply (listTables_hides_failures unit FailureExamples.failing_rpc Examples.users_hidden
           JUndefined public Examples.w0); [reflexivity | reflexivity |].
  left. discriminate.
Defined.

Lemma listTables_keeps_accessible_rows_witness :
  fst (listTables Examples.sample_rpc Examples.users_hidden JUndefined Examples.w0) =
    Ok [table_info (Examples.table_row "orders" "public")] /\
  let rows := rows_of (fst (Examples.sample_rpc (tables_query public)
                              (backend Examples.w0))) in
  listTables Examples.sample_rpc Examples.users_hidden JUndefined Examples.w0 =
    (Ok (map table_info (filter (row_accessible Examples.users_hidden) rows)),
     with_trace (after_rpc Examples.sample_rpc (tables_query public) Examples.w0)
       (row_checks Examples.users_hidden rows)) /\
  queries (row_checks Examples.users_hidden rows) = [].
Proof.
  split; [reflexivity|].
  apply (listTables_keeps_accessible_rows unit Examples.sample_rpc Examples.users_hidden
           JUndefined public Examples.w0); try reflexivity.
  repeat constructor; discriminate.
Defined.

End Run.

End GateFacts.

(* ================================================================== *)
(** ** Further properties of table-permissions.ts: the stored policy *)
(* ================================================================== *)

Module StoreFacts.
Import stdpp.base stdpp.gmap.
Import JSFacts CatalogFacts Permissions UpsertFacts.

Lemma same_key_iff (t s : str) (e : TablePermission) :
  same_key t s e = true <-> key e = (t, s).
Proof.
  unfold same_key, key. rewrite andb_true_iff, !str_eqb_eq. split.
  - intros [-> ->]. reflexivity.
  - intros H. injection H as -> ->. auto.
Qed.

Lemma same_key_other (t s : str) (e : TablePermission) :
  key e <> (t, s) -> same_key t s e = false.
Proof.
  intros H. destruct (same_key t s e) eqn:E; [|reflexivity].
  apply same_key_iff in E. contradiction.
Qed.

(** [findIndex] returns the first index at which the test holds. *)
Lemma findIndex_from_first {A} (f : A -> bool) (xs : list A) :
  forall i,
    (findIndex_from i f xs = (-1)%Z /\ forall x, In x xs -> f x = false) \/
    (exists n x, findIndex_from i f xs = (i + Z.of_nat n)%Z /\
                 xs !! n = Some x /\ f x = true /\
                 forall m y, m < n -> xs !! m = Some y -> f y = false).
Proof.
  induction xs as [|y xs IH]; intros i; simpl.
  - left. split; [reflexivity | contradiction].
  - destruct (f y) eqn:E.
    + right. exists 0, y. split; [lia|]. split; [reflexivity|]. split; [assumption|].
      intros m z Hm. lia.
    + destruct (IH (i + 1)%Z) as [(H1 & H2)|(n & x & H1 & H2 & H3 & H4)].
      * left. split; [assumption|]. intros x [<-|H]; auto.
      * right. exists (S n), x. split; [lia|]. split; [assumption|].
        split; [assumption|]. intros [|m] z Hm Hz; simpl in Hz.
        -- injection Hz as <-. exact E.
        -- apply (H4 m z); [lia | exact Hz].
Qed.

Lemma find_insert_first {A} (f : A -> bool) (p : A) :
  f p = true ->
  forall (xs : list A) (n : nat) (x : A),
    xs !! n = Some x ->
    (forall m y, m < n -> xs !! m = Some y -> f y = false) ->
    find f (<[n := p]> xs) = Some p.
Proof.
  intros Hp. induction xs as [|y xs IH]; intros [|n] x Hx Hbefore; try discriminate;
    simpl in *.
  - rewrite Hp. reflexivity.
  - rewrite (Hbefore 0 y) by (lia || reflexivity).
    apply (IH n x Hx). intros m z Hm Hz. apply (Hbefore (S m) z); [lia | exact Hz].
Qed.

Lemma find_insert_other {A} (g : A -> bool) (p : A) :
  g p = false ->
  forall (xs : list A) (n : nat) (x : A),
    xs !! n = Some x -> g x = false ->
    find g (<[n := p]> xs) = find g xs.
Proof.
  intros Hp. induction xs as [|y xs IH]; intros [|n] x Hx Hg; try discriminate;
    simpl in *.
  - injection Hx as ->. rewrite Hp, Hg. reflexivity.
  - destruct (g y); [reflexivity|]. apply (IH n x Hx Hg).
Qed.

Lemma find_snoc {A} (g : A -> bool) (xs : list A) (p : A) :
  find g (xs ++ [p]) =
  match find g xs with Some x => Some x | None => if g p then Some p else None end.
Proof.
  induction xs as [|y xs IH]; simpl; [reflexivity|].
  destruct (g y); [reflexivity | exact IH].
Qed.

Lemma find_none_all {A} (g : A -> bool) (xs : list A) :
  (forall x, In x xs -> g x = false) -> find g xs = None.
Proof.
  induction xs as [|y xs IH]; intros H; simpl; [reflexivity|].
  rewrite (H y) by (left; reflexivity). apply IH. intros x Hx. apply H. right. exact Hx.
Qed.

Lemma find_filter {A} (g k : A -> bool) (xs : list A) :
  (forall x, g x = true -> k x = true) -> find g (List.filter k xs) = find g xs.
Proof.
  intros H. induction xs as [|y xs IH]; simpl; [reflexivity|].
  destruct (g y) eqn:G.
  - rewrite (H y G). simpl. rewrite G. reflexivity.
  - destruct (k y); simpl; [rewrite G|]; exact IH.
Qed.

Lemma filter_insert_dropped {A} (k : A -> bool) (p : A) :
  k p = false ->
  forall (xs : list A) (n : nat) (x : A),
    xs !! n = Some x -> k x = false ->
    List.filter k (<[n := p]> xs) = List.filter k xs.
Proof.
  intros Hp. induction xs as [|y xs IH]; intros [|n] x Hx Hk; try discriminate;
    simpl in *.
  - injection Hx as ->. rewrite Hp, Hk. reflexivity.
  - rewrite (IH n x Hx Hk). reflexivity.
Qed.

Lemma filter_all {A} (k : A -> bool) (xs : list A) :
  (forall x, In x xs -> k x = true) -> List.filter k xs = xs.
Proof.
  induction xs as [|y xs IH]; intros H; simpl; [reflexivity|].
  rewrite (H y) by (left; reflexivity). f_equal. apply IH.
  intros x Hx. apply H. right. exact Hx.
Qed.

(** The array of the configuration an update returns. *)
Lemma update_tables (today : Z) (config : ConfigObject) (permission : TablePermission)
  (h : heap) :
  tables (read_config (snd (updateTablePermission today config permission h))
                      (fst (updateTablePermission today config permission h))) =
  let old := tables (read_config h config) in
  let i := findIndex (same_key (table permission) (schema permission)) old in
  if (0 <=? i)%Z then <[Z.to_nat i := permission]> old else old ++ [permission].
Proof.
  unfold updateTablePermission. cbv zeta.
  cbn [read_config tables fst snd obj_tables].
  destruct (0 <=? _)%Z; rewrite lookup_insert_eq; reflexivity.
Qed.

Lemma remove_tables (today : Z) (config : ConfigObject) (t s : str) (h : heap) :
  tables (read_config (snd (removeTablePermission today config t s h))
                      (fst (removeTablePermission today config t s h))) =
  List.filter (fun e => negb (same_key t s e)) (tables (read_config h config)).
Proof.
  unfold removeTablePermission. cbv zeta.
  cbn [read_config tables fst snd obj_tables].
  rewrite lookup_insert_eq. reflexivity.
Qed.

Lemma getTableAccess_find (c1 c2 : TablePermissionsConfig) (t s : str) :
  defaultAccess c1 = defaultAccess c2 ->
  find (same_key t s) (tables c1) = find (same_key t s) (tables c2) ->
  getTableAccess c1 t s = getTableAccess c2 t s.
Proof. intros D F. unfold getTableAccess. rewrite D, F. reflexivity. Qed.

(** The array after an upsert, looked up. *)
Lemma upsert_find (permission : TablePermission) (old : list TablePermission) :
  let new :=
    let i := findIndex (same_key (table permission) (schema permission)) old in
    if (0 <=? i)%Z then <[Z.to_nat i := permission]> old else old ++ [permission] in
  find (same_key (table permission) (schema permission)) new = Some permission /\
  (forall t s, (t, s) <> key permission ->
     find (same_key t s) new = find (same_key t s) old) /\
  List.filter (fun e => negb (same_key (table permission) (schema permission) e)) new =
  List.filter (fun e => negb (same_key (table permission) (schema permission) e)) old.
Proof.
  cbv zeta. unfold findIndex.
  assert (Hp : same_key (table permission) (schema permission) permission = true).
  { apply same_key_iff. reflexivity. }
  destruct (findIndex_from_first (same_key (table permission) (schema permission)) old 0%Z)
    as [(Hidx & Hnone)|(n & x & Hidx & Hn & Hf & Hfirst)]; rewrite Hidx.
  - change (0 <=? -1)%Z with false. cbv iota. split; [|split].
    + rewrite find_snoc, (find_none_all _ _ Hnone), Hp. reflexivity.
    + intros t s Hne. rewrite find_snoc.
      rewrite (same_key_other t s permission) by (intros K; apply Hne; symmetry; exact K).
      destruct (find (same_key t s) old); reflexivity.
    + rewrite List.filter_app. simpl. rewrite Hp. simpl. apply app_nil_r.
  - replace (0 <=? 0 + Z.of_nat n)%Z with true by (symmetry; apply Z.leb_le; lia).
    replace (Z.to_nat (0 + Z.of_nat n)) with n by lia. split; [|split].
    + apply (find_insert_first _ _ Hp old n x Hn Hfirst).
    + intros t s Hne. apply same_key_iff in Hf.
      apply (find_insert_other _ permission) with (x := x); [|exact Hn|].
      * apply same_key_other. intros K. apply Hne. symmetry. exact K.
      * apply same_key_other. rewrite Hf. intros K. apply Hne. symmetry. exact K.
    + apply (filter_insert_dropped _ permission) with (x := x); [|exact Hn|];
        rewrite ?Hp, ?Hf; reflexivity.
Qed.

(** X17.  An update can be read back.  After [updateTablePermission], the
    look-up of the key of the permission returns the permission itself, so
    the table is accessible exactly when its new level is not none; the
    look-up of every other key answers as before, and the default level is
    unchanged. *)
Theorem updateTablePermission_then_lookup (today : Z) (config : ConfigObject)
  (permission : TablePermission) (h : heap) :
  let before := read_config h config in
  let after := read_config (snd (updateTablePermission today config permission h))
                           (fst (updateTablePermission today config permission h)) in
  getTableAccess after (table permission) (schema permission) = Some permission /\
  canAccessTable after (table permission) (schema permission) =
    negb (AccessLevel_eqb (accessLevel permission) none) /\
  (forall t s, (t, s) <> key permission ->
     getTableAccess after t s = getTableAccess before t s /\
     canAccessTable after t s = canAccessTable before t s) /\
  defaultAccess after = defaultAccess before.
Proof.
  intros before after.
  pose proof (update_tables today config permission h) as T. fold after before in T.
  destruct (upsert_find permission (tables before)) as (F1 & F2 & _).
  cbv zeta in T, F1, F2. rewrite <- T in F1, F2.
  assert (D : defaultAccess after = defaultAccess before) by reflexivity.
  assert (G : getTableAccess after (table permission) (schema permission) =
              Some permission).
  { unfold getTableAccess. rewrite F1. reflexivity. }
  split; [exact G|]. split; [unfold canAccessTable; rewrite G; reflexivity|].
  split; [|exact D]. intros t s Hne.
  assert (E : getTableAccess after t s = getTableAccess before t s).
  { apply getTableAccess_find; [exact D | apply F2, Hne]. }
  split; [exact E|]. unfold canAccessTable. rewrite E. reflexivity.
Qed.

(** X18.  A removal can be read back.  After [removeTablePermission], no
    entry with the key is left, the look-up of the key falls back to the
    default level, every other key answers as before, and the other entries
    are kept, in their order. *)
Theorem removeTablePermission_then_lookup (today : Z) (config : ConfigObject)
  (t s : str) (h : heap) :
  let before := read_config h config in
  let after := read_config (snd (removeTablePermission today config t s h))
                           (fst (removeTablePermission today config t s h)) in
  getTableAccess after t s =
    Some {| table := t; schema := s; accessLevel := defaultAccess before;
            allowedColumns := None; blockedColumns := None; description := None |} /\
  canAccessTable after t s = negb (AccessLevel_eqb (defaultAccess before) none) /\
  (forall t' s', (t', s') <> (t, s) ->
     getTableAccess after t' s' = getTableAccess before t' s') /\
  (forall e, In e (tables after) <-> In e (tables before) /\ key e <> (t, s)) /\
  tables after = List.filter (fun e => negb (same_key t s e)) (tables before) /\
  updatedAt after = today.
Proof.
  intros before after.
  pose proof (remove_tables today config t s h) as T. fold after before in T.
  assert (D : defaultAccess after = defaultAccess before) by reflexivity.
  assert (G : getTableAccess after t s =
              Some {| table := t; schema := s; accessLevel := defaultAccess before;
                      allowedColumns := None; blockedColumns := None;
                      description := None |}).
  { unfold getTableAccess. rewrite T, D, find_none_all; [reflexivity|].
    intros x Hx. apply List.filter_In in Hx. destruct Hx as [_ Hx].
    apply negb_true_iff in Hx. exact Hx. }
  split; [exact G|]. split; [unfold canAccessTable; rewrite G; reflexivity|].
  split; [|split; [|split; [exact T | reflexivity]]].
  - intros t' s' Hne. apply getTableAccess_find; [exact D|]. rewrite T.
    apply find_filter. intros x Hx. apply same_key_iff in Hx.
    rewrite (same_key_other t s x); [reflexivity|].
    rewrite Hx. exact Hne.
  - intros e. rewrite T, List.filter_In, negb_true_iff. split.
    + intros [Hin Hk]. split; [exact Hin|]. intros K. apply same_key_iff in K. congruence.
    + intros [Hin Hk]. split; [exact Hin | apply same_key_other, Hk].
Qed.

(** X19.  Removing the permission that was just written undoes the update:
    the array is the one a removal from the original configuration gives,
    and it is the original array when that held no entry with the key. *)
Theorem update_then_remove (today today' : Z) (config : ConfigObject)
  (permission : TablePermission) (h : heap) :
  let updated := updateTablePermission today config permission h in
  let removed := removeTablePermission today' (fst updated)
                   (table permission) (schema permission) (snd updated) in
  let original := removeTablePermission today' config
                    (table permission) (schema permission) h in
  tables (read_config (snd removed) (fst removed)) =
    tables (read_config (snd original) (fst original)) /\
  ((forall e, In e (tables (read_config h config)) -> key e <> key permission) ->
   tables (read_config (snd removed) (fst removed)) = tables (read_config h config)).
Proof.
  intros updated removed original. subst removed original.
  rewrite !remove_tables. subst updated. rewrite update_tables.
  destruct (upsert_find permission (tables (read_config h config))) as (_ & _ & F).
  cbv zeta in F |- *. split; [exact F|].
  intros Hno. rewrite F. apply filter_all. intros x Hx.
  apply negb_true_iff, same_key_other, Hno, Hx.
Qed.

End StoreFacts.

(* ================================================================== *)
(** ** Further properties of analyst.ts: the books of a turn *)
(* ================================================================== *)

Module BookFacts.
Import Eff Analyst AnalystSpec TurnSpec ToolsSpec TerminationFacts TurnFacts.

Section WithUnicode.

Context {unicode : CaseMappings}.

Lemma count_messages_app (p : message -> bool) (a b : list message) :
  count_messages p (a ++ b) = count_messages p a + count_messages p b.
Proof. unfold count_messages. rewrite filter_app, length_app. reflexivity. Qed.

Lemma count_uncounted (e : StreamEvent) (t : event_type) :
  uncounted e -> t = tool_call \/ t = tool_result \/ t = data \/ t = sql ->
  count_type t [e] = 0.
Proof.
  intros (H1 & H2 & H3 & H4) Ht. unfold count_type. cbn [filter].
  destruct (event_type_eqb (type e) t) eqn:E; [|reflexivity].
  exfalso. destruct (type e); destruct Ht as [-> | [-> | [-> | ->]]];
    try discriminate E; congruence.
Qed.

Section WithAnalyst.

Variable B : Type.
Variable rpc : str -> B -> rpc_response * B.
Variable config : AnalystConfig.
Variable model : list message -> model_reply.
Variable parseResponse : str -> Parsed.

Lemma books_gret {A} (a : A) : keeps_books (B:=B) (gret a).
Proof.
  intros st. exists [], (Ok a), st, []. rewrite app_nil_r.
  repeat split; try reflexivity; try discriminate; try lia.
Qed.

Lemma books_gthrow {A} (e : str) : keeps_books (B:=B) (gthrow (A:=A) e).
Proof.
  intros st. exists [], (Throw e), st, []. rewrite app_nil_r.
  repeat split; try reflexivity; try discriminate; try lia.
Qed.

Lemma books_yield (e : StreamEvent) : uncounted e -> keeps_books (B:=B) (yield e).
Proof.
  intros U st. exists [e], (Ok tt), st, []. rewrite app_nil_r.
  rewrite !(count_uncounted e _ U) by tauto.
  repeat split; try reflexivity; try discriminate; try lia.
Qed.

Lemma books_push_assistant (blocks : list content_block) :
  keeps_books (B:=B) (push (AssistantMessage blocks)).
Proof.
  intros st. eexists [], (Ok tt), _, [AssistantMessage blocks].
  repeat split; try reflexivity; try discriminate; try lia.
Qed.

Lemma books_call_model : keeps_books (B:=B) (call_model model).
Proof.
  intros st. eexists [], (Ok _), _, []. unfold call_model.
  split; [reflexivity|]. cbn [conversationHistory]. rewrite app_nil_r.
  repeat split; try reflexivity; try discriminate; try lia.
Qed.

Lemma books_gbind {A C} (m : G B A) (f : A -> G B C) :
  keeps_books m -> (forall a, keeps_books (f a)) -> keeps_books (gbind m f).
Proof.
  intros Hm Hf st. unfold gbind.
  destruct (Hm st) as (evs & r & st' & added & E & Hh & H1 & H2 & H3 & H4 & H5 & H6).
  rewrite E. destruct r as [a|e|]; [| |congruence].
  - destruct (Hf a st')
      as (evs' & r' & st'' & added' & E' & Hh' & H1' & H2' & H3' & H4' & H5' & H6').
    rewrite E'. exists (evs ++ evs'), r', st'', (added ++ added').
    split; [reflexivity|]. split; [exact Hh'|].
    split; [rewrite H1', H1, app_assoc; reflexivity|].
    rewrite !count_messages_app, !count_type_app. repeat split; lia.
  - exists evs, (Throw e), st', added. repeat split; try assumption. discriminate.
Qed.

Lemma books_for_each {A} (xs : list A) (body : A -> G B unit) :
  (forall x, keeps_books (body x)) -> keeps_books (for_each xs body).
Proof.
  intros Hb. induction xs as [|x xs IH]; cbn [for_each].
  - apply books_gret.
  - apply books_gbind; [apply Hb | intros _; exact IH].
Qed.

Lemma books_consume (events : list model_event) :
  forall acc, keeps_books (B:=B) (consume events acc).
Proof.
  induction events as [|ev events IH]; intros acc; cbn [consume].
  - apply books_gret.
  - destruct ev as [[t|pj|]|id name| | |]; try apply IH.
    destruct (truthy (JStr t)); [|apply IH].
    apply books_gbind; [|intros _; apply IH].
    apply books_yield. repeat split; discriminate.
Qed.

(** One tool call, run in full: the call is announced, the tool is run,
    its result is yielded and appended to the history. *)
Lemma run_tool_run (tool : ToolUse) (st : state B) :
  exists result w',
    Tools.handleToolCall rpc (supabase config) (tu_name tool) (tu_input tool) (w st) =
      (Ok result, w') /\
    run_tool rpc config tool st =
    ([{| type := tool_call; content_of := Text (tu_name tool);
         data_of := Some (InputData (tu_input tool)) |}] ++
     (if str_eqb (tu_name tool) (js "execute_sql")
      then [{| type := sql; content_of := Value (field (tu_input tool) (js "sql"));
               data_of := None |}]
      else []) ++
     [{| type := tool_result; content_of := Json result; data_of := None |}] ++
     (match result with
      | Tools.Success (Tools.ResultPayload r) =>
          [{| type := data; content_of := Text (js "Query executed successfully");
              data_of := Some (ResultData r) |}]
      | _ => []
      end),
     Ok tt,
     {| conversationHistory :=
          conversationHistory st ++ [ToolResultMessage (tu_id tool) result];
        modelCalls := modelCalls st; w := w' |}).
Proof.
  destruct (handleToolCall_returns B rpc (supabase config) (tu_name tool) (tu_input tool)
              (w st)) as (result & w' & H).
  exists result, w'. split; [exact H|].
  unfold run_tool.
  destruct (str_eqb (tu_name tool) (js "execute_sql"));
    cbv beta iota zeta delta [gbind yield when lift push gret]; rewrite H;
    destruct result as [[tables|table|r]|e]; reflexivity.
Qed.

Lemma books_run_tool (tool : ToolUse) : keeps_books (run_tool rpc config tool).
Proof.
  intros st. destruct (run_tool_run tool st) as (result & w' & _ & ->).
  eexists _, _, _, _. split; [reflexivity|]. split; [discriminate|].
  cbn [conversationHistory]. split; [reflexivity|].
  destruct (str_eqb (tu_name tool) (js "execute_sql"));
    destruct result as [[tables|table|r]|e]; repeat split;
    try reflexivity; cbn; lia.
Qed.

Lemma books_rounds (n : nat) : keeps_books (rounds rpc config model parseResponse n).
Proof.
  induction n as [|n IH]; cbn [rounds].
  - apply books_gret.
  - apply books_gbind; [apply books_call_model|]. intros reply.
    apply books_gbind; [apply books_consume|]. intros acc.
    destruct (ending reply) as [failure|finalMessage]; [apply books_gthrow|].
    apply books_gbind.
    { destruct (p_insights _); [|apply books_gret].
      apply books_yield. repeat split; discriminate. }
    intros _. apply books_gbind.
    { destruct (p_chartSuggestion _); [|apply books_gret].
      apply books_yield. repeat split; discriminate. }
    intros _. apply books_gbind.
    { destruct (p_permissionDenied _); [|apply books_gret].
      apply books_yield. repeat split; discriminate. }
    intros _. apply books_gbind; [apply books_push_assistant|]. intros _.
    destruct (hasToolUse acc); [|apply books_gret].
    apply books_gbind; [apply books_for_each; intros; apply books_run_tool|].
    intros _. destruct (negb _); [exact IH | apply books_gret].
Qed.

(** What the loop over the stream does: it forwards the text deltas and
    leaves the state alone. *)
Lemma consume_run (events : list model_event) :
  forall acc (st : state B),
    exists evs acc',
      consume events acc st = (evs, Ok acc', st) /\
      Forall (fun e => type e = text) evs.
Proof.
  induction events as [|ev events IH]; intros acc st; cbn [consume].
  - exists [], acc. split; [reflexivity | constructor].
  - destruct ev as [[t|pj|]|id name| | |]; try apply IH.
    destruct (truthy (JStr t)); [|apply IH].
    unfold gbind, yield.
    match goal with |- context [consume events ?a st] =>
      destruct (IH a st) as (evs & acc' & -> & F) end.
    eexists _, _. split; [reflexivity|]. constructor; [reflexivity | exact F].
Qed.

End WithAnalyst.

(** X22.  The books of a turn.  [chatStream] appends the user message to the
    history and, after it, only assistant messages and tool results, never
    removing anything; every tool call it announces is followed by its
    result, whether the turn returns or throws; every result is also
    appended to the history; and there is at most one data event per result
    and one sql event per call. *)
Theorem chatStream_keeps_books (B : Type) (rpc : str -> B -> rpc_response * B)
  (config : AnalystConfig) (model : list message -> model_reply)
  (parseResponse : str -> Parsed) (userMessage : str) (st : state B) :
  let out := chatStream rpc config model parseResponse userMessage st in
  let evs := fst (fst out) in
  exists added,
    conversationHistory (snd out) =
      conversationHistory st ++ UserMessage userMessage :: added /\
    count_messages is_user added = 0 /\
    count_type tool_call evs = count_type tool_result evs /\
    count_messages is_tool_result added = count_type tool_result evs /\
    count_type data evs <= count_type tool_result evs /\
    count_type sql evs <= count_type tool_call evs.
Proof.
  intros out evs. subst evs out. rewrite chatStream_run.
  destruct (books_rounds B rpc config model parseResponse
              (Z.to_nat (maxIterations_ config))
              {| conversationHistory := conversationHistory st ++ [UserMessage userMessage];
                 modelCalls := modelCalls st; w := w st |})
    as (evs & r & st' & added & E & Hh & H1 & H2 & H3 & H4 & H5 & H6).
  rewrite E. cbn [conversationHistory] in H1. rewrite <- app_assoc in H1.
  exists added. destruct r as [u|e|]; [| |congruence]; cbn [fst snd].
  - split; [exact H1|]. split; [exact H2|].
    rewrite !count_type_app. cbn. repeat split; lia.
  - repeat split; assumption.
Qed.

(** X23.  A turn whose first request to the model fails.  The failure is
    thrown as it is; the only events are the text deltas that arrived before
    it; one request was sent, no tool was run, and the history keeps the
    user message of the failed turn as its last entry. *)
Theorem chatStream_failed_first_request (B : Type) (rpc : str -> B -> rpc_response * B)
  (config : AnalystConfig) (model : list message -> model_reply)
  (parseResponse : str -> Parsed) (userMessage failure : str) (st : state B) :
  (0 < maxIterations_ config)%Z ->
  ending (model (conversationHistory st ++ [UserMessage userMessage])) = inl failure ->
  exists evs,
    chatStream rpc config model parseResponse userMessage st =
      (evs, Throw failure,
       {| conversationHistory := conversationHistory st ++ [UserMessage userMessage];
          modelCalls := S (modelCalls st); w := w st |}) /\
    Forall (fun e => type e = text) evs.
Proof.
  intros Hpos Hfail. rewrite chatStream_run.
  destruct (Z.to_nat (maxIterations_ config)) as [|n] eqn:En; [lia|].
  cbn [rounds]. unfold gbind at 1. unfold call_model at 1.
  cbn [conversationHistory modelCalls w].
  unfold gbind at 1.
  match goal with |- context [consume ?evs0 ?a ?s] =>
    destruct (consume_run B evs0 a s) as (evs & acc' & -> & F) end.
  rewrite Hfail. unfold gthrow. cbn. exists evs. rewrite app_nil_r. auto.
Qed.

(** X24.  A negative integer for [maxIterations] is taken as it is, not
    replaced by the default of ten.  With it the loop never runs: the turn
    records the user message, sends nothing to the model, runs no tool and
    reports [done] at once. *)
Theorem chatStream_without_rounds (B : Type) (rpc : str -> B -> rpc_response * B)
  (config : AnalystConfig) (model : list message -> model_reply)
  (parseResponse : str -> Parsed) (userMessage : str) (st : state B) (n : Z) :
  maxIterations config = Some n -> (n < 0)%Z ->
  maxIterations_ config = n /\
  chatStream rpc config model parseResponse userMessage st =
    ([done_event], Ok tt,
     {| conversationHistory := conversationHistory st ++ [UserMessage userMessage];
        modelCalls := modelCalls st; w := w st |}).
Proof.
  intros Hn Hneg.
  assert (E : maxIterations_ config = n).
  { unfold maxIterations_. rewrite Hn.
    destruct (n =? 0)%Z eqn:Z0; [apply Z.eqb_eq in Z0; lia | reflexivity]. }
  split; [exact E|]. rewrite chatStream_run, E.
  replace (Z.to_nat n) with 0 by lia. reflexivity.
Qed.

End WithUnicode.

Section Run.

#[local] Existing Instance Examples.plain_tables.

Lemma chatStream_failed_first_request_witness :
  (0 < maxIterations_ default_config)%Z /\
  ending (unreachable_model
            (conversationHistory fresh_state ++ [UserMessage (js "How many users?")])) =
    inl (js "Connection error.") /\
  exists evs,
    chatStream Examples.sample_rpc default_config unreachable_model no_blocks
      (js "How many users?") fresh_state =
      (evs, Throw (js "Connection error."),
       {| conversationHistory :=
            conversationHistory fresh_state ++ [UserMessage (js "How many users?")];
          modelCalls := S (modelCalls fresh_state); w := w fresh_state |}) /\
    Forall (fun e => type e = text) evs.
Proof.
  split; [reflexivity|]. split; [reflexivity|].
  apply (chatStream_failed_first_request unit Examples.sample_rpc default_config
           unreachable_model no_blocks (js "How many users?") (js "Connection error.")
           fresh_state); reflexivity.
Defined.

Lemma chatStream_without_rounds_witness :
  maxIterations TurnExamples.negative_bound = Some (-1)%Z /\
  (-1 < 0)%Z /\
  maxIterations_ TurnExamples.negative_bound = (-1)%Z /\
  chatStream Examples.sample_rpc TurnExamples.negative_bound restless_model no_blocks
    (js "Which tables are there?") fresh_state =
    ([done_event], Ok tt,
     {| conversationHistory :=
          conversationHistory fresh_state ++ [UserMessage (js "Which tables are there?")];
        modelCalls := modelCalls fresh_state; w := w fresh_state |}).
Proof.
  split; [reflexivity|]. split; [reflexivity|].
  apply (chatStream_without_rounds unit Examples.sample_rpc TurnExamples.negative_bound
           restless_model no_blocks (js "Which tables are there?") fresh_state (-1)%Z);
    reflexivity.
Defined.

End Run.

End BookFacts.

(* ================================================================== *)
(** ** Properties of the chat route: when an analyst is rebuilt *)
(* ================================================================== *)

Module RouteFacts.
Import stdpp.base stdpp.gmap.
Import Eff JSFacts CatalogFacts ChatRoute RouteSpec RouteExamples.

Lemma str_ltb_asym (a : str) : forall b, str_ltb a b = true -> str_ltb b a = false.
Proof.
  induction a as [|x a IH]; intros [|y b] H; simpl in *; try congruence.
  destruct (N.ltb_spec x y), (N.eqb_spec x y),
           (N.ltb_spec y x), (N.eqb_spec y x);
    simpl in *; try lia; try congruence; auto.
Qed.

Lemma str_ltb_tri (a : str) :
  forall b, str_ltb a b = false -> str_ltb b a = false -> a = b.
Proof.
  induction a as [|x a IH]; intros [|y b] H1 H2; simpl in *; try congruence.
  destruct (N.ltb_spec x y), (N.eqb_spec x y),
           (N.ltb_spec y x), (N.eqb_spec y x);
    simpl in *; try lia; try congruence.
  f_equal; [assumption | apply IH; assumption].
Qed.

Lemma str_ltb_le_lt (z : str) :
  forall x y, str_ltb z x = false -> str_ltb z y = true -> str_ltb x y = true.
Proof.
  induction z as [|cz z IH]; intros [|cx x] [|cy y] H1 H2; simpl in *;
    try congruence.
  destruct (N.ltb_spec cz cx), (N.eqb_spec cz cx),
           (N.ltb_spec cz cy), (N.eqb_spec cz cy),
           (N.ltb_spec cx cy), (N.eqb_spec cx cy);
    simpl in *; try lia; try congruence.
  apply (IH x y); assumption.
Qed.

(** Two insertions commute: the sorted array does not depend on the order
    in which its elements arrive. *)
Lemma insert_sorted_comm (x y : str) (l : list str) :
  insert_sorted x (insert_sorted y l) = insert_sorted y (insert_sorted x l).
Proof.
  induction l as [|z l IH]; cbn [insert_sorted].
  - destruct (str_ltb y x) eqn:Eyx, (str_ltb x y) eqn:Exy; try reflexivity.
    + rewrite (str_ltb_asym _ _ Eyx) in Exy. discriminate.
    + rewrite (str_ltb_tri _ _ Exy Eyx). reflexivity.
  - destruct (str_ltb z y) eqn:Ezy, (str_ltb z x) eqn:Ezx; cbn [insert_sorted];
      rewrite ?Ezy, ?Ezx.
    + rewrite IH. reflexivity.
    + rewrite (str_ltb_le_lt z x y Ezx Ezy). cbn [insert_sorted]. rewrite ?Ezy.
      reflexivity.
    + rewrite (str_ltb_le_lt z y x Ezy Ezx). cbn [insert_sorted]. rewrite ?Ezx.
      reflexivity.
    + destruct (str_ltb y x) eqn:Eyx, (str_ltb x y) eqn:Exy; cbn [insert_sorted];
        rewrite ?Ezx, ?Ezy; try reflexivity.
      * rewrite (str_ltb_asym _ _ Eyx) in Exy. discriminate.
      * rewrite (str_ltb_tri _ _ Exy Eyx). reflexivity.
Qed.

Lemma sort_permutation (a b : list str) : Permutation a b -> sort a = sort b.
Proof.
  induction 1 as [|x a b _ IH|x y a|a b c _ IH1 _ IH2]; unfold sort in *;
    cbn [fold_right].
  - reflexivity.
  - rewrite IH. reflexivity.
  - apply insert_sorted_comm.
  - congruence.
Qed.

Lemma strs_eqb_refl (a : list str) : strs_eqb a a = true.
Proof.
  induction a as [|x a IH]; [reflexivity|]. cbn [strs_eqb].
  rewrite str_eqb_refl, IH. reflexivity.
Qed.

Lemma strs_eqb_eq (a : list str) : forall b, strs_eqb a b = true -> a = b.
Proof.
  induction a as [|x a IH]; intros [|y b] H; try discriminate; [reflexivity|].
  cbn [strs_eqb] in H. apply andb_true_iff in H. destruct H as [H1 H2].
  apply str_eqb_eq in H1. apply IH in H2. congruence.
Qed.

Lemma hash_differs_iff (existing : option hash) (newHash : hash) :
  hash_differs existing newHash = false <-> existing = Some newHash.
Proof.
  unfold hash_differs. destruct existing as [[level labels]|]; [|split; discriminate].
  destruct newHash as [level' labels']. cbn [fst snd].
  rewrite negb_false_iff, andb_true_iff, AccessLevel_eqb_eq. split.
  - intros [-> H]. apply strs_eqb_eq in H. subst. reflexivity.
  - intros H. injection H as -> ->. split; [reflexivity | apply strs_eqb_refl].
Qed.

Lemma configured_env (env : Env) :
  configured env = true ->
  negb (present (ANTHROPIC_API_KEY env)) = false /\
  negb (present (SUPABASE_URL env)) ||
  negb (present (if present (SUPABASE_SERVICE_KEY env) then SUPABASE_SERVICE_KEY env
                 else SUPABASE_ANON_KEY env)) = false.
Proof.
  unfold configured. rewrite !andb_true_iff, orb_true_iff. intros [[H1 H2] H3].
  rewrite H1, H2. split; [reflexivity|]. cbn [negb orb].
  destruct (present (SUPABASE_SERVICE_KEY env)) eqn:E; [rewrite E; reflexivity|].
  destruct H3 as [H3|H3]; [discriminate | rewrite H3; reflexivity].
Qed.

(** What a call that returns leaves in the two maps. *)
Lemma getAnalyst_stored (env : Env) (id : str)
  (perms : option Tools.TablePermissionsConfig) (s s1 : store) (a : DataAnalyst) :
  getAnalyst env id perms s = (Ok a, s1) ->
  analysts s1 !! id = Some a /\
  permissionsHash s1 !! id = Some (hashPermissions (nullish perms currentPermissions)) /\
  (analysts s !! id = None ->
     da_history a = [] /\
     permissions_of a = Some (nullish perms currentPermissions)).
Proof.
  unfold getAnalyst. cbv zeta.
  set (newHash := hashPermissions (nullish perms currentPermissions)).
  destruct (analysts s !! id) as [a0|] eqn:Ea; cbn [bool_decide andb].
  - assert (D : bool_decide (is_Some (Some a0)) = true) by reflexivity.
    rewrite D. cbn [andb].
    destruct (hash_differs (permissionsHash s !! id) newHash) eqn:Hd.
    + cbn [analysts permissionsHash]. rewrite lookup_delete_eq.
      destruct (negb (present (ANTHROPIC_API_KEY env))); [discriminate|].
      destruct (negb (present (SUPABASE_URL env)) || _); [discriminate|].
      intros H. injection H as <- <-. cbn [analysts permissionsHash].
      rewrite !lookup_insert_eq. split; [reflexivity|]. split; [reflexivity|].
      discriminate.
    + cbv iota. rewrite Ea. intros H. injection H as <- <-.
      apply hash_differs_iff in Hd. split; [exact Ea|]. split; [exact Hd|].
      discriminate.
  - assert (D : bool_decide (is_Some (@None DataAnalyst)) = false) by reflexivity.
    rewrite D. cbn [andb]. cbv iota. rewrite Ea.
    destruct (negb (present (ANTHROPIC_API_KEY env))); [discriminate|].
    destruct (negb (present (SUPABASE_URL env)) || _); [discriminate|].
    intros H. injection H as <- <-. cbn [analysts permissionsHash].
    rewrite !lookup_insert_eq. split; [reflexivity|]. split; [reflexivity|].
    intros _. split; reflexivity.
Qed.

(** X26.  [hashPermissions] reads the default level and, of each entry, the
    table name and the level only: two policies with the same default and
    the same labels, in any order, have the same hash, whatever their
    schemas and blocked columns. *)
Theorem hashPermissions_reads_labels (p q : Tools.TablePermissionsConfig) :
  Tools.defaultAccess p = Tools.defaultAccess q ->
  Permutation (List.map label (Tools.tables p)) (List.map label (Tools.tables q)) ->
  hashPermissions p = hashPermissions q.
Proof.
  intros D P. unfold hashPermissions. rewrite D. f_equal.
  apply (sort_permutation _ _ P).
Qed.

Lemma hashPermissions_reads_labels_witness :
  Tools.defaultAccess ssn_open = Tools.defaultAccess ssn_blocked /\
  Permutation (List.map label (Tools.tables ssn_open))
              (List.map label (Tools.tables ssn_blocked)) /\
  ssn_open <> ssn_blocked /\
  hashPermissions ssn_open = hashPermissions ssn_blocked.
Proof.
  split; [reflexivity|]. split; [reflexivity|]. split; [discriminate|].
  apply (hashPermissions_reads_labels ssn_open ssn_blocked); reflexivity.
Defined.

(** X27.  An analyst is reused as long as the hash of the permissions is the
    same.  After a call that returned an analyst, a call for the same
    conversation with permissions of the same hash returns that very
    analyst and changes nothing; the analyst keeps the permissions it was
    built with, which are those of the first call when it was built then. *)
Theorem getAnalyst_reuses_equal_hash (env : Env) (id : str)
  (perms perms' : option Tools.TablePermissionsConfig) (s s1 : store) (a : DataAnalyst) :
  getAnalyst env id perms s = (Ok a, s1) ->
  hashPermissions (nullish perms' currentPermissions) =
    hashPermissions (nullish perms currentPermissions) ->
  getAnalyst env id perms' s1 = (Ok a, s1) /\
  (analysts s !! id = None ->
     da_history a = [] /\
     permissions_of a = Some (nullish perms currentPermissions)).
Proof.
  intros H Hh. destruct (getAnalyst_stored env id perms s s1 a H) as (Ha & Hs & Hnew).
  split; [|exact Hnew].
  unfold getAnalyst. cbv zeta. rewrite Hh, Ha, Hs.
  assert (D : hash_differs (Some (hashPermissions (nullish perms currentPermissions)))
                (hashPermissions (nullish perms currentPermissions)) = false).
  { apply hash_differs_iff. reflexivity. }
  rewrite D, andb_false_r, Ha. reflexivity.
Qed.

Lemma getAnalyst_reuses_equal_hash_witness :
  let first := getAnalyst full_env (js "c1") (Some ssn_open) no_store in
  first = (Ok first_analyst, snd first) /\
  hashPermissions (nullish (Some ssn_blocked) currentPermissions) =
    hashPermissions (nullish (Some ssn_open) currentPermissions) /\
  getAnalyst full_env (js "c1") (Some ssn_blocked) (snd first) =
    (Ok first_analyst, snd first) /\
  (analysts no_store !! js "c1" = None ->
     da_history first_analyst = [] /\
     permissions_of first_analyst = Some (nullish (Some ssn_open) currentPermissions)).
Proof.
  intros first. split; [vm_compute; reflexivity|]. split; [reflexivity|].
  apply (getAnalyst_reuses_equal_hash full_env (js "c1") (Some ssn_open)
           (Some ssn_blocked) no_store (snd first) first_analyst);
    [vm_compute; reflexivity | reflexivity].
Defined.

(** X28.  An analyst is rebuilt when the hash has changed.  When the
    conversation has an analyst and the hash recorded for it is not the
    hash of the permissions of the request, the analyst is dropped; with a
    configured environment a new one takes its place, with the permissions
    of the request and an empty history, and the other conversations are
    left alone; without it the call throws and the conversation is left
    without an analyst. *)
Theorem getAnalyst_rebuilds_on_new_hash (env : Env) (id : str)
  (perms : option Tools.TablePermissionsConfig) (s : store) (old : DataAnalyst) :
  analysts s !! id = Some old ->
  permissionsHash s !! id <> Some (hashPermissions (nullish perms currentPermissions)) ->
  let out := getAnalyst env id perms s in
  (configured env = true ->
     exists a,
       fst out = Ok a /\
       da_history a = [] /\
       permissions_of a = Some (nullish perms currentPermissions) /\
       analysts (snd out) !! id = Some a /\
       permissionsHash (snd out) !! id =
         Some (hashPermissions (nullish perms currentPermissions)) /\
       forall other, other <> id ->
         analysts (snd out) !! other = analysts s !! other) /\
  (configured env = false ->
     (exists message, fst out = Throw message) /\
     analysts (snd out) !! id = None).
Proof.
  intros Ha Hh out. subst out. unfold getAnalyst. cbv zeta.
  set (newHash := hashPermissions (nullish perms currentPermissions)) in *.
  rewrite Ha.
  assert (D : bool_decide (is_Some (Some old)) = true) by reflexivity.
  rewrite D. cbn [andb].
  assert (Hd : hash_differs (permissionsHash s !! id) newHash = true).
  { destruct (hash_differs _ newHash) eqn:E; [reflexivity|].
    apply hash_differs_iff in E. contradiction. }
  rewrite Hd. cbn [analysts permissionsHash]. rewrite lookup_delete_eq.
  split.
  - intros C. destruct (configured_env env C) as [-> ->].
    eexists. cbn [fst snd analysts permissionsHash].
    split; [reflexivity|]. split; [reflexivity|]. split; [reflexivity|].
    rewrite !lookup_insert_eq. split; [reflexivity|]. split; [reflexivity|].
    intros other Hne. rewrite lookup_insert_ne by congruence.
    rewrite lookup_delete_ne by congruence. reflexivity.
  - intros C.
    destruct (negb (present (ANTHROPIC_API_KEY env))) eqn:E1.
    + cbn [fst snd analysts]. rewrite lookup_delete_eq. eauto.
    + destruct (negb (present (SUPABASE_URL env)) || _) eqn:E2.
      * cbn [fst snd analysts]. rewrite lookup_delete_eq. eauto.
      * exfalso. unfold configured in C.
        apply negb_false_iff in E1. apply orb_false_iff in E2. destruct E2 as [E2 E3].
        apply negb_false_iff in E2. apply negb_false_iff in E3.
        rewrite E1, E2 in C. cbn [andb] in C.
        destruct (present (SUPABASE_SERVICE_KEY env)); [discriminate|].
        cbn [orb] in C. congruence.
Qed.

Lemma getAnalyst_rebuilds_on_new_hash_witness :
  let first := snd (getAnalyst full_env (js "c1") (Some ssn_open) no_store) in
  analysts first !! js "c1" = Some first_analyst /\
  permissionsHash first !! js "c1" <>
    Some (hashPermissions (nullish (Some users_none) currentPermissions)) /\
  let out := getAnalyst full_env (js "c1") (Some users_none) first in
  (configured full_env = true ->
     exists a,
       fst out = Ok a /\
       da_history a = [] /\
       permissions_of a = Some (nullish (Some users_none) currentPermissions) /\
       analysts (snd out) !! js "c1" = Some a /\
       permissionsHash (snd out) !! js "c1" =
         Some (hashPermissions (nullish (Some users_none) currentPermissions)) /\
       forall other, other <> js "c1" ->
         analysts (snd out) !! other = analysts first !! other) /\
  (configured full_env = false ->
     (exists message, fst out = Throw message) /\
     analysts (snd out) !! js "c1" = None).
Proof.
  intros first.
  assert (O : analysts first !! js "c1" = Some first_analyst).
  { vm_compute. reflexivity. }
  assert (N : permissionsHash first !! js "c1" <>
              Some (hashPermissions (nullish (Some users_none) currentPermissions))).
  { vm_compute. discriminate. }
  split; [exact O|]. split; [exact N|].
  apply (getAnalyst_rebuilds_on_new_hash full_env (js "c1") (Some users_none)
           first first_analyst O N).
Defined.

Lemma getAnalyst_builds (env : Env) (id : str)
  (perms : option Tools.TablePermissionsConfig) (s : store) :
  analysts s !! id = None -> configured env = true ->
  exists a,
    fst (getAnalyst env id perms s) = Ok a /\
    da_history a = [] /\
    permissions_of a = Some (nullish perms currentPermissions).
Proof.
  intros Ha C. unfold getAnalyst. cbv zeta. rewrite Ha.
  assert (D : bool_decide (is_Some (@None DataAnalyst)) = false) by reflexivity.
  rewrite D. cbn [andb]. cbv iota. rewrite Ha.
  destruct (configured_env env C) as [-> ->].
  eexists. split; [reflexivity|]. split; reflexivity.
Qed.

(** X29.  The DELETE handler ends a conversation.  It drops the analyst of
    the conversation and nothing else; the next request of the conversation
    is then served by a new analyst with an empty history, built with the
    permissions of that request, also when their hash is the one recorded
    before. *)
Theorem deleteConversation_starts_over (env : Env) (id : str)
  (perms : option Tools.TablePermissionsConfig) (s : store) :
  configured env = true ->
  let s' := deleteConversation id s in
  analysts s' !! id = None /\
  permissionsHash s' = permissionsHash s /\
  (forall other, other <> id -> analysts s' !! other = analysts s !! other) /\
  exists a,
    fst (getAnalyst env id perms s') = Ok a /\
    da_history a = [] /\
    permissions_of a = Some (nullish perms currentPermissions).
Proof.
  intros C s'.
  assert (H : analysts s' !! id = None /\
              permissionsHash s' = permissionsHash s /\
              forall other, other <> id -> analysts s' !! other = analysts s !! other).
  { subst s'. unfold deleteConversation.
    destruct (analysts s !! id) as [a0|] eqn:Ea.
    - assert (D : bool_decide (is_Some (Some a0)) = true) by reflexivity.
      rewrite D. cbn [analysts permissionsHash]. rewrite lookup_delete_eq.
      split; [reflexivity|]. split; [reflexivity|].
      intros other Hne. rewrite lookup_delete_ne by congruence. reflexivity.
    - assert (D : bool_decide (is_Some (@None DataAnalyst)) = false) by reflexivity.
      rewrite D. auto. }
  destruct H as (H1 & H2 & H3). split; [exact H1|]. split; [exact H2|].
  split; [exact H3|]. apply getAnalyst_builds; assumption.
Qed.

Lemma deleteConversation_starts_over_witness :
  let first := snd (getAnalyst full_env (js "c1") (Some ssn_open) no_store) in
  configured full_env = true /\
  analysts first !! js "c1" = Some first_analyst /\
  let s' := deleteConversation (js "c1") first in
  analysts s' !! js "c1" = None /\
  permissionsHash s' = permissionsHash first /\
  (forall other, other <> js "c1" -> analysts s' !! other = analysts first !! other) /\
  exists a,
    fst (getAnalyst full_env (js "c1") (Some ssn_open) s') = Ok a /\
    da_history a = [] /\
    permissions_of a = Some (nullish (Some ssn_open) currentPermissions).
Proof.
  intros first. split; [reflexivity|]. split; [vm_compute; reflexivity|].
  apply (deleteConversation_starts_over full_env (js "c1") (Some ssn_open) first).
  reflexivity.
Defined.

End RouteFacts.

(* ================================================================== *)
(** ** Further properties of table-permissions.ts: columns *)
(* ================================================================== *)

Module ColumnFacts.
Import JSFacts TextFacts ExtractFacts CatalogFacts PolicyFacts.

Lemma upper_char_ascii (s : str) :
  forallb is_ascii s = true -> forallb is_ascii (map upper_char s) = true.
Proof.
  induction s as [|c s IH]; [reflexivity|]. cbn [forallb map]. intros H.
  apply andb_true_iff in H. destruct H as [A H]. rewrite (IH H), andb_true_r.
  char_solve.
Qed.

Lemma lower_char_ascii (s : str) :
  forallb is_ascii s = true -> forallb is_ascii (map lower_char s) = true.
Proof.
  induction s as [|c s IH]; [reflexivity|]. cbn [forallb map]. intros H.
  apply andb_true_iff in H. destruct H as [A H]. rewrite (IH H), andb_true_r.
  char_solve.
Qed.

Lemma lower_char_twice (c : char) : lower_char (lower_char c) = lower_char c.
Proof. char_solve. Qed.

Section WithUnicode.

Context {unicode : CaseMappings}.

Lemma toLowerCase_upper (s : str) :
  forallb is_ascii s = true -> toLowerCase (toUpperCase s) = toLowerCase s.
Proof.
  intros H. rewrite (toUpperCase_plain s H), (toLowerCase_plain s H),
    (toLowerCase_plain _ (upper_char_ascii s H)), map_map.
  apply map_ext. apply lower_of_upper.
Qed.

Lemma toLowerCase_twice (s : str) :
  forallb is_ascii s = true -> toLowerCase (toLowerCase s) = toLowerCase s.
Proof.
  intros H. rewrite (toLowerCase_plain s H),
    (toLowerCase_plain _ (lower_char_ascii s H)), map_map.
  apply map_ext. apply lower_char_twice.
Qed.

Lemma isSensitiveColumn_iff (name : str) :
  Permissions.isSensitiveColumn name = true <->
  exists pattern pre post,
    In pattern Permissions.SENSITIVE_COLUMN_PATTERNS /\
    toLowerCase name = pre ++ pattern ++ post.
Proof.
  unfold Permissions.isSensitiveColumn. cbv zeta. rewrite existsb_exists. split.
  - intros (pattern & Hin & Hinc). apply includes_spec in Hinc.
    destruct Hinc as (pre & post & E). exists pattern, pre, post. auto.
  - intros (pattern & pre & post & Hin & E). exists pattern. split; [exact Hin|].
    apply includes_spec. exists pre, post. exact E.
Qed.

(** The rule of [canAccessColumn], on the permission the table resolves to. *)
Lemma canAccessColumn_iff (config : Permissions.TablePermissionsConfig)
  (t c s : str) (permission : Permissions.TablePermission) :
  Permissions.getTableAccess config t s = Some permission ->
  (Permissions.canAccessColumn config t c s = true <->
   Permissions.accessLevel permission <> none /\
   ~ In c (nullish (Permissions.blockedColumns permission) []) /\
   (nullish (Permissions.allowedColumns permission) [] = [] \/
    In c (nullish (Permissions.allowedColumns permission) []))).
Proof.
  intros Hp. unfold Permissions.canAccessColumn. rewrite Hp.
  destruct (AccessLevel_eqb (Permissions.accessLevel permission) none) eqn:L.
  - apply AccessLevel_eqb_eq in L. split; [discriminate | tauto].
  - assert (Hl : Permissions.accessLevel permission <> none).
    { intros E. apply AccessLevel_eqb_eq in E. congruence. }
    assert (Hb : match Permissions.blockedColumns permission with
                 | Some blocked => arr_includes blocked c
                 | None => false
                 end = true <->
                 In c (nullish (Permissions.blockedColumns permission) [])).
    { destruct (Permissions.blockedColumns permission) as [bl|]; cbn [nullish].
      - apply arr_includes_In.
      - split; [discriminate | contradiction]. }
    destruct (match Permissions.blockedColumns permission with
              | Some blocked => arr_includes blocked c
              | None => false
              end) eqn:Bl.
    + split; [discriminate|]. intros (_ & H & _). exfalso. apply H, Hb. reflexivity.
    + assert (Hnb : ~ In c (nullish (Permissions.blockedColumns permission) [])).
      { intros H. apply Hb in H. discriminate. }
      destruct (Permissions.allowedColumns permission) as [[|a al]|]; cbn [nullish length Nat.ltb Nat.leb].
      * split; auto.
      * change (0 <? S (length al)) with true. cbv iota. rewrite arr_includes_In.
        split; [auto|]. intros (_ & _ & [H|H]); [discriminate | exact H].
      * split; auto.
Qed.

(** X20.  [isSensitiveColumn] flags a name exactly when its lower-case form
    holds one of the patterns as a piece of text.  For a name in ASCII the
    answer does not depend on letter case, and an ASCII name that holds a
    flagged name is flagged too, whatever stands around it. *)
Theorem isSensitiveColumn_by_substring (name : str) :
  (Permissions.isSensitiveColumn name = true <->
     exists pattern pre post,
       In pattern Permissions.SENSITIVE_COLUMN_PATTERNS /\
       toLowerCase name = pre ++ pattern ++ post) /\
  (forall pre post,
     forallb is_ascii (pre ++ name ++ post) = true ->
     Permissions.isSensitiveColumn name = true ->
     Permissions.isSensitiveColumn (pre ++ name ++ post) = true) /\
  (forallb is_ascii name = true ->
   Permissions.isSensitiveColumn (toUpperCase name) = Permissions.isSensitiveColumn name /\
   Permissions.isSensitiveColumn (toLowerCase name) = Permissions.isSensitiveColumn name).
Proof.
  split; [apply isSensitiveColumn_iff|]. split.
  - intros pre post A H.
    assert (A' := A). rewrite !forallb_app in A'.
    apply andb_true_iff in A'. destruct A' as [_ A'].
    apply andb_true_iff in A'. destruct A' as [An _].
    apply isSensitiveColumn_iff in H.
    destruct H as (pattern & a & b & Hin & E). apply isSensitiveColumn_iff.
    exists pattern, (map lower_char pre ++ a), (b ++ map lower_char post).
    split; [exact Hin|].
    rewrite (toLowerCase_plain _ A), !map_app.
    rewrite (toLowerCase_plain _ An) in E. rewrite E, <- !app_assoc. reflexivity.
  - intros A. unfold Permissions.isSensitiveColumn. cbv zeta.
    rewrite (toLowerCase_upper name A), (toLowerCase_twice name A). split; reflexivity.
Qed.

(** X21.  What [filterAccessibleColumns] keeps.  For a table that resolves to
    no access it keeps nothing; otherwise it keeps, in their order, the
    columns that are not blocked and, when the allow-list is not empty, are
    on it; with neither list it keeps every column; and filtering what it
    kept once more changes nothing. *)
Theorem filterAccessibleColumns_rule (config : Permissions.TablePermissionsConfig)
  (tableName : str) (columns : list str) (schemaName : str) :
  let kept := Permissions.filterAccessibleColumns config tableName columns schemaName in
  exists permission,
    Permissions.getTableAccess config tableName schemaName = Some permission /\
    let blocked := nullish (Permissions.blockedColumns permission) [] in
    let allowed := nullish (Permissions.allowedColumns permission) [] in
    (Permissions.accessLevel permission = none -> kept = []) /\
    (Permissions.accessLevel permission <> none ->
       kept = filter (fun c => negb (arr_includes blocked c) &&
                               match allowed with
                               | [] => true
                               | _ :: _ => arr_includes allowed c
                               end) columns) /\
    (forall c, In c kept ->
       In c columns /\ ~ In c blocked /\ (allowed = [] \/ In c allowed)) /\
    (Permissions.accessLevel permission <> none -> blocked = [] -> allowed = [] ->
       kept = columns) /\
    Permissions.filterAccessibleColumns config tableName kept schemaName = kept.
Proof.
  intros kept.
  destruct (getTableAccess_some config tableName schemaName) as (p & Hp).
  exists p. split; [exact Hp|]. intros blocked allowed.
  pose proof (fun c => canAccessColumn_iff config tableName c schemaName p Hp) as Hiff.
  fold blocked allowed in Hiff.
  assert (Hin : forall c, In c kept ->
            In c columns /\ ~ In c blocked /\ (allowed = [] \/ In c allowed)).
  { intros c Hc. subst kept. unfold Permissions.filterAccessibleColumns in Hc.
    apply filter_In in Hc. destruct Hc as [Hc Ht]. apply Hiff in Ht. tauto. }
  split; [|split; [|split; [exact Hin|split]]].
  - intros Hl. clear Hin. subst kept. unfold Permissions.filterAccessibleColumns.
    induction columns as [|c cs IH]; [reflexivity|]. cbn [filter].
    destruct (Permissions.canAccessColumn config tableName c schemaName) eqn:E; [|exact IH].
    apply Hiff in E. tauto.
  - intros Hl. subst kept. unfold Permissions.filterAccessibleColumns.
    apply filter_ext. intros c.
    destruct (Permissions.canAccessColumn config tableName c schemaName) eqn:E.
    + apply Hiff in E. destruct E as (_ & Hb & Ha). symmetry. apply andb_true_iff. split.
      * apply negb_true_iff. destruct (arr_includes blocked c) eqn:I; [|reflexivity].
        apply arr_includes_In in I. contradiction.
      * destruct allowed as [|a al]; [reflexivity|]. apply arr_includes_In.
        destruct Ha as [Ha|Ha]; [discriminate | exact Ha].
    + symmetry. apply not_true_is_false. intros H. apply andb_true_iff in H.
      destruct H as [H1 H2]. apply negb_true_iff in H1.
      assert (X : Permissions.canAccessColumn config tableName c schemaName = true).
      { apply Hiff. split; [exact Hl|]. split.
        - intros I. apply arr_includes_In in I. congruence.
        - destruct allowed as [|a al]; [left; reflexivity|]. right.
          apply arr_includes_In. exact H2. }
      congruence.
  - intros Hl Hb Ha. clear Hin. subst kept. unfold Permissions.filterAccessibleColumns.
    induction columns as [|c cs IH]; [reflexivity|]. cbn [filter].
    replace (Permissions.canAccessColumn config tableName c schemaName) with true.
    + f_equal. exact IH.
    + symmetry. apply Hiff. rewrite Hb. split; [exact Hl|]. split; [intros []|].
      left. exact Ha.
  - clear Hin. subst kept. unfold Permissions.filterAccessibleColumns.
    induction columns as [|c cs IH]; [reflexivity|]. cbn [filter].
    destruct (Permissions.canAccessColumn config tableName c schemaName) eqn:E; [|exact IH].
    cbn [filter]. rewrite E. f_equal. exact IH.
Qed.

End WithUnicode.

Section Run.

Lemma isSensitiveColumn_by_substring_witness :
  forallb is_ascii (js "user_" ++ js "Password" ++ js "_hash") = true /\
  Permissions.isSensitiveColumn (unicode := Examples.plain_tables) (js "Password") = true /\
  Permissions.isSensitiveColumn (unicode := Examples.plain_tables)
    (js "user_" ++ js "Password" ++ js "_hash") = true.
Proof.
  split; [reflexivity|]. split; [reflexivity|].
  apply (proj1 (proj2 (isSensitiveColumn_by_substring (unicode := Examples.plain_tables)
                         (js "Password"))));
    reflexivity.
Defined.

(** Outside ASCII the answer does depend on letter case: with the upper-case
    form SS of the sharp s, a name spelled with it is not flagged, and its
    upper-case form is. *)
Example isSensitiveColumn_sharp_s :
  let name := js "pa" ++ [223%N] ++ js "word" in
  Permissions.isSensitiveColumn (unicode := Examples.sharp_s_tables) name = false /\
  toUpperCase (unicode := Examples.sharp_s_tables) name = js "PASSWORD" /\
  Permissions.isSensitiveColumn (unicode := Examples.sharp_s_tables)
    (toUpperCase (unicode := Examples.sharp_s_tables) name) = true.
Proof. repeat split; reflexivity. Qed.

End Run.

End ColumnFacts.

(* ================================================================== *)
(** ** Further properties of tools.ts: the columns of a table *)
(* ================================================================== *)

Module ColumnListFacts.
Import Validation Eff Tools ToolsSpec TraceSpec.
Import JSFacts ExecuteFacts CatalogFacts SchemaFacts GateFacts.

Section WithUnicode.

Context {unicode : CaseMappings}.

(** What a successful [getTableSchema] returns, in terms of the three
    answers of the catalog. *)
Lemma getTableSchema_success (B : Type) (rpc : str -> B -> rpc_response * B)
  (config : SupabaseToolsConfig) (tableName schema : jsval) (w : world B)
  (info : TableInfo) :
  fst (getTableSchema rpc config tableName schema w) = Ok info ->
  exists n s columnsData pkData fkData,
    tableName = JStr n /\ schema_or_public schema = JStr s /\
    resolved_level config n s <> none /\
    answers rpc (schema_queries n s) (backend w) = [columnsData; pkData; fkData] /\
    info =
      {| ti_name := JStr n; ti_schema := JStr s;
         ti_columns :=
           map (fun col =>
                  let fk := find (fun f => strict_eqb (field f (js "column_name"))
                                                      (field col (js "name"))) fkData in
                  {| ci_name := field col (js "name");
                     ci_type := field col (js "type");
                     ci_nullable := field col (js "nullable");
                     ci_defaultValue := field col (js "default_value");
                     ci_isPrimaryKey :=
                       existsb (strict_eqb (field col (js "name")))
                               (map (fun pk => field pk (js "column_name")) pkData);
                     ci_isForeignKey := match fk with Some _ => true | None => false end;
                     ci_references :=
                       option_map (fun f => (field f (js "foreign_table"),
                                             field f (js "foreign_column"))) fk |})
               (filter (fun col =>
                          negb (blocked_name
                                  (nullish (blockedColumns (getTablePermission config n s)) [])
                                  (field col (js "name"))))
                       columnsData) |}.
Proof.
  unfold getTableSchema. fold (schema_or_public schema).
  destruct (isValidSQLIdentifier tableName) eqn:V1.
  2:{ rewrite (validateSQLIdentifier_fail B _ (js "table name") V1). discriminate. }
  destruct (validateSQLIdentifier_ok B _ (js "table name") V1) as (n & -> & Hn).
  rewrite Hn, bind_ret.
  destruct (isValidSQLIdentifier (schema_or_public schema)) eqn:V2.
  2:{ rewrite (validateSQLIdentifier_fail B _ (js "schema name") V2). discriminate. }
  destruct (validateSQLIdentifier_ok B _ (js "schema name") V2) as (s & Hsch & Hs).
  rewrite Hs, bind_ret.
  rewrite (bind_ok _ _ _ _ _ (canAccessTable_run B config n s w)).
  destruct (AccessLevel_eqb (resolved_level config n s) none) eqn:L; cbn [negb];
    [discriminate|].
  assert (Hl : resolved_level config n s <> none).
  { intros E. apply AccessLevel_eqb_eq in E. congruence. }
  set (w1 := with_trace w [PermissionCheck n (resolved_level config n s)]).
  cbv zeta.
  match goal with |- context [bind (runQuery rpc ?q) _ w1] =>
    set (q1 := q); pose proof (runQuery_run B rpc q1 w1) as R1 end.
  destruct (rpc_error (fst (rpc q1 (backend w1)))) as [m1|].
  { rewrite (bind_throw _ _ _ _ _ R1). discriminate. }
  rewrite (bind_ok _ _ _ _ _ R1).
  match goal with |- context [bind (runQuery rpc ?q) _ ?w2] =>
    set (q2 := q); pose proof (runQuery_run B rpc q2 w2) as R2 end.
  destruct (rpc_error (fst (rpc q2 _))) as [m2|].
  { rewrite (bind_throw _ _ _ _ _ R2). discriminate. }
  rewrite (bind_ok _ _ _ _ _ R2).
  match goal with |- context [bind (runQuery rpc ?q) _ ?w3] =>
    set (q3 := q); pose proof (runQuery_run B rpc q3 w3) as R3 end.
  destruct (rpc_error (fst (rpc q3 _))) as [m3|].
  { rewrite (bind_throw _ _ _ _ _ R3). discriminate. }
  rewrite (bind_ok _ _ _ _ _ R3). unfold ret. cbn [fst].
  intros H. injection H as <-.
  eexists n, s, _, _, _. split; [reflexivity|]. split; [exact Hsch|].
  split; [exact Hl|]. split; [|reflexivity].
  reflexivity.
Qed.

(** X16.  The columns [getTableSchema] returns.  Their names are the names
    the column query answered, in its order, with the blocked names taken
    out and nothing else: no accessible column is dropped.  A column is
    flagged as primary key exactly when the primary-key query names it, and
    as foreign key exactly when it carries a reference, which is then the
    one of a row the foreign-key query answered for that column. *)
Theorem getTableSchema_columns (B : Type) (rpc : str -> B -> rpc_response * B)
  (config : SupabaseToolsConfig) (tableName schema : jsval) (w : world B)
  (info : TableInfo) :
  fst (getTableSchema rpc config tableName schema w) = Ok info ->
  exists n s columnsData pkData fkData,
    tableName = JStr n /\ schema_or_public schema = JStr s /\
    answers rpc (schema_queries n s) (backend w) = [columnsData; pkData; fkData] /\
    map ci_name (ti_columns info) =
      filter (fun name =>
                negb (blocked_name
                        (nullish (blockedColumns (getTablePermission config n s)) []) name))
             (map (fun col => field col (js "name")) columnsData) /\
    (forall col, In col (ti_columns info) ->
       (ci_isPrimaryKey col = true <->
          exists pk, In pk pkData /\
                     strict_eqb (ci_name col) (field pk (js "column_name")) = true) /\
       (ci_isForeignKey col = true <-> ci_references col <> None) /\
       (forall t c, ci_references col = Some (t, c) ->
          exists fk, In fk fkData /\
                     strict_eqb (field fk (js "column_name")) (ci_name col) = true /\
                     t = field fk (js "foreign_table") /\
                     c = field fk (js "foreign_column"))).
Proof.
  intros H. apply getTableSchema_success in H.
  destruct H as (n & s & columnsData & pkData & fkData & Hn & Hs & _ & Ha & ->).
  exists n, s, columnsData, pkData, fkData.
  split; [exact Hn|]. split; [exact Hs|]. split; [exact Ha|].
  cbn [ti_columns]. split.
  - rewrite map_map. cbn [ci_name]. clear Ha.
    induction columnsData as [|c cs IH]; [reflexivity|]. cbn [filter map].
    destruct (negb (blocked_name _ (field c (js "name")))); cbn [map]; rewrite IH;
      reflexivity.
  - intros col Hcol. apply in_map_iff in Hcol. destruct Hcol as (c & <- & _).
    cbn [ci_isPrimaryKey ci_isForeignKey ci_references ci_name]. split; [|split].
    + rewrite existsb_exists. split.
      * intros (v & Hv & E). apply in_map_iff in Hv. destruct Hv as (pk & <- & Hpk).
        exists pk. auto.
      * intros (pk & Hpk & E). exists (field pk (js "column_name")). split; [|exact E].
        apply in_map_iff. exists pk. auto.
    + destruct (find _ fkData); cbn [option_map]; split; congruence.
    + intros t f0 E.
      destruct (find (fun f => strict_eqb (field f (js "column_name")) (field c (js "name")))
                     fkData) as [fk|] eqn:F; [|discriminate].
      cbn [option_map] in E. injection E as <- <-.
      apply find_some in F. destruct F as [Hin Hf]. exists fk. auto.
Qed.

End WithUnicode.

Section Run.

#[local] Existing Instance Examples.plain_tables.

Lemma getTableSchema_columns_witness :
  exists info,
    fst (getTableSchema Examples.sample_rpc Examples.users_hidden
           (JStr (js "orders")) JUndefined Examples.w0) = Ok info /\
    exists n s columnsData pkData fkData,
      JStr (js "orders") = JStr n /\ schema_or_public JUndefined = JStr s /\
      answers Examples.sample_rpc (schema_queries n s) (backend Examples.w0) =
        [columnsData; pkData; fkData] /\
      map ci_name (ti_columns info) =
        filter (fun name =>
                  negb (blocked_name
                          (nullish (blockedColumns
                                      (getTablePermission Examples.users_hidden n s)) [])
                          name))
               (map (fun col => field col (js "name")) columnsData) /\
      (forall col, In col (ti_columns info) ->
         (ci_isPrimaryKey col = true <->
            exists pk, In pk pkData /\
                       strict_eqb (ci_name col) (field pk (js "column_name")) = true) /\
         (ci_isForeignKey col = true <-> ci_references col <> None) /\
         (forall t c, ci_references col = Some (t, c) ->
            exists fk, In fk fkData /\
                       strict_eqb (field fk (js "column_name")) (ci_name col) = true /\
                       t = field fk (js "foreign_table") /\
                       c = field fk (js "foreign_column"))).
Proof.
  eexists. split; [vm_compute; reflexivity|].
  apply (getTableSchema_columns unit Examples.sample_rpc Examples.users_hidden
           (JStr (js "orders")) JUndefined Examples.w0).
  vm_compute. reflexivity.
Defined.

End Run.

End ColumnListFacts.

(* ================================================================== *)
(** ** The web library and the agent, on the same policy *)
(* ================================================================== *)

Module AgreementFacts.
Import Eff JSFacts CatalogFacts ExecuteFacts ToolsSpec.

Section WithUnicode.

Context {unicode : CaseMappings}.

Lemma find_map_agree {A C} (f : C -> bool) (g : A -> C) (h : A -> bool) (l : list A) :
  (forall e, In e l -> f (g e) = h e) ->
  find f (map g l) = option_map g (find h l).
Proof.
  induction l as [|x l IH]; intros H; [reflexivity|]. cbn [map find].
  rewrite (H x) by (left; reflexivity).
  destruct (h x); [reflexivity|]. apply IH. intros e He. apply H. right. exact He.
Qed.

(** X30.  When the web library and the agent give the same answer.  The
    agent is sent the stored policy by the chat panel.  For a table whose
    name is spelled as in the policy, that is, when every entry that matches
    the name up to letter case matches it exactly, the agent resolves the
    table to the permission the web library finds: the same access level,
    the same blocked columns and the same answer to [canAccessTable]. *)
Theorem web_and_agent_agree (B : Type) (stored : Permissions.TablePermissionsConfig)
  (config : Tools.SupabaseToolsConfig) (t s : str) (w : world B) :
  Tools.permissions config = Some (ChatPanel.request_permissions stored) ->
  (forall e, In e (Permissions.tables stored) ->
     Permissions.key_ci e = (toLowerCase t, toLowerCase s) ->
     Permissions.key e = (t, s)) ->
  exists permission,
    Permissions.getTableAccess stored t s = Some permission /\
    Tools.accessLevel (Tools.getTablePermission config t s) =
      Permissions.accessLevel permission /\
    Tools.blockedColumns (Tools.getTablePermission config t s) =
      Permissions.blockedColumns permission /\
    fst (Tools.canAccessTable (B:=B) config t s w) =
      Ok (Permissions.canAccessTable stored t s).
Proof.
  intros Hc Hspelled.
  assert (F : find (fun e => str_eqb (toLowerCase (Tools.table e)) (toLowerCase t) &&
                             str_eqb (toLowerCase (Tools.schema e)) (toLowerCase s))
                   (Tools.tables (Tools.permissions_ config)) =
              option_map
                (fun e => {| Tools.table := Permissions.table e;
                             Tools.schema := Permissions.schema e;
                             Tools.accessLevel := Permissions.accessLevel e;
                             Tools.blockedColumns := Permissions.blockedColumns e |})
                (find (Permissions.same_key t s) (Permissions.tables stored))).
  { unfold Tools.permissions_. rewrite Hc. cbn [nullish ChatPanel.request_permissions Tools.tables].
    apply find_map_agree. intros e He. cbn [Tools.table Tools.schema].
    unfold Permissions.same_key.
    destruct (str_eqb (Permissions.table e) t && str_eqb (Permissions.schema e) s) eqn:X.
    - apply andb_true_iff in X. destruct X as [X1 X2].
      apply str_eqb_eq in X1. apply str_eqb_eq in X2. subst.
      rewrite !str_eqb_refl. reflexivity.
    - apply not_true_is_false. intros Y. apply andb_true_iff in Y. destruct Y as [Y1 Y2].
      apply str_eqb_eq in Y1. apply str_eqb_eq in Y2.
      assert (K : Permissions.key e = (t, s)).
      { apply Hspelled; [exact He|]. unfold Permissions.key_ci. congruence. }
      unfold Permissions.key in K. injection K as K1 K2.
      rewrite K1, K2, !str_eqb_refl in X. discriminate. }
  assert (D : Tools.defaultAccess (Tools.permissions_ config) =
              Permissions.defaultAccess stored).
  { unfold Tools.permissions_. rewrite Hc. reflexivity. }
  assert (G : exists permission,
            Permissions.getTableAccess stored t s = Some permission /\
            Tools.accessLevel (Tools.getTablePermission config t s) =
              Permissions.accessLevel permission /\
            Tools.blockedColumns (Tools.getTablePermission config t s) =
              Permissions.blockedColumns permission).
  { unfold Permissions.getTableAccess, Tools.getTablePermission. cbv zeta. rewrite F.
    destruct (find (Permissions.same_key t s) (Permissions.tables stored)) as [e|];
      cbn [option_map]; eexists; (split; [reflexivity|]);
      cbn [Tools.accessLevel Tools.blockedColumns Permissions.accessLevel
           Permissions.blockedColumns]; auto. }
  destruct G as (permission & G1 & G2 & G3). exists permission.
  split; [exact G1|]. split; [exact G2|]. split; [exact G3|].
  rewrite canAccessTable_run. cbn [fst]. unfold resolved_level, Permissions.canAccessTable.
  rewrite G1, G2. reflexivity.
Qed.

End WithUnicode.

Section Run.

#[local] Existing Instance Examples.plain_tables.

Lemma web_and_agent_agree_witness :
  Tools.permissions PermissionExamples.agent_Users_hidden =
    Some (ChatPanel.request_permissions PermissionExamples.Users_hidden) /\
  (forall e, In e (Permissions.tables PermissionExamples.Users_hidden) ->
     Permissions.key_ci e = (toLowerCase (js "Users"), toLowerCase (js "public")) ->
     Permissions.key e = (js "Users", js "public")) /\
  exists permission,
    Permissions.getTableAccess PermissionExamples.Users_hidden (js "Users") (js "public") =
      Some permission /\
    Tools.accessLevel
      (Tools.getTablePermission PermissionExamples.agent_Users_hidden
         (js "Users") (js "public")) = Permissions.accessLevel permission /\
    Tools.blockedColumns
      (Tools.getTablePermission PermissionExamples.agent_Users_hidden
         (js "Users") (js "public")) = Permissions.blockedColumns permission /\
    fst (Tools.canAccessTable (B:=unit) PermissionExamples.agent_Users_hidden
           (js "Users") (js "public") Examples.w0) =
      Ok (Permissions.canAccessTable PermissionExamples.Users_hidden
            (js "Users") (js "public")).
Proof.
  assert (S : forall e, In e (Permissions.tables PermissionExamples.Users_hidden) ->
     Permissions.key_ci e = (toLowerCase (js "Users"), toLowerCase (js "public")) ->
     Permissions.key e = (js "Users", js "public")).
  { intros e [<- | []] _. reflexivity. }
  split; [reflexivity|]. split; [exact S|].
  apply (web_and_agent_agree unit PermissionExamples.Users_hidden
           PermissionExamples.agent_Users_hidden (js "Users") (js "public") Examples.w0
           eq_refl S).
Defined.

End Run.

End AgreementFacts.

(* ================================================================== *)
(** ** Properties of analyst.ts: the turn without streaming *)
(* ================================================================== *)

Module ChatFacts.
Import Eff Analyst AnalystSpec TurnSpec ToolsSpec TerminationFacts TurnFacts BookFacts.

Section WithUnicode.

Context {unicode : CaseMappings}.

Lemma text_of_app (a b : list StreamEvent) : text_of (a ++ b) = text_of a ++ text_of b.
Proof. apply flat_map_app. Qed.

Lemma results_of_events_app (a b : list StreamEvent) :
  results_of_events (a ++ b) = results_of_events a ++ results_of_events b.
Proof. apply flat_map_app. Qed.

Lemma results_of_history_app (a b : list message) :
  results_of_history (a ++ b) = results_of_history a ++ results_of_history b.
Proof. apply flat_map_app. Qed.

Section WithAnalyst.

Variable B : Type.
Variable rpc : str -> B -> rpc_response * B.
Variable config : AnalystConfig.
Variable model : list message -> model_reply.
Variable parseResponse : str -> Parsed.
Variable parseText : str -> ParsedText.

Lemma gbind_run {A C} (m : G B A) (f : A -> G B C) (st st1 st2 : state B)
  (evs evs2 : list StreamEvent) (a : A) (r : result C) :
  m st = (evs, Ok a, st1) -> f a st1 = (evs2, r, st2) ->
  gbind m f st = (evs ++ evs2, r, st2).
Proof. intros H1 H2. unfold gbind. rewrite H1, H2. reflexivity. Qed.

Lemma behaves_chat_blocks (blocks : list content_block) :
  forall v, behaves (B:=B) model 0 (chat_blocks rpc config parseResponse parseText blocks v).
Proof.
  induction blocks as [|b blocks IH]; intros v; cbn [chat_blocks].
  - apply behaves_gret.
  - destruct b as [t|id name input].
    + apply behaves_seq.
      { destruct (p_insights _); [apply behaves_yield; discriminate | apply behaves_gret]. }
      intros _. apply behaves_seq; [apply behaves_yield; discriminate|].
      intros _. apply IH.
    + apply behaves_seq; [apply behaves_yield; discriminate|]. intros _.
      apply behaves_seq.
      { apply behaves_lift. intros w0. apply handleToolCall_returns. }
      intros result. apply behaves_seq; [apply behaves_yield; discriminate|]. intros _.
      apply behaves_seq.
      { destruct result as [[tables|table|r]|e];
          first [apply behaves_gret | apply behaves_yield; discriminate]. }
      intros _. apply behaves_seq.
      { unfold when. destruct (str_eqb _ _);
          [apply behaves_yield; discriminate | apply behaves_gret]. }
      intros _. apply IH.
Qed.

Lemma behaves_chat_rounds (n : nat) :
  forall v, behaves (B:=B) model n
              (chat_rounds rpc config model parseResponse parseText n v).
Proof.
  induction n as [|n IH]; intros v; cbn [chat_rounds].
  - apply behaves_gret.
  - apply (behaves_gbind B model 1 n); [apply behaves_call_model|].
    intros reply (st & evs & st' & Hreply).
    assert (Hfrom : exists h, reply = model h).
    { unfold call_model in Hreply. injection Hreply as _ <- _. eauto. }
    destruct Hfrom as (h & ->).
    destruct (ending (model h)) as [failure|response] eqn:En.
    + apply (behaves_mono B model 0 n); [lia|]. eapply behaves_gthrow. exact En.
    + apply behaves_seq; [apply behaves_chat_blocks|]. intros v'.
      apply behaves_seq; [apply behaves_push|]. intros _.
      apply behaves_seq; [apply behaves_for_each; intros; apply behaves_push|].
      intros _. destruct (negb _ || _); [|apply IH].
      apply (behaves_mono B model 0 n); [lia | apply behaves_gret].
Qed.

(** The loop over the blocks of a response, run in full: it always
    returns; it leaves the history and the count of requests alone; the
    text it adds to the answer is the text of its text events; and the
    tool results it sets aside are those of its tool-result events. *)
Lemma chat_blocks_run (blocks : list content_block) :
  forall v (st : state B),
    exists evs v' st' more,
      chat_blocks rpc config parseResponse parseText blocks v st = (evs, Ok v', st') /\
      conversationHistory st' = conversationHistory st /\
      modelCalls st' = modelCalls st /\
      fullResponse v' = fullResponse v ++ text_of evs /\
      toolResults v' = toolResults v ++ more /\
      count_messages is_user more = 0 /\
      results_of_history more = results_of_events evs.
Proof.
  induction blocks as [|b blocks IH]; intros v st; cbn [chat_blocks].
  - exists [], v, st, []. rewrite !app_nil_r. repeat split; reflexivity.
  - destruct b as [t|id name input].
    + match goal with |- context [chat_blocks _ _ _ _ blocks ?v1] =>
        destruct (IH v1 st) as (evs & v' & st' & more & E & H1 & H2 & H3 & H4 & H5 & H6)
      end.
      cbn [fullResponse toolResults] in H3, H4.
      destruct (p_insights (parseResponse t)) as [i|].
      * eexists _, v', st', more. split.
        { eapply gbind_run; [reflexivity|]. eapply gbind_run; [reflexivity|]. exact E. }
        split; [exact H1|]. split; [exact H2|]. split.
        { rewrite H3, !text_of_app. cbn. rewrite ?app_nil_r, <- ?app_assoc. reflexivity. }
        split; [exact H4|]. split; [exact H5|].
        rewrite !results_of_events_app. cbn. exact H6.
      * eexists _, v', st', more. split.
        { eapply gbind_run; [reflexivity|]. eapply gbind_run; [reflexivity|]. exact E. }
        split; [exact H1|]. split; [exact H2|]. split.
        { rewrite H3, !text_of_app. cbn. rewrite ?app_nil_r, <- ?app_assoc. reflexivity. }
        split; [exact H4|]. split; [exact H5|].
        rewrite !results_of_events_app. cbn. exact H6.
    + destruct (handleToolCall_returns B rpc (supabase config) name input (w st))
        as (result & w' & Hcall).
      set (st1 := {| conversationHistory := conversationHistory st;
                     modelCalls := modelCalls st; w := w' |}).
      assert (L : lift (Tools.handleToolCall rpc (supabase config) name input) st =
                  ([], Ok result, st1)).
      { unfold lift. rewrite Hcall. reflexivity. }
      match goal with |- context [chat_blocks _ _ _ _ blocks _] =>
        destruct (IH {| fullResponse := fullResponse v;
                        reasoning_ := reasoning_ v;
                        sql_ := if str_eqb name (js "execute_sql")
                                then field input (js "sql") else sql_ v;
                        data_ := match result with
                                 | Tools.Success (Tools.ResultPayload r) =>
                                     Some (Tools.qr_data r)
                                 | _ => data_ v
                                 end;
                        chartSuggestion_ := chartSuggestion_ v;
                        insights_ := insights_ v;
                        hasToolUse_ := true;
                        toolResults := toolResults v ++ [ToolResultMessage id result] |}
                    st1)
          as (evs & v' & st' & more & E & H1 & H2 & H3 & H4 & H5 & H6)
      end.
      cbn [fullResponse toolResults conversationHistory modelCalls st1] in H1, H2, H3, H4.
      eexists _, v', st', ([ToolResultMessage id result] ++ more). split.
      { eapply gbind_run; [reflexivity|]. eapply gbind_run; [exact L|].
        eapply gbind_run; [reflexivity|].
        eapply gbind_run with
          (a := tt) (st1 := st1)
          (evs := match result with
                  | Tools.Success (Tools.ResultPayload r) =>
                      [{| type := data;
                          content_of := Text (js "Query executed successfully");
                          data_of := Some (ResultData r) |}]
                  | _ => []
                  end).
        { destruct result as [[tables|table|r]|e]; reflexivity. }
        eapply gbind_run with
          (a := tt) (st1 := st1)
          (evs := if str_eqb name (js "execute_sql")
                  then [{| type := sql; content_of := Value (field input (js "sql"));
                           data_of := None |}]
                  else []).
        { unfold when. destruct (str_eqb name (js "execute_sql")); reflexivity. }
        exact E. }
      split; [exact H1|]. split; [exact H2|]. split.
      { rewrite H3, !text_of_app.
        destruct result as [[tables|table|r]|e];
          destruct (str_eqb name (js "execute_sql")); reflexivity. }
      split; [rewrite H4, <- app_assoc; reflexivity|]. split.
      { rewrite count_messages_app, H5. reflexivity. }
      rewrite results_of_history_app, !results_of_events_app, H6.
      destruct result as [[tables|table|r]|e];
        destruct (str_eqb name (js "execute_sql")); reflexivity.
Qed.

Lemma for_each_push_run (xs : list message) :
  forall st : state B,
    exists st',
      for_each xs (push (B:=B)) st = ([], Ok tt, st') /\
      conversationHistory st' = conversationHistory st ++ xs /\
      modelCalls st' = modelCalls st.
Proof.
  induction xs as [|x xs IH]; intros st; cbn [for_each].
  - exists st. rewrite app_nil_r. repeat split; reflexivity.
  - destruct (IH {| conversationHistory := conversationHistory st ++ [x];
                    modelCalls := modelCalls st; w := w st |}) as (st' & E & H1 & H2).
    exists st'. split.
    + eapply gbind_run with (evs := []) (evs2 := []); [reflexivity | exact E].
    + cbn [conversationHistory modelCalls] in H1, H2.
      rewrite H1, <- app_assoc. auto.
Qed.

(** The rounds of [chat], followed through: what they append to the
    history, the tool results they record there, and the text of the
    answer. *)
Lemma chat_rounds_tracks (n : nat) :
  forall v (st : state B),
    exists evs r st' added,
      chat_rounds rpc config model parseResponse parseText n v st = (evs, r, st') /\
      conversationHistory st' = conversationHistory st ++ added /\
      count_messages is_user added = 0 /\
      results_of_history added = results_of_events evs /\
      (forall v', r = Ok v' -> fullResponse v' = fullResponse v ++ text_of evs).
Proof.
  induction n as [|n IH]; intros v st; cbn [chat_rounds].
  - exists [], (Ok v), st, []. rewrite !app_nil_r. repeat split; try reflexivity.
    intros v' H. injection H as <-. reflexivity.
  - set (st1 := {| conversationHistory := conversationHistory st;
                   modelCalls := S (modelCalls st); w := w st |}).
    assert (C : call_model model st = ([], Ok (model (conversationHistory st)), st1))
      by reflexivity.
    destruct (ending (model (conversationHistory st))) as [failure|response] eqn:En.
    + exists [], (Throw failure), st1, []. split.
      { eapply gbind_run with (evs := []) (evs2 := []); [exact C|]. cbv beta.
        rewrite En. reflexivity. }
      cbn [conversationHistory st1]. rewrite app_nil_r.
      repeat split; try reflexivity. discriminate.
    + destruct (chat_blocks_run (fm_content response)
                  {| fullResponse := fullResponse v; reasoning_ := reasoning_ v;
                     sql_ := sql_ v; data_ := data_ v;
                     chartSuggestion_ := chartSuggestion_ v; insights_ := insights_ v;
                     hasToolUse_ := false; toolResults := [] |} st1)
        as (evs1 & v1 & st2 & more & E1 & H1 & H2 & H3 & H4 & H5 & H6).
      cbn [fullResponse toolResults conversationHistory st1 app] in H1, H3, H4.
      set (st3 := {| conversationHistory :=
                       conversationHistory st2 ++ [AssistantMessage (fm_content response)];
                     modelCalls := modelCalls st2; w := w st2 |}).
      destruct (for_each_push_run (toolResults v1) st3) as (st4 & E3 & H7 & _).
      cbn [conversationHistory st3] in H7. rewrite H1, H4 in H7.
      destruct (negb (hasToolUse_ v1) || str_eqb (stop_reason response) (js "end_turn"))
        eqn:Br.
      * exists (evs1 ++ []), (Ok v1), st4,
               (AssistantMessage (fm_content response) :: more).
        split.
        { eapply gbind_run with (evs := []); [exact C|]. cbv beta. rewrite En.
          eapply gbind_run; [exact E1|].
          eapply gbind_run with (evs := []); [reflexivity|].
          eapply gbind_run with (evs := []); [exact E3|].
          rewrite Br. reflexivity. }
        split; [rewrite H7, <- app_assoc; reflexivity|]. split.
        { exact H5. }
        split; [rewrite app_nil_r; exact H6|].
        intros v' H. injection H as <-. rewrite app_nil_r. exact H3.
      * destruct (IH v1 st4) as (evs5 & r5 & st5 & added5 & E5 & K1 & K2 & K3 & K4).
        exists (evs1 ++ evs5), r5, st5,
               ((AssistantMessage (fm_content response) :: more) ++ added5).
        split.
        { eapply gbind_run with (evs := []); [exact C|]. cbv beta. rewrite En.
          eapply gbind_run; [exact E1|].
          eapply gbind_run with (evs := []); [reflexivity|].
          eapply gbind_run with (evs := []); [exact E3|].
          rewrite Br. exact E5. }
        split; [rewrite K1, H7, <- !app_assoc; reflexivity|]. split.
        { rewrite count_messages_app, K2. cbn [app]. rewrite Nat.add_0_r. exact H5. }
        split.
        { rewrite results_of_history_app, results_of_events_app, K3. f_equal. exact H6. }
        intros v' H. rewrite (K4 v' H), H3, text_of_app, app_assoc. reflexivity.
Qed.

Lemma chat_run (userMessage : str) (st : state B) :
  chat rpc config model parseResponse parseText userMessage st =
  let '(evs, r, st') :=
    chat_rounds rpc config model parseResponse parseText (Z.to_nat (maxIterations_ config))
      {| fullResponse := []; reasoning_ := []; sql_ := JStr [];
         data_ := None; chartSuggestion_ := None; insights_ := None;
         hasToolUse_ := false; toolResults := [] |}
      {| conversationHistory := conversationHistory st ++ [UserMessage userMessage];
         modelCalls := modelCalls st; w := w st |} in
  match r with
  | Ok v => (evs ++ [done_event],
             Ok {| am_content := fullResponse v;
                   am_reasoning := reasoning_ v;
                   am_sql := or_else (sql_ v) JUndefined;
                   am_data := data_ v;
                   am_chartSuggestion := chartSuggestion_ v;
                   am_insights := insights_ v |}, st')
  | Throw e => (evs, Throw e, st')
  | Hang => (evs, Hang, st')
  end.
Proof.
  unfold chat, gbind, push, yield, gret.
  destruct (chat_rounds _ _ _ _ _ _ _ _) as [[evs r] st']. destruct r; reflexivity.
Qed.

End WithAnalyst.

(** X25.  A turn of [chat], the variant without streaming.  It ends, after at
    most [maxIterations] requests to the model.  When it returns, [done] is
    the last event and the only one of its kind, and the content of the
    answer is the text of the text events, in their order; when a request
    fails it throws that failure, without a [done] event; with a model that
    never fails it returns.  The history gets the user message and, after
    it, no other user message; the tool results it records are those of the
    tool-result events, in their order. *)
Theorem chat_turn (B : Type) (rpc : str -> B -> rpc_response * B)
  (config : AnalystConfig) (model : list message -> model_reply)
  (parseResponse : str -> Parsed) (parseText : str -> ParsedText)
  (userMessage : str) (st : state B) :
  let out := chat rpc config model parseResponse parseText userMessage st in
  let evs := fst (fst out) in
  let r := snd (fst out) in
  let st' := snd out in
  r <> Hang /\
  modelCalls st' <= modelCalls st + Z.to_nat (maxIterations_ config) /\
  (forall answer, r = Ok answer ->
     (exists evs0, evs = evs0 ++ [done_event] /\ count_type done evs0 = 0) /\
     count_type error evs = 0 /\
     am_content answer = text_of evs) /\
  (forall e, r = Throw e ->
     (exists h, ending (model h) = inl e) /\
     count_type done evs = 0 /\ count_type error evs = 0) /\
  (model_fine model -> exists answer, r = Ok answer) /\
  exists added,
    conversationHistory st' = conversationHistory st ++ UserMessage userMessage :: added /\
    count_messages is_user added = 0 /\
    results_of_history added = results_of_events evs.
Proof.
  intros out evs r st'. subst out evs r st'. rewrite chat_run.
  set (v0 := {| fullResponse := []; reasoning_ := []; sql_ := JStr [];
                data_ := None; chartSuggestion_ := None; insights_ := None;
                hasToolUse_ := false; toolResults := [] |}).
  set (st0 := {| conversationHistory := conversationHistory st ++ [UserMessage userMessage];
                 modelCalls := modelCalls st; w := w st |}).
  destruct (behaves_chat_rounds B rpc config model parseResponse parseText
              (Z.to_nat (maxIterations_ config)) v0 st0)
    as (evs & r & st' & E & Q & L1 & L2 & Hr & Hf).
  destruct (chat_rounds_tracks B rpc config model parseResponse parseText
              (Z.to_nat (maxIterations_ config)) v0 st0)
    as (evs' & r' & st'' & added & E' & K1 & K2 & K3 & K4).
  rewrite E in E'. injection E' as <- <- <-.
  rewrite E. cbn [modelCalls conversationHistory st0] in L1, L2, K1.
  rewrite <- app_assoc in K1. cbn [app] in K1.
  destruct r as [v|e|].
  - cbn [fst snd]. split; [discriminate|]. split; [exact L2|].
    split; [|split; [discriminate|split; [eauto|]]].
    + intros answer H. injection H as <-. cbn [am_content].
      split; [exists evs; split; [reflexivity | apply quiet_count; auto]|].
      split.
      { rewrite count_type_app, (quiet_count _ evs Q) by auto. reflexivity. }
      rewrite text_of_app, (K4 v eq_refl). cbn. rewrite app_nil_r. reflexivity.
    + exists added. split; [exact K1|]. split; [exact K2|].
      rewrite results_of_events_app, K3. cbn. rewrite app_nil_r. reflexivity.
  - cbn [fst snd]. split; [discriminate|]. split; [exact L2|].
    split; [discriminate|]. split; [|split].
    + intros e' He. injection He as <-. split.
      * destruct Hr as [(a & Ha)|(e' & h & He & Hh)]; [discriminate|].
        injection He as <-. eauto.
      * rewrite !(quiet_count _ evs Q) by auto. auto.
    + intros Hfine. destruct (Hf Hfine) as (a & Ha). discriminate.
    + exists added. auto.
  - exfalso. destruct Hr as [(a & Ha)|(e' & h & He & _)]; discriminate.
Qed.

End WithUnicode.

End ChatFacts.
